(** * Galaxy XML macro preprocessor: [lib/galaxy/util/xml_macros.py]

    A shallow embedding of the macro and token expansion engine, and the
    properties of it that the design document states.

    Conventions of the embedding.
    - A Python [str] is a [string], the sequence of the bytes of its
      UTF-8 encoding; [None]-or-[str] is [option string].  Searching,
      replacing a non-empty string, splitting and joining are the same on
      the bytes as on the code points; [PyStr.interleave] and
      [str.upper] are where the code points matter.
    - [str.upper] follows the Unicode tables of the interpreter, which
      are not part of this development: it is the field [str_upper] of
      the class [Interpreter], of which only its value on strings of
      ASCII characters is fixed.  Statements about all documents are
      made for every interpreter; the instance [ascii_interpreter] is
      for running examples.
    - The name of an attribute is a string in the notation of lxml, with
      the namespace, if there is one, in braces before the local name.
    - A Python [dict] is an association list in insertion order with
      pairwise distinct keys ([dict_wf]); assigning to a present key
      rewrites the entry where it stands, assigning to an absent key
      appends.
    - An lxml element is a node of a labelled tree: the label [eid] is
      the identity of the Python object, [tail] is the text that follows
      the element inside its parent and travels with it on [remove],
      [insert] and [deepcopy].
    - The heap is a forest of such trees: the documents and the detached
      fragments.  A Python variable bound to an element holds its [eid].
    - A raised exception is [Raise e]; a computation that is cut because
      its recursion budget is spent is [OutOfFuel]; [Dangling] is the use
      of an identity that names no object, which no Python program can
      do and which keeps the heap operations total. *)

From Stdlib Require Import String Ascii List Bool Arith Lia Permutation.
Import ListNotations.
Local Open Scope string_scope.
Local Open Scope nat_scope.
Local Open Scope list_scope.
Set Warnings "-register-all".

Set Implicit Arguments.

(* ================================================================== *)
(** * Python strings *)
(* ================================================================== *)

Module PyStr.

(** [s.startswith(p)] *)
Fixpoint startswith (p s : string) : bool :=
  match p, s with
  | EmptyString, _ => true
  | String _ _, EmptyString => false
  | String a p', String b s' => Ascii.eqb a b && startswith p' s'
  end.

(** [sub in s] *)
Fixpoint contains (sub s : string) : bool :=
  startswith sub s ||
  match s with
  | EmptyString => false
  | String _ s' => contains sub s'
  end.

(** [s.replace(old, new)] for a non-empty [old]: the occurrences are
    taken leftmost first and do not overlap; [skip] counts the characters
    of the occurrence just replaced that are still to be dropped. *)
Fixpoint replace_from (old new : string) (skip : nat) (s : string) : string :=
  match s with
  | EmptyString => EmptyString
  | String c s' =>
      match skip with
      | S k => replace_from old new k s'
      | O =>
          if startswith old s
          then (new ++ replace_from old new (String.length old - 1) s')%string
          else String c (replace_from old new 0 s')
      end
  end.

(** A byte that continues the encoding of a code point: [10xxxxxx]. *)
Definition is_continuation (c : ascii) : bool :=
  let n := nat_of_ascii c in ((128 <=? n) && (n <? 192))%nat.

(** [s.replace("", new)]: [new] goes before every code point and at the
    end; a byte that continues a code point stays with the bytes before
    it. *)
Fixpoint interleave (new s : string) : string :=
  match s with
  | EmptyString => new
  | String c s' =>
      if is_continuation c then String c (interleave new s')
      else (new ++ String c (interleave new s'))%string
  end.

(** [s.replace(old, new)] *)
Definition replace (s old new : string) : string :=
  match old with
  | EmptyString => interleave new s
  | String _ _ => replace_from old new 0 s
  end.

(** The string has ASCII characters only. *)
Fixpoint is_ascii (s : string) : bool :=
  match s with
  | EmptyString => true
  | String c s' => (nat_of_ascii c <? 128)%nat && is_ascii s'
  end.

(** [c.upper()] for an ASCII character. *)
Definition upper_ascii (c : ascii) : ascii :=
  let n := nat_of_ascii c in
  if ((97 <=? n) && (n <=? 122))%nat then ascii_of_nat (n - 32) else c.

(** [s.upper()] for a string of ASCII characters: what [str.upper] does
    elsewhere is the interpreter's, see [Interpreter]. *)
Fixpoint ascii_upper (s : string) : string :=
  match s with
  | EmptyString => EmptyString
  | String c s' => String (upper_ascii c) (ascii_upper s')
  end.

(** [s.split(sep)] for a one-character separator: [acc] is the field
    being read, reversed. *)
Fixpoint split_from (sep : ascii) (acc : string) (s : string) : list string :=
  match s with
  | EmptyString => [acc]
  | String c s' =>
      if Ascii.eqb c sep
      then acc :: split_from sep EmptyString s'
      else split_from sep (acc ++ String c EmptyString)%string s'
  end.

Definition split (s : string) (sep : ascii) : list string :=
  split_from sep EmptyString s.

(** [s[n:]] *)
Fixpoint drop (n : nat) (s : string) : string :=
  match n, s with
  | O, _ => s
  | S _, EmptyString => EmptyString
  | S k, String _ s' => drop k s'
  end.

(** [sep.join(l)] *)
Fixpoint join (sep : string) (l : list string) : string :=
  match l with
  | [] => EmptyString
  | [x] => x
  | x :: rest => (x ++ sep ++ join sep rest)%string
  end.

End PyStr.

(** What the development uses of the Python interpreter beyond the
    operations above: [str.upper], which maps a string of ASCII
    characters as [PyStr.ascii_upper] does and any other string according
    to the Unicode tables. *)
Class Interpreter : Type := {
  str_upper : string -> string;
  str_upper_ascii :
    forall s, PyStr.is_ascii s = true -> str_upper s = PyStr.ascii_upper s
}.

(** An interpreter to run examples with: its [upper] leaves every
    character other than the ASCII letters as it is. *)
#[global] Instance ascii_interpreter : Interpreter :=
  {| str_upper := PyStr.ascii_upper;
     str_upper_ascii := fun _ _ => eq_refl |}.

(* ================================================================== *)
(** * Exceptions and results *)
(* ================================================================== *)

Inductive exn : Type :=
| Exception (msg : string)
| AssertionError (msg : string)
| ValueError (msg : string)
| TypeError
| AttributeError
| IOError (path : string).

Inductive result (A : Type) : Type :=
| Return (a : A)
| Raise (e : exn)
| OutOfFuel
| Dangling.

Arguments Return {A} a.
Arguments Raise {A} e.
Arguments OutOfFuel {A}.
Arguments Dangling {A}.

Definition bind {A B} (m : result A) (k : A -> result B) : result B :=
  match m with
  | Return a => k a
  | Raise e => Raise e
  | OutOfFuel => OutOfFuel
  | Dangling => Dangling
  end.

Declare Scope py_scope.
Delimit Scope py_scope with py.
Notation "x <- m ;; k" := (bind m (fun x => k))
  (at level 61, m at next level, right associativity) : py_scope.
Notation "' p <- m ;; k" := (bind m (fun x => match x with p => k end))
  (at level 61, p pattern, m at next level, right associativity) : py_scope.
Local Open Scope py_scope.

(* ================================================================== *)
(** * Python dictionaries *)
(* ================================================================== *)

Section Dict.
Variables K V : Type.
Variable eqb : K -> K -> bool.

Definition dict := list (K * V).

Fixpoint dict_get (d : dict) (k : K) : option V :=
  match d with
  | [] => None
  | (k', v) :: d' => if eqb k' k then Some v else dict_get d' k
  end.

(** [d[k] = v] *)
Fixpoint dict_set (d : dict) (k : K) (v : V) : dict :=
  match d with
  | [] => [(k, v)]
  | (k', v') :: d' =>
      if eqb k' k then (k', v) :: d' else (k', v') :: dict_set d' k v
  end.

(** [dict(pairs)] *)
Definition dict_of_list (pairs : list (K * V)) : dict :=
  fold_left (fun d kv => dict_set d (fst kv) (snd kv)) pairs [].

Definition dict_keys (d : dict) : list K := map fst d.

Definition dict_wf (d : dict) : Prop := NoDup (dict_keys d).
End Dict.

(** Keys that come from [el.get("name")] are [None] or a [str]. *)
Definition name_eqb (a b : option string) : bool :=
  match a, b with
  | None, None => true
  | Some x, Some y => String.eqb x y
  | _, _ => false
  end.

(** A token table: placeholder to replacement. *)
Definition token_table := dict (option string) string.

Definition tokens_get (t : token_table) k := dict_get name_eqb t k.
Definition tokens_set (t : token_table) k v : token_table := dict_set name_eqb t k v.

(* ================================================================== *)
(** * Token expansion on strings and tables *)
(* ================================================================== *)

(** The body of the inner loop of [expand_nested_tokens], for the outer
    [token_name] and the entry [current_token_name].  [tokens.items()] is a
    live view: the value of an entry is read when the iteration reaches it.
    [None in value] raises [TypeError]. *)
Definition nested_step (token_name current_token_name : option string)
    (tokens : token_table) : token_table * result unit :=
  match tokens_get tokens current_token_name with
  | None => (tokens, Return tt)
  | Some current_token_value =>
      match token_name with
      | None => (tokens, Raise TypeError)
      | Some name =>
          if PyStr.contains name current_token_value then
            if name_eqb token_name current_token_name then
              (tokens, Raise (Exception ("Token '" ++ name ++ "' cannot contain itself")%string))
            else
              match tokens_get tokens token_name with
              | None => (tokens, Return tt)
              | Some v =>
                  (tokens_set tokens current_token_name
                     (PyStr.replace current_token_value name v), Return tt)
              end
          else (tokens, Return tt)
      end
  end.

(** [for current_token_name, current_token_value in tokens.items()]; the
    key set does not change while the table is rewritten, so the entries
    still to visit are given by their keys. *)
Fixpoint nested_inner (token_name : option string) (todo : list (option string))
    (tokens : token_table) : token_table * result unit :=
  match todo with
  | [] => (tokens, Return tt)
  | current_token_name :: rest =>
      match nested_step token_name current_token_name tokens with
      | (tokens', Return _) => nested_inner token_name rest tokens'
      | stop => stop
      end
  end.

(** [for token_name in tokens.keys()] *)
Fixpoint nested_outer (todo : list (option string)) (tokens : token_table)
    : token_table * result unit :=
  match todo with
  | [] => (tokens, Return tt)
  | token_name :: rest =>
      match nested_inner token_name (dict_keys tokens) tokens with
      | (tokens', Return _) => nested_outer rest tokens'
      | stop => stop
      end
  end.

(** [expand_nested_tokens(tokens)]: the table is rewritten in place, so the
    caller's table is the first component whether the call returns or
    raises; the second component is the returned table or the exception. *)
Definition expand_nested_tokens (tokens : token_table)
    : token_table * result token_table :=
  match nested_outer (dict_keys tokens) tokens with
  | (tokens', Return _) => (tokens', Return tokens')
  | (tokens', Raise e) => (tokens', Raise e)
  | (tokens', OutOfFuel) => (tokens', OutOfFuel)
  | (tokens', Dangling) => (tokens', Dangling)
  end.

(** [_expand_tokens_str(s, tokens)] *)
Fixpoint _expand_tokens_str (s : string) (tokens : token_table) : result string :=
  match tokens with
  | [] => Return s
  | (None, _) :: _ => Raise TypeError
  | (Some key, value) :: rest =>
      if PyStr.contains key s
      then _expand_tokens_str (PyStr.replace s key value) rest
      else _expand_tokens_str s rest
  end.

(* ================================================================== *)
(** * os.path (POSIX) *)
(* ================================================================== *)

Module OsPath.

(** [p[:p.rfind('/') + 1]] and the rest: [cur] is the part read since the
    last slash. *)
Fixpoint split_last_slash (head cur p : string) : string * string :=
  match p with
  | EmptyString => (head, cur)
  | String c p' =>
      if Ascii.eqb c "/"
      then split_last_slash (head ++ cur ++ "/")%string EmptyString p'
      else split_last_slash head (cur ++ String c EmptyString)%string p'
  end.

Fixpoint all_slashes (s : string) : bool :=
  match s with
  | EmptyString => true
  | String c s' => Ascii.eqb c "/" && all_slashes s'
  end.

(** [s.rstrip('/')] *)
Fixpoint rstrip_slash (s : string) : string :=
  match s with
  | EmptyString => EmptyString
  | String c s' => if all_slashes s then EmptyString else String c (rstrip_slash s')
  end.

(** [os.path.dirname(p)] *)
Definition dirname (p : string) : string :=
  let head := fst (split_last_slash EmptyString EmptyString p) in
  if all_slashes head then head else rstrip_slash head.

Fixpoint endswith_slash (s : string) : bool :=
  match s with
  | EmptyString => false
  | String c EmptyString => Ascii.eqb c "/"
  | String _ s' => endswith_slash s'
  end.

(** [os.path.join(a, b)] *)
Definition join (a b : string) : string :=
  if PyStr.startswith "/" b then b
  else if (String.length a =? 0)%nat || endswith_slash a then (a ++ b)%string
  else (a ++ "/" ++ b)%string.

End OsPath.

(* ================================================================== *)
(** * Elements *)
(* ================================================================== *)

(** An lxml element.  [eid] is the identity of the object; [tail] is the
    text between the end of the element and its next sibling. *)
Inductive _Element : Type :=
  Element (eid : nat) (tag : string) (attrib : dict string string)
          (text : option string) (tail : option string)
          (children : list _Element).

Definition eid (e : _Element) : nat := let (i, _, _, _, _, _) := e in i.
Definition tag (e : _Element) : string := let (_, t, _, _, _, _) := e in t.
Definition attrib (e : _Element) : dict string string := let (_, _, a, _, _, _) := e in a.
Definition text (e : _Element) : option string := let (_, _, _, t, _, _) := e in t.
Definition tail (e : _Element) : option string := let (_, _, _, _, t, _) := e in t.
Definition children (e : _Element) : list _Element := let (_, _, _, _, _, c) := e in c.

Definition set_tag (v : string) (e : _Element) : _Element :=
  Element (eid e) v (attrib e) (text e) (tail e) (children e).
Definition set_text (v : option string) (e : _Element) : _Element :=
  Element (eid e) (tag e) (attrib e) v (tail e) (children e).
Definition set_children (cs : list _Element) (e : _Element) : _Element :=
  Element (eid e) (tag e) (attrib e) (text e) (tail e) cs.
(** [el.attrib[k] = v] *)
Definition set_attrib (k v : string) (e : _Element) : _Element :=
  Element (eid e) (tag e) (dict_set String.eqb (attrib e) k v) (text e) (tail e)
          (children e).

(** [el.get(k)] for a name [k] that is written in the program. *)
Definition get_attr (e : _Element) (k : string) : option string :=
  dict_get String.eqb (attrib e) k.

(** The part of a string before its first closing brace, and the part
    after it. *)
Fixpoint split_brace (s : string) : option (string * string) :=
  match s with
  | EmptyString => None
  | String c s' =>
      if Ascii.eqb c "}" then Some (EmptyString, s')
      else match split_brace s' with
           | Some (ns, local) => Some (String c ns, local)
           | None => None
           end
  end.

(** How lxml reads a name that it is given: [{namespace}local], with
    nothing or an empty pair of braces for no namespace.  The result is
    the name under which the attribute is kept. *)
Definition clark_name (key : string) : result string :=
  match key with
  | EmptyString => Raise (ValueError "Empty tag name")
  | String c rest =>
      if Ascii.eqb c "{" then
        match split_brace rest with
        | None => Raise (ValueError "Invalid tag name")
        | Some (ns, local) =>
            match local, ns with
            | EmptyString, _ => Raise (ValueError "Empty tag name")
            | _, EmptyString => Return local
            | _, _ => Return key
            end
        end
      else Return key
  end.

(** [el.attrib.get(key)] for a [key] that is data. *)
Definition attrib_get (e : _Element) (key : string) : result (option string) :=
  (name <- clark_name key ;; Return (get_attr e name))%py.

(** [el.get('type') == t] *)
Definition type_is (t : string) (e : _Element) : bool :=
  match get_attr e "type" with
  | Some v => String.eqb v t
  | None => false
  end.

(** The nodes of a subtree, in document order. *)
Fixpoint nodes (e : _Element) : list _Element :=
  match e with
  | Element _ _ _ _ _ cs => e :: flat_map nodes cs
  end.

Definition descendants (e : _Element) : list _Element := flat_map nodes (children e).

Definition ids (e : _Element) : list nat := map eid (nodes e).

Definition has_tag (t : string) (e : _Element) : bool := String.eqb (tag e) t.

(** [el.find(t)]: the first child with that tag. *)
Definition find_child (t : string) (e : _Element) : option _Element :=
  find (has_tag t) (children e).

(** [el.findall(t)]: the children with that tag. *)
Definition findall_children (t : string) (e : _Element) : list _Element :=
  filter (has_tag t) (children e).

(** [el.find('.//' + t)]: the first descendant with that tag. *)
Definition find_descendant (t : string) (e : _Element) : option _Element :=
  find (has_tag t) (descendants e).

(** [el.findall('.//' + t)]: the descendants with that tag. *)
Definition findall_descendants (t : string) (e : _Element) : list _Element :=
  filter (has_tag t) (descendants e).

(** [root.xpath('//' + t)]: the elements of the document with that tag. *)
Definition xpath_all (t : string) (root : _Element) : list _Element :=
  filter (has_tag t) (nodes root).

(** The tree without the identities of its nodes: what a serialisation
    shows. *)
Fixpoint erase (e : _Element) : _Element :=
  match e with
  | Element _ tg at_ tx tl cs => Element 0 tg at_ tx tl (map erase cs)
  end.

(** [deepcopy]: the copy of the subtree, its nodes numbered from [n] in
    document order; the second component is the next free identity. *)
Fixpoint relabel (e : _Element) (n : nat) : _Element * nat :=
  match e with
  | Element _ tg at_ tx tl cs =>
      let fix relabel_list (l : list _Element) (k : nat) : list _Element * nat :=
        match l with
        | [] => ([], k)
        | c :: l' =>
            let (c', k1) := relabel c k in
            let (l'', k2) := relabel_list l' k1 in
            (c' :: l'', k2)
        end in
      let (cs', n') := relabel_list cs (S n) in
      (Element n tg at_ tx tl cs', n')
  end.

(* ================================================================== *)
(** * The heap *)
(* ================================================================== *)

(** The trees that have no parent: the documents, the fresh copies and the
    fragments that were removed from their parent. *)
Definition forest := list _Element.

Definition forest_nodes (f : forest) : list _Element := flat_map nodes f.
Definition forest_ids (f : forest) : list nat := map eid (forest_nodes f).

(** The element with identity [i]. *)
Definition lookup (f : forest) (i : nat) : option _Element :=
  find (fun e => eid e =? i) (forest_nodes f).

Definition is_child (i : nat) (p : _Element) : bool :=
  existsb (fun c => eid c =? i) (children p).

(** [el.getparent()], [el.find('..')] *)
Definition parent_of (f : forest) (i : nat) : option _Element :=
  find (is_child i) (forest_nodes f).

(** Rewrite the element with identity [i] by [g]. *)
Fixpoint modify (i : nat) (g : _Element -> _Element) (e : _Element) : _Element :=
  if eid e =? i then g e
  else match e with
       | Element j tg at_ tx tl cs => Element j tg at_ tx tl (map (modify i g) cs)
       end.

(** Take the element with identity [i] out of the child list it is in. *)
Fixpoint prune (i : nat) (e : _Element) : _Element :=
  match e with
  | Element j tg at_ tx tl cs =>
      let fix prune_list (l : list _Element) : list _Element :=
        match l with
        | [] => []
        | c :: l' => if eid c =? i then prune_list l' else prune i c :: prune_list l'
        end in
      Element j tg at_ tx tl (prune_list cs)
  end.

Fixpoint prune_list (i : nat) (l : list _Element) : list _Element :=
  match l with
  | [] => []
  | c :: l' => if eid c =? i then prune_list i l' else prune i c :: prune_list i l'
  end.

Definition forest_modify (i : nat) (g : _Element -> _Element) (f : forest) : forest :=
  map (modify i g) f.

(** Take [i] out of the forest altogether, as a root or as a child. *)
Definition forest_prune (i : nat) (f : forest) : forest := prune_list i f.

(** [l.insert(idx, x)] on a Python list. *)
Definition list_insert {A} (idx : nat) (x : A) (l : list A) : list A :=
  firstn idx l ++ x :: skipn idx l.

(** The position of the first element with identity [i]. *)
Fixpoint index_of (i : nat) (l : list _Element) : option nat :=
  match l with
  | [] => None
  | c :: l' => if eid c =? i then Some 0
               else option_map S (index_of i l')
  end.

Record heap : Type := Heap { trees : forest; next_id : nat }.

(** Every object is one node of the forest, and the identities still to
    be given out are unused. *)
Definition heap_wf (h : heap) : Prop :=
  NoDup (forest_ids (trees h)) /\
  Forall (fun i => i < next_id h) (forest_ids (trees h)).

(* ================================================================== *)
(** * Token expansion on trees *)
(* ================================================================== *)

Section MapResult.
Variables A B : Type.
Variable f : A -> result B.

Fixpoint map_result (l : list A) : result (list B) :=
  match l with
  | [] => Return []
  | x :: l' => y <- f x ;; ys <- map_result l' ;; Return (y :: ys)
  end.
End MapResult.

(** The loop over [element.attrib.items()] of [_expand_tokens_for_el]:
    every value is rewritten where it stands. *)
Definition expand_tokens_attrib (attrib : dict string string) (tokens : token_table)
    : result (dict string string) :=
  map_result (fun kv : string * string =>
                new_value <- _expand_tokens_str (snd kv) tokens ;;
                Return (fst kv, new_value)) attrib.

Definition is_empty {A} (l : list A) : bool :=
  match l with [] => true | _ => false end.

(** [_expand_tokens_for_el(element, tokens)].  The procedure rewrites the
    subtree of its argument in place and touches nothing else: it is
    embedded as the function from the subtree to the rewritten subtree,
    which the caller stores back ([in_place]).  [_expand_tokens] is the
    inner [expand_list]. *)
Fixpoint _expand_tokens_for_el (element : _Element) (tokens : token_table)
    : result _Element :=
  match element with
  | Element i tg at_ tx tl cs =>
      new_text <-
        match tx with
        | None => Return tx
        | Some EmptyString => Return tx
        | Some value => new_value <- _expand_tokens_str value tokens ;;
                        Return (Some new_value)
        end ;;
      new_attrib <- expand_tokens_attrib at_ tokens ;;
      new_children <-
        (if is_empty tokens then Return cs
         else
           (fix expand_list (l : list _Element) : result (list _Element) :=
              match l with
              | [] => Return []
              | c :: l' =>
                  c' <- _expand_tokens_for_el c tokens ;;
                  l'' <- expand_list l' ;;
                  Return (c' :: l'')
              end) cs) ;;
      Return (Element i tg new_attrib new_text tl new_children)
  end.

(** [_expand_tokens(elements, tokens)] on the elements of a list or on
    the children of an element. *)
Definition _expand_tokens (elements : list _Element) (tokens : token_table)
    : result (list _Element) :=
  if is_empty tokens then Return elements
  else map_result (fun element => _expand_tokens_for_el element tokens) elements.

(* ================================================================== *)
(** * Macro definitions *)
(* ================================================================== *)

(** The default of a parameter: the marker [REQUIRED_PARAMETER] or a
    string. *)
Inductive param_default : Type :=
| REQUIRED_PARAMETER
| Default (v : string).

(** [class XmlMacroDef]: the element of the macro, by reference, and the
    parameter table, name to (quote, default). *)
Module XmlMacroDef.

Record t : Type := {
  element : nat;
  parameters : dict string (string * param_default)
}.

(** The list [tokens] that [__init__] collects from the attributes. *)
Fixpoint collect_tokens (items : list (string * string))
    : list (string * param_default) :=
  match items with
  | [] => []
  | (key, value) :: rest =>
      if String.eqb key "tokens" then
        map (fun token => (token, REQUIRED_PARAMETER)) (PyStr.split value ",")
        ++ collect_tokens rest
      else if PyStr.startswith "token_" key then
        (PyStr.drop (String.length "token_") key, Default value)
        :: collect_tokens rest
      else collect_tokens rest
  end.

(** [XmlMacroDef.__init__(self, el)] *)
Definition __init__ (el : _Element) : t :=
  let token_quote :=
    match get_attr el "token_quote" with Some q => q | None => "@" end in
  let tokens := collect_tokens (attrib el) in
  {| element := eid el;
     parameters :=
       fold_left (fun parameters nd =>
                    dict_set String.eqb parameters (fst nd) (token_quote, snd nd))
                 tokens [] |}.

(** The loop of [XmlMacroDef.macro_tokens]. *)
Fixpoint macro_tokens_loop {py : Interpreter}
    (items : list (string * (string * param_default)))
    (expand_el : _Element) (tokens : token_table) : result token_table :=
  match items with
  | [] => Return tokens
  | (key, (wrap_char, default_val)) :: rest =>
      (supplied <- attrib_get expand_el key ;;
       let token_value :=
         match supplied with
         | Some v => Default v
         | None => default_val
         end in
       match token_value with
       | REQUIRED_PARAMETER =>
           Raise (ValueError ("Failed to expand macro - missing required parameter ["
                              ++ key ++ "].")%string)
       | Default v =>
           let token_name := (wrap_char ++ str_upper key ++ wrap_char)%string in
           macro_tokens_loop rest expand_el (tokens_set tokens (Some token_name) v)
       end)%py
  end.

(** [XmlMacroDef.macro_tokens(self, expand_el)] *)
Definition macro_tokens {py : Interpreter} (self : t) (expand_el : _Element)
    : result token_table :=
  macro_tokens_loop (parameters self) expand_el [].

End XmlMacroDef.

(* ================================================================== *)
(** * The macro catalog *)
(* ================================================================== *)

(** [_macros_el(root)] *)
Definition _macros_el (root : _Element) : option _Element :=
  find_child "macros" root.

(** [_macros_of_type(root, type, el_func)] *)
Definition _macros_of_type {V} (root : _Element) (type : string)
    (el_func : _Element -> V) : dict (option string) V :=
  match find_child "macros" root with
  | None => []
  | Some macros_el =>
      let macro_els := findall_children "macro" macros_el in
      let filtered_els :=
        map (fun macro_el => (get_attr macro_el "name", el_func macro_el))
            (filter (type_is type) macro_els) in
      dict_of_list name_eqb filtered_els
  end.

(** [lambda el: el.text or ''] *)
Definition text_or_empty (el : _Element) : string :=
  match text el with Some s => s | None => "" end.

(** [template_macro_params(root)] *)
Definition template_macro_params (root : _Element) : dict (option string) (option string) :=
  fold_left (fun param_dict kv => dict_set name_eqb param_dict (fst kv) (snd kv))
            (_macros_of_type root "template" text) [].

(** [_imported_macro_paths_from_el(macros_el)] *)
Definition _imported_macro_paths_from_el (macros_el : option _Element)
    : list (option string) :=
  let macro_import_els :=
    match macros_el with
    | Some el => findall_children "import" el
    | None => []
    end in
  map text macro_import_els.

(** [imported_macro_paths(root)] *)
Definition imported_macro_paths (root : _Element) : list (option string) :=
  _imported_macro_paths_from_el (_macros_el root).

(* ================================================================== *)
(** * Computations on the heap *)
(* ================================================================== *)

Definition M (A : Type) : Type := heap -> result (A * heap).

Definition ret {A} (a : A) : M A := fun h => Return (a, h).
Definition raise {A} (e : exn) : M A := fun _ => Raise e.
Definition out_of_fuel {A} : M A := fun _ => OutOfFuel.
Definition lift {A} (r : result A) : M A :=
  fun h => match r with
           | Return a => Return (a, h)
           | Raise e => Raise e
           | OutOfFuel => OutOfFuel
           | Dangling => Dangling
           end.

Definition bindM {A B} (m : M A) (k : A -> M B) : M B :=
  fun h => match m h with
           | Return (a, h') => k a h'
           | Raise e => Raise e
           | OutOfFuel => OutOfFuel
           | Dangling => Dangling
           end.

Declare Scope heap_scope.
Delimit Scope heap_scope with heap.
Notation "x <- m ;; k" := (bindM m (fun x => k))
  (at level 61, m at next level, right associativity) : heap_scope.
Notation "m ;;; k" := (bindM m (fun _ => k))
  (at level 61, right associativity) : heap_scope.
Local Open Scope heap_scope.

(** [for x in l: body(x)] *)
Fixpoint for_each {A} (l : list A) (body : A -> M unit) : M unit :=
  match l with
  | [] => ret tt
  | x :: l' => body x ;;; for_each l' body
  end.

(** Read the object behind a reference. *)
Definition deref (i : nat) : M _Element :=
  fun h => match lookup (trees h) i with
           | Some e => Return (e, h)
           | None => Dangling
           end.

(** [el.getparent()] *)
Definition getparent (i : nat) : M (option nat) :=
  fun h => Return (option_map eid (parent_of (trees h) i), h).

(** Rewrite the object behind a reference. *)
Definition update (i : nat) (g : _Element -> _Element) : M unit :=
  fun h => Return (tt, Heap (forest_modify i g (trees h)) (next_id h)).

(** Run in place a procedure that rewrites the subtree of its argument. *)
Definition in_place (i : nat) (proc : _Element -> result _Element) : M unit :=
  e <- deref i ;;
  e' <- lift (proc e) ;;
  update i (fun _ => e').

(** [deepcopy(el)]: a new tree of new objects, with no parent. *)
Definition deepcopy (i : nat) : M nat :=
  fun h => match lookup (trees h) i with
           | None => Dangling
           | Some e =>
               let (e', n) := relabel e (next_id h) in
               Return (eid e', Heap (trees h ++ [e']) n)
           end.

(** [parent.remove(child)]: the child leaves with its subtree and its
    tail, and has no parent any more. *)
Definition el_remove (parent child : nat) : M unit :=
  p <- deref parent ;;
  if is_child child p then
    c <- deref child ;;
    fun h => Return (tt, Heap (forest_prune child (trees h) ++ [c]) (next_id h))
  else raise (ValueError "Element is not a child of this node.").

(** [parent.insert(index, child)]: the child moves, with its subtree and
    its tail, from where it is to the given position. *)
Definition el_insert (parent index child : nat) : M unit :=
  c <- deref child ;;
  fun h =>
    Return (tt, Heap (forest_modify parent
                        (fun p => set_children (list_insert index c (children p)) p)
                        (forest_prune child (trees h)))
                     (next_id h)).

(** The loop [for target in targets] of [_xml_replace]. *)
Fixpoint insert_copies (parent_el current_index : nat) (targets : list nat) : M unit :=
  match targets with
  | [] => ret tt
  | target :: rest =>
      let current_index := current_index + 1 in
      copy <- deepcopy target ;;
      el_insert parent_el current_index copy ;;;
      insert_copies parent_el current_index rest
  end.

(** [_xml_replace(query, targets)] *)
Definition _xml_replace (query : nat) (targets : list nat) : M unit :=
  parent_el <- (fun h => Return (parent_of (trees h) query, h)) ;;
  match parent_el with
  | None => raise TypeError
  | Some parent_el =>
      match index_of query (children parent_el) with
      | None => raise (AssertionError "")
      | Some matching_index =>
          insert_copies (eid parent_el) matching_index targets ;;;
          el_remove (eid parent_el) query
      end
  end.

(** [_expand_yield_statements(macro_def, expand_el)] *)
Definition _expand_yield_statements (macro_def expand_el : nat) : M unit :=
  md <- deref macro_def ;;
  let yield_els := map eid (findall_descendants "yield" md) in
  ex <- deref expand_el ;;
  let expand_el_children := map eid (children ex) in
  for_each yield_els (fun yield_el => _xml_replace yield_el expand_el_children).

Definition macro_catalog := dict (option string) XmlMacroDef.t.

(** [', '.join(macros.keys())]: a key that is [None] raises [TypeError]. *)
Fixpoint str_keys (keys : list (option string)) : option (list string) :=
  match keys with
  | [] => Some []
  | None :: _ => None
  | Some k :: rest => option_map (cons k) (str_keys rest)
  end.

Definition no_macro_named (macro_name : string) (known : list string) : string :=
  ("No macro named " ++ macro_name ++ " found, known macros are "
   ++ PyStr.join ", " known ++ ".")%string.

(** [_expand_macro(element, expand_el, macros, tokens)]; [expand_macros] is
    the recursive call of [_expand_macros]. *)
Definition _expand_macro {py : Interpreter}
    (expand_macros : list nat -> macro_catalog -> token_table -> M unit)
    (element expand_el : nat) (macros : macro_catalog) (tokens : token_table)
    : M unit :=
  ex <- deref expand_el ;;
  match get_attr ex "macro" with
  | None => raise (AssertionError
                     "Attempted to expand macro with no 'macro' attribute defined.")
  | Some macro_name =>
      match dict_get name_eqb macros (Some macro_name) with
      | None =>
          match str_keys (dict_keys macros) with
          | Some known => raise (AssertionError (no_macro_named macro_name known))
          | None => raise TypeError
          end
      | Some macro_def =>
          expanded_elements <- deepcopy (XmlMacroDef.element macro_def) ;;
          _expand_yield_statements expanded_elements expand_el ;;;
          copy <- deref expanded_elements ;;
          expand_macros (map eid (children copy)) macros tokens ;;;
          ex <- deref expand_el ;;
          macro_tokens <- lift (XmlMacroDef.macro_tokens macro_def ex) ;;
          (if is_empty macro_tokens then ret tt
           else in_place expanded_elements
                  (fun e => (cs <- _expand_tokens (children e) macro_tokens ;;
                             Return (set_children cs e))%py)) ;;;
          copy <- deref expanded_elements ;;
          _xml_replace expand_el (map eid (children copy))
      end
  end.

(** The loop [while True] of [_expand_macros] on one element, cut after
    [n] rounds. *)
Fixpoint expand_while {py : Interpreter}
    (expand_macros : list nat -> macro_catalog -> token_table -> M unit)
    (n : nat) (element : nat) (macros : macro_catalog) (tokens : token_table)
    : M unit :=
  match n with
  | O => out_of_fuel
  | S n' =>
      e <- deref element ;;
      match find_descendant "expand" e with
      | None => ret tt
      | Some expand_el =>
          _expand_macro expand_macros element (eid expand_el) macros tokens ;;;
          expand_while expand_macros n' element macros tokens
      end
  end.

(** [_expand_macros(elements, macros, tokens)]; [fuel] bounds the depth of
    the recursion through [_expand_macro] and the rounds of each loop. *)
Fixpoint _expand_macros {py : Interpreter} (fuel : nat) (elements : list nat)
    (macros : macro_catalog) (tokens : token_table) : M unit :=
  match fuel with
  | O => out_of_fuel
  | S fuel' =>
      if is_empty macros && is_empty tokens then ret tt
      else for_each elements
             (fun element =>
                expand_while (_expand_macros fuel') fuel' element macros tokens)
  end.

(* ================================================================== *)
(** * Imports and the entry points *)
(* ================================================================== *)

Section Load.

(** [galaxy.util.parse_xml(path, strip_whitespace=False, remove_comments)]:
    the parser and the file system are outside the module.  [None] is a
    file that cannot be read or parsed.  The identities in the tree it
    returns do not matter: loading gives the nodes new ones. *)
Variable parse_xml : string -> bool -> option _Element.
Context {py : Interpreter}.

(** The objects of a freshly parsed document. *)
Definition parse (path : string) (remove_comments : bool) : M nat :=
  fun h => match parse_xml path remove_comments with
           | None => Raise (IOError path)
           | Some e =>
               let (e', n) := relabel e (next_id h) in
               Return (eid e', Heap (trees h ++ [e']) n)
           end.

(** [raw_xml_tree(path)] *)
Definition raw_xml_tree (path : string) : M nat := parse path true.

(** The first loop of [_load_embedded_macros]. *)
Definition load_attribute_typed (macros_el : option nat) : M (list nat) :=
  match macros_el with
  | None => ret []
  | Some m =>
      me <- deref m ;;
      let macro_els := map eid (findall_children "macro" me) in
      for_each macro_els
        (fun macro =>
           e <- deref macro ;;
           match get_attr e "type" with
           | None => update macro (set_attrib "type" "xml")
           | Some _ => ret tt
           end) ;;;
      ret macro_els
  end.

(** One round of the second loop of [_load_embedded_macros]. *)
Definition load_shortcut (macros_el : option nat) (tag : string) : M (list nat) :=
  match macros_el with
  | None => ret []
  | Some m =>
      me <- deref m ;;
      let macro_els := map eid (findall_children tag me) in
      for_each macro_els
        (fun macro_el =>
           update macro_el (set_attrib "type" tag) ;;;
           update macro_el (set_tag "macro")) ;;;
      ret macro_els
  end.

(** [_load_embedded_macros(macros_el, xml_base_dir)] *)
Definition _load_embedded_macros (macros_el : option nat) (xml_base_dir : string)
    : M (list nat) :=
  macros <- load_attribute_typed macros_el ;;
  templates <- load_shortcut macros_el "template" ;;
  xmls <- load_shortcut macros_el "xml" ;;
  tokens <- load_shortcut macros_el "token" ;;
  ret (macros ++ templates ++ xmls ++ tokens).

(** [_load_macro_file(path, xml_base_dir)]; [load_macros] is the
    recursive call of [_load_macros]. *)
Definition _load_macro_file
    (load_macros : option nat -> string -> M (list nat * list string))
    (path xml_base_dir : string) : M (list nat * list string) :=
  root <- parse path false ;;
  load_macros (Some root) xml_base_dir.

(** The loop of [_load_imported_macros]. *)
Fixpoint load_imported_loop
    (load_macros : option nat -> string -> M (list nat * list string))
    (paths : list (option string)) (xml_base_dir : string)
    (macros : list nat) (macro_paths : list string)
    : M (list nat * list string) :=
  match paths with
  | [] => ret (macros, macro_paths)
  | tool_relative_import_path :: rest =>
      match tool_relative_import_path with
      | None => raise TypeError
      | Some rel =>
          let import_path := OsPath.join xml_base_dir rel in
          let macro_paths := macro_paths ++ [import_path] in
          r <- _load_macro_file load_macros import_path xml_base_dir ;;
          load_imported_loop load_macros rest xml_base_dir
            (macros ++ fst r) (macro_paths ++ snd r)
      end
  end.

(** [_load_imported_macros(macros_el, xml_base_dir)] *)
Definition _load_imported_macros
    (load_macros : option nat -> string -> M (list nat * list string))
    (macros_el : option nat) (xml_base_dir : string)
    : M (list nat * list string) :=
  paths <- match macros_el with
           | None => ret (_imported_macro_paths_from_el None)
           | Some m => me <- deref m ;;
                       ret (_imported_macro_paths_from_el (Some me))
           end ;;
  load_imported_loop load_macros paths xml_base_dir [] [].

(** [_load_macros(macros_el, xml_base_dir)]; [fuel] bounds the depth of
    the chain of imports. *)
Fixpoint _load_macros (fuel : nat) (macros_el : option nat) (xml_base_dir : string)
    : M (list nat * list string) :=
  match fuel with
  | O => out_of_fuel
  | S fuel' =>
      r <- _load_imported_macros (_load_macros fuel') macros_el xml_base_dir ;;
      embedded <- _load_embedded_macros macros_el xml_base_dir ;;
      ret (fst r ++ embedded, snd r)
  end.

(** [_xml_set_children(element, new_children)].  The lxml iterator over
    the children fetches the next sibling before it hands out the
    current one, so that every child is visited and removed. *)
Definition _xml_set_children (element : nat) (new_children : list nat) : M unit :=
  e <- deref element ;;
  for_each (map eid (children e)) (fun old_child => el_remove element old_child) ;;;
  for_each (combine (seq 0 (length new_children)) new_children)
           (fun inew => el_insert element (fst inew) (snd inew)).

(** [_import_macros(root, path)]: without a macro container the
    procedure falls off its end and the result is [None]. *)
Definition _import_macros (fuel : nat) (root : nat) (path : string)
    : M (option (list string)) :=
  let xml_base_dir := OsPath.dirname path in
  r <- deref root ;;
  match _macros_el r with
  | None => ret None
  | Some macros_el =>
      lm <- _load_macros fuel (Some (eid macros_el)) xml_base_dir ;;
      _xml_set_children (eid macros_el) (fst lm) ;;;
      ret (Some (snd lm))
  end.

(** The loop [for el in root.xpath('//macro')] of [load_with_references]. *)
Definition remove_macros (els : list nat) : M unit :=
for_each els
  (fun el =>
     e <- deref el ;;
     if type_is "template" e then ret tt
     else
       parent <- getparent el ;;
       match parent with
       | None => raise AttributeError
       | Some p => el_remove p el
       end).

(** [load_with_references(path)]: the root of the tree and the paths. *)
Definition load_with_references (fuel : nat) (path : string)
    : M (nat * option (list string)) :=
  root <- raw_xml_tree path ;;
  macro_paths <- _import_macros fuel root path ;;
  r <- deref root ;;
  let tokens := _macros_of_type r "token" text_or_empty in
  tokens <- lift (snd (expand_nested_tokens tokens)) ;;
  r <- deref root ;;
  let macro_dict := _macros_of_type r "xml" XmlMacroDef.__init__ in
  _expand_macros fuel [root] macro_dict tokens ;;;
  r <- deref root ;;
  remove_macros (map eid (xpath_all "macro" r)) ;;;
  in_place root (fun e => _expand_tokens_for_el e tokens) ;;;
  ret (root, macro_paths).

(** [load(path)] *)
Definition load (fuel : nat) (path : string) : M nat :=
  r <- load_with_references fuel path ;;
  ret (fst r).

(** A run from the empty heap. *)
Definition run {A} (m : M A) : result (A * heap) := m (Heap [] 0).

End Load.

(* ================================================================== *)
(** * Specification-side notions *)
(* ================================================================== *)

(** No placeholder of the table occurs in [s]. *)
Definition str_free (tokens : token_table) (s : string) : bool :=
  forallb (fun kv : option string * string =>
             match fst kv with
             | Some key => negb (PyStr.contains key s)
             | None => false
             end) tokens.

(** No placeholder of the table occurs in a text or in an attribute value
    of the tree. *)
Fixpoint placeholder_free (tokens : token_table) (e : _Element) : bool :=
  match e with
  | Element _ _ at_ tx _ cs =>
      match tx with
      | None => true
      | Some EmptyString => true
      | Some s => str_free tokens s
      end
      && forallb (fun kv : string * string => str_free tokens (snd kv)) at_
      && (fix all_free (l : list _Element) : bool :=
            match l with
            | [] => true
            | c :: l' => placeholder_free tokens c && all_free l'
            end) cs
  end.

(** The proviso of the design document on a resolved table: no value
    contains the placeholder of another token. *)
Definition values_resolved (tokens : token_table) : Prop :=
  forall k v k',
    In (k, v) tokens -> In (Some k') (dict_keys tokens) -> k <> Some k' ->
    PyStr.contains k' v = false.

(** The design document's words for [importedMacroPaths]: the text of
    each import declaration among the children of the macro container, in
    declaration order. *)
Fixpoint declared_imports (container_children : list _Element) : list (option string) :=
  match container_children with
  | [] => []
  | c :: rest =>
      if String.eqb (tag c) "import"
      then text c :: declared_imports rest
      else declared_imports rest
  end.

(** The macro container of a document, if it has one. *)
Fixpoint macro_container (root_children : list _Element) : option _Element :=
  match root_children with
  | [] => None
  | c :: rest => if String.eqb (tag c) "macros" then Some c else macro_container rest
  end.

Definition spec_imported_macro_paths (root : _Element) : list (option string) :=
  match macro_container (children root) with
  | Some container => declared_imports (children container)
  | None => []
  end.

(** The tree in which every occurrence of [key] in a text or in an
    attribute value is replaced by [value]. *)
Fixpoint replace_everywhere (key value : string) (e : _Element) : _Element :=
  match e with
  | Element i tg at_ tx tl cs =>
      Element i tg
        (map (fun kv : string * string => (fst kv, PyStr.replace (snd kv) key value)) at_)
        (option_map (fun s => PyStr.replace s key value) tx)
        tl
        (map (replace_everywhere key value) cs)
  end.

(** The value that an expansion gives to the parameter [key]: the
    attribute of the placeholder, or else the default. *)
Definition supplied_or (expand_el : _Element) (key default : string) : string :=
  match get_attr expand_el key with
  | Some v => v
  | None => default
  end.

(** The number of nodes of a tree. *)
Definition size (e : _Element) : nat := length (nodes e).

(** [relabel] on the trees of a list, one after the other. *)
Fixpoint relabel_forest (l : list _Element) (k : nat) : list _Element * nat :=
  match l with
  | [] => ([], k)
  | c :: l' =>
      let (c', k1) := relabel c k in
      let (l'', k2) := relabel_forest l' k1 in
      (c' :: l'', k2)
  end.

(** A computation that keeps the heap well formed and gives out
    identities in increasing order. *)
Definition preserves_wf {A} (m : M A) : Prop :=
  forall h a h',
    heap_wf h -> m h = Return (a, h') ->
    heap_wf h' /\ next_id h <= next_id h'.

(** The tree in which the child with identity [y], wherever it is, gives
    its place to the elements [L]. *)
Fixpoint splice (y : nat) (L : list _Element) (t : _Element) : _Element :=
  match t with
  | Element i tg at_ tx tl cs =>
      Element i tg at_ tx tl
        ((fix splice_children (l : list _Element) : list _Element :=
            match l with
            | [] => []
            | c :: l' =>
                if eid c =? y then L ++ splice_children l'
                else splice y L c :: splice_children l'
            end) cs)
  end.

Fixpoint splice_list (y : nat) (L : list _Element) (l : list _Element)
    : list _Element :=
  match l with
  | [] => []
  | c :: l' =>
      if eid c =? y then L ++ splice_list y L l'
      else splice y L c :: splice_list y L l'
  end.

(** The same for several identities at once: the child [y] of [ys] gives
    its place to [Lf y]. *)
Fixpoint splice_set (ys : list nat) (Lf : nat -> list _Element) (t : _Element)
    : _Element :=
  match t with
  | Element i tg at_ tx tl cs =>
      Element i tg at_ tx tl
        ((fix splice_children (l : list _Element) : list _Element :=
            match l with
            | [] => []
            | c :: l' =>
                if existsb (Nat.eqb (eid c)) ys then Lf (eid c) ++ splice_children l'
                else splice_set ys Lf c :: splice_children l'
            end) cs)
  end.

Fixpoint splice_set_list (ys : list nat) (Lf : nat -> list _Element)
    (l : list _Element) : list _Element :=
  match l with
  | [] => []
  | c :: l' =>
      if existsb (Nat.eqb (eid c)) ys then Lf (eid c) ++ splice_set_list ys Lf l'
      else splice_set ys Lf c :: splice_set_list ys Lf l'
  end.

(** The design document's words for the yield markers: every marker of
    the template gives its place, among its own siblings, to the children
    of the placeholder in their order. *)
Fixpoint splice_yields (placeholder_children : list _Element) (t : _Element)
    : _Element :=
  match t with
  | Element i tg at_ tx tl cs =>
      Element i tg at_ tx tl
        ((fix splice_children (l : list _Element) : list _Element :=
            match l with
            | [] => []
            | c :: l' =>
                if String.eqb (tag c) "yield"
                then placeholder_children ++ splice_children l'
                else splice_yields placeholder_children c :: splice_children l'
            end) cs)
  end.

Fixpoint splice_yields_list (placeholder_children : list _Element)
    (l : list _Element) : list _Element :=
  match l with
  | [] => []
  | c :: l' =>
      if String.eqb (tag c) "yield"
      then placeholder_children ++ splice_yields_list placeholder_children l'
      else splice_yields placeholder_children c
           :: splice_yields_list placeholder_children l'
  end.

(** [l] with the elements [L] put in after position [idx]: the list that
    the loop of [_xml_replace] builds by its successive [insert]s. *)
Definition insert_after {A} (idx : nat) (L l : list A) : list A :=
  firstn (S idx) l ++ L ++ skipn (S idx) l.

(** What the loop of [_xml_replace] does to the children of the parent:
    the copies [L] stand after the element at position [i0]. *)
Definition put_copies (i0 : nat) (L : list _Element) (e : _Element) : _Element :=
  set_children (insert_after i0 L (children e)) e.

(** A computation after which every tree of the forest is still a tree
    of the forest, possibly rewritten. *)
Definition keeps_trees {A} (m : M A) : Prop :=
  forall h a h',
    heap_wf h -> m h = Return (a, h') ->
    forall r, In r (trees h) -> exists r', In r' (trees h') /\ eid r' = eid r.

(** An element tagged [macro] whose type is not [template]: what the last
    loop of [load_with_references] takes out. *)
Definition removable (e : _Element) : bool :=
  has_tag "macro" e && negb (type_is "template" e).

(** The tree without the removable elements and what is below them. *)
Fixpoint strip_macros (t : _Element) : _Element :=
  match t with
  | Element i tg at_ tx tl cs =>
      Element i tg at_ tx tl
        ((fix strip_children (l : list _Element) : list _Element :=
            match l with
            | [] => []
            | c :: l' =>
                if removable c then strip_children l'
                else strip_macros c :: strip_children l'
            end) cs)
  end.

Fixpoint strip_list (l : list _Element) : list _Element :=
  match l with
  | [] => []
  | c :: l' => if removable c then strip_list l' else strip_macros c :: strip_list l'
  end.

(** The tree without the children, at any depth, whose identity is in
    [ids_out]. *)
Fixpoint prune_set (ids_out : list nat) (t : _Element) : _Element :=
  match t with
  | Element i tg at_ tx tl cs =>
      Element i tg at_ tx tl
        ((fix prune_children (l : list _Element) : list _Element :=
            match l with
            | [] => []
            | c :: l' =>
                if existsb (Nat.eqb (eid c)) ids_out then prune_children l'
                else prune_set ids_out c :: prune_children l'
            end) cs)
  end.

Fixpoint prune_set_list (ids_out : list nat) (l : list _Element) : list _Element :=
  match l with
  | [] => []
  | c :: l' =>
      if existsb (Nat.eqb (eid c)) ids_out then prune_set_list ids_out l'
      else prune_set ids_out c :: prune_set_list ids_out l'
  end.

(* ================================================================== *)
(** * Induction on elements *)
(* ================================================================== *)

Section ElementInd.
Variable P : _Element -> Prop.
Hypothesis step :
  forall i tg at_ tx tl cs, Forall P cs -> P (Element i tg at_ tx tl cs).

Fixpoint element_rect' (e : _Element) : P e :=
  match e with
  | Element i tg at_ tx tl cs =>
      step i tg at_ tx tl
        ((fix all (l : list _Element) : Forall P l :=
            match l with
            | [] => Forall_nil P
            | c :: l' => Forall_cons c (element_rect' c) (all l')
            end) cs)
  end.
End ElementInd.

Unset Implicit Arguments.

(* ================================================================== *)
(** * The imports and the container of a document *)
(* ================================================================== *)

(** The forest [F0] is a part of the heap that nothing has touched: what
    has come since has identities from [n0] on. *)
Definition frame (n0 : nat) (F0 : forest) (h : heap) : Prop :=
  n0 <= next_id h /\
  exists extra, trees h = F0 ++ extra /\ Forall (fun x => n0 <= x) (forest_ids extra).

Section TransitiveImports.
Variable parse_xml : string -> bool -> option _Element.

(** The design document's list of import paths: each declared path,
    resolved against the directory of the document, followed by the paths
    that the file at that path imports in its turn, depth first. *)
Fixpoint imports_of_paths (rec : _Element -> option (list string)) (base : string)
    (paths : list (option string)) : option (list string) :=
  match paths with
  | [] => Some []
  | None :: _ => None
  | Some rel :: rest =>
      let import_path := OsPath.join base rel in
      match parse_xml import_path false with
      | None => None
      | Some doc =>
          match rec doc, imports_of_paths rec base rest with
          | Some sub, Some more => Some (import_path :: sub ++ more)
          | _, _ => None
          end
      end
  end.

Fixpoint transitive_imports (fuel : nat) (base : string) (container : _Element)
    : option (list string) :=
  match fuel with
  | O => None
  | S fuel' =>
      imports_of_paths (transitive_imports fuel' base) base
        (declared_imports (children container))
  end.

End TransitiveImports.

(** The document [r0], whose children are [pre0], the container [me0] and
    [post0], with [CS] as the children of the container. *)
Definition canon (r0 me0 : _Element) (pre0 post0 CS : list _Element) : _Element :=
  set_children (pre0 ++ set_children CS me0 :: post0) r0.

(** What the first loop of [_load_embedded_macros] makes of an element
    tagged [macro], and what the second makes of a shortcut. *)
Definition typed (c : _Element) : _Element :=
  match get_attr c "type" with
  | None => set_attrib "type" "xml" c
  | Some _ => c
  end.

Definition shortcut (tg : string) (c : _Element) : _Element :=
  set_tag "macro" (set_attrib "type" tg c).

Definition normalise_step (t : string) (fx : _Element -> _Element) (c : _Element)
    : _Element :=
  if has_tag t c then fx c else c.

(** A child of the container after [_load_embedded_macros]. *)
Definition normalise (c : _Element) : _Element :=
  normalise_step "token" (shortcut "token")
    (normalise_step "xml" (shortcut "xml")
       (normalise_step "template" (shortcut "template")
          (normalise_step "macro" typed c))).

(** The children of the container that define a macro, in the order in
    which [_load_embedded_macros] returns them. *)
Definition embedded (cs : list _Element) : list _Element :=
  filter (has_tag "macro") cs ++ filter (has_tag "template") cs ++
  filter (has_tag "xml") cs ++ filter (has_tag "token") cs.

(** The kind of macro that a child of the container defines, if it
    defines one. *)
Definition kind_of (c : _Element) : option string :=
  if has_tag "macro" c then
    Some (match get_attr c "type" with Some t => t | None => "xml" end)
  else if has_tag "template" c then Some "template"
  else if has_tag "xml" c then Some "xml"
  else if has_tag "token" c then Some "token"
  else None.

(** The statements of [load_with_references] up to the expansion of the
    macros: the root, the import paths and the token table. *)
Definition expand_phase {py : Interpreter}
    (parse_xml : string -> bool -> option _Element)
    (fuel : nat) (path : string)
    : M (nat * option (list string) * token_table) :=
  (root <- raw_xml_tree parse_xml path ;;
   macro_paths <- _import_macros parse_xml fuel root path ;;
   r <- deref root ;;
   let tokens := _macros_of_type r "token" text_or_empty in
   tokens <- lift (snd (expand_nested_tokens tokens)) ;;
   r <- deref root ;;
   let macro_dict := _macros_of_type r "xml" XmlMacroDef.__init__ in
   _expand_macros fuel [root] macro_dict tokens ;;;
   ret (root, macro_paths, tokens))%heap.

(** The second loop of [__init__], with the delimiter [token_quote]. *)
Definition register (token_quote : string)
    (parameters : dict string (string * param_default))
    (tokens : list (string * param_default)) :=
  fold_left (fun parameters nd =>
               dict_set String.eqb parameters (fst nd) (token_quote, snd nd))
            tokens parameters.

(** [c] is a character of [s]. *)
Fixpoint occurs (c : ascii) (s : string) : bool :=
  match s with
  | EmptyString => false
  | String d s' => Ascii.eqb c d || occurs c s'
  end.

(** No character of [v] is a character of [k]. *)
Fixpoint apart (k v : string) : bool :=
  match v with
  | EmptyString => true
  | String c v' => negb (occurs c k) && apart k v'
  end.

(** A table whose placeholders are strings that are not empty, and whose
    values are not empty and have no character of any placeholder. *)
Definition separated (tokens : token_table) : bool :=
  forallb (fun kv : option string * string =>
             match fst kv with
             | None => false
             | Some key =>
                 negb (String.eqb key "") &&
                 forallb (fun kv' : option string * string =>
                            negb (String.eqb (snd kv') "") && apart key (snd kv'))
                         tokens
             end) tokens.

(* ================================================================== *)
(** * The claims as the design document words them *)
(* ================================================================== *)

(** The claim as the design document words it: a table with a token that
    contains its own placeholder makes the resolution raise the error that
    names a self-containing token, and the table is as it was. *)
Definition self_reference_found_before_substitution : Prop :=
  forall tokens : token_table,
    dict_wf tokens ->
    (exists name v, In (Some name, v) tokens /\ PyStr.contains name v = true) ->
    exists name v,
      In (Some name, v) tokens /\ PyStr.contains name v = true /\
      expand_nested_tokens tokens
      = (tokens,
         Raise (Exception ("Token '" ++ name ++ "' cannot contain itself")%string)).

(** The claim as the design document words it: when no value of the table
    contains the placeholder of another token, a second rewrite of a tree
    changes nothing. *)
Definition tree_rewrite_idempotent_on_resolved_tables : Prop :=
  forall (tokens : token_table) (t t1 t2 : _Element),
    dict_wf tokens -> values_resolved tokens ->
    _expand_tokens_for_el t tokens = Return t1 ->
    _expand_tokens_for_el t1 tokens = Return t2 ->
    t2 = t1.

(** The claim as the design document words it, for a macro whose only
    parameter declaration is [tokens="FOO"]: a placeholder without a [foo]
    attribute raises, and one with [foo="bar"] gives [@FOO@ -> bar]. *)
Definition required_FOO_is_supplied_by_foo : Prop :=
  forall (el expand_el : _Element),
    dict_wf (attrib el) ->
    get_attr el "tokens" = Some "FOO" ->
    (forall k v, In (k, v) (attrib el) -> PyStr.startswith "token_" k = false) ->
    (get_attr expand_el "foo" = None ->
       exists msg, XmlMacroDef.macro_tokens (XmlMacroDef.__init__ el) expand_el
                   = Raise (ValueError msg)) /\
    (forall bar, get_attr expand_el "foo" = Some bar ->
       XmlMacroDef.macro_tokens (XmlMacroDef.__init__ el) expand_el
       = Return [(Some "@FOO@", bar)]).

(** The claim as it is worded: every macro element with a [token_quote]
    attribute gets an optional parameter [quote] whose default is the
    delimiter. *)
Definition token_quote_registers_optional_quote : Prop :=
  forall (el : _Element) (q : string),
    dict_wf (attrib el) ->
    get_attr el "token_quote" = Some q ->
    dict_get String.eqb (XmlMacroDef.parameters (XmlMacroDef.__init__ el)) "quote"
    = Some (q, Default q).

(** The claim as it is worded: whatever the catalog and the token table,
    a placeholder without a macro name, or with the name of no macro,
    makes the expansion fail with an error that names every macro of the
    catalog. *)
Definition unknown_placeholder_always_fails : Prop :=
  forall (fuel : nat) (h : heap) (element : nat) (e ex : _Element)
         (macros : macro_catalog) (tokens : token_table) (known : list string),
    heap_wf h ->
    lookup (trees h) element = Some e ->
    find_descendant "expand" e = Some ex ->
    str_keys (dict_keys macros) = Some known ->
    (get_attr ex "macro" = None \/
     exists name, get_attr ex "macro" = Some name /\
                  dict_get name_eqb macros (Some name) = None) ->
    exists msg,
      _expand_macros (S (S fuel)) [element] macros tokens h
      = Raise (AssertionError msg) /\
      forall k, In k known -> PyStr.contains k msg = true.

(** The claim as the design document words it: without a macro container
    the tree comes back with the content it had, and the list of import
    paths is empty. *)
Definition no_container_gives_same_tree_and_no_paths
    (parse_xml : string -> bool -> option _Element) : Prop :=
  forall (fuel : nat) (path : string) (doc : _Element),
    parse_xml path true = Some doc ->
    _macros_el doc = None ->
    exists root h,
      run (load_with_references parse_xml (S fuel) path)
      = Return ((root, Some []), h) /\
      option_map erase (lookup (trees h) root) = Some (erase doc).

(** The claim as the design document words it: whatever the document,
    no element tagged [macro] of another type than [template] is left
    below the root, and the second component is a list of paths. *)
Definition load_removes_macros_and_lists_imports
    (parse_xml : string -> bool -> option _Element) : Prop :=
  forall (fuel : nat) (path : string) (root : nat) (paths : option (list string))
         (h : heap),
    run (load_with_references parse_xml fuel path) = Return ((root, paths), h) ->
    exists r' l,
      lookup (trees h) root = Some r' /\
      (forall n, In n (descendants r') -> has_tag "macro" n = true ->
                 type_is "template" n = true) /\
      paths = Some l.

(* ================================================================== *)
(** * Further notions *)
(* ================================================================== *)

(** Every placeholder of the table is a string. *)
Definition string_keys (tokens : token_table) : bool :=
  forallb (fun kv : option string * string =>
             match fst kv with Some _ => true | None => false end) tokens.

(** What the rewrite of tokens cannot change: the nodes, their tags,
    the names of their attributes, which of them have a text, and their
    tails. *)
Fixpoint skeleton (e : _Element) : _Element :=
  match e with
  | Element i tg at_ tx tl cs =>
      Element i tg (map (fun kv : string * string => (fst kv, "")) at_)
        (option_map (fun _ => "") tx) tl (map skeleton cs)
  end.

(** A set of macro files that import one another in a circle: every file
    of the list can be read, and the first import that it declares is,
    resolved against [base], a file of the list. *)
Definition import_cycle (parse_xml : string -> bool -> option _Element)
    (base : string) (files : list string) : bool :=
  forallb (fun p =>
             match parse_xml p false with
             | Some doc =>
                 match _imported_macro_paths_from_el (Some doc) with
                 | Some rel :: _ => existsb (String.eqb (OsPath.join base rel)) files
                 | _ => false
                 end
             | None => false
             end) files.

(** The macro files that the import paths name, each with its resolved
    path, when every path is a string, every file can be read and no
    file declares an import of its own. *)
Fixpoint flat_files (parse_xml : string -> bool -> option _Element) (base : string)
    (paths : list (option string)) : option (list (string * _Element)) :=
  match paths with
  | [] => Some []
  | None :: _ => None
  | Some rel :: rest =>
      let import_path := OsPath.join base rel in
      match parse_xml import_path false, flat_files parse_xml base rest with
      | Some doc, Some more =>
          match _imported_macro_paths_from_el (Some doc) with
          | [] => Some ((import_path, doc) :: more)
          | _ :: _ => None
          end
      | _, _ => None
      end
  end.

Set Implicit Arguments.

(* ================================================================== *)
(** * Strings and dictionaries: basic facts *)
(* ================================================================== *)

Lemma name_eqb_eq (a b : option string) : name_eqb a b = true <-> a = b.
Proof.
  destruct a as [x|], b as [y|]; simpl; split; intro H;
    try discriminate; try reflexivity.
  - apply String.eqb_eq in H. now subst.
  - inversion H. apply String.eqb_refl.
Qed.

Lemma name_eqb_refl (a : option string) : name_eqb a a = true.
Proof. now apply name_eqb_eq. Qed.

Lemma name_eqb_neq (a b : option string) : name_eqb a b = false <-> a <> b.
Proof.
  split.
  - intros H E. apply name_eqb_eq in E. congruence.
  - intro H. destruct (name_eqb a b) eqn:E; [|reflexivity].
    apply name_eqb_eq in E. contradiction.
Qed.

Lemma tokens_get_in (t : token_table) k v :
  tokens_get t k = Some v -> In (k, v) t.
Proof.
  induction t as [|[k' v'] t IH]; simpl; [discriminate|].
  unfold tokens_get in *. simpl.
  destruct (name_eqb k' k) eqn:E.
  - intro H. inversion H. subst. apply name_eqb_eq in E. subst. now left.
  - intro H. right. now apply IH.
Qed.

Lemma tokens_get_app_notin (pre post : token_table) k :
  ~ In k (dict_keys pre) -> tokens_get (pre ++ post) k = tokens_get post k.
Proof.
  induction pre as [|[k' v'] pre IH]; simpl; intro H; [reflexivity|].
  unfold tokens_get in *. simpl.
  destruct (name_eqb k' k) eqn:E.
  - apply name_eqb_eq in E. subst. exfalso. apply H. now left.
  - apply IH. intro. apply H. now right.
Qed.

Lemma tokens_get_head (post : token_table) k v :
  tokens_get ((k, v) :: post) k = Some v.
Proof. unfold tokens_get. simpl. now rewrite name_eqb_refl. Qed.

Lemma contains_false_startswith sub s :
  PyStr.contains sub s = false -> PyStr.startswith sub s = false.
Proof.
  destruct s; simpl; intro H; apply orb_false_iff in H; tauto.
Qed.

Lemma replace_from_absent old new s :
  PyStr.contains old s = false -> PyStr.replace_from old new 0 s = s.
Proof.
  induction s as [|c s IH]; simpl; [reflexivity|].
  intro H. apply orb_false_iff in H. destruct H as [H1 H2].
  rewrite H1. now rewrite IH.
Qed.

(** A string that does not contain [old] is left as it is. *)
Lemma replace_absent s old new :
  PyStr.contains old s = false -> PyStr.replace s old new = s.
Proof.
  unfold PyStr.replace. destruct old.
  - destruct s; discriminate.
  - apply replace_from_absent.
Qed.

(* ================================================================== *)
(** * Nested-token resolution *)
(* ================================================================== *)

Section NestedTokens.

(** A token whose name occurs in no value of the table is inert: its
    round of the inner loop rewrites nothing and raises nothing. *)
Lemma nested_inner_inert (name : string) (tokens : token_table) todo :
  (forall e, In e tokens -> PyStr.contains name (snd e) = false) ->
  nested_inner (Some name) todo tokens = (tokens, Return tt).
Proof.
  intro H. induction todo as [|k todo IH]; simpl; [reflexivity|].
  unfold nested_step.
  destruct (tokens_get tokens k) as [w|] eqn:G; [|exact IH].
  apply tokens_get_in in G. apply H in G. simpl in G. rewrite G. exact IH.
Qed.

Lemma nested_outer_inert (todo : list (option string)) (tokens : token_table) rest :
  (forall k, In k todo ->
     exists s, k = Some s /\
               forall e, In e tokens -> PyStr.contains s (snd e) = false) ->
  nested_outer (todo ++ rest) tokens = nested_outer rest tokens.
Proof.
  induction todo as [|k todo IH]; simpl; intro H; [reflexivity|].
  destruct (H k (or_introl eq_refl)) as [s [-> Hs]].
  rewrite nested_inner_inert by exact Hs.
  apply IH. intros k' Hk'. apply H. now right.
Qed.

(** Assigning to a key that the table has changes that entry where it is. *)
Lemma tokens_set_at (A B : token_table) k w w' :
  ~ In k (dict_keys A) -> tokens_set (A ++ (k, w) :: B) k w' = A ++ (k, w') :: B.
Proof.
  unfold tokens_set. induction A as [|[k0 w0] A IH]; simpl; intro H.
  - now rewrite name_eqb_refl.
  - destruct (name_eqb k0 k) eqn:E.
    + apply name_eqb_eq in E. subst. exfalso. apply H. now left.
    + rewrite IH; [reflexivity|]. intro. apply H. now right.
Qed.

(** The inner loop of the token itself: every earlier entry that mentions
    the token is rewritten with the token's value, and then the token's
    own entry raises. *)
Lemma nested_inner_self (name v : string) (pre post : token_table) todo :
  dict_wf (pre ++ (Some name, v) :: post) ->
  PyStr.contains name v = true ->
  nested_inner (Some name) (dict_keys pre ++ Some name :: todo)
               (pre ++ (Some name, v) :: post)
  = (map (fun e => (fst e, PyStr.replace (snd e) name v)) pre
     ++ (Some name, v) :: post,
     Raise (Exception ("Token '" ++ name ++ "' cannot contain itself")%string)).
Proof.
  intros Hwf Hself.
  set (R := fun e : option string * string => (fst e, PyStr.replace (snd e) name v)).
  assert (HR : forall l, dict_keys (map R l) = dict_keys l).
  { intro l. unfold dict_keys. rewrite map_map. reflexivity. }
  assert (Hgo : forall rest done,
            dict_wf (done ++ rest ++ (Some name, v) :: post) ->
            nested_inner (Some name) (dict_keys rest ++ Some name :: todo)
              (map R done ++ rest ++ (Some name, v) :: post)
            = (map R (done ++ rest) ++ (Some name, v) :: post,
               Raise (Exception ("Token '" ++ name ++ "' cannot contain itself")%string))).
  { induction rest as [|[k w] rest IH]; intros done Hd.
    - cbn [dict_keys map app nested_inner]. unfold nested_step.
      rewrite app_nil_r.
      assert (Hn : ~ In (Some name) (dict_keys (map R done))).
      { rewrite HR. unfold dict_wf, dict_keys in Hd. cbn [app] in Hd.
        rewrite map_app in Hd. cbn [map fst] in Hd.
        apply NoDup_remove_2 in Hd. intro Hin. apply Hd. apply in_or_app. now left. }
      rewrite (tokens_get_app_notin _ _ _ Hn), tokens_get_head, Hself, name_eqb_refl.
      reflexivity.
    - assert (Hk : ~ In k (dict_keys (map R done))).
      { rewrite HR. unfold dict_wf, dict_keys in Hd. rewrite map_app in Hd.
        cbn [map fst app] in Hd.
        apply NoDup_remove_2 in Hd. intro Hin. apply Hd. apply in_or_app. now left. }
      assert (Hd' : dict_wf ((done ++ [(k, w)]) ++ rest ++ (Some name, v) :: post)).
      { now rewrite <- app_assoc. }
      assert (Hne : name_eqb (Some name) k = false).
      { apply name_eqb_neq. intro E. subst k.
        unfold dict_wf, dict_keys in Hd. rewrite map_app in Hd.
        apply NoDup_app_remove_l in Hd. cbn [map fst app] in Hd.
        inversion Hd as [|x l Hnot _]. subst. apply Hnot.
        rewrite map_app. apply in_or_app. right. now left. }
      assert (Hv : tokens_get (map R done ++ (k, w) :: rest ++ (Some name, v) :: post)
                     (Some name) = Some v).
      { rewrite tokens_get_app_notin.
        - unfold tokens_get. cbn [dict_get].
          assert (E : name_eqb k (Some name) = false).
          { apply name_eqb_neq. intro E. subst k. rewrite name_eqb_refl in Hne.
            discriminate. }
          rewrite E. fold (tokens_get (rest ++ (Some name, v) :: post) (Some name)).
          rewrite tokens_get_app_notin; [apply tokens_get_head|].
          unfold dict_wf, dict_keys in Hd'. rewrite !map_app in Hd'.
          cbn [map fst] in Hd'. rewrite app_assoc in Hd'.
          apply NoDup_remove_2 in Hd'. intro Hin. apply Hd'.
          apply in_or_app. left. apply in_or_app. now right.
        - rewrite HR. unfold dict_wf, dict_keys in Hd'. rewrite !map_app in Hd'.
          cbn [map fst] in Hd'. rewrite app_assoc in Hd'.
          apply NoDup_remove_2 in Hd'. intro Hin. apply Hd'.
          apply in_or_app. left. apply in_or_app. left. apply in_or_app. now left. }
      specialize (IH (done ++ [(k, w)]) Hd').
      rewrite map_app in IH. cbn [map] in IH. rewrite <- !app_assoc in IH.
      cbn [app] in IH.
      cbn [dict_keys map fst app nested_inner]. unfold nested_step.
      cbn [app]. rewrite (tokens_get_app_notin _ _ _ Hk), tokens_get_head.
      destruct (PyStr.contains name w) eqn:Hw.
      + rewrite Hne, Hv, (tokens_set_at _ _ _ _ _ Hk).
        change (k, PyStr.replace w name v) with (R (k, w)). exact IH.
      + assert (E : R (k, w) = (k, w)).
        { unfold R. cbn [fst snd]. now rewrite replace_absent. }
        rewrite E in IH. exact IH. }
  specialize (Hgo pre [] Hwf). cbn [map app] in Hgo. exact Hgo.
Qed.

End NestedTokens.

(** C2, counterexample: in the table [@A@ -> "x @B@", @B@ -> "y @B@"] the
    round of [@B@] first rewrites the entry of [@A@] and only then reaches
    the self-reference, so that the table is changed when the error is
    raised. *)
Lemma expand_nested_tokens_substitutes_before_raising :
  ~ self_reference_found_before_substitution.
Proof.
  intro H.
  destruct (H [(Some "@A@", "x @B@"); (Some "@B@", "y @B@")]) as [name [v [_ [_ E]]]].
  - repeat constructor; simpl; intuition discriminate.
  - exists "@B@", "y @B@". split; [simpl; auto | reflexivity].
  - vm_compute in E. discriminate.
Qed.

(** C2, amended: in a table with distinct keys, a token whose value
    contains its own placeholder makes [expand_nested_tokens] raise the
    error that names it, when no placeholder of an earlier entry occurs
    in any value.  The table is not always as it was: the earlier entries
    whose value contains the placeholder of the token have it replaced by
    the value of the token before the error is raised.  The table is as
    it was when the placeholder of the token occurs in no earlier
    value. *)
Theorem expand_nested_tokens_self_reference
    (pre post : token_table) (name v : string) :
  dict_wf (pre ++ (Some name, v) :: post) ->
  PyStr.contains name v = true ->
  (forall k, In k (dict_keys pre) ->
     exists s, k = Some s /\
               forall e, In e (pre ++ (Some name, v) :: post) ->
                         PyStr.contains s (snd e) = false) ->
  expand_nested_tokens (pre ++ (Some name, v) :: post)
  = (map (fun e => (fst e, PyStr.replace (snd e) name v)) pre
     ++ (Some name, v) :: post,
     Raise (Exception ("Token '" ++ name ++ "' cannot contain itself")%string)) /\
  ((forall e, In e pre -> PyStr.contains name (snd e) = false) ->
   expand_nested_tokens (pre ++ (Some name, v) :: post)
   = (pre ++ (Some name, v) :: post,
      Raise (Exception ("Token '" ++ name ++ "' cannot contain itself")%string))).
Proof.
  intros Hwf Hself Hinert.
  assert (Hrun : expand_nested_tokens (pre ++ (Some name, v) :: post)
                 = (map (fun e => (fst e, PyStr.replace (snd e) name v)) pre
                    ++ (Some name, v) :: post,
                    Raise (Exception ("Token '" ++ name ++ "' cannot contain itself")%string))).
  { unfold expand_nested_tokens.
    assert (Hkeys : dict_keys (pre ++ (Some name, v) :: post)
                    = dict_keys pre ++ Some name :: dict_keys post).
    { unfold dict_keys. now rewrite map_app. }
    rewrite Hkeys at 1.
    rewrite nested_outer_inert by exact Hinert.
    cbn [nested_outer]. rewrite Hkeys.
    now rewrite (nested_inner_self name v pre post (dict_keys post) Hwf Hself). }
  split; [exact Hrun|].
  intro Hpre. rewrite Hrun. f_equal. f_equal.
  clear - Hpre. induction pre as [|[k w] pre IH]; [reflexivity|].
  cbn [map fst snd]. rewrite (replace_absent w name v (Hpre (k, w) (or_introl eq_refl))).
  f_equal. apply IH. intros e He. apply Hpre. now right.
Qed.

(** The amended statement at the table [@A@ -> "x @B@", @B@ -> "y @B@"]:
    the error names [@B@], and the entry of [@A@] has been rewritten. *)
Lemma expand_nested_tokens_self_reference_witness :
  expand_nested_tokens ([(Some "@A@", "x @B@")] ++ (Some "@B@", "y @B@") :: [])
  = ([(Some "@A@", "x y @B@"); (Some "@B@", "y @B@")],
     Raise (Exception "Token '@B@' cannot contain itself")).
Proof.
  refine (proj1 (@expand_nested_tokens_self_reference
                   [(Some "@A@", "x @B@")] [] "@B@" "y @B@" _ _ _)).
  - repeat constructor; simpl; intuition discriminate.
  - reflexivity.
  - intros k [<-|[]]. exists "@A@". split; [reflexivity|].
    intros e [<-|[<-|[]]]; reflexivity.
Defined.

(* ================================================================== *)
(** * Induction on elements and forests *)
(* ================================================================== *)

(** Elements and forests together. *)
Lemma element_forest_ind (P : _Element -> Prop) (Q : list _Element -> Prop) :
  (forall i tg at_ tx tl cs, Q cs -> P (Element i tg at_ tx tl cs)) ->
  Q [] ->
  (forall e l, P e -> Q l -> Q (e :: l)) ->
  (forall e, P e) /\ (forall l, Q l).
Proof.
  intros HP Hnil Hcons.
  assert (He : forall e, P e).
  { induction e as [i tg at_ tx tl cs IH] using element_rect'.
    apply HP. induction IH; auto. }
  split; [exact He|].
  induction l; auto.
Qed.

(** Forests: the children of the first tree, then the other trees. *)
Lemma forest_ind' (Q : list _Element -> Prop) :
  Q [] ->
  (forall t F, Q (children t) -> Q F -> Q (t :: F)) ->
  forall F, Q F.
Proof.
  intros Hnil Hcons.
  apply (element_forest_ind (fun t => Q (children t)) Q); auto.
Qed.

(* ================================================================== *)
(** * The tree rewrite *)
(* ================================================================== *)

Lemma expand_tokens_str_free tokens s :
  str_free tokens s = true -> _expand_tokens_str s tokens = Return s.
Proof.
  induction tokens as [|[[k|] v] tokens IH]; simpl; intro H;
    [reflexivity| |discriminate].
  apply andb_true_iff in H. destruct H as [H1 H2].
  apply negb_true_iff in H1. rewrite H1. now apply IH.
Qed.

Lemma expand_tokens_attrib_free tokens (at_ : dict string string) :
  forallb (fun kv : string * string => str_free tokens (snd kv)) at_ = true ->
  expand_tokens_attrib at_ tokens = Return at_.
Proof.
  unfold expand_tokens_attrib.
  induction at_ as [|[k v] at_ IH]; simpl; intro H; [reflexivity|].
  apply andb_true_iff in H. destruct H as [H1 H2].
  rewrite (expand_tokens_str_free _ _ H1). simpl.
  now rewrite (IH H2).
Qed.

(** A tree in which no placeholder occurs is a fixed point of the
    rewrite. *)
Lemma expand_tokens_for_el_free tokens e :
  placeholder_free tokens e = true -> _expand_tokens_for_el e tokens = Return e.
Proof.
  induction e as [i tg at_ tx tl cs IH] using element_rect'.
  simpl. intro H.
  apply andb_true_iff in H. destruct H as [H Hcs].
  apply andb_true_iff in H. destruct H as [Htx Hat].
  assert (Etx : match tx with
                | None => Return tx
                | Some EmptyString => Return tx
                | Some value => (new_value <- _expand_tokens_str value tokens ;;
                                 Return (Some new_value))%py
                end = Return tx).
  { destruct tx as [[|c s]|]; try reflexivity.
    now rewrite (expand_tokens_str_free _ _ Htx). }
  rewrite Etx. simpl.
  rewrite (expand_tokens_attrib_free _ _ Hat). simpl.
  destruct (is_empty tokens); [reflexivity|].
  match goal with
  | |- bind ?m _ = _ => assert (Ecs : m = Return cs)
  end.
  { clear - IH Hcs. induction IH as [|c cs Hc _ IHcs]; [reflexivity|].
    apply andb_true_iff in Hcs. destruct Hcs as [H1 H2].
    rewrite (Hc H1). simpl. now rewrite (IHcs H2). }
  now rewrite Ecs.
Qed.

(* ================================================================== *)
(** * Declared import paths *)
(* ================================================================== *)

Lemma find_child_macro_container root :
  find_child "macros" root = macro_container (children root).
Proof.
  unfold find_child. induction (children root) as [|c l IH]; simpl; [reflexivity|].
  unfold has_tag. destruct (String.eqb (tag c) "macros"); [reflexivity|exact IH].
Qed.

Lemma findall_import_declared (l : list _Element) :
  map text (filter (has_tag "import") l) = declared_imports l.
Proof.
  induction l as [|c l IH]; simpl; [reflexivity|].
  unfold has_tag at 1. destruct (String.eqb (tag c) "import"); simpl; now rewrite IH.
Qed.

(** C9: on a parsed root, [imported_macro_paths] returns the text of the
    import children of the macro container as declared, in declaration
    order, and the empty list when there is no container.  It is a
    function of the root alone: it reads no file and changes no tree. *)
Theorem imported_macro_paths_declared (root : _Element) :
  imported_macro_paths root = spec_imported_macro_paths root.
Proof.
  unfold imported_macro_paths, spec_imported_macro_paths, _macros_el.
  rewrite find_child_macro_container.
  destruct (macro_container (children root)) as [m|]; [|reflexivity].
  apply findall_import_declared.
Qed.

(* ================================================================== *)
(** * Dictionaries built by assignment *)
(* ================================================================== *)

Section DictFacts.
Variable V : Type.

Lemma dict_get_set_same (d : dict string V) k v :
  dict_get String.eqb (dict_set String.eqb d k v) k = Some v.
Proof.
  induction d as [|[k' v'] d IH]; simpl.
  - now rewrite String.eqb_refl.
  - destruct (String.eqb k' k) eqn:E; simpl; rewrite E; [reflexivity|exact IH].
Qed.

Lemma dict_get_set_other (d : dict string V) k k' v :
  k' <> k ->
  dict_get String.eqb (dict_set String.eqb d k' v) k = dict_get String.eqb d k.
Proof.
  intro Hne. induction d as [|[k0 v0] d IH]; simpl.
  - apply String.eqb_neq in Hne. now rewrite Hne.
  - destruct (String.eqb k0 k') eqn:E; simpl.
    + apply String.eqb_eq in E. subst.
      apply String.eqb_neq in Hne. now rewrite Hne.
    + destruct (String.eqb k0 k); [reflexivity|exact IH].
Qed.

Lemma dict_set_keys_incl (d : dict string V) k v x :
  In x (dict_keys (dict_set String.eqb d k v)) -> x = k \/ In x (dict_keys d).
Proof.
  induction d as [|[k0 v0] d IH]; simpl.
  - intros [H|[]]; auto.
  - destruct (String.eqb k0 k) eqn:E; simpl.
    + intros [H|H]; auto.
    + intros [H|H]; auto. destruct (IH H); auto.
Qed.

Lemma dict_set_wf (d : dict string V) k v :
  dict_wf d -> dict_wf (dict_set String.eqb d k v).
Proof.
  unfold dict_wf. induction d as [|[k0 v0] d IH]; simpl; intro H.
  - repeat constructor. simpl. tauto.
  - inversion H as [|? ? Hnotin Hnd]. subst.
    destruct (String.eqb k0 k) eqn:E; simpl.
    + now constructor.
    + constructor; [|now apply IH].
      intro Hin. apply dict_set_keys_incl in Hin. destruct Hin as [->|Hin].
      * rewrite String.eqb_refl in E. discriminate.
      * contradiction.
Qed.

Lemma dict_set_values (P : V -> Prop) (d : dict string V) k v :
  P v -> (forall e, In e d -> P (snd e)) ->
  forall e, In e (dict_set String.eqb d k v) -> P (snd e).
Proof.
  intros Hv. induction d as [|[k0 v0] d IH]; simpl; intros Hd e.
  - intros [<-|[]]. exact Hv.
  - destruct (String.eqb k0 k); simpl.
    + intros [<-|Hin]; [exact Hv|]. apply Hd. now right.
    + intros [<-|Hin]; [apply (Hd (k0, v0)); now left|].
      apply IH; [|exact Hin]. intros e' He'. apply Hd. now right.
Qed.

(** The first entry of a key splits the dictionary. *)
Lemma dict_get_split (d : dict string V) k v :
  dict_wf d -> dict_get String.eqb d k = Some v ->
  exists d1 d2, d = d1 ++ (k, v) :: d2 /\
                ~ In k (dict_keys d1) /\ ~ In k (dict_keys d2).
Proof.
  unfold dict_wf. induction d as [|[k0 v0] d IH]; simpl; intros Hwf H;
    [discriminate|].
  inversion Hwf as [|? ? Hnotin Hnd]. subst.
  destruct (String.eqb k0 k) eqn:E.
  - apply String.eqb_eq in E. subst. inversion H. subst.
    exists [], d. simpl. tauto.
  - destruct (IH Hnd H) as [d1 [d2 [-> [H1 H2]]]].
    exists ((k0, v0) :: d1), d2. simpl. repeat split; auto.
    intros [->|Hin]; [|contradiction].
    rewrite String.eqb_refl in E. discriminate.
Qed.
End DictFacts.

(* ================================================================== *)
(** * The parameter table of a macro *)
(* ================================================================== *)

Section ParameterTable.
Variable token_quote : string.

Lemma register_app d l1 l2 :
  register token_quote d (l1 ++ l2)
  = register token_quote (register token_quote d l1) l2.
Proof. apply fold_left_app. Qed.

Lemma register_wf d l : dict_wf d -> dict_wf (register token_quote d l).
Proof.
  revert d. induction l as [|[n x] l IH]; simpl; intros d H; [exact H|].
  apply IH. now apply dict_set_wf.
Qed.

Lemma register_quote d l :
  (forall e, In e d -> fst (snd e) = token_quote) ->
  forall e, In e (register token_quote d l) -> fst (snd e) = token_quote.
Proof.
  revert d. induction l as [|[n x] l IH]; simpl; intros d H; [exact H|].
  apply IH.
  apply (@dict_set_values _ (fun v => fst v = token_quote)); [reflexivity|exact H].
Qed.

Lemma register_get_other d l k :
  ~ In k (map fst l) ->
  dict_get String.eqb (register token_quote d l) k = dict_get String.eqb d k.
Proof.
  revert d. induction l as [|[n x] l IH]; simpl; intros d H; [reflexivity|].
  rewrite IH by tauto. apply dict_get_set_other. tauto.
Qed.

(** The last declaration of a name decides its default. *)
Lemma register_get_last d l1 l2 k x :
  ~ In k (map fst l2) ->
  dict_get String.eqb (register token_quote d (l1 ++ (k, x) :: l2)) k
  = Some (token_quote, x).
Proof.
  intro H. rewrite register_app. simpl.
  rewrite register_get_other by exact H.
  apply dict_get_set_same.
Qed.
End ParameterTable.

Lemma init_parameters (el : _Element) :
  XmlMacroDef.parameters (XmlMacroDef.__init__ el)
  = register (match get_attr el "token_quote" with Some q => q | None => "@" end)
             [] (XmlMacroDef.collect_tokens (attrib el)).
Proof. reflexivity. Qed.

Lemma collect_tokens_app l1 l2 :
  XmlMacroDef.collect_tokens (l1 ++ l2) = XmlMacroDef.collect_tokens l1 ++ XmlMacroDef.collect_tokens l2.
Proof.
  induction l1 as [|[k v] l1 IH]; [reflexivity|].
  cbn [XmlMacroDef.collect_tokens app].
  destruct (String.eqb k "tokens").
  - now rewrite IH, app_assoc.
  - destruct (PyStr.startswith "token_" k); rewrite IH; reflexivity.
Qed.

Lemma collect_tokens_none (l : list (string * string)) :
  ~ In "tokens" (map fst l) ->
  (forall k v, In (k, v) l -> PyStr.startswith "token_" k = false) ->
  XmlMacroDef.collect_tokens l = [].
Proof.
  induction l as [|[k v] l IH]; intros H1 H2; [reflexivity|].
  cbn [XmlMacroDef.collect_tokens]. cbn [map fst In] in H1.
  destruct (String.eqb k "tokens") eqn:E.
  - apply String.eqb_eq in E. tauto.
  - rewrite (H2 k v) by now left. apply IH; [tauto|].
    intros k' v' Hin. apply (H2 k' v'). now right.
Qed.

Lemma collect_tokens_required (l : list (string * string)) v :
  NoDup (map fst l) ->
  dict_get String.eqb l "tokens" = Some v ->
  (forall k w, In (k, w) l -> PyStr.startswith "token_" k = false) ->
  XmlMacroDef.collect_tokens l = map (fun token => (token, REQUIRED_PARAMETER)) (PyStr.split v ",").
Proof.
  induction l as [|[k w] l IH]; intros Hnd Hget Hno; [discriminate|].
  cbn [XmlMacroDef.collect_tokens]. cbn [map fst] in Hnd. cbn [dict_get] in Hget.
  inversion Hnd as [|? ? Hnotin Hnd']. subst.
  destruct (String.eqb k "tokens") eqn:E.
  - apply String.eqb_eq in E. subst. inversion Hget. subst.
    rewrite collect_tokens_none; [now rewrite app_nil_r|exact Hnotin|].
    intros k' v' Hin. apply (Hno k' v'). now right.
  - rewrite (Hno k w) by now left. apply IH; auto.
    intros k' v' Hin. apply (Hno k' v'). now right.
Qed.

(* ================================================================== *)
(** * One token on a tree *)
(* ================================================================== *)

Lemma expand_tokens_str_single (key value s : string) :
  _expand_tokens_str s [(Some key, value)] = Return (PyStr.replace s key value).
Proof.
  simpl. destruct (PyStr.contains key s) eqn:E; [reflexivity|].
  now rewrite replace_absent.
Qed.

Lemma expand_tokens_attrib_single (key value : string) (at_ : dict string string) :
  expand_tokens_attrib at_ [(Some key, value)]
  = Return (map (fun kv : string * string =>
                   (fst kv, PyStr.replace (snd kv) key value)) at_).
Proof.
  unfold expand_tokens_attrib.
  induction at_ as [|[k v] at_ IH]; [reflexivity|].
  cbn [map_result]. rewrite expand_tokens_str_single. cbn [bind snd fst].
  rewrite IH. reflexivity.
Qed.

(** With a table of one token whose placeholder is not empty, the rewrite
    replaces the placeholder in every text and attribute value. *)
Lemma expand_tokens_for_el_single (c : ascii) (key' value : string) (e : _Element) :
  _expand_tokens_for_el e [(Some (String c key'), value)]
  = Return (replace_everywhere (String c key') value e).
Proof.
  set (key := String c key').
  induction e as [i tg at_ tx tl cs IH] using element_rect'.
  cbn [_expand_tokens_for_el replace_everywhere is_empty].
  assert (Etx : match tx with
                | None => Return tx
                | Some EmptyString => Return tx
                | Some s => (new_value <- _expand_tokens_str s [(Some key, value)] ;;
                             Return (Some new_value))%py
                end = Return (option_map (fun s => PyStr.replace s key value) tx)).
  { destruct tx as [[|a s]|]; try reflexivity.
    rewrite expand_tokens_str_single. reflexivity. }
  rewrite Etx. cbn [bind].
  rewrite expand_tokens_attrib_single. cbn [bind].
  match goal with
  | |- bind ?m _ = _ =>
      assert (Ecs : m = Return (map (replace_everywhere key value) cs))
  end.
  { clear - IH. induction IH as [|x cs Hx _ IHcs]; [reflexivity|].
    rewrite Hx. cbn [bind]. rewrite IHcs. reflexivity. }
  rewrite Ecs. reflexivity.
Qed.

Lemma expand_tokens_single (c : ascii) (key' value : string) (body : list _Element) :
  _expand_tokens body [(Some (String c key'), value)]
  = Return (map (replace_everywhere (String c key') value) body).
Proof.
  unfold _expand_tokens. cbn [is_empty].
  induction body as [|e body IH]; [reflexivity|].
  cbn [map_result map]. rewrite expand_tokens_for_el_single. cbn [bind].
  rewrite IH. reflexivity.
Qed.

(* ================================================================== *)
(** * A required parameter *)
(* ================================================================== *)

(** C3, counterexample: the attribute of the placeholder is looked up
    under the name as the macro declares it, so [foo="bar"] does not supply
    [FOO] and the expansion raises. *)
Lemma lowercase_attribute_does_not_supply_FOO :
  ~ required_FOO_is_supplied_by_foo.
Proof.
  intro H.
  destruct (H (Element 0 "macro" [("name", "m"); ("type", "xml"); ("tokens", "FOO")]
                 None None [])
              (Element 1 "expand" [("macro", "m"); ("foo", "bar")] None None []))
    as [_ H2].
  - repeat constructor; simpl; intuition discriminate.
  - reflexivity.
  - intros k v [E|[E|[E|[]]]]; inversion E; reflexivity.
  - specialize (H2 "bar" eq_refl). vm_compute in H2. discriminate.
Qed.

(** How lxml reads a name: it is accepted, or it is refused with one of
    two errors. *)
Lemma clark_name_cases (key : string) :
  (exists name, clark_name key = Return name) \/
  clark_name key = Raise (ValueError "Empty tag name") \/
  clark_name key = Raise (ValueError "Invalid tag name").
Proof.
  destruct key as [|c rest]; [right; now left|].
  cbn [clark_name]. destruct (Ascii.eqb c "{"); [|left; eauto].
  destruct (split_brace rest) as [[ns local]|]; [|right; now right].
  destruct local as [|a local]; [right; now left|].
  destruct ns; left; eauto.
Qed.

(** A name that does not begin with a brace and is not empty is read as
    it stands. *)
Lemma clark_name_plain (c : ascii) (rest : string) :
  Ascii.eqb c "{" = false -> clark_name (String c rest) = Return (String c rest).
Proof. intro H. cbn [clark_name]. now rewrite H. Qed.

Lemma attrib_get_cases (e : _Element) (key : string) :
  (exists name, clark_name key = Return name /\
                attrib_get e key = Return (get_attr e name)) \/
  (exists x, clark_name key = Raise x /\ attrib_get e key = Raise x /\
             (x = ValueError "Empty tag name" \/ x = ValueError "Invalid tag name")).
Proof.
  unfold attrib_get.
  destruct (clark_name_cases key) as [[name E]|[E|E]]; rewrite E; cbn [bind].
  - left. now exists name.
  - right. eexists. split; [reflexivity|]. split; [reflexivity|now left].
  - right. eexists. split; [reflexivity|]. split; [reflexivity|now right].
Qed.

(** The parameter table of a macro whose only declaration is
    [tokens="FOO"], and the table of an expansion of it. *)
Lemma required_FOO_parameters (el : _Element) :
  dict_wf (attrib el) ->
  get_attr el "tokens" = Some "FOO" ->
  (forall k v, In (k, v) (attrib el) -> PyStr.startswith "token_" k = false) ->
  XmlMacroDef.parameters (XmlMacroDef.__init__ el)
  = [("FOO", ("@", REQUIRED_PARAMETER))].
Proof.
  intros Hwf Htok Hno.
  assert (Hq : get_attr el "token_quote" = None).
  { unfold get_attr. destruct (dict_get String.eqb (attrib el) "token_quote") eqn:G;
      [|reflexivity].
    exfalso. clear - G Hno.
    induction (attrib el) as [|[k v] l IH]; simpl in G; [discriminate|].
    destruct (String.eqb k "token_quote") eqn:E.
    - apply String.eqb_eq in E. subst.
      specialize (Hno "token_quote" v (or_introl eq_refl)). discriminate.
    - apply IH; [|exact G]. intros k' v' Hin. apply (Hno k' v'). now right. }
  rewrite init_parameters, Hq.
  rewrite (@collect_tokens_required (attrib el) "FOO" Hwf Htok Hno). reflexivity.
Qed.

Lemma required_FOO_table {py : Interpreter} (el expand_el : _Element) :
  dict_wf (attrib el) ->
  get_attr el "tokens" = Some "FOO" ->
  (forall k v, In (k, v) (attrib el) -> PyStr.startswith "token_" k = false) ->
  XmlMacroDef.macro_tokens (XmlMacroDef.__init__ el) expand_el
  = match get_attr expand_el "FOO" with
    | None =>
        Raise (ValueError "Failed to expand macro - missing required parameter [FOO].")
    | Some bar => Return [(Some "@FOO@", bar)]
    end.
Proof.
  intros Hwf Htok Hno.
  unfold XmlMacroDef.macro_tokens.
  rewrite (required_FOO_parameters el Hwf Htok Hno).
  cbn [XmlMacroDef.macro_tokens_loop]. unfold attrib_get. cbn [clark_name Ascii.eqb Bool.eqb bind].
  destruct (get_attr expand_el "FOO") as [bar|]; [|reflexivity].
  now rewrite (str_upper_ascii "FOO" eq_refl).
Qed.

(* ================================================================== *)
(** * The delimiter-override attribute *)
(* ================================================================== *)

Lemma length_append (a b : string) :
  String.length (a ++ b) = String.length a + String.length b.
Proof. induction a; simpl; auto. Qed.

Lemma append_inj_l (q a b : string) : (q ++ a = q ++ b)%string -> a = b.
Proof. induction q; simpl; intro H; [exact H|]. inversion H. auto. Qed.

Lemma append_inj_r (q a b : string) : (a ++ q = b ++ q)%string -> a = b.
Proof.
  revert b. induction a as [|c a IH]; intros [|d b] H; simpl in H.
  - reflexivity.
  - apply (f_equal String.length) in H. simpl in H. rewrite length_append in H. lia.
  - apply (f_equal String.length) in H. simpl in H. rewrite length_append in H. lia.
  - inversion H. f_equal. now apply IH.
Qed.

Lemma startswith_drop (p s : string) :
  PyStr.startswith p s = true -> s = (p ++ PyStr.drop (String.length p) s)%string.
Proof.
  revert s. induction p as [|a p IH]; intros [|b s]; simpl; intro H;
    try reflexivity; try discriminate.
  apply andb_true_iff in H. destruct H as [H1 H2].
  apply Ascii.eqb_eq in H1. subst. f_equal. now apply IH.
Qed.

(** The only attribute that declares a parameter named [quote] by the
    prefix convention is [token_quote] itself. *)
Lemma token_prefix_quote (key : string) :
  PyStr.startswith "token_" key = true ->
  PyStr.drop (String.length "token_") key = "quote" ->
  key = "token_quote".
Proof.
  intros H1 H2. rewrite (startswith_drop _ _ H1), H2. reflexivity.
Qed.

Lemma collect_tokens_no_quote (l : list (string * string)) :
  ~ In "token_quote" (map fst l) ->
  (forall v, In ("tokens", v) l -> ~ In "quote" (PyStr.split v ",")) ->
  ~ In "quote" (map fst (XmlMacroDef.collect_tokens l)).
Proof.
  induction l as [|[k v] l IH]; intros H1 H2; [simpl; tauto|].
  cbn [XmlMacroDef.collect_tokens]. cbn [map fst In] in H1.
  assert (IH' : ~ In "quote" (map fst (XmlMacroDef.collect_tokens l))).
  { apply IH; [tauto|]. intros v' Hin. apply H2. now right. }
  destruct (String.eqb k "tokens") eqn:E.
  - apply String.eqb_eq in E. subst.
    rewrite map_app, map_map. cbn [fst]. rewrite map_id.
    intro Hin. apply in_app_or in Hin. destruct Hin as [Hin|Hin]; [|contradiction].
    apply (H2 v); [now left|exact Hin].
  - destruct (PyStr.startswith "token_" k) eqn:S; [|exact IH'].
    cbn [map fst In]. intros [Hq|Hin]; [|contradiction].
    apply H1. left. now apply token_prefix_quote.
Qed.

Lemma tokens_get_set_same (t : token_table) k v :
  tokens_get (tokens_set t k v) k = Some v.
Proof.
  unfold tokens_get, tokens_set.
  induction t as [|[k' v'] t IH]; simpl.
  - now rewrite name_eqb_refl.
  - destruct (name_eqb k' k) eqn:E; simpl; rewrite E; [reflexivity|exact IH].
Qed.

Lemma tokens_get_set_other (t : token_table) k k' v :
  k' <> k -> tokens_get (tokens_set t k' v) k = tokens_get t k.
Proof.
  intro Hne. unfold tokens_get, tokens_set.
  induction t as [|[k0 v0] t IH]; simpl.
  - apply name_eqb_neq in Hne. now rewrite Hne.
  - destruct (name_eqb k0 k') eqn:E; simpl.
    + apply name_eqb_eq in E. subst. apply name_eqb_neq in Hne. now rewrite Hne.
    + destruct (name_eqb k0 k); [reflexivity|exact IH].
Qed.

Section MacroTokensLoop.
Variable expand_el : _Element.

Lemma macro_tokens_loop_app {py : Interpreter} l1 l2 acc :
  XmlMacroDef.macro_tokens_loop (l1 ++ l2) expand_el acc
  = (acc' <- XmlMacroDef.macro_tokens_loop l1 expand_el acc ;;
     XmlMacroDef.macro_tokens_loop l2 expand_el acc')%py.
Proof.
  revert acc. induction l1 as [|[key [w d]] l1 IH]; intro acc; [reflexivity|].
  cbn [app XmlMacroDef.macro_tokens_loop].
  destruct (attrib_get expand_el key) as [supplied|e| |]; try reflexivity.
  cbn [bind].
  destruct (match supplied with Some v => Default v | None => d end);
    [reflexivity|apply IH].
Qed.

(** The entries that the loop does not assign are as they were. *)
Lemma macro_tokens_loop_other {py : Interpreter} l acc table name :
  (forall key w d, In (key, (w, d)) l ->
     (w ++ str_upper key ++ w)%string <> name) ->
  XmlMacroDef.macro_tokens_loop l expand_el acc = Return table ->
  tokens_get table (Some name) = tokens_get acc (Some name).
Proof.
  revert acc. induction l as [|[key [w d]] l IH]; intros acc Hne H.
  - inversion H. reflexivity.
  - cbn [XmlMacroDef.macro_tokens_loop] in H.
    destruct (attrib_get expand_el key) as [supplied|e| |]; try discriminate.
    cbn [bind] in H.
    destruct (match supplied with Some v => Default v | None => d end);
      [discriminate|].
    rewrite (IH _ (fun k' w' d' Hin => Hne k' w' d' (or_intror Hin)) H).
    apply tokens_get_set_other.
    intro E. inversion E as [E']. apply (Hne key w d); [now left|exact E'].
Qed.
End MacroTokensLoop.




(* ================================================================== *)
(** * The forest: nodes, identities, lookup *)
(* ================================================================== *)

Unset Implicit Arguments.

Lemma nodes_unfold i tg at_ tx tl cs :
  nodes (Element i tg at_ tx tl cs)
  = Element i tg at_ tx tl cs :: forest_nodes cs.
Proof. reflexivity. Qed.

Lemma forest_nodes_cons t F : forest_nodes (t :: F) = nodes t ++ forest_nodes F.
Proof. reflexivity. Qed.

Lemma forest_nodes_app F G : forest_nodes (F ++ G) = forest_nodes F ++ forest_nodes G.
Proof. unfold forest_nodes. apply flat_map_app. Qed.

Lemma ids_unfold (e : _Element) : ids e = eid e :: forest_ids (children e).
Proof. destruct e. reflexivity. Qed.

Lemma forest_ids_nil : forest_ids [] = [].
Proof. reflexivity. Qed.

Lemma forest_ids_cons t F : forest_ids (t :: F) = ids t ++ forest_ids F.
Proof. unfold forest_ids, ids. rewrite forest_nodes_cons. apply map_app. Qed.

Lemma forest_ids_app F G : forest_ids (F ++ G) = forest_ids F ++ forest_ids G.
Proof. unfold forest_ids. rewrite forest_nodes_app. apply map_app. Qed.

Lemma forest_ids_single t : forest_ids [t] = ids t.
Proof. rewrite forest_ids_cons, forest_ids_nil. apply app_nil_r. Qed.

Lemma nodes_self (e : _Element) : In e (nodes e).
Proof. destruct e. left. reflexivity. Qed.

Lemma eid_in_ids (e : _Element) : In (eid e) (ids e).
Proof. rewrite ids_unfold. now left. Qed.

Lemma in_forest_nodes n F :
  In n (forest_nodes F) <-> exists t, In t F /\ In n (nodes t).
Proof. unfold forest_nodes. apply in_flat_map. Qed.

Lemma in_forest_ids i F :
  In i (forest_ids F) <-> exists t, In t F /\ In i (ids t).
Proof.
  unfold forest_ids, ids. rewrite in_map_iff. split.
  - intros [n [E Hn]]. apply in_forest_nodes in Hn. destruct Hn as [t [Ht Hn]].
    exists t. split; [exact Ht|]. apply in_map_iff. now exists n.
  - intros [t [Ht Hi]]. apply in_map_iff in Hi. destruct Hi as [n [E Hn]].
    exists n. split; [exact E|]. apply in_forest_nodes. now exists t.
Qed.

Lemma member_ids_incl t F : In t F -> incl (ids t) (forest_ids F).
Proof. intros Ht i Hi. apply in_forest_ids. now exists t. Qed.

(** The nodes of a subtree are nodes of the tree. *)
Lemma nodes_trans :
  (forall e n m, In n (nodes e) -> In m (nodes n) -> In m (nodes e)) /\
  (forall F n m, In n (forest_nodes F) -> In m (nodes n) -> In m (forest_nodes F)).
Proof.
  apply element_forest_ind
    with (P := fun e => forall n m, In n (nodes e) -> In m (nodes n) -> In m (nodes e))
         (Q := fun F => forall n m, In n (forest_nodes F) -> In m (nodes n) ->
                                    In m (forest_nodes F)).
  - intros i tg at_ tx tl cs IH n m Hn Hm. rewrite nodes_unfold in Hn.
    destruct Hn as [<-|Hn]; [exact Hm|].
    rewrite nodes_unfold. right. now apply (IH n m).
  - intros n m [].
  - intros e l IHe IHl n m Hn Hm. rewrite forest_nodes_cons in *.
    apply in_app_or in Hn. apply in_or_app. destruct Hn as [Hn|Hn].
    + left. now apply (IHe n m).
    + right. now apply (IHl n m).
Qed.

Lemma subtree_ids_incl e n : In n (nodes e) -> incl (ids n) (ids e).
Proof.
  intros Hn i Hi. unfold ids in *. apply in_map_iff in Hi.
  destruct Hi as [m [E Hm]]. apply in_map_iff. exists m. split; [exact E|].
  now apply (proj1 nodes_trans e n m).
Qed.

Lemma child_nodes_incl (e c : _Element) :
  In c (children e) -> incl (nodes c) (nodes e).
Proof.
  intros Hc n Hn. destruct e as [i tg at_ tx tl cs]. rewrite nodes_unfold.
  right. apply in_forest_nodes. now exists c.
Qed.

Lemma lookup_nil i : lookup [] i = None.
Proof. reflexivity. Qed.

Lemma lookup_app F G i :
  lookup (F ++ G) i
  = match lookup F i with Some e => Some e | None => lookup G i end.
Proof.
  unfold lookup. rewrite forest_nodes_app.
  induction (forest_nodes F) as [|n l IH]; simpl; [reflexivity|].
  destruct (eid n =? i); [reflexivity|exact IH].
Qed.

Lemma lookup_cons t F i :
  lookup (t :: F) i
  = if eid t =? i then Some t
    else match lookup (children t) i with
         | Some e => Some e
         | None => lookup F i
         end.
Proof.
  change (t :: F) with ([t] ++ F). rewrite lookup_app.
  destruct t as [j tg at_ tx tl cs]. unfold lookup at 1.
  unfold forest_nodes. simpl flat_map. rewrite app_nil_r.
  simpl find. simpl eid. destruct (j =? i); [reflexivity|].
  reflexivity.
Qed.

Lemma lookup_some F i e : lookup F i = Some e -> eid e = i /\ In e (forest_nodes F).
Proof.
  unfold lookup. intro H. apply find_some in H. destruct H as [H1 H2].
  apply Nat.eqb_eq in H2. tauto.
Qed.

Lemma lookup_none F i : lookup F i = None <-> ~ In i (forest_ids F).
Proof.
  unfold lookup, forest_ids. split.
  - intros H Hin. apply in_map_iff in Hin. destruct Hin as [n [E Hn]].
    apply (find_none _ _ H) in Hn. apply Nat.eqb_neq in Hn. contradiction.
  - intro H. destruct (find _ _) as [e|] eqn:E; [|reflexivity].
    apply find_some in E. destruct E as [E1 E2]. apply Nat.eqb_eq in E2.
    exfalso. apply H. apply in_map_iff. now exists e.
Qed.

Lemma lookup_in_ids F i : In i (forest_ids F) -> exists e, lookup F i = Some e.
Proof.
  intro H. destruct (lookup F i) as [e|] eqn:E; [now exists e|].
  apply lookup_none in E. contradiction.
Qed.

Lemma find_unique {A} (f : A -> nat) (l : list A) (x : A) :
  NoDup (map f l) -> In x l -> find (fun y => f y =? f x) l = Some x.
Proof.
  induction l as [|y l IH]; simpl; intros Hnd Hin; [contradiction|].
  inversion Hnd as [|? ? Hnotin Hnd']. subst.
  destruct Hin as [->|Hin].
  - now rewrite Nat.eqb_refl.
  - destruct (f y =? f x) eqn:E.
    + apply Nat.eqb_eq in E. exfalso. apply Hnotin. rewrite E.
      now apply in_map.
    + now apply IH.
Qed.

(** In a forest of distinct identities, an identity names its node. *)
Lemma lookup_member F n :
  NoDup (forest_ids F) -> In n (forest_nodes F) -> lookup F (eid n) = Some n.
Proof. intros Hnd Hin. unfold lookup. now apply find_unique. Qed.

Lemma lookup_root F t :
  NoDup (forest_ids F) -> In t F -> lookup F (eid t) = Some t.
Proof.
  intros Hnd Hin. apply lookup_member; [exact Hnd|].
  apply in_forest_nodes. exists t. split; [exact Hin|apply nodes_self].
Qed.

Lemma NoDup_app_l {A} (l1 l2 : list A) : NoDup (l1 ++ l2) -> NoDup l1.
Proof.
  induction l1 as [|x l1 IH]; simpl; intro H; [constructor|].
  inversion H as [|? ? Hn Hnd]. subst. constructor.
  - intro. apply Hn. apply in_or_app. now left.
  - now apply IH.
Qed.

Lemma NoDup_app_r {A} (l1 l2 : list A) : NoDup (l1 ++ l2) -> NoDup l2.
Proof.
  induction l1 as [|x l1 IH]; simpl; intro H; [exact H|].
  inversion H. now apply IH.
Qed.

Lemma NoDup_app_disjoint {A} (l1 l2 : list A) x :
  NoDup (l1 ++ l2) -> In x l1 -> In x l2 -> False.
Proof.
  induction l1 as [|y l1 IH]; simpl; intros H H1 H2; [contradiction|].
  inversion H as [|? ? Hn Hnd]. subst. destruct H1 as [->|H1].
  - apply Hn. apply in_or_app. now right.
  - now apply IH.
Qed.

Lemma NoDup_app_intro {A} (l1 l2 : list A) :
  NoDup l1 -> NoDup l2 -> (forall x, In x l1 -> In x l2 -> False) ->
  NoDup (l1 ++ l2).
Proof.
  induction l1 as [|y l1 IH]; simpl; intros H1 H2 Hd; [exact H2|].
  inversion H1 as [|? ? Hn Hnd]. subst. constructor.
  - intro Hin. apply in_app_or in Hin. destruct Hin as [Hin|Hin]; [contradiction|].
    apply (Hd y); auto.
  - apply IH; auto. intros x Hx1 Hx2. apply (Hd x); auto.
Qed.

Lemma NoDup_children (e : _Element) : NoDup (ids e) -> NoDup (forest_ids (children e)).
Proof. rewrite ids_unfold. intro H. now inversion H. Qed.

Lemma NoDup_member F t : NoDup (forest_ids F) -> In t F -> NoDup (ids t).
Proof.
  induction F as [|u F IH]; intros Hnd Hin; [destruct Hin|].
  rewrite forest_ids_cons in Hnd. destruct Hin as [->|Hin].
  - now apply NoDup_app_l in Hnd.
  - apply NoDup_app_r in Hnd. now apply IH.
Qed.

(** A subtree occupies a segment of the identities in document order. *)
Lemma lookup_segment F i e :
  lookup F i = Some e ->
  exists pre post, forest_ids F = pre ++ ids e ++ post.
Proof.
  revert i e. induction F as [|t F IHt IHF] using forest_ind'; intros i e H.
  - discriminate H.
  - rewrite lookup_cons in H. rewrite forest_ids_cons.
    destruct (eid t =? i) eqn:E.
    + inversion H. subst. exists [], (forest_ids F). reflexivity.
    + destruct (lookup (children t) i) as [e'|] eqn:L.
      * inversion H. subst. destruct (IHt i e L) as [pre [post Hseg]].
        exists (eid t :: pre), (post ++ forest_ids F).
        rewrite ids_unfold, Hseg. simpl. now rewrite <- !app_assoc.
      * destruct (IHF i e H) as [pre [post Hseg]].
        exists (ids t ++ pre), post. rewrite Hseg. now rewrite <- app_assoc.
Qed.

(* ================================================================== *)
(** * The forest: rewriting and pruning by identity *)
(* ================================================================== *)

Lemma set_children_same (e : _Element) : set_children (children e) e = e.
Proof. now destruct e. Qed.

Lemma ids_set_children cs (e : _Element) :
  ids (set_children cs e) = eid e :: forest_ids cs.
Proof. destruct e. reflexivity. Qed.

Lemma modify_unfold i g (t : _Element) :
  modify i g t
  = if eid t =? i then g t
    else set_children (forest_modify i g (children t)) t.
Proof. destruct t. reflexivity. Qed.

Lemma forest_modify_cons i g t F :
  forest_modify i g (t :: F) = modify i g t :: forest_modify i g F.
Proof. reflexivity. Qed.

Lemma forest_modify_app i g F G :
  forest_modify i g (F ++ G) = forest_modify i g F ++ forest_modify i g G.
Proof. apply map_app. Qed.

Lemma not_in_ids_inv i (t : _Element) :
  ~ In i (ids t) -> eid t <> i /\ ~ In i (forest_ids (children t)).
Proof. rewrite ids_unfold. simpl. tauto. Qed.

Lemma forest_modify_notin i g F :
  ~ In i (forest_ids F) -> forest_modify i g F = F.
Proof.
  induction F as [|t F IHt IHF] using forest_ind'; intro H; [reflexivity|].
  rewrite forest_ids_cons in H. rewrite forest_modify_cons.
  assert (Ht : ~ In i (ids t)) by (intro; apply H; apply in_or_app; now left).
  assert (HF : ~ In i (forest_ids F)) by (intro; apply H; apply in_or_app; now right).
  apply not_in_ids_inv in Ht. destruct Ht as [Hne Hcs].
  rewrite modify_unfold. apply Nat.eqb_neq in Hne. rewrite Hne.
  rewrite (IHt Hcs), set_children_same. now rewrite (IHF HF).
Qed.

Lemma modify_notin i g (t : _Element) : ~ In i (ids t) -> modify i g t = t.
Proof.
  intro H. assert (E : forest_modify i g [t] = [t]).
  { apply forest_modify_notin. now rewrite forest_ids_single. }
  rewrite forest_modify_cons in E. injection E as E. exact E.
Qed.

Lemma lookup_children_in_ids (t : _Element) i e :
  lookup (children t) i = Some e -> In i (ids t).
Proof.
  intro H. apply lookup_some in H. destruct H as [<- Hin].
  rewrite ids_unfold. right. unfold forest_ids. now apply in_map.
Qed.

(** Rewriting the object [p] changes the segment of its subtree. *)
Lemma forest_modify_segment F p g e :
  NoDup (forest_ids F) -> lookup F p = Some e ->
  exists pre post,
    forest_ids F = pre ++ ids e ++ post /\
    forest_ids (forest_modify p g F) = pre ++ ids (g e) ++ post.
Proof.
  revert e. induction F as [|t F IHt IHF] using forest_ind'; intros e Hnd H.
  - discriminate H.
  - rewrite lookup_cons in H. rewrite forest_ids_cons in Hnd.
    rewrite forest_modify_cons, !forest_ids_cons, modify_unfold.
    destruct (eid t =? p) eqn:E.
    + inversion H. subst e. apply Nat.eqb_eq in E.
      exists [], (forest_ids F). split; [reflexivity|].
      rewrite forest_modify_notin; [reflexivity|].
      intro Hin. apply (NoDup_app_disjoint _ _ p Hnd); [|exact Hin].
      rewrite <- E. apply eid_in_ids.
    + case_eq (lookup (children t) p); [intros e' L|intros L]; rewrite L in H.
      * inversion H. subst e'.
        assert (Hndc : NoDup (forest_ids (children t))).
        { apply NoDup_children. now apply NoDup_app_l in Hnd. }
        destruct (IHt e Hndc L) as [pre [post [H1 H2]]].
        exists (eid t :: pre), (post ++ forest_ids F). split.
        -- rewrite ids_unfold, H1. simpl. now rewrite <- !app_assoc.
        -- rewrite ids_set_children, H2. simpl.
           rewrite forest_modify_notin; [now rewrite <- !app_assoc|].
           intro Hin. apply (NoDup_app_disjoint _ _ p Hnd); [|exact Hin].
           now apply lookup_children_in_ids with e.
      * assert (Hcs : forest_modify p g (children t) = children t).
        { apply forest_modify_notin. now apply lookup_none. }
        rewrite Hcs, set_children_same.
        destruct (IHF e (NoDup_app_r _ _ Hnd) H) as [pre [post [H1 H2]]].
        exists (ids t ++ pre), post. rewrite H1, H2. now rewrite <- !app_assoc.
Qed.

Lemma prune_list_eq i (l : list _Element) :
  (fix prune_list (l : list _Element) : list _Element :=
     match l with
     | [] => []
     | c :: l' => if eid c =? i then prune_list l' else prune i c :: prune_list l'
     end) l = prune_list i l.
Proof. induction l as [|c l IH]; simpl; [reflexivity|]. now rewrite IH. Qed.

Lemma prune_unfold i (t : _Element) :
  prune i t = set_children (prune_list i (children t)) t.
Proof. destruct t. simpl. now rewrite prune_list_eq. Qed.

Lemma prune_list_cons i t F :
  prune_list i (t :: F)
  = if eid t =? i then prune_list i F else prune i t :: prune_list i F.
Proof. reflexivity. Qed.

Lemma prune_list_notin i F :
  ~ In i (forest_ids F) -> prune_list i F = F.
Proof.
  induction F as [|t F IHt IHF] using forest_ind'; intro H; [reflexivity|].
  rewrite forest_ids_cons in H. rewrite prune_list_cons.
  assert (Ht : ~ In i (ids t)) by (intro; apply H; apply in_or_app; now left).
  assert (HF : ~ In i (forest_ids F)) by (intro; apply H; apply in_or_app; now right).
  apply not_in_ids_inv in Ht. destruct Ht as [Hne Hcs].
  apply Nat.eqb_neq in Hne. rewrite Hne.
  rewrite prune_unfold, (IHt Hcs), set_children_same. now rewrite (IHF HF).
Qed.

Lemma prune_list_app i F G :
  prune_list i (F ++ G) = prune_list i F ++ prune_list i G.
Proof.
  induction F as [|t F IH]; [reflexivity|].
  rewrite <- app_comm_cons, !prune_list_cons.
  destruct (eid t =? i); rewrite IH; reflexivity.
Qed.

Lemma prune_list_app_notin i F G :
  ~ In i (forest_ids G) -> prune_list i (F ++ G) = prune_list i F ++ G.
Proof. intro H. now rewrite prune_list_app, (prune_list_notin _ _ H). Qed.

Lemma prune_list_app_notin_l i F G :
  ~ In i (forest_ids F) -> prune_list i (F ++ G) = F ++ prune_list i G.
Proof. intro H. now rewrite prune_list_app, (prune_list_notin _ _ H). Qed.

(** Pruning the object [i] takes the segment of its subtree out. *)
Lemma prune_segment F i s :
  NoDup (forest_ids F) -> lookup F i = Some s ->
  exists pre post,
    forest_ids F = pre ++ ids s ++ post /\
    forest_ids (prune_list i F) = pre ++ post.
Proof.
  revert s. induction F as [|t F IHt IHF] using forest_ind'; intros s Hnd H.
  - discriminate H.
  - rewrite lookup_cons in H. rewrite forest_ids_cons in Hnd.
    rewrite prune_list_cons, forest_ids_cons.
    destruct (eid t =? i) eqn:E.
    + inversion H. subst s. apply Nat.eqb_eq in E.
      exists [], (forest_ids F). split; [reflexivity|].
      rewrite prune_list_notin; [reflexivity|].
      intro Hin. apply (NoDup_app_disjoint _ _ i Hnd); [|exact Hin].
      rewrite <- E. apply eid_in_ids.
    + rewrite forest_ids_cons, prune_unfold, ids_set_children.
      case_eq (lookup (children t) i); [intros s' L|intros L]; rewrite L in H.
      * inversion H. subst s'.
        assert (Hndc : NoDup (forest_ids (children t))).
        { apply NoDup_children. now apply NoDup_app_l in Hnd. }
        destruct (IHt s Hndc L) as [pre [post [H1 H2]]].
        exists (eid t :: pre), (post ++ forest_ids F). split.
        -- rewrite ids_unfold, H1. simpl. now rewrite <- !app_assoc.
        -- rewrite H2. simpl.
           rewrite prune_list_notin; [now rewrite <- !app_assoc|].
           intro Hin. apply (NoDup_app_disjoint _ _ i Hnd); [|exact Hin].
           now apply lookup_children_in_ids with s.
      * rewrite (prune_list_notin i (children t)) by now apply lookup_none.
        destruct (IHF s (NoDup_app_r _ _ Hnd) H) as [pre [post [H1 H2]]].
        exists (ids t ++ pre), post. rewrite H1, H2, ids_unfold. simpl.
        now rewrite <- !app_assoc.
Qed.

(* ================================================================== *)
(** * Fresh copies *)
(* ================================================================== *)

Lemma relabel_list_eq (l : list _Element) (k : nat) :
  (fix relabel_list (l : list _Element) (k : nat) : list _Element * nat :=
     match l with
     | [] => ([], k)
     | c :: l' =>
         let (c', k1) := relabel c k in
         let (l'', k2) := relabel_list l' k1 in
         (c' :: l'', k2)
     end) l k = relabel_forest l k.
Proof.
  revert k. induction l as [|c l IH]; intro k; simpl; [reflexivity|].
  destruct (relabel c k) as [c' k1]. now rewrite IH.
Qed.

Lemma relabel_unfold i tg at_ tx tl cs n :
  relabel (Element i tg at_ tx tl cs) n
  = (Element n tg at_ tx tl (fst (relabel_forest cs (S n))),
     snd (relabel_forest cs (S n))).
Proof.
  simpl. rewrite relabel_list_eq. now destruct (relabel_forest cs (S n)).
Qed.

Lemma relabel_forest_cons c l k :
  relabel_forest (c :: l) k
  = (fst (relabel c k) :: fst (relabel_forest l (snd (relabel c k))),
     snd (relabel_forest l (snd (relabel c k)))).
Proof.
  simpl. destruct (relabel c k) as [c' k1]. simpl.
  now destruct (relabel_forest l k1).
Qed.

Lemma relabel_forest_spec (F : list _Element) :
  forall k,
    snd (relabel_forest F k) = k + length (forest_nodes F) /\
    forest_ids (fst (relabel_forest F k)) = seq k (length (forest_nodes F)) /\
    map erase (fst (relabel_forest F k)) = map erase F.
Proof.
  induction F as [|t F IHt IHF] using forest_ind'; intro k.
  - simpl. rewrite Nat.add_0_r. auto.
  - rewrite relabel_forest_cons. cbn [fst snd].
    destruct t as [i tg at_ tx tl cs]. rewrite relabel_unfold. cbn [fst snd].
    simpl children in IHt.
    destruct (IHt (S k)) as [H1 [H2 H3]].
    destruct (IHF (snd (relabel_forest cs (S k)))) as [G1 [G2 G3]].
    rewrite forest_nodes_cons, nodes_unfold, length_app. cbn [length].
    repeat split.
    + rewrite G1, H1. lia.
    + rewrite forest_ids_cons, ids_unfold. cbn [eid children].
      rewrite H2, G2, H1.
      replace (S (length (forest_nodes cs)) + length (forest_nodes F))
        with (S (length (forest_nodes cs) + length (forest_nodes F))) by lia.
      cbn [seq]. rewrite seq_app. reflexivity.
    + cbn [map erase]. rewrite G3. f_equal.
      change (Element 0 tg at_ tx tl (map erase (fst (relabel_forest cs (S k))))
              = Element 0 tg at_ tx tl (map erase cs)).
      now rewrite H3.
Qed.

(** A copy has the content of the original and the identities from [n]
    on, in document order. *)
Lemma relabel_spec (e : _Element) (n : nat) :
  snd (relabel e n) = n + size e /\
  ids (fst (relabel e n)) = seq n (size e) /\
  erase (fst (relabel e n)) = erase e /\
  eid (fst (relabel e n)) = n.
Proof.
  destruct (relabel_forest_spec [e] n) as [H1 [H2 H3]].
  rewrite relabel_forest_cons in *. cbn [fst snd relabel_forest] in *.
  unfold size. unfold forest_nodes in *. cbn [flat_map] in *.
  rewrite app_nil_r in *. rewrite forest_ids_single in H2.
  repeat split; auto.
  - cbn [map] in H3. now inversion H3.
  - destruct e. rewrite relabel_unfold. reflexivity.
Qed.

Lemma size_pos (e : _Element) : 0 < size e.
Proof. unfold size. destruct e. rewrite nodes_unfold. simpl. lia. Qed.

(* ================================================================== *)
(** * The heap stays well formed *)
(* ================================================================== *)

Lemma heap_wf_perm (F G : forest) (n m : nat) :
  heap_wf (Heap F n) -> Permutation (forest_ids F) (forest_ids G) -> n <= m ->
  heap_wf (Heap G m).
Proof.
  intros [Hnd Hlt] Hp Hle. simpl in *. split; simpl.
  - now apply (Permutation_NoDup Hp).
  - apply (Permutation_Forall Hp). eapply Forall_impl; [|exact Hlt].
    simpl. intros. lia.
Qed.

Lemma heap_wf_sub (F G : forest) (n m : nat) (extra : list nat) :
  heap_wf (Heap F n) -> Permutation (forest_ids F) (forest_ids G ++ extra) ->
  n <= m -> heap_wf (Heap G m).
Proof.
  intros [Hnd Hlt] Hp Hle. simpl in *. split; simpl.
  - apply (Permutation_NoDup Hp) in Hnd. now apply NoDup_app_l in Hnd.
  - apply (Permutation_Forall Hp) in Hlt. apply Forall_app in Hlt.
    destruct Hlt as [Hlt _]. eapply Forall_impl; [|exact Hlt]. simpl. intros. lia.
Qed.

Section BindInversion.
Variables A B : Type.

Lemma bindM_inv (m : M A) (k : A -> M B) h b h' :
  bindM m k h = Return (b, h') ->
  exists a h1, m h = Return (a, h1) /\ k a h1 = Return (b, h').
Proof.
  unfold bindM. destruct (m h) as [[a h1]| | |]; try discriminate.
  intro H. now exists a, h1.
Qed.

Lemma lift_inv (r : result A) h a h' :
  lift r h = Return (a, h') -> r = Return a /\ h' = h.
Proof.
  unfold lift. destruct r; try discriminate. intro H. inversion H. auto.
Qed.
End BindInversion.

Lemma deref_inv i h e h' :
  deref i h = Return (e, h') -> lookup (trees h) i = Some e /\ h' = h.
Proof.
  unfold deref. destruct (lookup (trees h) i); try discriminate.
  intro H. inversion H. auto.
Qed.

Lemma preserves_ret {A} (a : A) : preserves_wf (ret a).
Proof. intros h x h' Hwf H. inversion H. subst. auto. Qed.

Lemma preserves_raise {A} (e : exn) : preserves_wf (@raise A e).
Proof. intros h x h' Hwf H. discriminate. Qed.

Lemma preserves_out_of_fuel {A} : preserves_wf (@out_of_fuel A).
Proof. intros h x h' Hwf H. discriminate. Qed.

Lemma preserves_lift {A} (r : result A) : preserves_wf (lift r).
Proof. intros h x h' Hwf H. apply lift_inv in H. destruct H as [_ ->]. auto. Qed.

Lemma preserves_bind {A B} (m : M A) (k : A -> M B) :
  preserves_wf m -> (forall a, preserves_wf (k a)) -> preserves_wf (bindM m k).
Proof.
  intros Hm Hk h b h' Hwf H. apply bindM_inv in H.
  destruct H as [a [h1 [H1 H2]]].
  destruct (Hm _ _ _ Hwf H1) as [Hwf1 Hle1].
  destruct (Hk a _ _ _ Hwf1 H2) as [Hwf2 Hle2]. split; [exact Hwf2|lia].
Qed.

Lemma preserves_for_each {A} (l : list A) (body : A -> M unit) :
  (forall x, In x l -> preserves_wf (body x)) -> preserves_wf (for_each l body).
Proof.
  induction l as [|x l IH]; intro H.
  - apply preserves_ret.
  - simpl. apply preserves_bind; [apply H; now left|].
    intros _. apply IH. intros y Hy. apply H. now right.
Qed.

Lemma preserves_deref i : preserves_wf (deref i).
Proof. intros h x h' Hwf H. apply deref_inv in H. destruct H as [_ ->]. auto. Qed.

Lemma preserves_getparent i : preserves_wf (getparent i).
Proof. intros h x h' Hwf H. inversion H. subst. auto. Qed.

Lemma preserves_read {A} (f : heap -> A) : preserves_wf (fun h => Return (f h, h)).
Proof. intros h x h' Hwf H. inversion H. subst. auto. Qed.

(** A rewriting that keeps the identities of the subtree. *)
Lemma update_wf i g h a h' :
  (forall e, lookup (trees h) i = Some e -> ids (g e) = ids e) ->
  heap_wf h -> update i g h = Return (a, h') ->
  heap_wf h' /\ next_id h <= next_id h'.
Proof.
  intros Hg Hwf H. inversion H. subst. clear H. simpl. split; [|lia].
  destruct h as [F n]. simpl in *.
  destruct (lookup F i) as [e|] eqn:L.
  - destruct (forest_modify_segment F i g e (proj1 Hwf) L) as [pre [post [H1 H2]]].
    apply (heap_wf_perm F _ n n Hwf); [|lia].
    rewrite H1, H2, (Hg e eq_refl). apply Permutation_refl.
  - rewrite forest_modify_notin; [exact Hwf|]. now apply lookup_none.
Qed.

Lemma preserves_update i g :
  (forall e, ids (g e) = ids e) -> preserves_wf (update i g).
Proof.
  intros Hg h a h' Hwf H.
  apply (update_wf i g h a h' (fun e _ => Hg e) Hwf H).
Qed.

Lemma ids_set_attrib k v (e : _Element) : ids (set_attrib k v e) = ids e.
Proof. destruct e. reflexivity. Qed.

Lemma ids_set_tag v (e : _Element) : ids (set_tag v e) = ids e.
Proof. destruct e. reflexivity. Qed.

Lemma deepcopy_inv i h j h' :
  deepcopy i h = Return (j, h') ->
  exists e, lookup (trees h) i = Some e /\
            j = next_id h /\
            h' = Heap (trees h ++ [fst (relabel e (next_id h))])
                      (next_id h + size e).
Proof.
  unfold deepcopy. destruct (lookup (trees h) i) as [e|]; try discriminate.
  destruct (relabel_spec e (next_id h)) as [H1 [H2 [H3 H4]]].
  destruct (relabel e (next_id h)) as [e' n] eqn:R. simpl in *.
  intro H. inversion H. subst. exists e. rewrite R. repeat split; auto.
Qed.

Lemma fresh_tree_wf (F : forest) (n : nat) (e : _Element) :
  heap_wf (Heap F n) ->
  heap_wf (Heap (F ++ [fst (relabel e n)]) (n + size e)).
Proof.
  intros [Hnd Hlt]. simpl in *.
  destruct (relabel_spec e n) as [H1 [H2 [H3 H4]]].
  split; simpl; rewrite forest_ids_app, forest_ids_single, H2.
  - apply NoDup_app_intro; [exact Hnd|apply seq_NoDup|].
    intros x Hx Hs. apply in_seq in Hs.
    rewrite Forall_forall in Hlt. specialize (Hlt x Hx). simpl in Hlt. lia.
  - apply Forall_app. split.
    + eapply Forall_impl; [|exact Hlt]. simpl. intros. lia.
    + apply Forall_forall. intros x Hs. apply in_seq in Hs. simpl. lia.
Qed.

Lemma preserves_deepcopy i : preserves_wf (deepcopy i).
Proof.
  intros h j h' Hwf H. apply deepcopy_inv in H.
  destruct H as [e [L [-> ->]]]. simpl. split; [|lia].
  destruct h as [F n]. now apply fresh_tree_wf.
Qed.

Lemma el_remove_inv parent child h a h' :
  el_remove parent child h = Return (a, h') ->
  exists p c, lookup (trees h) parent = Some p /\ is_child child p = true /\
              lookup (trees h) child = Some c /\
              h' = Heap (forest_prune child (trees h) ++ [c]) (next_id h).
Proof.
  unfold el_remove. intro H. apply bindM_inv in H.
  destruct H as [p [h1 [H1 H2]]]. apply deref_inv in H1. destruct H1 as [L ->].
  destruct (is_child child p) eqn:C; [|discriminate].
  apply bindM_inv in H2. destruct H2 as [c [h2 [H2 H3]]].
  apply deref_inv in H2. destruct H2 as [L2 ->].
  inversion H3. subst. now exists p, c.
Qed.

Lemma preserves_el_remove parent child : preserves_wf (el_remove parent child).
Proof.
  intros h a h' Hwf H. apply el_remove_inv in H.
  destruct H as [p [c [Lp [Hc [Lc ->]]]]]. simpl. split; [|lia].
  destruct h as [F n]. simpl in *. unfold forest_prune.
  destruct (prune_segment F child c (proj1 Hwf) Lc) as [pre [post [H1 H2]]].
  apply (heap_wf_perm F _ n n Hwf); [|lia].
  rewrite forest_ids_app, forest_ids_single, H1, H2.
  rewrite <- app_assoc. apply Permutation_app_head. apply Permutation_app_comm.
Qed.

Lemma forest_ids_list_insert idx c cs :
  Permutation (forest_ids (list_insert idx c cs)) (ids c ++ forest_ids cs).
Proof.
  unfold list_insert. rewrite forest_ids_app, forest_ids_cons.
  rewrite <- (firstn_skipn idx cs) at 3. rewrite forest_ids_app.
  rewrite !app_assoc. apply Permutation_app_tail. apply Permutation_app_comm.
Qed.

Lemma el_insert_inv parent index child h a h' :
  el_insert parent index child h = Return (a, h') ->
  exists c, lookup (trees h) child = Some c /\
            h' = Heap (forest_modify parent
                         (fun p => set_children (list_insert index c (children p)) p)
                         (forest_prune child (trees h)))
                      (next_id h).
Proof.
  unfold el_insert. intro H. apply bindM_inv in H.
  destruct H as [c [h1 [H1 H2]]]. apply deref_inv in H1. destruct H1 as [L ->].
  inversion H2. subst. now exists c.
Qed.

Lemma preserves_el_insert parent index child :
  preserves_wf (el_insert parent index child).
Proof.
  intros h a h' Hwf H. apply el_insert_inv in H.
  destruct H as [c [Lc ->]]. simpl. split; [|lia].
  destruct h as [F n]. simpl in *. unfold forest_prune.
  destruct (prune_segment F child c (proj1 Hwf) Lc) as [pre [post [H1 H2]]].
  assert (Hwf1 : heap_wf (Heap (prune_list child F) n)).
  { apply (heap_wf_sub F _ n n (ids c) Hwf); [|lia].
    rewrite H1, H2. rewrite <- app_assoc. apply Permutation_app_head.
    apply Permutation_app_comm. }
  destruct (lookup (prune_list child F) parent) as [p|] eqn:Lp.
  - destruct (forest_modify_segment (prune_list child F) parent
                (fun p => set_children (list_insert index c (children p)) p)
                p (proj1 Hwf1) Lp) as [pre' [post' [G1 G2]]].
    apply (heap_wf_perm F _ n n Hwf); [|lia].
    rewrite G2, ids_set_children, H1.
    rewrite H2 in G1.
    apply Permutation_trans with (ids c ++ (pre ++ post)).
    + rewrite app_assoc.
      apply Permutation_trans with ((ids c ++ pre) ++ post);
        [|now rewrite app_assoc].
      apply Permutation_app_tail. apply Permutation_app_comm.
    + rewrite G1.
      apply Permutation_trans with (pre' ++ (ids c ++ ids p) ++ post').
      * rewrite <- !app_assoc.
        apply Permutation_trans with ((ids c ++ pre') ++ ids p ++ post');
          [now rewrite <- app_assoc|].
        apply Permutation_trans with ((pre' ++ ids c) ++ ids p ++ post');
          [|now rewrite <- app_assoc].
        apply Permutation_app_tail. apply Permutation_app_comm.
      * apply Permutation_app_head. apply Permutation_app_tail.
        rewrite (ids_unfold p).
        apply Permutation_trans with (eid p :: ids c ++ forest_ids (children p)).
        -- apply Permutation_sym. apply Permutation_middle.
        -- apply perm_skip. apply Permutation_sym. apply forest_ids_list_insert.
  - rewrite forest_modify_notin; [exact Hwf1|]. now apply lookup_none.
Qed.

(* ================================================================== *)
(** * The engine keeps the heap well formed *)
(* ================================================================== *)

Lemma bind_inv {A B} (m : result A) (k : A -> result B) b :
  bind m k = Return b -> exists a, m = Return a /\ k a = Return b.
Proof. destruct m; simpl; try discriminate. intro H. now exists a. Qed.

(** The rewrite of tokens keeps the nodes and their order. *)
Lemma expand_tokens_for_el_ids tokens e e' :
  _expand_tokens_for_el e tokens = Return e' -> ids e' = ids e.
Proof.
  revert e'. induction e as [i tg at_ tx tl cs IH] using element_rect'.
  intros e' H. cbn [_expand_tokens_for_el] in H.
  apply bind_inv in H. destruct H as [tx' [_ H]].
  apply bind_inv in H. destruct H as [at' [_ H]].
  apply bind_inv in H. destruct H as [cs' [Hcs H]].
  inversion H. subst e'. clear H. rewrite !ids_unfold. cbn [eid children].
  f_equal.
  destruct (is_empty tokens); [now inversion Hcs|].
  revert cs' Hcs. induction IH as [|c cs Hc _ IHcs]; intros cs' Hcs.
  - now inversion Hcs.
  - apply bind_inv in Hcs. destruct Hcs as [c' [Hc' Hcs]].
    apply bind_inv in Hcs. destruct Hcs as [l'' [Hl Hcs]].
    inversion Hcs. subst cs'. rewrite !forest_ids_cons.
    now rewrite (Hc _ Hc'), (IHcs _ Hl).
Qed.

Lemma expand_tokens_ids tokens l l' :
  _expand_tokens l tokens = Return l' -> forest_ids l' = forest_ids l.
Proof.
  unfold _expand_tokens. destruct (is_empty tokens); [now inversion 1|].
  revert l'. induction l as [|e l IH]; intros l' H.
  - now inversion H.
  - cbn [map_result] in H.
    apply bind_inv in H. destruct H as [e' [He H]].
    apply bind_inv in H. destruct H as [l'' [Hl H]].
    inversion H. subst l'. rewrite !forest_ids_cons.
    now rewrite (expand_tokens_for_el_ids _ _ _ He), (IH _ Hl).
Qed.

Lemma preserves_in_place i (proc : _Element -> result _Element) :
  (forall e e', proc e = Return e' -> ids e' = ids e) ->
  preserves_wf (in_place i proc).
Proof.
  intros Hproc h a h' Hwf H. unfold in_place in H.
  apply bindM_inv in H. destruct H as [e [h1 [H1 H]]].
  apply deref_inv in H1. destruct H1 as [L ->].
  apply bindM_inv in H. destruct H as [e' [h2 [H2 H]]].
  apply lift_inv in H2. destruct H2 as [H2 ->].
  apply (update_wf i (fun _ => e') h a h'); auto.
  intros e0 L0. rewrite L in L0. inversion L0. subst. now apply Hproc.
Qed.

Lemma preserves_insert_copies parent_el targets :
  forall current_index, preserves_wf (insert_copies parent_el current_index targets).
Proof.
  induction targets as [|t targets IH]; intro idx; simpl.
  - apply preserves_ret.
  - apply preserves_bind; [apply preserves_deepcopy|]. intro copy.
    apply preserves_bind; [apply preserves_el_insert|]. intros _. apply IH.
Qed.

Lemma preserves_xml_replace query targets : preserves_wf (_xml_replace query targets).
Proof.
  unfold _xml_replace. apply preserves_bind.
  - apply (preserves_read (fun h => parent_of (trees h) query)).
  - intros [p|]; [|apply preserves_raise].
    destruct (index_of query (children p)); [|apply preserves_raise].
    apply preserves_bind; [apply preserves_insert_copies|].
    intros _. apply preserves_el_remove.
Qed.

Lemma preserves_expand_yield_statements macro_def expand_el :
  preserves_wf (_expand_yield_statements macro_def expand_el).
Proof.
  unfold _expand_yield_statements.
  apply preserves_bind; [apply preserves_deref|]. intro md.
  apply preserves_bind; [apply preserves_deref|]. intro ex.
  apply preserves_for_each. intros y _. apply preserves_xml_replace.
Qed.

Lemma preserves_expand_macro {py : Interpreter} expand_macros element expand_el macros tokens :
  (forall els, preserves_wf (expand_macros els macros tokens)) ->
  preserves_wf (_expand_macro expand_macros element expand_el macros tokens).
Proof.
  intro Hrec. unfold _expand_macro.
  apply preserves_bind; [apply preserves_deref|]. intro ex.
  destruct (get_attr ex "macro") as [macro_name|]; [|apply preserves_raise].
  destruct (dict_get name_eqb macros (Some macro_name)) as [macro_def|].
  - apply preserves_bind; [apply preserves_deepcopy|]. intro copy_id.
    apply preserves_bind; [apply preserves_expand_yield_statements|]. intros _.
    apply preserves_bind; [apply preserves_deref|]. intro copy.
    apply preserves_bind; [apply Hrec|]. intros _.
    apply preserves_bind; [apply preserves_deref|]. intro ex'.
    apply preserves_bind; [apply preserves_lift|]. intro mt.
    apply preserves_bind.
    + destruct (is_empty mt); [apply preserves_ret|].
      apply preserves_in_place. intros e e' H.
      apply bind_inv in H. destruct H as [cs [Hcs H]]. inversion H. subst e'.
      rewrite ids_set_children, ids_unfold. f_equal.
      now apply expand_tokens_ids with mt.
    + intros _. apply preserves_bind; [apply preserves_deref|]. intro copy'.
      apply preserves_xml_replace.
  - destruct (str_keys (dict_keys macros)); apply preserves_raise.
Qed.

Lemma preserves_expand_while {py : Interpreter} expand_macros n element macros tokens :
  (forall els, preserves_wf (expand_macros els macros tokens)) ->
  preserves_wf (expand_while expand_macros n element macros tokens).
Proof.
  intro Hrec. induction n as [|n IH]; simpl.
  - apply preserves_out_of_fuel.
  - apply preserves_bind; [apply preserves_deref|]. intro e.
    destruct (find_descendant "expand" e) as [expand_el|]; [|apply preserves_ret].
    apply preserves_bind; [now apply preserves_expand_macro|]. intros _. exact IH.
Qed.

Lemma preserves_expand_macros {py : Interpreter} fuel :
  forall elements macros tokens,
    preserves_wf (_expand_macros fuel elements macros tokens).
Proof.
  induction fuel as [|fuel IH]; intros elements macros tokens; simpl.
  - apply preserves_out_of_fuel.
  - destruct (is_empty macros && is_empty tokens); [apply preserves_ret|].
    apply preserves_for_each. intros element _.
    apply preserves_expand_while. intro els. apply IH.
Qed.

Section LoadWf.
Variable parse_xml : string -> bool -> option _Element.

Lemma parse_inv path rc h j h' :
  parse parse_xml path rc h = Return (j, h') ->
  exists e, parse_xml path rc = Some e /\
            j = next_id h /\
            h' = Heap (trees h ++ [fst (relabel e (next_id h))])
                      (next_id h + size e).
Proof.
  unfold parse. destruct (parse_xml path rc) as [e|]; try discriminate.
  destruct (relabel_spec e (next_id h)) as [H1 [H2 [H3 H4]]].
  destruct (relabel e (next_id h)) as [e' n] eqn:R. simpl in *.
  intro H. inversion H. subst. exists e. rewrite R. repeat split; auto.
Qed.

Lemma preserves_parse path rc : preserves_wf (parse parse_xml path rc).
Proof.
  intros h j h' Hwf H. apply parse_inv in H.
  destruct H as [e [_ [-> ->]]]. simpl. split; [|lia].
  destruct h as [F n]. now apply fresh_tree_wf.
Qed.

Lemma preserves_load_attribute_typed macros_el :
  preserves_wf (load_attribute_typed macros_el).
Proof.
  unfold load_attribute_typed. destruct macros_el as [m|]; [|apply preserves_ret].
  apply preserves_bind; [apply preserves_deref|]. intro me.
  apply preserves_bind; [|intros _; apply preserves_ret].
  apply preserves_for_each. intros macro _.
  apply preserves_bind; [apply preserves_deref|]. intro e.
  destruct (get_attr e "type"); [apply preserves_ret|].
  apply preserves_update. apply ids_set_attrib.
Qed.

Lemma preserves_load_shortcut macros_el tg :
  preserves_wf (load_shortcut macros_el tg).
Proof.
  unfold load_shortcut. destruct macros_el as [m|]; [|apply preserves_ret].
  apply preserves_bind; [apply preserves_deref|]. intro me.
  apply preserves_bind; [|intros _; apply preserves_ret].
  apply preserves_for_each. intros macro _.
  apply preserves_bind; [apply preserves_update; apply ids_set_attrib|].
  intros _. apply preserves_update. apply ids_set_tag.
Qed.

Lemma preserves_load_embedded_macros macros_el xml_base_dir :
  preserves_wf (_load_embedded_macros macros_el xml_base_dir).
Proof.
  unfold _load_embedded_macros.
  apply preserves_bind; [apply preserves_load_attribute_typed|]. intro a.
  apply preserves_bind; [apply preserves_load_shortcut|]. intro b.
  apply preserves_bind; [apply preserves_load_shortcut|]. intro c.
  apply preserves_bind; [apply preserves_load_shortcut|]. intro d.
  apply preserves_ret.
Qed.

Lemma preserves_load_imported_loop load_macros paths xml_base_dir :
  (forall m b, preserves_wf (load_macros m b)) ->
  forall macros macro_paths,
    preserves_wf (load_imported_loop parse_xml load_macros paths xml_base_dir
                    macros macro_paths).
Proof.
  intro Hrec. induction paths as [|[rel|] paths IH]; intros macros macro_paths; simpl.
  - apply preserves_ret.
  - apply preserves_bind.
    + unfold _load_macro_file. apply preserves_bind; [apply preserves_parse|].
      intro root. apply Hrec.
    + intro r. apply IH.
  - apply preserves_raise.
Qed.

Lemma preserves_load_macros fuel :
  forall macros_el xml_base_dir,
    preserves_wf (_load_macros parse_xml fuel macros_el xml_base_dir).
Proof.
  induction fuel as [|fuel IH]; intros macros_el xml_base_dir; simpl.
  - apply preserves_out_of_fuel.
  - apply preserves_bind.
    + unfold _load_imported_macros. apply preserves_bind.
      * destruct macros_el as [m|]; [|apply preserves_ret].
        apply preserves_bind; [apply preserves_deref|]. intro. apply preserves_ret.
      * intro paths. apply preserves_load_imported_loop. exact IH.
    + intro r. apply preserves_bind; [apply preserves_load_embedded_macros|].
      intro. apply preserves_ret.
Qed.

Lemma preserves_xml_set_children element new_children :
  preserves_wf (_xml_set_children element new_children).
Proof.
  unfold _xml_set_children.
  apply preserves_bind; [apply preserves_deref|]. intro e.
  apply preserves_bind.
  - apply preserves_for_each. intros. apply preserves_el_remove.
  - intros _. apply preserves_for_each. intros. apply preserves_el_insert.
Qed.

Lemma preserves_import_macros fuel root path :
  preserves_wf (_import_macros parse_xml fuel root path).
Proof.
  unfold _import_macros.
  apply preserves_bind; [apply preserves_deref|]. intro r.
  destruct (_macros_el r) as [macros_el|]; [|apply preserves_ret].
  apply preserves_bind; [apply preserves_load_macros|]. intro lm.
  apply preserves_bind; [apply preserves_xml_set_children|]. intros _.
  apply preserves_ret.
Qed.

Lemma preserves_remove_macros els : preserves_wf (remove_macros els).
Proof.
  unfold remove_macros. apply preserves_for_each. intros el _.
  apply preserves_bind; [apply preserves_deref|]. intro e.
  destruct (type_is "template" e); [apply preserves_ret|].
  apply preserves_bind; [apply preserves_getparent|].
  intros [p|]; [apply preserves_el_remove|apply preserves_raise].
Qed.

(** The whole of [load_with_references] keeps the heap well formed. *)
Lemma preserves_load_with_references {py : Interpreter} fuel path :
  preserves_wf (load_with_references parse_xml fuel path).
Proof.
  unfold load_with_references, raw_xml_tree.
  apply preserves_bind; [apply preserves_parse|]. intro root.
  apply preserves_bind; [apply preserves_import_macros|]. intro macro_paths.
  apply preserves_bind; [apply preserves_deref|]. intro r.
  apply preserves_bind; [apply preserves_lift|]. intro tokens.
  apply preserves_bind; [apply preserves_deref|]. intro r1.
  apply preserves_bind; [apply preserves_expand_macros|]. intros _.
  apply preserves_bind; [apply preserves_deref|]. intro r2.
  apply preserves_bind; [apply preserves_remove_macros|]. intros _.
  apply preserves_bind.
  - apply preserves_in_place. intros e e'. apply expand_tokens_for_el_ids.
  - intros _. apply preserves_ret.
Qed.

End LoadWf.

Lemma empty_heap_wf : heap_wf (Heap [] 0).
Proof. split; simpl; constructor. Qed.

(* ================================================================== *)
(** * Placeholders that name no macro *)
(* ================================================================== *)

Lemma startswith_app_l (k s q : string) :
  PyStr.startswith k s = true -> PyStr.startswith k (s ++ q) = true.
Proof.
  revert s. induction k as [|a k IH]; intros [|b s]; simpl; intro H;
    try reflexivity; try discriminate.
  apply andb_true_iff in H. destruct H as [H1 H2].
  rewrite H1. simpl. now apply IH.
Qed.

Lemma startswith_refl (k q : string) : PyStr.startswith k (k ++ q) = true.
Proof.
  induction k as [|a k IH]; simpl; [reflexivity|].
  now rewrite Ascii.eqb_refl.
Qed.

Lemma contains_unfold (k s : string) :
  PyStr.contains k s
  = PyStr.startswith k s
    || match s with
       | EmptyString => false
       | String _ s' => PyStr.contains k s'
       end.
Proof. now destruct s. Qed.

Lemma contains_app_r (k p s : string) :
  PyStr.contains k s = true -> PyStr.contains k (p ++ s) = true.
Proof.
  intro H. induction p as [|a p IH]; [exact H|].
  cbn [append]. rewrite contains_unfold, IH. apply orb_true_r.
Qed.

Lemma contains_app_l (k s q : string) :
  PyStr.contains k s = true -> PyStr.contains k (s ++ q) = true.
Proof.
  induction s as [|a s IH]; intro H.
  - rewrite contains_unfold in H. rewrite orb_false_r in H.
    destruct k; [|discriminate]. now destruct q.
  - rewrite contains_unfold in H. apply orb_true_iff in H.
    cbn [append]. rewrite contains_unfold. apply orb_true_iff.
    destruct H as [H|H].
    + left. now apply (startswith_app_l k (String a s) q).
    + right. now apply IH.
Qed.

Lemma append_empty_r (s : string) : (s ++ "")%string = s.
Proof. induction s; simpl; congruence. Qed.

Lemma contains_self (k q : string) : PyStr.contains k (k ++ q) = true.
Proof. rewrite contains_unfold, startswith_refl. reflexivity. Qed.

(** Every name of the list shows in the joined string. *)
Lemma contains_join (sep k : string) (l : list string) :
  In k l -> PyStr.contains k (PyStr.join sep l) = true.
Proof.
  induction l as [|x l IH]; intro H; [destruct H|].
  destruct l as [|y l].
  - destruct H as [->|[]]. cbn [PyStr.join].
    rewrite <- (append_empty_r k) at 2. apply contains_self.
  - change (PyStr.join sep (x :: y :: l))
      with (x ++ sep ++ PyStr.join sep (y :: l))%string.
    destruct H as [->|H].
    + apply contains_self.
    + apply contains_app_r, contains_app_r. now apply IH.
Qed.

Lemma no_macro_named_lists (macro_name : string) (known : list string) (k : string) :
  In k known -> PyStr.contains k (no_macro_named macro_name known) = true.
Proof.
  intro H. unfold no_macro_named.
  do 3 apply contains_app_r. apply contains_app_l. now apply contains_join.
Qed.

Lemma find_descendant_node t e ex :
  find_descendant t e = Some ex -> In ex (nodes e) /\ tag ex = t.
Proof.
  unfold find_descendant, descendants. intro H. apply find_some in H.
  destruct H as [H1 H2]. unfold has_tag in H2. apply String.eqb_eq in H2.
  split; [|exact H2]. destruct e as [i tg at_ tx tl cs]. rewrite nodes_unfold.
  now right.
Qed.

(** In a well-formed heap the placeholder found in an element is the
    object that its identity names. *)
Lemma lookup_found h element e t ex :
  heap_wf h -> lookup (trees h) element = Some e ->
  find_descendant t e = Some ex ->
  lookup (trees h) (eid ex) = Some ex.
Proof.
  intros [Hnd _] L Hf. apply lookup_member; [exact Hnd|].
  apply lookup_some in L. destruct L as [_ Hin].
  apply find_descendant_node in Hf. destruct Hf as [Hex _].
  now apply (proj2 nodes_trans (trees h) e ex).
Qed.

Lemma expand_macro_no_attribute {py : Interpreter} expand_macros element expand_el macros tokens h ex :
  lookup (trees h) expand_el = Some ex ->
  get_attr ex "macro" = None ->
  _expand_macro expand_macros element expand_el macros tokens h
  = Raise (AssertionError
             "Attempted to expand macro with no 'macro' attribute defined.").
Proof.
  intros L Hattr. unfold _expand_macro, bindM, deref. rewrite L, Hattr. reflexivity.
Qed.

Lemma expand_macro_unknown {py : Interpreter} expand_macros element expand_el macros tokens h ex
    macro_name known :
  lookup (trees h) expand_el = Some ex ->
  get_attr ex "macro" = Some macro_name ->
  dict_get name_eqb macros (Some macro_name) = None ->
  str_keys (dict_keys macros) = Some known ->
  _expand_macro expand_macros element expand_el macros tokens h
  = Raise (AssertionError (no_macro_named macro_name known)).
Proof.
  intros L Hattr Hget Hkeys. unfold _expand_macro, bindM, deref.
  rewrite L, Hattr, Hget, Hkeys. reflexivity.
Qed.

Lemma expand_macros_unfold {py : Interpreter} fuel elements macros tokens :
  _expand_macros (S fuel) elements macros tokens
  = if is_empty macros && is_empty tokens then ret tt
    else for_each elements
           (fun element =>
              expand_while (_expand_macros fuel) fuel element macros tokens).
Proof. reflexivity. Qed.

Lemma expand_while_unfold {py : Interpreter} rec n element macros tokens :
  expand_while rec (S n) element macros tokens
  = bindM (deref element)
      (fun e => match find_descendant "expand" e with
                | None => ret tt
                | Some expand_el =>
                    bindM (_expand_macro rec element (eid expand_el) macros tokens)
                          (fun _ => expand_while rec n element macros tokens)
                end).
Proof. reflexivity. Qed.

Lemma expand_while_first_raises {py : Interpreter} rec n element macros tokens h e ex err :
  lookup (trees h) element = Some e ->
  find_descendant "expand" e = Some ex ->
  _expand_macro rec element (eid ex) macros tokens h = Raise err ->
  expand_while rec (S n) element macros tokens h = Raise err.
Proof.
  intros L Hf Hraise. rewrite expand_while_unfold.
  unfold bindM at 1. unfold deref. rewrite L, Hf.
  unfold bindM. now rewrite Hraise.
Qed.

(** The first round of [_expand_macros] on its first element. *)
Lemma expand_macros_first_round {py : Interpreter} fuel element rest macros tokens h e ex :
  is_empty macros && is_empty tokens = false ->
  lookup (trees h) element = Some e ->
  find_descendant "expand" e = Some ex ->
  forall err,
    _expand_macro (_expand_macros (S fuel)) element (eid ex) macros tokens h
    = Raise err ->
    _expand_macros (S (S fuel)) (element :: rest) macros tokens h = Raise err.
Proof.
  intros Hne L Hf err Hraise.
  rewrite expand_macros_unfold, Hne. cbn [for_each].
  unfold bindM at 1.
  now rewrite (expand_while_first_raises _ fuel element macros tokens h e ex err).
Qed.

(** C4, counterexample: with an empty catalog and an empty token table
    [_expand_macros] returns at once, and a placeholder that names no
    macro stays in the tree without an error. *)
Lemma empty_catalog_and_table_expand_nothing :
  ~ unknown_placeholder_always_fails.
Proof.
  intro H.
  destruct (H 0 (Heap [Element 0 "tool" [] None None
                         [Element 1 "expand" [("macro", "m")] None None []]] 2)
              0
              (Element 0 "tool" [] None None
                 [Element 1 "expand" [("macro", "m")] None None []])
              (Element 1 "expand" [("macro", "m")] None None [])
              [] [] []) as [msg [E _]].
  - split; simpl.
    + repeat constructor; simpl; intuition discriminate.
    + repeat constructor.
  - reflexivity.
  - reflexivity.
  - reflexivity.
  - right. exists "m". split; reflexivity.
  - discriminate E.
Qed.

(** C4, amended: when the catalog or the token table is not empty, the
    first placeholder that the expansion finds raises an assertion error
    if it has no [macro] attribute (the message lists no macro) or if it
    names a macro that the catalog does not have; in the second case the
    message names the macro asked for and lists every name of the catalog.
    With an empty catalog and an empty token table the expansion returns
    at once and leaves the heap as it is. *)
Theorem unknown_placeholder_fails {py : Interpreter} :
  (forall (fuel : nat) (h : heap) (element : nat) (rest : list nat)
          (e ex : _Element) (macros : macro_catalog) (tokens : token_table),
      heap_wf h ->
      lookup (trees h) element = Some e ->
      find_descendant "expand" e = Some ex ->
      is_empty macros && is_empty tokens = false ->
      (get_attr ex "macro" = None ->
       _expand_macros (S (S fuel)) (element :: rest) macros tokens h
       = Raise (AssertionError
                  "Attempted to expand macro with no 'macro' attribute defined.")) /\
      (forall name known,
          get_attr ex "macro" = Some name ->
          dict_get name_eqb macros (Some name) = None ->
          str_keys (dict_keys macros) = Some known ->
          _expand_macros (S (S fuel)) (element :: rest) macros tokens h
          = Raise (AssertionError (no_macro_named name known)) /\
          PyStr.contains name (no_macro_named name known) = true /\
          forall k, In k known ->
                    PyStr.contains k (no_macro_named name known) = true)) /\
  (forall (fuel : nat) (elements : list nat) (h : heap),
      _expand_macros (S fuel) elements [] [] h = Return (tt, h)).
Proof.
  split.
  - intros fuel h element rest e ex macros tokens Hwf L Hf Hne.
    assert (Lex : lookup (trees h) (eid ex) = Some ex)
      by now apply (lookup_found h element e "expand" ex).
    split.
    + intro Hattr.
      apply (expand_macros_first_round fuel element rest macros tokens h e ex
               Hne L Hf).
      now apply expand_macro_no_attribute with ex.
    + intros name known Hattr Hget Hkeys. split; [|split].
      * apply (expand_macros_first_round fuel element rest macros tokens h e ex
                 Hne L Hf).
        now apply expand_macro_unknown with ex.
      * unfold no_macro_named. apply contains_app_r. apply contains_self.
      * intros k Hk. now apply no_macro_named_lists.
  - intros fuel elements h. reflexivity.
Qed.

Lemma unknown_placeholder_fails_witness :
  _expand_macros 2 [0]
    [(Some "a", XmlMacroDef.Build_t 5 []); (Some "b", XmlMacroDef.Build_t 6 [])] []
    (Heap [Element 0 "tool" [] None None
             [Element 1 "expand" [("macro", "m")] None None []]] 2)
  = Raise (AssertionError "No macro named m found, known macros are a, b.").
Proof.
  refine (proj1 (proj2 (proj1 unknown_placeholder_fails 0
     (Heap [Element 0 "tool" [] None None
              [Element 1 "expand" [("macro", "m")] None None []]] 2)
     0 []
     (Element 0 "tool" [] None None
        [Element 1 "expand" [("macro", "m")] None None []])
     (Element 1 "expand" [("macro", "m")] None None [])
     [(Some "a", XmlMacroDef.Build_t 5 []); (Some "b", XmlMacroDef.Build_t 6 [])] []
     _ eq_refl eq_refl eq_refl) "m" ["a"; "b"] eq_refl eq_refl eq_refl)).
  split; simpl.
  - repeat constructor; simpl; intuition discriminate.
  - repeat constructor.
Defined.

(* ================================================================== *)
(** * Content and identities *)
(* ================================================================== *)

Lemma erase_unfold (e : _Element) :
  erase e = Element 0 (tag e) (attrib e) (text e) (tail e) (map erase (children e)).
Proof. destruct e. reflexivity. Qed.

Lemma erase_tag (a b : _Element) : erase a = erase b -> tag a = tag b.
Proof. rewrite !erase_unfold. now inversion 1. Qed.

Lemma erase_attrib (a b : _Element) : erase a = erase b -> attrib a = attrib b.
Proof. rewrite !erase_unfold. now inversion 1. Qed.

Lemma erase_text (a b : _Element) : erase a = erase b -> text a = text b.
Proof. rewrite !erase_unfold. now inversion 1. Qed.

Lemma erase_children (a b : _Element) :
  erase a = erase b -> map erase (children a) = map erase (children b).
Proof. rewrite !erase_unfold. now inversion 1. Qed.

Lemma erase_type_is t (a b : _Element) : erase a = erase b -> type_is t a = type_is t b.
Proof. intro H. unfold type_is, get_attr. now rewrite (erase_attrib a b H). Qed.

Lemma find_child_none_erase t (a b : _Element) :
  erase a = erase b -> find_child t a = None -> find_child t b = None.
Proof.
  intros H. apply erase_children in H. unfold find_child.
  revert H. generalize (children a) (children b).
  induction l as [|x l IH]; intros [|y l'] H; simpl in *; try discriminate; auto.
  inversion H as [[Hxy Hl]]. unfold has_tag at 1 3.
  rewrite (erase_tag x y Hxy). destruct (String.eqb (tag y) t); [discriminate|].
  now apply IH.
Qed.

(** The nodes of a tree and of a copy of it correspond. *)
Lemma nodes_erase_forest (F G : list _Element) :
  map erase F = map erase G ->
  map erase (forest_nodes F) = map erase (forest_nodes G).
Proof.
  revert G. induction F as [|t F IHt IHF] using forest_ind'; intros [|u G] H;
    try discriminate; [reflexivity|].
  cbn [map] in H. inversion H as [[Htu HFG]].
  rewrite !forest_nodes_cons, !map_app. rewrite (IHF G HFG). f_equal.
  destruct t as [i tg at_ tx tl cs], u as [j tg' at' tx' tl' cs'].
  rewrite !nodes_unfold. cbn [map]. f_equal; [exact Htu|].
  apply IHt. simpl. apply erase_children in Htu. exact Htu.
Qed.

Lemma nodes_erase (a b : _Element) :
  erase a = erase b -> map erase (nodes a) = map erase (nodes b).
Proof.
  intro H. generalize (nodes_erase_forest [a] [b]).
  unfold forest_nodes. cbn [flat_map map]. rewrite !app_nil_r.
  intro G. apply G. now rewrite H.
Qed.

Lemma node_of_copy (a b n : _Element) :
  erase a = erase b -> In n (nodes a) -> exists m, In m (nodes b) /\ erase m = erase n.
Proof.
  intros H Hn. apply nodes_erase in H.
  assert (Hin : In (erase n) (map erase (nodes a))) by now apply in_map.
  rewrite H in Hin. apply in_map_iff in Hin. destruct Hin as [m [E Hm]].
  now exists m.
Qed.

Lemma str_free_nil s : str_free [] s = true.
Proof. reflexivity. Qed.

Lemma placeholder_free_nil (e : _Element) : placeholder_free [] e = true.
Proof.
  induction e as [i tg at_ tx tl cs IH] using element_rect'.
  cbn [placeholder_free].
  assert (Htx : match tx with
                | None => true
                | Some EmptyString => true
                | Some s => str_free [] s
                end = true) by (destruct tx as [[|? ?]|]; reflexivity).
  rewrite Htx. cbn [andb].
  assert (Hat : forallb (fun kv : string * string => str_free [] (snd kv)) at_ = true)
    by (induction at_; simpl; auto).
  rewrite Hat. cbn [andb].
  induction IH as [|c cs Hc _ IHcs]; [reflexivity|].
  now rewrite Hc, IHcs.
Qed.

(** With an empty table the rewrite changes nothing. *)
Lemma expand_tokens_for_el_nil (e : _Element) : _expand_tokens_for_el e [] = Return e.
Proof. apply expand_tokens_for_el_free, placeholder_free_nil. Qed.

(* ================================================================== *)
(** * Documents without a macro container *)
(* ================================================================== *)

Lemma lookup_single (e : _Element) : lookup [e] (eid e) = Some e.
Proof. rewrite lookup_cons, Nat.eqb_refl. reflexivity. Qed.

Lemma modify_self (e e' : _Element) : modify (eid e) (fun _ => e') e = e'.
Proof. rewrite modify_unfold, Nat.eqb_refl. reflexivity. Qed.

Lemma bindM_step {A B} (m : M A) (k : A -> M B) (h : heap) (a : A) (h1 : heap) :
  m h = Return (a, h1) -> bindM m k h = k a h1.
Proof. intro H. unfold bindM. now rewrite H. Qed.

Lemma for_each_skip {A} (l : list A) (body : A -> M unit) (h : heap) :
  (forall x, In x l -> body x h = Return (tt, h)) ->
  for_each l body h = Return (tt, h).
Proof.
  induction l as [|x l IH]; intro H; [reflexivity|].
  cbn [for_each]. unfold bindM. rewrite (H x (or_introl eq_refl)).
  apply IH. intros y Hy. apply H. now right.
Qed.

(** Where every macro element is of the template kind, the removal loop
    takes nothing out. *)
Lemma remove_macros_all_templates (h : heap) (r : _Element) :
  heap_wf h -> In r (forest_nodes (trees h)) ->
  (forall n, In n (nodes r) -> tag n = "macro" -> type_is "template" n = true) ->
  remove_macros (map eid (xpath_all "macro" r)) h = Return (tt, h).
Proof.
  intros [Hnd _] Hr Hall. unfold remove_macros.
  apply for_each_skip. intros el Hel.
  apply in_map_iff in Hel. destruct Hel as [n [<- Hn]].
  unfold xpath_all in Hn. apply filter_In in Hn. destruct Hn as [Hn Htag].
  unfold has_tag in Htag. apply String.eqb_eq in Htag.
  unfold bindM, deref.
  rewrite (lookup_member (trees h) n Hnd).
  - now rewrite (Hall n Hn Htag).
  - now apply (proj2 nodes_trans (trees h) r n).
Qed.

Section NoContainer.
Variable parse_xml : string -> bool -> option _Element.

(** C6, amended: for a document without a macro container in which every
    element tagged [macro] has the type [template], [load] and
    [load_with_references] return the parsed tree with its content as it
    was, and [load_with_references] returns [None] for the import paths. *)
Theorem load_without_container {py : Interpreter} (fuel : nat) (path : string) (doc : _Element) :
  parse_xml path true = Some doc ->
  _macros_el doc = None ->
  (forall n, In n (nodes doc) -> tag n = "macro" -> type_is "template" n = true) ->
  run (load_with_references parse_xml (S fuel) path)
  = Return ((0, None), Heap [fst (relabel doc 0)] (size doc)) /\
  run (load parse_xml (S fuel) path)
  = Return (0, Heap [fst (relabel doc 0)] (size doc)) /\
  erase (fst (relabel doc 0)) = erase doc.
Proof.
  intros Hparse Hnone Hall.
  destruct (relabel_spec doc 0) as [Hn [Hids [Herase Heid]]].
  set (d := fst (relabel doc 0)) in *.
  set (h := Heap [d] (size doc)).
  assert (Hwf : heap_wf h).
  { apply (fresh_tree_wf [] 0 doc). apply empty_heap_wf. }
  assert (Hlook : lookup (trees h) 0 = Some d).
  { simpl. rewrite <- Heid. apply lookup_single. }
  assert (Hparse' : raw_xml_tree parse_xml path (Heap [] 0) = Return (0, h)).
  { unfold raw_xml_tree, parse. rewrite Hparse. cbn [next_id trees app].
    destruct (relabel doc 0) as [d' n'] eqn:R. cbn [fst snd] in *.
    subst d. rewrite Heid. unfold h. now rewrite Hn. }
  assert (Hd : _macros_el d = None).
  { unfold _macros_el in *. apply (find_child_none_erase "macros" doc d); auto. }
  assert (Himport : _import_macros parse_xml (S fuel) 0 path h = Return (None, h)).
  { unfold _import_macros, bindM, deref. rewrite Hlook, Hd. reflexivity. }
  assert (Htok : forall V (f : _Element -> V), _macros_of_type d "token" f = []).
  { intros V f. unfold _macros_of_type. unfold _macros_el in Hd. now rewrite Hd. }
  assert (Hxml : forall V (f : _Element -> V), _macros_of_type d "xml" f = []).
  { intros V f. unfold _macros_of_type. unfold _macros_el in Hd. now rewrite Hd. }
  assert (Hrm : remove_macros (map eid (xpath_all "macro" d)) h = Return (tt, h)).
  { apply remove_macros_all_templates; auto.
    - simpl. unfold forest_nodes. simpl. rewrite app_nil_r. apply nodes_self.
    - intros n Hin Htag.
      destruct (node_of_copy d doc n Herase Hin) as [m [Hm Em]].
      rewrite <- (erase_type_is "template" m n Em). apply Hall; auto.
      now rewrite (erase_tag m n Em). }
  assert (Hin_place : in_place 0 (fun e => _expand_tokens_for_el e []) h
                      = Return (tt, h)).
  { unfold in_place, bindM, deref. rewrite Hlook.
    rewrite expand_tokens_for_el_nil. cbn [lift]. unfold update, h.
    cbn [trees next_id forest_modify map]. rewrite <- Heid at 1.
    now rewrite modify_self. }
  assert (Hrun : run (load_with_references parse_xml (S fuel) path)
                 = Return ((0, None), h)).
  { assert (Hderef : deref 0 h = Return (d, h)).
    { unfold deref. now rewrite Hlook. }
    unfold run, load_with_references.
    rewrite (bindM_step _ _ _ _ _ Hparse').
    rewrite (bindM_step _ _ _ _ _ Himport).
    rewrite (bindM_step _ _ _ _ _ Hderef).
    rewrite Htok.
    rewrite (bindM_step (lift (snd (expand_nested_tokens []))) _ h [] h eq_refl).
    rewrite (bindM_step _ _ _ _ _ Hderef).
    rewrite Hxml.
    rewrite (bindM_step (_expand_macros (S fuel) [0] [] []) _ h tt h eq_refl).
    rewrite (bindM_step _ _ _ _ _ Hderef).
    rewrite (bindM_step _ _ _ _ _ Hrm).
    rewrite (bindM_step _ _ _ _ _ Hin_place).
    reflexivity. }
  split; [exact Hrun|]. split; [|exact Herase].
  unfold run, load, bindM. unfold run in Hrun. now rewrite Hrun.
Qed.

End NoContainer.

(** C6, counterexample: the document [<tool><macro/></tool>] has no macro
    container; its [macro] element is removed all the same, and the
    import paths are [None], not the empty list. *)
Lemma stray_macro_removed_and_no_list :
  ~ no_container_gives_same_tree_and_no_paths
      (fun path _ =>
         if String.eqb path "tool.xml"
         then Some (Element 0 "tool" [] None None
                      [Element 0 "macro" [("name", "x")] None None []])
         else None).
Proof.
  intro H.
  destruct (H 0 "tool.xml"
              (Element 0 "tool" [] None None
                 [Element 0 "macro" [("name", "x")] None None []])
              eq_refl eq_refl) as [root [h [E _]]].
  vm_compute in E. discriminate E.
Qed.

(** What the run of the counterexample returns. *)
Example stray_macro_run :
  run (load_with_references
         (fun path _ =>
            if String.eqb path "tool.xml"
            then Some (Element 0 "tool" [] None None
                         [Element 0 "macro" [("name", "x")] None None []])
            else None) 1 "tool.xml")
  = Return ((0, None),
            Heap [Element 0 "tool" [] None None [];
                  Element 1 "macro" [("name", "x")] None None []] 2).
Proof. reflexivity. Qed.

Lemma load_without_container_witness :
  run (load_with_references
         (fun path _ =>
            if String.eqb path "tool.xml"
            then Some (Element 0 "tool" [] None None
                         [Element 0 "inputs" [("x", "@A@")] (Some "t") None []])
            else None) 1 "tool.xml")
  = Return ((0, None),
            Heap [Element 0 "tool" [] None None
                    [Element 1 "inputs" [("x", "@A@")] (Some "t") None []]] 2).
Proof.
  refine (proj1 (load_without_container
            (fun path _ =>
               if String.eqb path "tool.xml"
               then Some (Element 0 "tool" [] None None
                            [Element 0 "inputs" [("x", "@A@")] (Some "t") None []])
               else None) 0 "tool.xml"
            (Element 0 "tool" [] None None
               [Element 0 "inputs" [("x", "@A@")] (Some "t") None []])
            eq_refl eq_refl _)).
  intros n [<-|[<-|[]]]; discriminate.
Defined.

(* ================================================================== *)
(** * Tables under which the rewrite is idempotent *)
(* ================================================================== *)

Lemma apart_tail a k v : apart (String a k) v = true -> apart k v = true.
Proof.
  induction v as [|c v IH]; [reflexivity|]. cbn [apart occurs].
  intro H. apply andb_true_iff in H. destruct H as [H1 H2].
  apply negb_true_iff in H1. apply orb_false_iff in H1. destruct H1 as [_ H1].
  rewrite H1. cbn [negb andb]. now apply IH.
Qed.

Lemma apart_head a k b v : apart (String a k) (String b v) = true -> Ascii.eqb a b = false.
Proof.
  cbn [apart occurs]. intro H. apply andb_true_iff in H. destruct H as [H1 _].
  apply negb_true_iff in H1. apply orb_false_iff in H1. destruct H1 as [H1 _].
  now rewrite Ascii.eqb_sym.
Qed.

Lemma replace_from_cons old new c s :
  PyStr.replace_from old new 0 (String c s)
  = if PyStr.startswith old (String c s)
    then (new ++ PyStr.replace_from old new (String.length old - 1) s)%string
    else String c (PyStr.replace_from old new 0 s).
Proof. reflexivity. Qed.

(** Where the rewritten string starts with [k], the string did. *)
Lemma startswith_replaced old v k :
  v <> EmptyString -> apart k v = true ->
  forall s,
    PyStr.startswith k (PyStr.replace_from old v 0 s) = true ->
    PyStr.startswith k s = true.
Proof.
  intros Hv. induction k as [|a k IH]; intros Hap s H; [reflexivity|].
  destruct s as [|c s]; [discriminate H|].
  rewrite replace_from_cons in H.
  destruct (PyStr.startswith old (String c s)) eqn:Mt.
  - destruct v as [|b v]; [congruence|]. cbn [append PyStr.startswith] in H.
    rewrite (apart_head _ _ _ _ Hap) in H. discriminate H.
  - cbn [PyStr.startswith] in *. apply andb_true_iff in H. destruct H as [H1 H2].
    rewrite H1. cbn [andb]. apply IH; [now apply (apart_tail a)|exact H2].
Qed.

Lemma contains_cons sub c s :
  PyStr.contains sub (String c s)
  = PyStr.startswith sub (String c s) || PyStr.contains sub s.
Proof. reflexivity. Qed.

Lemma contains_after_value a k v X :
  apart (String a k) v = true -> PyStr.contains (String a k) X = false ->
  PyStr.contains (String a k) (v ++ X)%string = false.
Proof.
  intros Hap HX. induction v as [|b v IH]; [exact HX|].
  cbn [append]. rewrite contains_cons. cbn [PyStr.startswith].
  rewrite (apart_head _ _ _ _ Hap). cbn [andb orb]. apply IH.
  cbn [apart] in Hap. apply andb_true_iff in Hap. apply Hap.
Qed.

(** After the replacement of [old] by [v] the string has no [old]. *)
Lemma replaced_free_of_old old v :
  old <> EmptyString -> v <> EmptyString -> apart old v = true ->
  forall s n, PyStr.contains old (PyStr.replace_from old v n s) = false.
Proof.
  intros Ho Hv Hap. destruct old as [|a old]; [congruence|].
  induction s as [|c s IH]; intro n; [reflexivity|].
  destruct n as [|n]; [|apply IH].
  rewrite replace_from_cons.
  destruct (PyStr.startswith (String a old) (String c s)) eqn:Mt.
  - apply contains_after_value; [exact Hap|apply IH].
  - rewrite contains_cons, IH, orb_false_r.
    destruct (PyStr.startswith (String a old)
                (String c (PyStr.replace_from (String a old) v 0 s))) eqn:S1;
      [|reflexivity].
    rewrite <- Mt. symmetry.
    apply (startswith_replaced (String a old) v (String a old) Hv Hap).
    now rewrite replace_from_cons, Mt.
Qed.

(** And no other placeholder that it did not have before. *)
Lemma replaced_free_of_other old v k :
  k <> EmptyString -> v <> EmptyString -> apart k v = true ->
  forall s n,
    PyStr.contains k s = false ->
    PyStr.contains k (PyStr.replace_from old v n s) = false.
Proof.
  intros Hk Hv Hap. destruct k as [|a k]; [congruence|].
  induction s as [|c s IH]; intros n Hs; [exact Hs|].
  rewrite contains_cons in Hs. apply orb_false_iff in Hs. destruct Hs as [Hs1 Hs2].
  destruct n as [|n]; [|now apply IH].
  rewrite replace_from_cons.
  destruct (PyStr.startswith old (String c s)) eqn:Mt.
  - apply contains_after_value; [exact Hap|now apply IH].
  - rewrite contains_cons, (IH 0 Hs2), orb_false_r.
    destruct (PyStr.startswith (String a k)
                (String c (PyStr.replace_from old v 0 s))) eqn:S1;
      [|reflexivity].
    rewrite <- Hs1. symmetry.
    apply (startswith_replaced old v (String a k) Hv Hap).
    now rewrite replace_from_cons, Mt.
Qed.

Section Separated.
Variable tokens : token_table.
Hypothesis Hsep : separated tokens = true.

Lemma separated_entry k v :
  In (k, v) tokens ->
  exists key, k = Some key /\ key <> EmptyString /\
              forall k' v', In (k', v') tokens ->
                            v' <> EmptyString /\ apart key v' = true.
Proof.
  intro Hin. unfold separated in Hsep. rewrite forallb_forall in Hsep.
  specialize (Hsep (k, v) Hin). cbn [fst] in Hsep.
  destruct k as [key|]; [|discriminate]. exists key. split; [reflexivity|].
  apply andb_true_iff in Hsep. destruct Hsep as [H1 H2].
  apply negb_true_iff in H1. apply String.eqb_neq in H1. split; [exact H1|].
  intros k' v' Hin'. rewrite forallb_forall in H2.
  specialize (H2 (k', v') Hin'). cbn [snd] in H2.
  apply andb_true_iff in H2. destruct H2 as [H3 H4].
  apply negb_true_iff in H3. apply String.eqb_neq in H3. now split.
Qed.

(** The loop of [_expand_tokens_str]: the string is free of the
    placeholders it has gone through. *)
Lemma expand_tokens_str_loop (rest : token_table) :
  forall (done : list string) (s s' : string),
    incl rest tokens ->
    (forall key, In key done ->
       (exists v, In (Some key, v) tokens) /\ PyStr.contains key s = false) ->
    _expand_tokens_str s rest = Return s' ->
    (forall key, In key done -> PyStr.contains key s' = false) /\
    (forall key v, In (Some key, v) rest -> PyStr.contains key s' = false).
Proof.
  induction rest as [|[[key|] v] rest IH]; intros done s s' Hincl Hdone H;
    cbn [_expand_tokens_str] in H; [| |discriminate].
  - inversion H. subst. split; [intros key Hk; now apply Hdone|intros key v []].
  - assert (Hin : In (Some key, v) tokens) by (apply Hincl; now left).
    destruct (separated_entry _ _ Hin) as [key' [E [Hkey Hall]]].
    inversion E. subst key'. clear E.
    destruct (Hall _ _ Hin) as [Hv Hkv].
    assert (Hrest : incl rest tokens).
    { intros x Hx. apply Hincl. now right. }
    destruct (IH (key :: done)
                (if PyStr.contains key s then PyStr.replace s key v else s) s' Hrest)
      as [H1 H2].
    + intros k [<-|Hk].
      * split; [now exists v|].
        destruct (PyStr.contains key s) eqn:C; [|exact C].
        destruct key as [|a key]; [congruence|]. unfold PyStr.replace.
        now apply replaced_free_of_old.
      * destruct (Hdone k Hk) as [[vk Hvk] Hfree]. split; [now exists vk|].
        destruct (PyStr.contains key s) eqn:C; [|exact Hfree].
        destruct (separated_entry _ _ Hvk) as [k' [E [Hk' Hall']]].
        inversion E. subst k'. clear E.
        destruct key as [|a key]; [congruence|]. unfold PyStr.replace.
        apply replaced_free_of_other; auto. apply (Hall' _ _ Hin).
    + destruct (PyStr.contains key s); exact H.
    + split.
      * intros k Hk. apply H1. now right.
      * intros k vk [Ek|Hk].
        -- inversion Ek. subst. apply H1. now left.
        -- now apply (H2 k vk).
Qed.

Lemma expand_tokens_str_frees s s' :
  _expand_tokens_str s tokens = Return s' -> str_free tokens s' = true.
Proof.
  intro H.
  destruct (expand_tokens_str_loop tokens [] s s' (incl_refl _)) as [_ H2];
    [intros key []|exact H|].
  unfold str_free. apply forallb_forall. intros [k v] Hin. cbn [fst].
  destruct (separated_entry _ _ Hin) as [key [-> _]].
  now rewrite (H2 key v Hin).
Qed.

End Separated.

Lemma expand_tokens_attrib_frees tokens (at_ : dict string string) :
  (forall s s', _expand_tokens_str s tokens = Return s' -> str_free tokens s' = true) ->
  forall at', expand_tokens_attrib at_ tokens = Return at' ->
              forallb (fun kv : string * string => str_free tokens (snd kv)) at' = true.
Proof.
  intro Hstr. unfold expand_tokens_attrib.
  induction at_ as [|[k v] at_ IH]; intros at' H; cbn [map_result] in H.
  - inversion H. reflexivity.
  - apply bind_inv in H. destruct H as [y [Hy H]].
    apply bind_inv in Hy. destruct Hy as [nv [Hnv Hy]]. inversion Hy. subst y.
    apply bind_inv in H. destruct H as [ys [Hys H]]. inversion H. subst at'.
    cbn [forallb snd]. rewrite (Hstr _ _ Hnv). cbn [andb]. now apply IH.
Qed.

(** With such a table the rewritten tree has no placeholder left. *)
Lemma expand_tokens_for_el_frees tokens :
  (forall s s', _expand_tokens_str s tokens = Return s' -> str_free tokens s' = true) ->
  forall e e', _expand_tokens_for_el e tokens = Return e' ->
               placeholder_free tokens e' = true.
Proof.
  intro Hstr. destruct tokens as [|kv0 tokens0] eqn:Et.
  { intros. apply placeholder_free_nil. }
  rewrite <- Et in *. assert (Hne : is_empty tokens = false) by now rewrite Et.
  clear Et.
  induction e as [i tg at_ tx tl cs IH] using element_rect'. intros e' H.
  cbn [_expand_tokens_for_el] in H. rewrite Hne in H.
  apply bind_inv in H. destruct H as [new_text [Htx H]].
  apply bind_inv in H. destruct H as [new_attrib [Hat H]].
  apply bind_inv in H. destruct H as [new_children [Hcs H]].
  inversion H. subst e'. clear H. cbn [placeholder_free].
  apply andb_true_iff. split; [apply andb_true_iff; split|].
  - destruct tx as [[|c s]|]; try (inversion Htx; reflexivity).
    apply bind_inv in Htx. destruct Htx as [nv [Hnv Htx]]. inversion Htx.
    destruct nv; [reflexivity|]. now apply (Hstr _ _ Hnv).
  - now apply (expand_tokens_attrib_frees tokens at_ Hstr).
  - clear Htx Hat. revert new_children Hcs.
    induction IH as [|c cs Hc _ IHcs]; intros new_children Hcs.
    + inversion Hcs. reflexivity.
    + apply bind_inv in Hcs. destruct Hcs as [c' [Hc' Hcs]].
      apply bind_inv in Hcs. destruct Hcs as [l'' [Hl Hcs]].
      inversion Hcs. subst new_children.
      rewrite (Hc c' Hc'). cbn [andb]. now apply IHcs.
Qed.

(** C7, counterexample: with the one token [@A@ -> "@"] the text [@A@A@]
    becomes [@A@] in the first rewrite, where the replacement meets the
    rest of the text, and [@] in the second. *)
Lemma tree_rewrite_regenerates_placeholder :
  ~ tree_rewrite_idempotent_on_resolved_tables.
Proof.
  intro H.
  specialize (H [(Some "@A@", "@")]
                (Element 0 "a" [] (Some "@A@A@") None [])
                (Element 0 "a" [] (Some "@A@") None [])
                (Element 0 "a" [] (Some "@") None [])).
  assert (E : Element 0 "a" [] (Some "@") None []
              = Element 0 "a" [] (Some "@A@") None []).
  { apply H; try reflexivity.
    - repeat constructor. simpl. tauto.
    - intros k v k' [Hin|[]] [Hk|[]] Hne. inversion Hin. subst.
      simpl in Hk. congruence. }
  discriminate E.
Qed.

(** C7, amended: a second rewrite with the same table gives the tree of
    the first, provided the first left no placeholder of the table in a
    text or in an attribute value.  It leaves none, whatever the tree,
    when the table is separated: its placeholders are strings that are
    not empty, its values are not empty, and no character of a value is
    a character of a placeholder.  That no value contains a placeholder
    is not enough. *)
Theorem tree_rewrite_idempotent (tokens : token_table) (t t1 : _Element) :
  _expand_tokens_for_el t tokens = Return t1 ->
  (placeholder_free tokens t1 = true ->
   _expand_tokens_for_el t1 tokens = Return t1) /\
  (separated tokens = true ->
   placeholder_free tokens t1 = true /\
   _expand_tokens_for_el t1 tokens = Return t1).
Proof.
  intro H. split.
  - apply expand_tokens_for_el_free.
  - intro Hsep.
    assert (Hfree : placeholder_free tokens t1 = true).
    { apply (expand_tokens_for_el_frees tokens
               (expand_tokens_str_frees tokens Hsep) t t1 H). }
    split; [exact Hfree|now apply expand_tokens_for_el_free].
Qed.

Lemma tree_rewrite_idempotent_witness :
  _expand_tokens_for_el
    (Element 0 "a" [("x", "v1.0")] (Some "1.0 and 2") None
       [Element 1 "b" [] (Some "2") None []])
    [(Some "@V@", "1.0"); (Some "@W@", "2")]
  = Return (Element 0 "a" [("x", "v1.0")] (Some "1.0 and 2") None
              [Element 1 "b" [] (Some "2") None []]).
Proof.
  apply (proj2 (tree_rewrite_idempotent
                  [(Some "@V@", "1.0"); (Some "@W@", "2")]
                  (Element 0 "a" [("x", "v@V@")] (Some "@V@ and @W@") None
                     [Element 1 "b" [] (Some "@W@") None []])
                  (Element 0 "a" [("x", "v1.0")] (Some "1.0 and 2") None
                     [Element 1 "b" [] (Some "2") None []])
                  eq_refl)).
  reflexivity.
Defined.

(* ================================================================== *)
(** * Replacing an element by copies: one [_xml_replace] *)
(* ================================================================== *)

Lemma splice_list_eq y L (l : list _Element) :
  (fix splice_children (l : list _Element) : list _Element :=
     match l with
     | [] => []
     | c :: l' =>
         if eid c =? y then L ++ splice_children l'
         else splice y L c :: splice_children l'
     end) l = splice_list y L l.
Proof. induction l as [|c l IH]; simpl; [reflexivity|]. now rewrite IH. Qed.

Lemma splice_unfold y L (t : _Element) :
  splice y L t = set_children (splice_list y L (children t)) t.
Proof. destruct t. simpl. now rewrite splice_list_eq. Qed.

Lemma splice_list_cons y L c l :
  splice_list y L (c :: l)
  = if eid c =? y then L ++ splice_list y L l
    else splice y L c :: splice_list y L l.
Proof. reflexivity. Qed.

Lemma splice_list_app y L l1 l2 :
  splice_list y L (l1 ++ l2) = splice_list y L l1 ++ splice_list y L l2.
Proof.
  induction l1 as [|c l1 IH]; [reflexivity|].
  rewrite <- app_comm_cons, !splice_list_cons, IH.
  destruct (eid c =? y); [now rewrite app_assoc|reflexivity].
Qed.

Lemma splice_list_notin y L F :
  ~ In y (forest_ids F) -> splice_list y L F = F.
Proof.
  induction F as [|t F IHt IHF] using forest_ind'; intro H; [reflexivity|].
  rewrite forest_ids_cons in H. rewrite splice_list_cons.
  assert (Ht : ~ In y (ids t)) by (intro; apply H; apply in_or_app; now left).
  assert (HF : ~ In y (forest_ids F)) by (intro; apply H; apply in_or_app; now right).
  apply not_in_ids_inv in Ht. destruct Ht as [Hne Hcs].
  apply Nat.eqb_neq in Hne. rewrite Hne.
  rewrite splice_unfold, (IHt Hcs), set_children_same. now rewrite (IHF HF).
Qed.

Lemma splice_notin y L (t : _Element) : ~ In y (ids t) -> splice y L t = t.
Proof.
  intro H. apply not_in_ids_inv in H. destruct H as [_ H].
  rewrite splice_unfold, (splice_list_notin y L _ H). apply set_children_same.
Qed.

Lemma eid_set_children cs (e : _Element) : eid (set_children cs e) = eid e.
Proof. now destruct e. Qed.

Lemma children_set_children cs (e : _Element) : children (set_children cs e) = cs.
Proof. now destruct e. Qed.

Lemma eid_modify p g (t : _Element) :
  (forall e, eid (g e) = eid e) -> eid (modify p g t) = eid t.
Proof.
  intro Hg. rewrite modify_unfold. destruct (eid t =? p); [apply Hg|].
  apply eid_set_children.
Qed.

Lemma prune_notin y (t : _Element) : ~ In y (ids t) -> prune y t = t.
Proof.
  intro H. apply not_in_ids_inv in H. destruct H as [_ H].
  rewrite prune_unfold, (prune_list_notin y _ H). apply set_children_same.
Qed.

Lemma eid_prune y (t : _Element) : eid (prune y t) = eid t.
Proof. rewrite prune_unfold. apply eid_set_children. Qed.

(** The position of a child and the list around it. *)
Lemma index_of_split y (cs : list _Element) i0 :
  index_of y cs = Some i0 ->
  exists pre yn post,
    cs = pre ++ yn :: post /\ length pre = i0 /\ eid yn = y /\
    ~ In y (map eid pre).
Proof.
  revert i0. induction cs as [|c cs IH]; intros i0 H; [discriminate|].
  simpl in H. destruct (eid c =? y) eqn:E.
  - inversion H. subst. apply Nat.eqb_eq in E.
    exists [], c, cs. simpl. tauto.
  - destruct (index_of y cs) as [j|]; [|discriminate].
    inversion H. subst. destruct (IH j eq_refl) as [pre [yn [post [H1 [H2 [H3 H4]]]]]].
    exists (c :: pre), yn, post. subst cs. simpl. repeat split; auto.
    intros [Hc|Hin]; [|contradiction]. apply Nat.eqb_neq in E. contradiction.
Qed.

Lemma is_child_index y (p : _Element) :
  is_child y p = true -> exists i0, index_of y (children p) = Some i0.
Proof.
  unfold is_child. induction (children p) as [|c cs IH]; simpl; [discriminate|].
  destruct (eid c =? y); [now exists 0|]. simpl. intro H.
  destruct (IH H) as [j Hj]. rewrite Hj. now exists (S j).
Qed.

Lemma index_is_child y (p : _Element) i0 :
  index_of y (children p) = Some i0 -> is_child y p = true.
Proof.
  unfold is_child. revert i0. induction (children p) as [|c cs IH]; simpl;
    intros i0 H; [discriminate|].
  destruct (eid c =? y); [reflexivity|]. simpl.
  destruct (index_of y cs) as [j|]; [|discriminate]. now apply (IH j).
Qed.

Lemma insert_after_split {A} (pre post L : list A) (x : A) :
  insert_after (length pre) L (pre ++ x :: post) = pre ++ x :: L ++ post.
Proof.
  unfold insert_after.
  replace (S (length pre)) with (length (pre ++ [x]))
    by (rewrite length_app; simpl; lia).
  replace (pre ++ x :: post) with ((pre ++ [x]) ++ post)
    by now rewrite <- app_assoc.
  rewrite firstn_app, skipn_app, firstn_all, skipn_all, Nat.sub_diag.
  simpl. rewrite app_nil_r. now rewrite <- !app_assoc.
Qed.

(** The successive [insert]s of the loop put the copies after the
    element, in their order. *)
Lemma list_insert_step {A} (idx : nat) (L l : list A) (c : A) :
  S idx <= length l ->
  list_insert (S idx + length L) c (insert_after idx L l)
  = insert_after idx (L ++ [c]) l.
Proof.
  intro Hle. unfold list_insert, insert_after.
  assert (Hlen : length (firstn (S idx) l ++ L) = S idx + length L).
  { rewrite length_app, firstn_length_le by exact Hle. reflexivity. }
  rewrite app_assoc. rewrite <- Hlen.
  rewrite firstn_app, skipn_app, firstn_all, skipn_all, Nat.sub_diag.
  simpl. rewrite app_nil_r. now rewrite <- !app_assoc.
Qed.

Lemma insert_after_nil {A} (idx : nat) (l : list A) : insert_after idx [] l = l.
Proof. unfold insert_after. cbn [app]. apply firstn_skipn. Qed.

Lemma forest_modify_compose p g1 g2 F :
  (forall e, eid (g1 e) = eid e) ->
  forest_modify p g2 (forest_modify p g1 F)
  = forest_modify p (fun e => g2 (g1 e)) F.
Proof.
  intro Hg. induction F as [|t F IHt IHF] using forest_ind'; [reflexivity|].
  rewrite !forest_modify_cons, IHF. f_equal.
  rewrite (modify_unfold p g1 t), (modify_unfold p (fun e => g2 (g1 e)) t).
  destruct (eid t =? p) eqn:E.
  - rewrite modify_unfold, Hg, E. reflexivity.
  - rewrite modify_unfold, eid_set_children, E, children_set_children, IHt.
    now destruct t.
Qed.

Lemma forest_modify_ext p g1 g2 F :
  (forall e, eid e = p -> g1 e = g2 e) ->
  forest_modify p g1 F = forest_modify p g2 F.
Proof.
  intro Hg. induction F as [|t F IHt IHF] using forest_ind'; [reflexivity|].
  rewrite !forest_modify_cons, IHF. f_equal.
  rewrite !modify_unfold. destruct (eid t =? p) eqn:E.
  - apply Hg. now apply Nat.eqb_eq.
  - now rewrite IHt.
Qed.

Lemma forest_modify_id p F :
  forest_modify p (fun e => e) F = F.
Proof.
  induction F as [|t F IHt IHF] using forest_ind'; [reflexivity|].
  rewrite forest_modify_cons, IHF. f_equal.
  rewrite modify_unfold. destruct (eid t =? p); [reflexivity|].
  rewrite IHt. apply set_children_same.
Qed.

Lemma child_id_strict (c q : _Element) y :
  In q (nodes c) -> is_child y q = true -> In y (forest_ids (children c)).
Proof.
  intros Hq Hy. unfold is_child in Hy. apply existsb_exists in Hy.
  destruct Hy as [yn [Hyn E]]. apply Nat.eqb_eq in E. subst y.
  assert (Hin : In yn (forest_nodes (children c))).
  { destruct c as [i tg at_ tx tl cs]. rewrite nodes_unfold in Hq. cbn [children].
    destruct Hq as [<-|Hq].
    - cbn [children] in Hyn. apply in_forest_nodes. exists yn.
      split; [exact Hyn|apply nodes_self].
    - apply (proj2 nodes_trans cs q yn Hq).
      apply (child_nodes_incl q yn Hyn). apply nodes_self. }
  unfold forest_ids. now apply in_map.
Qed.

Lemma child_id_in_ids (q : _Element) y : is_child y q = true -> In y (ids q).
Proof.
  intro H. rewrite ids_unfold. right.
  apply (child_id_strict q q y (nodes_self q) H).
Qed.

Lemma child_not_self (c q : _Element) y :
  NoDup (ids c) -> In q (nodes c) -> is_child y q = true -> eid c <> y.
Proof.
  intros Hnd Hq Hy E. rewrite ids_unfold in Hnd. inversion Hnd as [|? ? Hn _].
  apply Hn. rewrite E. now apply (child_id_strict c q y).
Qed.

(** Two trees of a forest of distinct identities share no identity. *)
Lemma members_disjoint F r r' x :
  NoDup (forest_ids F) -> In r F -> In r' F -> In x (ids r) -> In x (ids r') ->
  r = r'.
Proof.
  induction F as [|t F IH]; intros Hnd Hr Hr' Hx Hx'; [destruct Hr|].
  rewrite forest_ids_cons in Hnd.
  destruct Hr as [->|Hr], Hr' as [->|Hr'].
  - reflexivity.
  - exfalso. apply (NoDup_app_disjoint _ _ x Hnd Hx).
    now apply (member_ids_incl r' F).
  - exfalso. apply (NoDup_app_disjoint _ _ x Hnd Hx').
    now apply (member_ids_incl r F).
  - apply IH; auto. now apply NoDup_app_r in Hnd.
Qed.

Lemma lookup_children_node (t : _Element) i e :
  lookup (children t) i = Some e -> In e (nodes t).
Proof.
  intro H. apply lookup_some in H. destruct H as [_ H].
  destruct t. rewrite nodes_unfold. now right.
Qed.

Section SpliceStructure.
Variables (y p i0 : nat) (L : list _Element).
Hypothesis fresh : ~ In y (forest_ids L).

Lemma prune_inserted (cs : list _Element) :
  NoDup (forest_ids cs) -> index_of y cs = Some i0 ->
  prune_list y (insert_after i0 L cs) = splice_list y L cs.
Proof.
  intros Hnd Hidx.
  destruct (index_of_split y cs i0 Hidx) as [pre [yn [post [-> [Hlen [Hy _]]]]]].
  rewrite <- Hlen, insert_after_split.
  rewrite forest_ids_app, forest_ids_cons in Hnd.
  assert (Hyin : In y (ids yn)) by (rewrite <- Hy; apply eid_in_ids).
  assert (Hpre : ~ In y (forest_ids pre)).
  { intro Hin. apply (NoDup_app_disjoint _ _ y Hnd Hin).
    apply in_or_app. now left. }
  assert (Hpost : ~ In y (forest_ids post)).
  { intro Hin. apply NoDup_app_r in Hnd.
    now apply (NoDup_app_disjoint _ _ y Hnd Hyin). }
  rewrite prune_list_app, (prune_list_notin y pre Hpre), prune_list_cons.
  rewrite splice_list_app, (splice_list_notin y L pre Hpre), splice_list_cons.
  apply Nat.eqb_eq in Hy. rewrite Hy.
  rewrite prune_list_app, (prune_list_notin y L fresh),
    (prune_list_notin y post Hpost), (splice_list_notin y L post Hpost).
  reflexivity.
Qed.

(** Putting the copies after the element and taking the element out is
    the replacement of the element by the copies. *)
Lemma prune_modify_splice (F : list _Element) :
  NoDup (forest_ids F) ->
  ~ In y (map eid F) ->
  (exists pn, lookup F p = Some pn /\ index_of y (children pn) = Some i0) \/
  (~ In p (forest_ids F) /\ ~ In y (forest_ids F)) ->
  prune_list y (forest_modify p (put_copies i0 L) F) = splice_list y L F.
Proof.
  induction F as [|t F IHt IHF] using forest_ind'; intros Hnd Hroots Hcase;
    [reflexivity|].
  destruct Hcase as [[pn [Hp Hidx]]|[Hnp Hny]].
  2: { rewrite (forest_modify_notin p (put_copies i0 L) _ Hnp).
       now rewrite (prune_list_notin y _ Hny), (splice_list_notin y L _ Hny). }
  rewrite forest_ids_cons in Hnd.
  assert (Hndt : NoDup (ids t)) by now apply NoDup_app_l in Hnd.
  assert (HndF : NoDup (forest_ids F)) by now apply NoDup_app_r in Hnd.
  assert (Hty : (eid t =? y) = false).
  { apply Nat.eqb_neq. intro E. apply Hroots. left. exact E. }
  assert (HFy : ~ In y (map eid F)) by (intro; apply Hroots; now right).
  rewrite forest_modify_cons, prune_list_cons, splice_list_cons, Hty.
  rewrite lookup_cons in Hp.
  destruct (eid t =? p) eqn:Etp.
  - (* [t] is the parent *)
    inversion Hp. subst pn. apply Nat.eqb_eq in Etp.
    assert (Hyt : In y (ids t)) by (apply child_id_in_ids; now apply index_is_child with i0).
    assert (HnpF : ~ In p (forest_ids F)).
    { intro Hin. apply (NoDup_app_disjoint _ _ p Hnd); [|exact Hin].
      rewrite <- Etp. apply eid_in_ids. }
    assert (HnyF : ~ In y (forest_ids F)).
    { intro Hin. now apply (NoDup_app_disjoint _ _ y Hnd). }
    rewrite modify_unfold. apply Nat.eqb_eq in Etp. rewrite Etp.
    unfold put_copies at 1. rewrite eid_set_children, Hty.
    rewrite (forest_modify_notin p (put_copies i0 L) _ HnpF).
    rewrite (prune_list_notin y _ HnyF), (splice_list_notin y L _ HnyF).
    f_equal. unfold put_copies.
    rewrite prune_unfold, splice_unfold, children_set_children.
    rewrite (prune_inserted (children t) (NoDup_children t Hndt) Hidx).
    now destruct t.
  - rewrite eid_modify by (intro; apply eid_set_children). rewrite Hty.
    case_eq (lookup (children t) p); [intros pn' Lc|intros Lc]; rewrite Lc in Hp.
    + (* the parent is below [t] *)
      inversion Hp. subst pn'.
      assert (Hpt : In pn (nodes t)) by now apply lookup_children_node with p.
      assert (Hyt : In y (ids t)).
      { rewrite ids_unfold. right.
        apply (child_id_strict t pn y Hpt). now apply index_is_child with i0. }
      assert (HnpF : ~ In p (forest_ids F)).
      { intro Hin. apply (NoDup_app_disjoint _ _ p Hnd); [|exact Hin].
        now apply lookup_children_in_ids with pn. }
      assert (HnyF : ~ In y (forest_ids F)).
      { intro Hin. now apply (NoDup_app_disjoint _ _ y Hnd). }
      rewrite (forest_modify_notin p (put_copies i0 L) _ HnpF).
      rewrite (prune_list_notin y _ HnyF), (splice_list_notin y L _ HnyF).
      f_equal. rewrite modify_unfold, Etp, prune_unfold, splice_unfold.
      rewrite children_set_children.
      rewrite IHt.
      * now destruct t.
      * now apply NoDup_children.
      * intro Hin. rewrite ids_unfold in Hndt. inversion Hndt as [|? ? Hn Hndc].
        subst.
        (* a child of [t] named [y], and [y] below the parent [pn] *)
        apply in_map_iff in Hin. destruct Hin as [c [Ec Hc]].
        assert (Hpc : exists c', In c' (children t) /\ In pn (nodes c')).
        { apply lookup_some in Lc. destruct Lc as [_ Lc].
          now apply in_forest_nodes in Lc. }
        destruct Hpc as [c' [Hc' Hpc']].
        assert (Hyc' : In y (forest_ids (children c'))).
        { apply (child_id_strict c' pn y Hpc'). now apply index_is_child with i0. }
        assert (Hcc : c = c').
        { apply (members_disjoint (children t) c c' y Hndc Hc Hc').
          - rewrite <- Ec. apply eid_in_ids.
          - rewrite ids_unfold. now right. }
        subst c'.
        assert (Hndc' : NoDup (ids c)) by now apply (NoDup_member (children t)).
        rewrite ids_unfold in Hndc'. inversion Hndc' as [|? ? Hn' _].
        apply Hn'. now rewrite Ec.
      * left. now exists pn.
    + (* the parent is in the other trees *)
      assert (Hnpt : ~ In p (ids t)).
      { rewrite ids_unfold. intros [E|Hin].
        - apply Nat.eqb_neq in Etp. contradiction.
        - now apply lookup_none in Lc. }
      assert (Hnyt : ~ In y (ids t)).
      { intro Hin. apply (NoDup_app_disjoint _ _ y Hnd Hin).
        apply lookup_some in Hp. destruct Hp as [_ Hp].
        apply in_forest_nodes in Hp. destruct Hp as [r [Hr Hpr]].
        apply (member_ids_incl r F Hr).
        rewrite ids_unfold. right.
        apply (child_id_strict r pn y Hpr). now apply index_is_child with i0. }
      rewrite (modify_notin p (put_copies i0 L) t Hnpt).
      rewrite (prune_notin y t Hnyt), (splice_notin y L t Hnyt).
      f_equal. apply IHF; auto. left. now exists pn.
Qed.

End SpliceStructure.

(* ================================================================== *)
(** * The effect of [_xml_replace] on the heap *)
(* ================================================================== *)

Lemma forest_modify_ext_in p g1 g2 F :
  (forall e, In e (forest_nodes F) -> eid e = p -> g1 e = g2 e) ->
  forest_modify p g1 F = forest_modify p g2 F.
Proof.
  induction F as [|t F IHt IHF] using forest_ind'; intro Hg; [reflexivity|].
  rewrite !forest_modify_cons. rewrite IHF.
  2: { intros e He. apply Hg. rewrite forest_nodes_cons. apply in_or_app. now right. }
  f_equal. rewrite !modify_unfold. destruct (eid t =? p) eqn:E.
  - apply Hg; [|now apply Nat.eqb_eq].
    rewrite forest_nodes_cons. apply in_or_app. left. apply nodes_self.
  - rewrite IHt; [reflexivity|].
    intros e He. apply Hg. rewrite forest_nodes_cons. apply in_or_app. left.
    destruct t. rewrite nodes_unfold. now right.
Qed.

Lemma put_copies_nil i0 (e : _Element) : put_copies i0 [] e = e.
Proof. unfold put_copies. rewrite insert_after_nil. apply set_children_same. Qed.

Lemma eid_put_copies i0 L (e : _Element) : eid (put_copies i0 L e) = eid e.
Proof. apply eid_set_children. Qed.

Lemma forest_modify_put_nil p i0 F : forest_modify p (put_copies i0 []) F = F.
Proof.
  rewrite (forest_modify_ext p (put_copies i0 []) (fun e => e)).
  - apply forest_modify_id.
  - intros e _. apply put_copies_nil.
Qed.

Lemma member_modify_notin p g F X :
  In X F -> ~ In p (ids X) -> In X (forest_modify p g F).
Proof.
  intros HX Hp. unfold forest_modify.
  rewrite <- (modify_notin p g X Hp). now apply in_map.
Qed.

(** The object that an identity names in a well-formed forest is the only
    node with that identity. *)
Lemma node_unique F i e e' :
  NoDup (forest_ids F) -> lookup F i = Some e ->
  In e' (forest_nodes F) -> eid e' = i -> e' = e.
Proof.
  intros Hnd L He' E. rewrite <- E in L.
  rewrite (lookup_member F e' Hnd He') in L. now inversion L.
Qed.

Lemma lookup_fresh_copy F n (c : _Element) :
  Forall (fun i => i < n) (forest_ids F) -> eid c = n ->
  lookup (F ++ [c]) n = Some c.
Proof.
  intros Hlt Hc. rewrite lookup_app.
  assert (Hnone : lookup F n = None).
  { apply lookup_none. intro Hin. rewrite Forall_forall in Hlt.
    specialize (Hlt n Hin). simpl in Hlt. lia. }
  rewrite Hnone. rewrite <- Hc. apply lookup_single.
Qed.

Lemma prune_fresh_copy F n (c : _Element) :
  Forall (fun i => i < n) (forest_ids F) -> eid c = n ->
  prune_list n (F ++ [c]) = F.
Proof.
  intros Hlt Hc. rewrite prune_list_app, prune_list_notin.
  - rewrite prune_list_cons, Hc, Nat.eqb_refl. apply app_nil_r.
  - intro Hin. rewrite Forall_forall in Hlt. specialize (Hlt n Hin). simpl in Hlt. lia.
Qed.

Section InsertCopies.
Variables (F : forest) (pid i0 : nat) (pn X : _Element).
Hypothesis Hpn : lookup F pid = Some pn.
Hypothesis Hi0 : S i0 <= length (children pn).
Hypothesis HX : In X F.
Hypothesis HpX : ~ In pid (ids X).
Hypothesis HndF : NoDup (forest_ids F).

Lemma put_copies_step acc c :
  forest_modify pid
    (fun p => set_children (list_insert (S (i0 + length acc)) c (children p)) p)
    (forest_modify pid (put_copies i0 acc) F)
  = forest_modify pid (put_copies i0 (acc ++ [c])) F.
Proof.
  rewrite forest_modify_compose by (intro; apply eid_put_copies).
  apply forest_modify_ext_in. intros e He Ee.
  assert (e = pn) by now apply (node_unique F pid pn e). subst e.
  unfold put_copies. rewrite children_set_children.
  replace (S (i0 + length acc)) with (S i0 + length acc) by lia.
  rewrite (list_insert_step i0 acc (children pn) c Hi0).
  now destruct pn.
Qed.

(** The loop of [_xml_replace] puts fresh copies of the targets after the
    element, in their order. *)
Lemma insert_copies_effect (ts : list _Element) :
  (forall t, In t ts -> In t (nodes X)) ->
  forall acc n,
    heap_wf (Heap (forest_modify pid (put_copies i0 acc) F) n) ->
    insert_copies pid (i0 + length acc) (map eid ts)
      (Heap (forest_modify pid (put_copies i0 acc) F) n)
    = Return (tt,
              Heap (forest_modify pid
                      (put_copies i0 (acc ++ fst (relabel_forest ts n))) F)
                   (snd (relabel_forest ts n))).
Proof.
  induction ts as [|t ts IH]; intros Hts acc n Hwf.
  - simpl. now rewrite app_nil_r.
  - cbn [map insert_copies].
    set (Fk := forest_modify pid (put_copies i0 acc) F) in *.
    assert (HXk : In X Fk) by now apply member_modify_notin.
    assert (Lt : lookup Fk (eid t) = Some t).
    { apply lookup_member; [apply Hwf|].
      apply in_forest_nodes. exists X. split; [exact HXk|]. apply Hts. now left. }
    destruct (relabel_spec t n) as [Hn [Hids [Herase Heid]]].
    set (c := fst (relabel t n)) in *.
    assert (Hcopy : deepcopy (eid t) (Heap Fk n)
                    = Return (n, Heap (Fk ++ [c]) (n + size t))).
    { unfold deepcopy. cbn [trees next_id]. rewrite Lt.
      destruct (relabel t n) as [c' n'] eqn:R. cbn [fst snd] in *.
      subst c. now rewrite Heid, Hn. }
    rewrite (bindM_step _ _ _ _ _ Hcopy).
    assert (Hins : el_insert pid (i0 + length acc + 1) n
                     (Heap (Fk ++ [c]) (n + size t))
                   = Return (tt, Heap (forest_modify pid
                                         (put_copies i0 (acc ++ [c])) F)
                                      (n + size t))).
    { unfold el_insert, bindM, deref. cbn [trees next_id].
      rewrite (lookup_fresh_copy Fk n c (proj2 Hwf) Heid).
      cbn [trees next_id]. unfold forest_prune.
      rewrite (prune_fresh_copy Fk n c (proj2 Hwf) Heid).
      replace (i0 + length acc + 1) with (S (i0 + length acc)) by lia.
      unfold Fk. now rewrite put_copies_step. }
    rewrite (bindM_step _ _ _ _ _ Hins).
    assert (Hwf' : heap_wf (Heap (forest_modify pid (put_copies i0 (acc ++ [c])) F)
                              (n + size t))).
    { destruct (preserves_deepcopy (eid t) _ _ _ Hwf Hcopy) as [Hwf1 _].
      destruct (preserves_el_insert pid (i0 + length acc + 1) n _ _ _ Hwf1 Hins)
        as [Hwf2 _]. exact Hwf2. }
    replace (i0 + length acc + 1) with (i0 + length (acc ++ [c]))
      by (rewrite length_app; simpl; lia).
    rewrite (IH (fun t' Ht' => Hts t' (or_intror Ht')) (acc ++ [c]) (n + size t) Hwf').
    rewrite relabel_forest_cons. cbn [fst snd]. fold c. rewrite Hn.
    now rewrite <- app_assoc.
Qed.

End InsertCopies.

Lemma lookup_modify_same F p g e :
  NoDup (forest_ids F) -> lookup F p = Some e -> eid (g e) = p ->
  lookup (forest_modify p g F) p = Some (g e).
Proof.
  revert e. induction F as [|t F IHt IHF] using forest_ind'; intros e Hnd L Hg;
    [discriminate|].
  rewrite forest_ids_cons in Hnd.
  rewrite lookup_cons in L. rewrite forest_modify_cons, lookup_cons, modify_unfold.
  destruct (eid t =? p) eqn:E.
  - inversion L. subst e. rewrite Hg, Nat.eqb_refl. reflexivity.
  - rewrite eid_set_children, E, children_set_children.
    case_eq (lookup (children t) p); [intros e' Lc|intros Lc]; rewrite Lc in L.
    + inversion L. subst e'.
      rewrite (IHt e); auto. apply NoDup_children. now apply NoDup_app_l in Hnd.
    + rewrite (forest_modify_notin p g (children t)) by now apply lookup_none.
      rewrite Lc. apply IHF; auto. now apply NoDup_app_r in Hnd.
Qed.

Lemma parent_of_some F y pn :
  parent_of F y = Some pn -> In pn (forest_nodes F) /\ is_child y pn = true.
Proof. unfold parent_of. intro H. now apply find_some in H. Qed.

(** In a well-formed forest an element that has a parent is no tree of
    the forest. *)
Lemma child_not_root F y pn :
  NoDup (forest_ids F) -> In pn (forest_nodes F) -> is_child y pn = true ->
  ~ In y (map eid F).
Proof.
  intros Hnd Hpn Hy Hin. apply in_map_iff in Hin. destruct Hin as [r [Er Hr]].
  apply in_forest_nodes in Hpn. destruct Hpn as [r' [Hr' Hpn]].
  assert (Hyr' : In y (forest_ids (children r'))) by now apply (child_id_strict r' pn y).
  assert (r = r').
  { apply (members_disjoint F r r' y Hnd Hr Hr').
    - rewrite <- Er. apply eid_in_ids.
    - rewrite ids_unfold. now right. }
  subst r'. apply (child_not_self r pn y); auto. now apply (NoDup_member F).
Qed.

Lemma child_node (pn : _Element) y :
  is_child y pn = true -> exists yn, In yn (children pn) /\ eid yn = y.
Proof.
  unfold is_child. intro H. apply existsb_exists in H.
  destruct H as [yn [H1 H2]]. apply Nat.eqb_eq in H2. now exists yn.
Qed.

Lemma child_in_forest F (pn yn : _Element) :
  In pn (forest_nodes F) -> In yn (children pn) -> In yn (forest_nodes F).
Proof.
  intros Hpn Hyn. apply (proj2 nodes_trans F pn yn Hpn).
  apply (child_nodes_incl pn yn Hyn). apply nodes_self.
Qed.

Lemma relabel_forest_fresh ts n y :
  y < n -> ~ In y (forest_ids (fst (relabel_forest ts n))).
Proof.
  intros Hlt Hin. destruct (relabel_forest_spec ts n) as [_ [H2 _]].
  rewrite H2 in Hin. apply in_seq in Hin. lia.
Qed.

Lemma relabel_forest_erase ts n :
  map erase (fst (relabel_forest ts n)) = map erase ts.
Proof. now destruct (relabel_forest_spec ts n) as [_ [_ H]]. Qed.

(** [_xml_replace(query, targets)]: in a well-formed heap, with the
    targets in a tree that does not hold the parent of the element, the
    element gives its place among its siblings to fresh copies of the
    targets, and is set aside as a tree of its own. *)
Lemma xml_replace_effect h y pn X ts :
  heap_wf h ->
  parent_of (trees h) y = Some pn ->
  In X (trees h) -> ~ In (eid pn) (ids X) ->
  (forall t, In t ts -> In t (nodes X)) ->
  exists yn,
    lookup (trees h) y = Some yn /\ In yn (children pn) /\
    _xml_replace y (map eid ts) h
    = Return (tt, Heap (splice_list y (fst (relabel_forest ts (next_id h)))
                          (trees h) ++ [yn])
                       (snd (relabel_forest ts (next_id h)))).
Proof.
  intros Hwf Hparent HX HpX Hts. destruct h as [F n]. cbn [trees next_id] in *.
  destruct Hwf as [Hnd Hlt]. cbn [trees next_id] in *.
  destruct (parent_of_some F y pn Hparent) as [Hpn Hchild].
  destruct (child_node pn y Hchild) as [yn [Hyn Eyn]].
  assert (Hynf : In yn (forest_nodes F)) by now apply (child_in_forest F pn yn).
  assert (Ly : lookup F y = Some yn).
  { rewrite <- Eyn. now apply lookup_member. }
  assert (Lp : lookup F (eid pn) = Some pn) by now apply lookup_member.
  destruct (is_child_index y pn Hchild) as [i0 Hidx].
  destruct (index_of_split y (children pn) i0 Hidx)
    as [pre [yn' [post [Hcs [Hlen [Eyn' _]]]]]].
  assert (Hi0 : S i0 <= length (children pn)).
  { rewrite Hcs, length_app. simpl. lia. }
  set (L := fst (relabel_forest ts n)).
  set (n' := snd (relabel_forest ts n)).
  exists yn. split; [exact Ly|]. split; [exact Hyn|].
  unfold _xml_replace.
  rewrite (bindM_step _ _ (Heap F n) (Some pn) (Heap F n))
    by (cbn [trees]; now rewrite Hparent).
  rewrite Hidx.
  assert (Hwf0 : heap_wf (Heap (forest_modify (eid pn) (put_copies i0 []) F) n)).
  { rewrite forest_modify_put_nil. now split. }
  assert (Hins : insert_copies (eid pn) i0 (map eid ts) (Heap F n)
                 = Return (tt, Heap (forest_modify (eid pn) (put_copies i0 L) F) n')).
  { generalize (insert_copies_effect F (eid pn) i0 pn X Lp Hi0 HX HpX Hnd ts Hts
                  [] n Hwf0).
    rewrite forest_modify_put_nil. cbn [length app].
    now rewrite Nat.add_0_r. }
  rewrite (bindM_step _ _ _ _ _ Hins).
  destruct (preserves_insert_copies (eid pn) (map eid ts) i0 _ _ _
              (conj Hnd Hlt : heap_wf (Heap F n)) Hins) as [Hwf1 _].
  set (F1 := forest_modify (eid pn) (put_copies i0 L) F) in *.
  assert (Lp1 : lookup F1 (eid pn) = Some (put_copies i0 L pn)).
  { apply lookup_modify_same; auto; apply eid_put_copies. }
  assert (Hyn1 : In yn (children (put_copies i0 L pn))).
  { unfold put_copies. rewrite children_set_children. unfold insert_after.
    apply in_or_app. left. rewrite Hcs in *.
    rewrite <- Hlen.
    replace (S (length pre)) with (length (pre ++ [yn']))
      by (rewrite length_app; simpl; lia).
    replace (pre ++ yn' :: post) with ((pre ++ [yn']) ++ post)
      by now rewrite <- app_assoc.
    rewrite firstn_app, firstn_all, Nat.sub_diag. cbn [firstn]. rewrite app_nil_r.
    apply in_app_or in Hyn. apply in_or_app.
    destruct Hyn as [Hyn|[Hyn|Hyn]]; [now left|right; now left|].
    (* [yn] after the first child named [y]: the same child *)
    exfalso.
    assert (Hndc : NoDup (forest_ids (children pn))).
    { apply NoDup_children.
      apply in_forest_nodes in Hpn. destruct Hpn as [r [Hr Hpr]].
      assert (Hndr : NoDup (ids r)) by now apply (NoDup_member F).
      destruct (lookup_segment [r] (eid pn) pn) as [a [b Hseg]].
      { apply lookup_member.
        - now rewrite forest_ids_single.
        - unfold forest_nodes. simpl. now rewrite app_nil_r. }
      rewrite forest_ids_single in Hseg. rewrite Hseg in Hndr.
      apply NoDup_app_r in Hndr. now apply NoDup_app_l in Hndr. }
    rewrite Hcs, forest_ids_app, forest_ids_cons in Hndc.
    apply NoDup_app_r in Hndc.
    apply (NoDup_app_disjoint _ _ y Hndc).
    - rewrite <- Eyn'. apply eid_in_ids.
    - apply (member_ids_incl yn post Hyn). rewrite <- Eyn. apply eid_in_ids. }
  assert (Ly1 : lookup F1 y = Some yn).
  { rewrite <- Eyn. apply lookup_member; [apply Hwf1|].
    apply (child_in_forest F1 (put_copies i0 L pn) yn); [|exact Hyn1].
    apply lookup_some in Lp1. tauto. }
  assert (Hchild1 : is_child y (put_copies i0 L pn) = true).
  { unfold is_child. apply existsb_exists. exists yn. split; [exact Hyn1|].
    now apply Nat.eqb_eq. }
  unfold el_remove.
  rewrite (bindM_step _ _ (Heap F1 n') (put_copies i0 L pn) (Heap F1 n'))
    by (unfold deref; cbn [trees]; now rewrite Lp1).
  rewrite Hchild1.
  rewrite (bindM_step _ _ (Heap F1 n') yn (Heap F1 n'))
    by (unfold deref; cbn [trees]; now rewrite Ly1).
  cbn [trees next_id]. unfold forest_prune, F1.
  rewrite (prune_modify_splice y (eid pn) i0 L); auto.
  - apply relabel_forest_fresh.
    rewrite Forall_forall in Hlt. apply (Hlt y).
    unfold forest_ids. rewrite <- Eyn. now apply in_map.
  - now apply (child_not_root F y pn).
  - left. now exists pn.
Qed.

(* ================================================================== *)
(** * Several replacements, one after the other *)
(* ================================================================== *)

Lemma splice_set_list_eq ys Lf (l : list _Element) :
  (fix splice_children (l : list _Element) : list _Element :=
     match l with
     | [] => []
     | c :: l' =>
         if existsb (Nat.eqb (eid c)) ys then Lf (eid c) ++ splice_children l'
         else splice_set ys Lf c :: splice_children l'
     end) l = splice_set_list ys Lf l.
Proof. induction l as [|c l IH]; simpl; [reflexivity|]. now rewrite IH. Qed.

Lemma splice_set_unfold ys Lf (t : _Element) :
  splice_set ys Lf t = set_children (splice_set_list ys Lf (children t)) t.
Proof. destruct t. simpl. now rewrite splice_set_list_eq. Qed.

Lemma splice_set_list_cons ys Lf c l :
  splice_set_list ys Lf (c :: l)
  = if existsb (Nat.eqb (eid c)) ys then Lf (eid c) ++ splice_set_list ys Lf l
    else splice_set ys Lf c :: splice_set_list ys Lf l.
Proof. reflexivity. Qed.

Lemma splice_yields_list_eq cs (l : list _Element) :
  (fix splice_children (l : list _Element) : list _Element :=
     match l with
     | [] => []
     | c :: l' =>
         if String.eqb (tag c) "yield" then cs ++ splice_children l'
         else splice_yields cs c :: splice_children l'
     end) l = splice_yields_list cs l.
Proof. induction l as [|c l IH]; simpl; [reflexivity|]. now rewrite IH. Qed.

Lemma splice_yields_unfold cs (t : _Element) :
  splice_yields cs t = set_children (splice_yields_list cs (children t)) t.
Proof. destruct t. simpl. now rewrite splice_yields_list_eq. Qed.

Lemma splice_yields_list_cons cs c l :
  splice_yields_list cs (c :: l)
  = if String.eqb (tag c) "yield" then cs ++ splice_yields_list cs l
    else splice_yields cs c :: splice_yields_list cs l.
Proof. reflexivity. Qed.

Lemma splice_set_nil_list Lf F : splice_set_list [] Lf F = F.
Proof.
  induction F as [|t F IHt IHF] using forest_ind'; [reflexivity|].
  rewrite splice_set_list_cons. cbn [existsb].
  rewrite splice_set_unfold, IHt, set_children_same, IHF. reflexivity.
Qed.

Lemma splice_set_nil Lf (t : _Element) : splice_set [] Lf t = t.
Proof. rewrite splice_set_unfold, splice_set_nil_list. apply set_children_same. Qed.

Lemma eid_splice_set ys Lf (t : _Element) : eid (splice_set ys Lf t) = eid t.
Proof. rewrite splice_set_unfold. apply eid_set_children. Qed.

Lemma eid_splice y L (t : _Element) : eid (splice y L t) = eid t.
Proof. rewrite splice_unfold. apply eid_set_children. Qed.

Lemma set_children_twice cs cs' (t : _Element) :
  set_children cs (set_children cs' t) = set_children cs t.
Proof. now destruct t. Qed.

(** One more replacement on top of a set of replacements. *)
Lemma splice_after_set y L ys Lf (F : list _Element) :
  ~ In y ys ->
  (forall x, In x ys -> ~ In y (forest_ids (Lf x))) ->
  splice_list y L (splice_set_list ys Lf F)
  = splice_set_list (y :: ys) (fun x => if x =? y then L else Lf x) F.
Proof.
  intros Hy Hfresh.
  induction F as [|t F IHt IHF] using forest_ind'; [reflexivity|].
  rewrite !splice_set_list_cons. cbn [existsb].
  destruct (existsb (Nat.eqb (eid t)) ys) eqn:E.
  - rewrite orb_true_r.
    apply existsb_exists in E. destruct E as [x [Hx Ex]].
    apply Nat.eqb_eq in Ex. subst x.
    assert (Hne : (eid t =? y) = false).
    { apply Nat.eqb_neq. intro Ey. apply Hy. now rewrite <- Ey. }
    rewrite Hne.
    rewrite splice_list_app, (splice_list_notin y L _ (Hfresh _ Hx)), IHF.
    reflexivity.
  - rewrite orb_false_r. rewrite splice_list_cons, eid_splice_set.
    destruct (eid t =? y) eqn:Ey.
    + now rewrite IHF.
    + rewrite IHF. f_equal.
      rewrite splice_unfold, !splice_set_unfold, children_set_children, IHt.
      apply set_children_twice.
Qed.

Lemma splice_after_set_el y L ys Lf (t : _Element) :
  ~ In y ys ->
  (forall x, In x ys -> ~ In y (forest_ids (Lf x))) ->
  splice y L (splice_set ys Lf t)
  = splice_set (y :: ys) (fun x => if x =? y then L else Lf x) t.
Proof.
  intros Hy Hfresh.
  rewrite splice_unfold, !splice_set_unfold, children_set_children.
  rewrite (splice_after_set y L ys Lf _ Hy Hfresh).
  apply set_children_twice.
Qed.

Lemma erase_set_children cs (t : _Element) :
  erase (set_children cs t) = set_children (map erase cs) (erase t).
Proof. now destruct t. Qed.

Lemma tag_erase (t : _Element) : tag (erase t) = tag t.
Proof. now destruct t. Qed.

Lemma children_erase (t : _Element) : children (erase t) = map erase (children t).
Proof. now destruct t. Qed.

(** Where the identities to replace are those of the yield markers, and
    every replacement has the content [cs], the result has the content
    that the design document describes. *)
Lemma erase_splice_set ys Lf cs (F : list _Element) :
  (forall c, In c (forest_nodes F) ->
             existsb (Nat.eqb (eid c)) ys = String.eqb (tag c) "yield") ->
  (forall y, In y ys -> map erase (Lf y) = cs) ->
  map erase (splice_set_list ys Lf F) = splice_yields_list cs (map erase F).
Proof.
  intros Hys HLf.
  induction F as [|t F IHt IHF] using forest_ind'; [reflexivity|].
  rewrite splice_set_list_cons. cbn [map]. rewrite splice_yields_list_cons.
  rewrite tag_erase.
  assert (Ht : existsb (Nat.eqb (eid t)) ys = String.eqb (tag t) "yield").
  { apply Hys. rewrite forest_nodes_cons. apply in_or_app. left. apply nodes_self. }
  assert (HF : map erase (splice_set_list ys Lf F)
               = splice_yields_list cs (map erase F)).
  { apply IHF. intros c Hc. apply Hys. rewrite forest_nodes_cons.
    apply in_or_app. now right. }
  rewrite <- Ht. destruct (existsb (Nat.eqb (eid t)) ys) eqn:E.
  - apply existsb_exists in E. destruct E as [x [Hx Ex]].
    apply Nat.eqb_eq in Ex. subst x.
    now rewrite map_app, (HLf _ Hx), HF.
  - cbn [map]. rewrite HF. f_equal.
    rewrite splice_set_unfold, splice_yields_unfold, erase_set_children.
    rewrite children_erase, IHt.
    + reflexivity.
    + intros c Hc. apply Hys. rewrite forest_nodes_cons. apply in_or_app. left.
      destruct t. rewrite nodes_unfold. now right.
Qed.

(** The identities of the result: those of the tree and those of the
    replacements. *)
Lemma splice_set_ids ys Lf (F : list _Element) i :
  In i (forest_ids (splice_set_list ys Lf F)) ->
  In i (forest_ids F) \/ exists y, In y ys /\ In i (forest_ids (Lf y)).
Proof.
  induction F as [|t F IHt IHF] using forest_ind'; intro H; [destruct H|].
  rewrite splice_set_list_cons in H. rewrite forest_ids_cons.
  destruct (existsb (Nat.eqb (eid t)) ys) eqn:E.
  - rewrite forest_ids_app in H. apply in_app_or in H. destruct H as [H|H].
    + right. apply existsb_exists in E. destruct E as [x [Hx Ex]].
      apply Nat.eqb_eq in Ex. subst x. now exists (eid t).
    + destruct (IHF H) as [H'|H']; [left; apply in_or_app; now right|now right].
  - rewrite forest_ids_cons in H. apply in_app_or in H. destruct H as [H|H].
    + rewrite splice_set_unfold, ids_set_children in H. destruct H as [H|H].
      * left. apply in_or_app. left. rewrite <- H. apply eid_in_ids.
      * destruct (IHt H) as [H'|H']; [|now right].
        left. apply in_or_app. left. rewrite ids_unfold. now right.
    + destruct (IHF H) as [H'|H']; [left; apply in_or_app; now right|now right].
Qed.

Lemma member_splice y L r F :
  In r F -> eid r <> y -> In (splice y L r) (splice_list y L F).
Proof.
  induction F as [|t F IH]; intros Hr Hne; [destruct Hr|].
  rewrite splice_list_cons. destruct Hr as [->|Hr].
  - apply Nat.eqb_neq in Hne. rewrite Hne. now left.
  - destruct (eid t =? y); [apply in_or_app|]; right; now apply IH.
Qed.

Lemma nodes_set_children cs (t : _Element) :
  nodes (set_children cs t) = set_children cs t :: forest_nodes cs.
Proof. now destruct t. Qed.

(** An element other than the replaced one keeps a parent: in the forest
    after the replacement, or in the subtree that was set aside. *)
Lemma parent_survives y1 L y (F : list _Element) q :
  In q (forest_nodes F) -> is_child y q = true -> y <> y1 ->
  (exists q', In q' (forest_nodes (splice_list y1 L F)) /\ is_child y q' = true) \/
  (exists r, In r (forest_nodes F) /\ eid r = y1 /\ In q (nodes r)).
Proof.
  intros Hq Hy Hne. revert q Hq Hy.
  induction F as [|t F IHt IHF] using forest_ind'; intros q Hq Hy; [destruct Hq|].
  rewrite forest_nodes_cons in Hq. rewrite splice_list_cons.
  apply in_app_or in Hq. destruct Hq as [Hq|Hq].
  - destruct (eid t =? y1) eqn:E.
    + right. exists t. apply Nat.eqb_eq in E. repeat split; auto.
      rewrite forest_nodes_cons. apply in_or_app. left. apply nodes_self.
    + destruct t as [i tg at_ tx tl cs]. rewrite nodes_unfold in Hq.
      destruct Hq as [<-|Hq].
      * left. exists (splice y1 L (Element i tg at_ tx tl cs)). split.
        -- rewrite forest_nodes_cons. apply in_or_app. left. apply nodes_self.
        -- rewrite splice_unfold. unfold is_child.
           rewrite children_set_children. cbn [children].
           unfold is_child in Hy. cbn [children] in Hy.
           apply existsb_exists in Hy. destruct Hy as [c [Hc Ec]].
           apply existsb_exists. exists (splice y1 L c). split.
           ++ apply member_splice; [exact Hc|].
              apply Nat.eqb_eq in Ec. congruence.
           ++ now rewrite eid_splice.
      * cbn [children] in IHt. destruct (IHt q Hq Hy) as [[q' [Hq' Hy']]|[r [Hr [Er Hqr]]]].
        -- left. exists q'. split; [|exact Hy'].
           rewrite forest_nodes_cons. apply in_or_app. left.
           rewrite splice_unfold, nodes_set_children. cbn [children]. now right.
        -- right. exists r. repeat split; auto.
           rewrite forest_nodes_cons. apply in_or_app. left.
           rewrite nodes_unfold. now right.
  - destruct (IHF q Hq Hy) as [[q' [Hq' Hy']]|[r [Hr [Er Hqr]]]].
    + left. exists q'. split; [|exact Hy'].
      destruct (eid t =? y1).
      * rewrite forest_nodes_app. apply in_or_app. now right.
      * rewrite forest_nodes_cons. apply in_or_app. now right.
    + right. exists r. repeat split; auto.
      rewrite forest_nodes_cons. apply in_or_app. now right.
Qed.

(* ================================================================== *)
(** * The yield markers of a template *)
(* ================================================================== *)

Lemma parent_of_exists F y q :
  In q (forest_nodes F) -> is_child y q = true ->
  exists pn, parent_of F y = Some pn.
Proof.
  intros Hq Hy. unfold parent_of.
  destruct (find (is_child y) (forest_nodes F)) as [pn|] eqn:E; [now exists pn|].
  apply (find_none _ _ E) in Hq. congruence.
Qed.

(** The parent of an element that is not in the tree [X] is not in [X]. *)
Lemma parent_outside F X pn y :
  NoDup (forest_ids F) -> In X F -> In pn (forest_nodes F) ->
  is_child y pn = true -> ~ In y (ids X) -> ~ In (eid pn) (ids X).
Proof.
  intros Hnd HX Hpn Hy HyX Hin.
  unfold ids in Hin. apply in_map_iff in Hin. destruct Hin as [q [Eq Hq]].
  assert (HqF : In q (forest_nodes F)).
  { apply in_forest_nodes. now exists X. }
  assert (q = pn).
  { apply (node_unique F (eid pn) pn q Hnd); auto. now apply lookup_member. }
  subst q. apply HyX. apply (subtree_ids_incl X pn Hq).
  now apply child_id_in_ids.
Qed.

Lemma has_parent_or_root F c :
  In c (forest_nodes F) ->
  In c F \/ exists q, In q (forest_nodes F) /\ In c (children q).
Proof.
  induction F as [|t F IHt IHF] using forest_ind'; intro H; [destruct H|].
  rewrite forest_nodes_cons in H. apply in_app_or in H. destruct H as [H|H].
  - destruct t as [i tg at_ tx tl cs]. rewrite nodes_unfold in H.
    destruct H as [<-|H]; [left; now left|].
    right. cbn [children] in IHt. destruct (IHt H) as [Hc|[q [Hq Hc]]].
    + exists (Element i tg at_ tx tl cs). split; [|exact Hc].
      rewrite forest_nodes_cons. apply in_or_app. left. apply nodes_self.
    + exists q. split; [|exact Hc].
      rewrite forest_nodes_cons, nodes_unfold. apply in_or_app. left. now right.
  - destruct (IHF H) as [Hc|[q [Hq Hc]]]; [left; now right|].
    right. exists q. split; [|exact Hc].
    rewrite forest_nodes_cons. apply in_or_app. now right.
Qed.

Lemma descendant_has_parent (t c : _Element) :
  In c (descendants t) ->
  exists q, In q (nodes t) /\ is_child (eid c) q = true.
Proof.
  unfold descendants. intro H.
  change (flat_map nodes (children t)) with (forest_nodes (children t)) in H.
  assert (Hchild : forall q, In c (children q) -> is_child (eid c) q = true).
  { intros q Hc. unfold is_child. apply existsb_exists. exists c.
    split; [exact Hc|apply Nat.eqb_refl]. }
  destruct (has_parent_or_root (children t) c H) as [Hc|[q [Hq Hc]]].
  - exists t. split; [apply nodes_self|now apply Hchild].
  - exists q. split; [|now apply Hchild].
    destruct t. rewrite nodes_unfold. now right.
Qed.

Lemma NoDup_map_filter {A} (f : A -> nat) (g : A -> bool) (l : list A) :
  NoDup (map f l) -> NoDup (map f (filter g l)).
Proof.
  induction l as [|x l IH]; simpl; intro H; [constructor|].
  inversion H as [|? ? Hn Hnd]. subst. destruct (g x); [|now apply IH].
  simpl. constructor; [|now apply IH].
  intro Hin. apply Hn. apply in_map_iff in Hin. destruct Hin as [z [E Hz]].
  apply filter_In in Hz. apply in_map_iff. exists z. tauto.
Qed.

Lemma NoDup_map_inj {A} (f : A -> nat) (l : list A) a b :
  NoDup (map f l) -> In a l -> In b l -> f a = f b -> a = b.
Proof.
  intros Hnd Ha Hb E.
  generalize (find_unique f l a Hnd Ha). rewrite E.
  rewrite (find_unique f l b Hnd Hb). now inversion 1.
Qed.

Section YieldsLoop.
Variables (md0 X : _Element) (ts : list _Element) (n0 : nat).
Hypothesis HtsX : forall t, In t ts -> In t (nodes X).

Lemma yields_loop (Ys : list nat) :
  forall h done Lf,
    heap_wf h -> n0 <= next_id h ->
    In X (trees h) ->
    In (splice_set done Lf md0) (trees h) ->
    NoDup (Ys ++ done) ->
    (forall x, In x done ->
       (forall i, In i (forest_ids (Lf x)) -> n0 <= i) /\
       map erase (Lf x) = map erase ts) ->
    (forall y, In y Ys ->
       y < n0 /\ ~ In y (ids X) /\
       exists q, In q (forest_nodes (trees h)) /\ is_child y q = true) ->
    exists h' Lf',
      for_each Ys (fun y => _xml_replace y (map eid ts)) h = Return (tt, h') /\
      heap_wf h' /\ In X (trees h') /\
      In (splice_set (rev Ys ++ done) Lf' md0) (trees h') /\
      (forall x, In x (rev Ys ++ done) ->
         (forall i, In i (forest_ids (Lf' x)) -> n0 <= i) /\
         map erase (Lf' x) = map erase ts).
Proof.
  induction Ys as [|y Ys IH]; intros h done Lf Hwf Hn0 HX Hmd Hnd HLf HYs.
  - exists h, Lf. cbn [for_each rev app].
    split; [reflexivity|]. split; [exact Hwf|]. split; [exact HX|].
    split; [exact Hmd|exact HLf].
  - destruct (HYs y (or_introl eq_refl)) as [Hylt [HyX [q [Hq Hyq]]]].
    destruct (parent_of_exists (trees h) y q Hq Hyq) as [pn Hparent].
    destruct (parent_of_some (trees h) y pn Hparent) as [Hpn Hchild].
    assert (HpX : ~ In (eid pn) (ids X)).
    { apply (parent_outside (trees h) X pn y); auto. apply Hwf. }
    destruct (xml_replace_effect h y pn X ts Hwf Hparent HX HpX HtsX)
      as [yn [Ly [Hyn Hrun]]].
    set (L := fst (relabel_forest ts (next_id h))) in *.
    set (h1 := Heap (splice_list y L (trees h) ++ [yn])
                    (snd (relabel_forest ts (next_id h)))) in *.
    destruct (preserves_xml_replace y (map eid ts) h tt h1 Hwf Hrun) as [Hwf1 Hle1].
    assert (Hroot : ~ In y (map eid (trees h))).
    { apply (child_not_root (trees h) y pn); auto. apply Hwf. }
    assert (HX1 : In X (trees h1)).
    { cbn [trees h1]. apply in_or_app. left.
      rewrite <- (splice_notin y L X HyX). apply member_splice; [exact HX|].
      intro E. apply HyX. rewrite <- E. apply eid_in_ids. }
    assert (Hydone : ~ In y done).
    { cbn [app] in Hnd. apply NoDup_cons_iff in Hnd. destruct Hnd as [Hn _].
      intro Hin. apply Hn. apply in_or_app. now right. }
    assert (Hfresh : forall x, In x done -> ~ In y (forest_ids (Lf x))).
    { intros x Hx Hin. destruct (HLf x Hx) as [Hge _]. specialize (Hge y Hin). lia. }
    set (Lf1 := fun x => if x =? y then L else Lf x).
    assert (Hmd1 : In (splice_set (y :: done) Lf1 md0) (trees h1)).
    { cbn [trees h1]. apply in_or_app. left.
      unfold Lf1. rewrite <- (splice_after_set_el y L done Lf md0 Hydone Hfresh).
      apply member_splice; [exact Hmd|].
      intro E. apply Hroot. apply in_map_iff.
      exists (splice_set done Lf md0). split; [exact E|exact Hmd]. }
    assert (HLf1 : forall x, In x (y :: done) ->
              (forall i, In i (forest_ids (Lf1 x)) -> n0 <= i) /\
              map erase (Lf1 x) = map erase ts).
    { intros x Hx. unfold Lf1. destruct (x =? y) eqn:E.
      - split; [|apply relabel_forest_erase].
        intros i Hi. unfold L in Hi.
        destruct (relabel_forest_spec ts (next_id h)) as [_ [H2 _]].
        rewrite H2 in Hi. apply in_seq in Hi. lia.
      - apply HLf. destruct Hx as [Hx|Hx]; [|exact Hx].
        apply Nat.eqb_neq in E. congruence. }
    assert (Hnd1 : NoDup (Ys ++ y :: done)).
    { apply (Permutation_NoDup (Permutation_middle Ys done y)). exact Hnd. }
    assert (HYs1 : forall y', In y' Ys ->
              y' < n0 /\ ~ In y' (ids X) /\
              exists q', In q' (forest_nodes (trees h1)) /\ is_child y' q' = true).
    { intros y' Hy'. destruct (HYs y' (or_intror Hy')) as [H1 [H2 [q' [Hq' Hc']]]].
      split; [exact H1|]. split; [exact H2|].
      assert (Hne : y' <> y).
      { intro E. subst y'. cbn [app] in Hnd. apply NoDup_cons_iff in Hnd.
        destruct Hnd as [Hn _]. apply Hn. apply in_or_app. now left. }
      cbn [trees h1]. 
      destruct (parent_survives y L y' (trees h) q' Hq' Hc' Hne)
        as [[q'' [Hq'' Hc'']]|[r [Hr [Er Hqr]]]].
      - exists q''. split; [|exact Hc''].
        rewrite forest_nodes_app. apply in_or_app. now left.
      - exists q'. split; [|exact Hc'].
        assert (r = yn) by (apply (node_unique (trees h) y yn r); auto; apply Hwf).
        subst r. rewrite forest_nodes_app. apply in_or_app. right.
        unfold forest_nodes. cbn [flat_map]. rewrite app_nil_r. exact Hqr. }
    destruct (IH h1 (y :: done) Lf1 Hwf1 (Nat.le_trans _ _ _ Hn0 Hle1)
                HX1 Hmd1 Hnd1 HLf1 HYs1)
      as [h' [Lf' [Hrun' [Hwf' [HX' [Hmd' HLf']]]]]].
    exists h', Lf'. cbn [for_each].
    rewrite (bindM_step _ _ _ _ _ Hrun). cbn [rev]. rewrite <- app_assoc.
    cbn [app].
    split; [exact Hrun'|]. split; [exact Hwf'|]. split; [exact HX'|].
    split; [exact Hmd'|exact HLf'].
Qed.

End YieldsLoop.

(** [_expand_yield_statements] on a template [md] that is a tree of its
    own and a placeholder [ex] that lives in another tree [X] of a
    well-formed heap returns, and leaves in the place of [md] a tree in
    which every yield marker of the template has given its place, among
    its own siblings, to the children of the placeholder in their order
    ([splice_yields], up to the identities of the nodes).  The nodes of
    the result are pairwise distinct objects, and those that were not in
    the template are new objects.  The tree of the placeholder is as it
    was. *)
Lemma yields_in_own_tree (h : heap) (md ex X : _Element) :
  heap_wf h ->
  In md (trees h) -> In X (trees h) -> In ex (nodes X) -> X <> md ->
  exists h' md',
    _expand_yield_statements (eid md) (eid ex) h = Return (tt, h') /\
    heap_wf h' /\
    In md' (trees h') /\ eid md' = eid md /\
    erase md' = splice_yields (map erase (children ex)) (erase md) /\
    NoDup (ids md') /\
    (forall i, In i (ids md') -> In i (ids md) \/ next_id h <= i) /\
    In X (trees h').
Proof.
  intros Hwf Hmd HX Hex Hne.
  assert (Hnd : NoDup (forest_ids (trees h))) by apply Hwf.
  assert (Lmd : lookup (trees h) (eid md) = Some md) by now apply lookup_root.
  assert (Lex : lookup (trees h) (eid ex) = Some ex).
  { apply lookup_member; auto. apply in_forest_nodes. now exists X. }
  set (Ys := map eid (findall_descendants "yield" md)).
  set (ts := children ex).
  assert (HtsX : forall t, In t ts -> In t (nodes X)).
  { intros t Ht. apply (proj1 nodes_trans X ex t Hex).
    apply (child_nodes_incl ex t Ht). apply nodes_self. }
  assert (Hndmd : NoDup (ids md)) by now apply (NoDup_member (trees h)).
  assert (Hdisj : forall i, In i (ids md) -> ~ In i (ids X)).
  { intros i Hi HiX. apply Hne. symmetry.
    now apply (members_disjoint (trees h) md X i). }
  assert (HYs : forall y, In y Ys ->
            y < next_id h /\ ~ In y (ids X) /\
            exists q, In q (forest_nodes (trees h)) /\ is_child y q = true).
  { intros y Hy. unfold Ys in Hy. apply in_map_iff in Hy.
    destruct Hy as [c [Ec Hc]]. unfold findall_descendants in Hc.
    apply filter_In in Hc. destruct Hc as [Hc _].
    assert (Hymd : In y (ids md)).
    { rewrite ids_unfold. right. rewrite <- Ec. unfold forest_ids.
      now apply in_map. }
    split; [|split].
    - destruct Hwf as [_ Hlt]. rewrite Forall_forall in Hlt. apply Hlt.
      now apply (member_ids_incl md (trees h)).
    - now apply Hdisj.
    - destruct (descendant_has_parent md c Hc) as [q [Hq Hyq]].
      exists q. rewrite <- Ec. split; [|exact Hyq].
      apply in_forest_nodes. now exists md. }
  assert (HndYs : NoDup (Ys ++ [])).
  { rewrite app_nil_r. unfold Ys, findall_descendants. apply NoDup_map_filter.
    unfold descendants.
    change (map eid (flat_map nodes (children md))) with (forest_ids (children md)).
    now apply NoDup_children. }
  destruct (yields_loop md X ts (next_id h) HtsX Ys h [] (fun _ => [])
              Hwf (Nat.le_refl _) HX)
    as [h' [Lf' [Hrun [Hwf' [HX' [Hmd' HLf']]]]]]; auto.
  { now rewrite splice_set_nil. }
  { intros x []. }
  rewrite app_nil_r in Hmd', HLf'.
  set (md' := splice_set (rev Ys) Lf' md) in *.
  exists h', md'.
  assert (Hsub : forall i, In i (ids md') -> In i (ids md) \/ next_id h <= i).
  { intros i Hi. unfold md' in Hi.
    rewrite splice_set_unfold, ids_set_children in Hi. destruct Hi as [Hi|Hi].
    - left. rewrite <- Hi. apply eid_in_ids.
    - destruct (splice_set_ids (rev Ys) Lf' (children md) i Hi) as [H1|[y [Hy H1]]].
      + left. rewrite ids_unfold. now right.
      + right. now apply (proj1 (HLf' y Hy)). }
  split; [|split; [exact Hwf'|split; [exact Hmd'|split; [|split; [|split;
    [|split; [exact Hsub|exact HX']]]]]]].
  - unfold _expand_yield_statements.
    rewrite (bindM_step _ _ h md h) by (unfold deref; now rewrite Lmd).
    rewrite (bindM_step _ _ h ex h) by (unfold deref; now rewrite Lex).
    exact Hrun.
  - apply eid_splice_set.
  - unfold md'. rewrite splice_set_unfold, erase_set_children.
    rewrite (erase_splice_set (rev Ys) Lf' (map erase ts) (children md)).
    + rewrite splice_yields_unfold, children_erase. reflexivity.
    + intros c Hc. 
      change (forest_nodes (children md)) with (descendants md) in Hc.
      destruct (String.eqb (tag c) "yield") eqn:E.
      * apply existsb_exists. exists (eid c). split; [|apply Nat.eqb_refl].
        apply in_rev. rewrite rev_involutive. unfold Ys. apply in_map.
        unfold findall_descendants. apply filter_In. split; [exact Hc|exact E].
      * destruct (existsb (Nat.eqb (eid c)) (rev Ys)) eqn:Ex; [|reflexivity].
        apply existsb_exists in Ex. destruct Ex as [x [Hx Ex]].
        apply Nat.eqb_eq in Ex. subst x. apply in_rev in Hx.
        unfold Ys in Hx. apply in_map_iff in Hx. destruct Hx as [c' [Ec' Hc']].
        unfold findall_descendants in Hc'. apply filter_In in Hc'.
        destruct Hc' as [Hc' Htag].
        assert (c' = c).
        { apply (NoDup_map_inj eid (descendants md) c' c); auto.
          unfold descendants.
          change (map eid (flat_map nodes (children md)))
            with (forest_ids (children md)).
          now apply NoDup_children. }
        subst c'. unfold has_tag in Htag. congruence.
    + intros y Hy. now apply (proj2 (HLf' y Hy)).
  - now apply (NoDup_member (trees h')); [apply Hwf'|].
Qed.

(** C1: in a macro expansion, [_expand_macro] takes a deep copy of the
    template and runs [_expand_yield_statements] on the copy and the
    placeholder.  In a well-formed heap these two steps return, and the
    copy is then a tree of its own whose content is the content of the
    template with every yield marker, at any depth, replaced where it
    stood among its siblings by the content of the children of the
    placeholder, in their order ([splice_yields]).  All the nodes of the
    result are new objects, pairwise distinct: every marker got copies of
    its own, no copy is shared between two markers or with the
    placeholder, so that an update of one of them changes nothing else
    ([mutation_is_local]).  The tree of the placeholder is as it was. *)
Theorem expand_yield_statements_splices (h : heap) (template expand_el : nat)
    (mdel ex : _Element) :
  heap_wf h ->
  lookup (trees h) template = Some mdel ->
  lookup (trees h) expand_el = Some ex ->
  exists h' md' X,
    (copy <- deepcopy template ;;
     _expand_yield_statements copy expand_el ;;;
     ret copy)%heap h = Return (eid md', h') /\
    heap_wf h' /\
    In md' (trees h') /\ eid md' = next_id h /\
    erase md' = splice_yields (map erase (children ex)) (erase mdel) /\
    NoDup (ids md') /\
    (forall i, In i (ids md') -> next_id h <= i) /\
    In X (trees h) /\ In ex (nodes X) /\ In X (trees h').
Proof.
  intros Hwf Lm Le.
  destruct (relabel_spec mdel (next_id h)) as [Hn [Hids [Her Heid]]].
  assert (D : deepcopy template h
              = Return (next_id h,
                        Heap (trees h ++ [fst (relabel mdel (next_id h))])
                             (next_id h + size mdel))).
  { unfold deepcopy. rewrite Lm.
    destruct (relabel mdel (next_id h)) as [e' n]. cbn [fst snd] in *.
    now rewrite Heid, Hn. }
  set (md := fst (relabel mdel (next_id h))) in *.
  set (h1 := Heap (trees h ++ [md]) (next_id h + size mdel)) in *.
  destruct (preserves_deepcopy _ _ _ _ Hwf D) as [Hwf1 _].
  destruct (lookup_some _ _ _ Le) as [Eex Hex].
  apply in_forest_nodes in Hex. destruct Hex as [X [HX HexX]].
  assert (Hne : X <> md).
  { intro E. destruct Hwf as [_ Hlt]. rewrite Forall_forall in Hlt.
    assert (Hlt' : eid md < next_id h).
    { apply Hlt. apply in_forest_ids. exists X. split; [exact HX|].
      rewrite E. apply eid_in_ids. }
    lia. }
  destruct (yields_in_own_tree h1 md ex X Hwf1) as
    [h' [md' [R [Hwf' [Hin' [Eid' [Hcontent [Hnd' [Hnew HX']]]]]]]]]; auto.
  { unfold h1. cbn [trees]. apply in_or_app. right. now left. }
  { unfold h1. cbn [trees]. apply in_or_app. now left. }
  exists h', md', X.
  split; [|split; [exact Hwf'|split; [exact Hin'|split; [congruence|]]]].
  - rewrite (bindM_step _ _ _ _ _ D). rewrite <- Heid, <- Eex.
    rewrite (bindM_step _ _ _ _ _ R). unfold ret. now rewrite Eid'.
  - split; [now rewrite Hcontent, Her|]. split; [exact Hnd'|].
    split; [|now repeat split].
    intros i Hi. destruct (Hnew i Hi) as [Hold|Hge].
    + rewrite Hids in Hold. apply in_seq in Hold. lia.
    + unfold h1 in Hge. cbn [next_id] in Hge. lia.
Qed.

Lemma expand_yield_statements_splices_witness :
  exists h' md' X,
    (copy <- deepcopy 2 ;;
     _expand_yield_statements copy 7 ;;;
     ret copy)%heap
      (Heap [Element 0 "tool" [] None None
               [Element 1 "macros" [] None None
                  [Element 2 "macro" [("name", "test"); ("type", "xml")] None None
                     [Element 3 "A" [] None None [Element 4 "yield" [] None None []];
                      Element 5 "B" [] None None [Element 6 "yield" [] None None []]]];
                Element 7 "expand" [("macro", "test")] None None
                  [Element 8 "c1" [] None None [];
                   Element 9 "c2" [] None None []]]] 10)
    = Return (eid md', h') /\
    heap_wf h' /\
    In md' (trees h') /\ eid md' = 10 /\
    erase md'
    = splice_yields
        (map erase [Element 8 "c1" [] None None []; Element 9 "c2" [] None None []])
        (erase
           (Element 2 "macro" [("name", "test"); ("type", "xml")] None None
              [Element 3 "A" [] None None [Element 4 "yield" [] None None []];
               Element 5 "B" [] None None [Element 6 "yield" [] None None []]])) /\
    NoDup (ids md') /\
    (forall i, In i (ids md') -> 10 <= i) /\
    In X [Element 0 "tool" [] None None
            [Element 1 "macros" [] None None
               [Element 2 "macro" [("name", "test"); ("type", "xml")] None None
                  [Element 3 "A" [] None None [Element 4 "yield" [] None None []];
                   Element 5 "B" [] None None [Element 6 "yield" [] None None []]]];
             Element 7 "expand" [("macro", "test")] None None
               [Element 8 "c1" [] None None [];
                Element 9 "c2" [] None None []]]] /\
    In (Element 7 "expand" [("macro", "test")] None None
          [Element 8 "c1" [] None None []; Element 9 "c2" [] None None []])
       (nodes X) /\
    In X (trees h').
Proof.
  apply (expand_yield_statements_splices
           (Heap [Element 0 "tool" [] None None
                    [Element 1 "macros" [] None None
                       [Element 2 "macro" [("name", "test"); ("type", "xml")] None None
                          [Element 3 "A" [] None None
                             [Element 4 "yield" [] None None []];
                           Element 5 "B" [] None None
                             [Element 6 "yield" [] None None []]]];
                     Element 7 "expand" [("macro", "test")] None None
                       [Element 8 "c1" [] None None [];
                        Element 9 "c2" [] None None []]]] 10)
           2 7
           (Element 2 "macro" [("name", "test"); ("type", "xml")] None None
              [Element 3 "A" [] None None [Element 4 "yield" [] None None []];
               Element 5 "B" [] None None [Element 6 "yield" [] None None []]])
           (Element 7 "expand" [("macro", "test")] None None
              [Element 8 "c1" [] None None []; Element 9 "c2" [] None None []])).
  - split; simpl.
    + repeat constructor; simpl; intuition discriminate.
    + repeat constructor.
  - reflexivity.
  - reflexivity.
Defined.

(** The example of the design document: two markers, the children
    [c1], [c2].  Each marker has got copies of its own ... *)
Example two_markers_two_copies :
  _expand_yield_statements 4 1
    (Heap [Element 0 "tool" [] None None
             [Element 1 "expand" [("macro", "test")] None None
                [Element 2 "c1" [] None None []; Element 3 "c2" [] None None []]];
           Element 4 "macro" [("name", "test")] None None
             [Element 5 "A" [] None None [Element 6 "yield" [] None None []];
              Element 7 "B" [] None None [Element 8 "yield" [] None None []]]] 9)
  = Return (tt,
      Heap [Element 0 "tool" [] None None
              [Element 1 "expand" [("macro", "test")] None None
                 [Element 2 "c1" [] None None []; Element 3 "c2" [] None None []]];
            Element 4 "macro" [("name", "test")] None None
              [Element 5 "A" [] None None
                 [Element 9 "c1" [] None None []; Element 10 "c2" [] None None []];
               Element 7 "B" [] None None
                 [Element 11 "c1" [] None None []; Element 12 "c2" [] None None []]];
            Element 6 "yield" [] None None [];
            Element 8 "yield" [] None None []] 13).
Proof. reflexivity. Qed.

(** ... and a change of the first copy of [c1] shows neither in the
    second copy nor in the child of the placeholder. *)
Example two_markers_independent :
  update 9 (set_text (Some "changed"))
    (Heap [Element 0 "tool" [] None None
             [Element 1 "expand" [("macro", "test")] None None
                [Element 2 "c1" [] None None []; Element 3 "c2" [] None None []]];
           Element 4 "macro" [("name", "test")] None None
             [Element 5 "A" [] None None
                [Element 9 "c1" [] None None []; Element 10 "c2" [] None None []];
              Element 7 "B" [] None None
                [Element 11 "c1" [] None None []; Element 12 "c2" [] None None []]];
           Element 6 "yield" [] None None [];
           Element 8 "yield" [] None None []] 13)
  = Return (tt,
      Heap [Element 0 "tool" [] None None
              [Element 1 "expand" [("macro", "test")] None None
                 [Element 2 "c1" [] None None []; Element 3 "c2" [] None None []]];
            Element 4 "macro" [("name", "test")] None None
              [Element 5 "A" [] None None
                 [Element 9 "c1" [] (Some "changed") None [];
                  Element 10 "c2" [] None None []];
               Element 7 "B" [] None None
                 [Element 11 "c1" [] None None []; Element 12 "c2" [] None None []]];
            Element 6 "yield" [] None None [];
            Element 8 "yield" [] None None []] 13).
Proof. reflexivity. Qed.

(** In general: in a well-formed heap, rewriting an object leaves every
    subtree that shares no node with the subtree of the object as it
    was. *)
Lemma mutation_is_local F i j g s e :
  NoDup (forest_ids F) ->
  lookup F i = Some s -> lookup F j = Some e ->
  (forall x, In x (ids s) -> ~ In x (ids e)) ->
  ids (g s) = ids s ->
  lookup (forest_modify i g F) j = Some e.
Proof.
  intros Hnd Li Lj Hdisj Hg.
  assert (Hi : ~ In i (ids e)).
  { apply Hdisj. apply lookup_some in Li. destruct Li as [<- _]. apply eid_in_ids. }
  assert (Hj : ~ In j (ids s)).
  { intro Hin. apply (Hdisj j Hin). apply lookup_some in Lj.
    destruct Lj as [<- _]. apply eid_in_ids. }
  clear Hdisj. revert Hnd Li Lj.
  induction F as [|t F IHt IHF] using forest_ind'; intros Hnd Li Lj; [discriminate|].
  rewrite forest_ids_cons in Hnd.
  assert (Hndt : NoDup (ids t)) by now apply NoDup_app_l in Hnd.
  assert (HndF : NoDup (forest_ids F)) by now apply NoDup_app_r in Hnd.
  assert (Hndc : NoDup (forest_ids (children t))) by now apply NoDup_children.
  rewrite lookup_cons in Li, Lj.
  rewrite forest_modify_cons, lookup_cons, modify_unfold.
  destruct (eid t =? i) eqn:Ei.
  - (* the object is [t] *)
    inversion Li. subst s. apply Nat.eqb_eq in Ei.
    assert (Hjt : (eid t =? j) = false).
    { apply Nat.eqb_neq. intro E. apply Hj. rewrite <- E. apply eid_in_ids. }
    rewrite Hjt in Lj.
    assert (Hjc : lookup (children t) j = None).
    { apply lookup_none. intro Hin. apply Hj. rewrite ids_unfold. now right. }
    rewrite Hjc in Lj.
    assert (HiF : ~ In i (forest_ids F)).
    { intro Hin. apply (NoDup_app_disjoint _ _ i Hnd); [|exact Hin].
      rewrite <- Ei. apply eid_in_ids. }
    rewrite (forest_modify_notin i g F HiF).
    assert (Hjg : ~ In j (ids (g t))) by now rewrite Hg.
    apply not_in_ids_inv in Hjg. destruct Hjg as [Hj1 Hj2].
    apply Nat.eqb_neq in Hj1. rewrite Hj1.
    apply lookup_none in Hj2. now rewrite Hj2.
  - rewrite eid_set_children, children_set_children.
    destruct (eid t =? j) eqn:Ej.
    + (* the subtree is [t] *)
      inversion Lj. subst e.
      rewrite (forest_modify_notin i g (children t)).
      * now rewrite set_children_same.
      * intro Hin. apply Hi. rewrite ids_unfold. now right.
    + case_eq (lookup (children t) i); [intros s' Lci|intros Lci]; rewrite Lci in Li.
      * (* the object is below [t] *)
        inversion Li. subst s'.
        assert (HiF : ~ In i (forest_ids F)).
        { intro Hin. apply (NoDup_app_disjoint _ _ i Hnd); [|exact Hin].
          now apply lookup_children_in_ids with s. }
        rewrite (forest_modify_notin i g F HiF).
        case_eq (lookup (children t) j); [intros e' Lcj|intros Lcj]; rewrite Lcj in Lj.
        -- inversion Lj. subst e'. now rewrite (IHt Hndc Lci Lcj).
        -- assert (Hnone : lookup (forest_modify i g (children t)) j = None).
           { apply lookup_none.
             destruct (forest_modify_segment (children t) i g s Hndc Lci)
               as [pre [post [H1 H2]]].
             rewrite H2, Hg, <- H1. now apply lookup_none. }
           now rewrite Hnone.
      * rewrite (forest_modify_notin i g (children t)) by now apply lookup_none.
        destruct (lookup (children t) j) as [e'|]; [exact Lj|].
        now apply IHF.
Qed.

(* ================================================================== *)
(** * The trees of the forest stay trees *)
(* ================================================================== *)

Lemma keeps_ret {A} (a : A) : keeps_trees (ret a).
Proof. intros h x h' _ H r Hr. inversion H. subst. now exists r. Qed.

Lemma keeps_raise {A} (e : exn) : keeps_trees (@raise A e).
Proof. intros h x h' _ H. discriminate. Qed.

Lemma keeps_out_of_fuel {A} : keeps_trees (@out_of_fuel A).
Proof. intros h x h' _ H. discriminate. Qed.

Lemma keeps_lift {A} (r : result A) : keeps_trees (lift r).
Proof.
  intros h x h' _ H t Ht. apply lift_inv in H. destruct H as [_ ->]. now exists t.
Qed.

Lemma keeps_deref i : keeps_trees (deref i).
Proof.
  intros h x h' _ H t Ht. apply deref_inv in H. destruct H as [_ ->]. now exists t.
Qed.

Lemma keeps_read {A} (f : heap -> A) : keeps_trees (fun h => Return (f h, h)).
Proof. intros h x h' _ H t Ht. inversion H. subst. now exists t. Qed.

Lemma keeps_bind {A B} (m : M A) (k : A -> M B) :
  preserves_wf m -> keeps_trees m -> (forall a, keeps_trees (k a)) ->
  keeps_trees (bindM m k).
Proof.
  intros Hwfm Hm Hk h b h' Hwf H r Hr. apply bindM_inv in H.
  destruct H as [a [h1 [H1 H2]]].
  destruct (Hwfm _ _ _ Hwf H1) as [Hwf1 _].
  destruct (Hm _ _ _ Hwf H1 r Hr) as [r1 [Hr1 E1]].
  destruct (Hk a _ _ _ Hwf1 H2 r1 Hr1) as [r2 [Hr2 E2]].
  exists r2. split; [exact Hr2|congruence].
Qed.

Lemma keeps_for_each {A} (l : list A) (body : A -> M unit) :
  (forall x, preserves_wf (body x)) -> (forall x, keeps_trees (body x)) ->
  keeps_trees (for_each l body).
Proof.
  intros Hwf Hk. induction l as [|x l IH]; [apply keeps_ret|].
  simpl. apply keeps_bind; auto.
Qed.

Lemma member_modify i g F r :
  In r F -> In (modify i g r) (forest_modify i g F).
Proof. intro H. unfold forest_modify. now apply in_map. Qed.

Lemma member_prune i F r :
  In r F -> eid r <> i -> In (prune i r) (prune_list i F).
Proof.
  induction F as [|t F IH]; intros Hr Hne; [destruct Hr|].
  rewrite prune_list_cons. destruct Hr as [->|Hr].
  - apply Nat.eqb_neq in Hne. rewrite Hne. now left.
  - destruct (eid t =? i); [|right]; now apply IH.
Qed.

Lemma keeps_update i g :
  (forall e, eid (g e) = eid e) -> keeps_trees (update i g).
Proof.
  intros Hg h a h' _ H r Hr. inversion H. subst. cbn [trees].
  exists (modify i g r). split; [now apply member_modify|now apply eid_modify].
Qed.

Lemma keeps_in_place i (proc : _Element -> result _Element) :
  (forall e e', proc e = Return e' -> eid e' = eid e) ->
  keeps_trees (in_place i proc).
Proof.
  intros Hproc h a h' Hwf H r Hr. unfold in_place in H.
  apply bindM_inv in H. destruct H as [e [h1 [H1 H]]].
  apply deref_inv in H1. destruct H1 as [L ->].
  apply bindM_inv in H. destruct H as [e' [h2 [H2 H]]].
  apply lift_inv in H2. destruct H2 as [H2 ->].
  inversion H. subst. cbn [trees].
  exists (modify i (fun _ => e') r). split; [now apply member_modify|].
  rewrite modify_unfold. destruct (eid r =? i) eqn:E; [|apply eid_set_children].
  apply Nat.eqb_eq in E. rewrite (Hproc e e' H2).
  apply lookup_some in L. destruct L as [L _]. congruence.
Qed.

Lemma keeps_deepcopy i : keeps_trees (deepcopy i).
Proof.
  intros h j h' _ H r Hr. apply deepcopy_inv in H.
  destruct H as [e [_ [_ ->]]]. cbn [trees]. exists r.
  split; [apply in_or_app; now left|reflexivity].
Qed.

Lemma keeps_el_remove parent child : keeps_trees (el_remove parent child).
Proof.
  intros h a h' Hwf H r Hr. apply el_remove_inv in H.
  destruct H as [p [c [_ [_ [Lc ->]]]]]. cbn [trees]. unfold forest_prune.
  destruct (Nat.eq_dec (eid r) child) as [E|E].
  - exists c. split; [apply in_or_app; right; now left|].
    apply lookup_some in Lc. destruct Lc as [Lc _]. congruence.
  - exists (prune child r). split; [|apply eid_prune].
    apply in_or_app. left. now apply member_prune.
Qed.

(** A fresh copy put under a parent: the other trees stay. *)
Lemma keeps_insert_copies parent_el targets :
  forall current_index, keeps_trees (insert_copies parent_el current_index targets).
Proof.
  induction targets as [|t targets IH]; intro idx; [apply keeps_ret|].
  cbn [insert_copies]. intros h a h' Hwf H r Hr.
  apply bindM_inv in H. destruct H as [copy [h1 [H1 H]]].
  apply bindM_inv in H. destruct H as [u [h2 [H2 H]]].
  destruct (preserves_deepcopy _ _ _ _ Hwf H1) as [Hwf1 _].
  destruct (preserves_el_insert _ _ _ _ _ _ Hwf1 H2) as [Hwf2 _].
  apply deepcopy_inv in H1. destruct H1 as [e [_ [-> ->]]].
  apply el_insert_inv in H2. destruct H2 as [c [_ ->]].
  cbn [trees next_id] in *. unfold forest_prune in *.
  destruct (relabel_spec e (next_id h)) as [_ [_ [_ Heid]]].
  rewrite (prune_fresh_copy (trees h) (next_id h) _ (proj2 Hwf) Heid) in *.
  destruct (IH (idx + 1) _ _ _ Hwf2 H
              (modify parent_el
                 (fun p => set_children (list_insert (idx + 1) c (children p)) p) r))
    as [r' [Hr' E']].
  - cbn [trees]. now apply member_modify.
  - exists r'. split; [exact Hr'|]. rewrite E'. apply eid_modify.
    intro. apply eid_set_children.
Qed.

Lemma keeps_xml_replace query targets : keeps_trees (_xml_replace query targets).
Proof.
  unfold _xml_replace. apply keeps_bind.
  - apply (preserves_read (fun h => parent_of (trees h) query)).
  - apply (keeps_read (fun h => parent_of (trees h) query)).
  - intros [p|]; [|apply keeps_raise].
    destruct (index_of query (children p)); [|apply keeps_raise].
    apply keeps_bind; [apply preserves_insert_copies|apply keeps_insert_copies|].
    intros _. apply keeps_el_remove.
Qed.

Lemma keeps_expand_yield_statements macro_def expand_el :
  keeps_trees (_expand_yield_statements macro_def expand_el).
Proof.
  unfold _expand_yield_statements.
  apply keeps_bind; [apply preserves_deref|apply keeps_deref|]. intro md.
  apply keeps_bind; [apply preserves_deref|apply keeps_deref|]. intro ex.
  apply keeps_for_each; intro y; [apply preserves_xml_replace|apply keeps_xml_replace].
Qed.

Lemma expand_tokens_for_el_eid tokens e e' :
  _expand_tokens_for_el e tokens = Return e' -> eid e' = eid e.
Proof.
  intro H. apply expand_tokens_for_el_ids in H.
  rewrite !ids_unfold in H. now inversion H.
Qed.

Lemma preserves_expand_tokens_children i mt :
  preserves_wf
    (in_place i (fun e => (cs <- _expand_tokens (children e) mt ;;
                           Return (set_children cs e))%py)).
Proof.
  apply preserves_in_place. intros e e' H.
  apply bind_inv in H. destruct H as [cs [Hcs H]]. inversion H. subst e'.
  rewrite ids_set_children, ids_unfold. f_equal. now apply expand_tokens_ids with mt.
Qed.

Lemma keeps_expand_macro {py : Interpreter} expand_macros element expand_el macros tokens :
  (forall els, preserves_wf (expand_macros els macros tokens)) ->
  (forall els, keeps_trees (expand_macros els macros tokens)) ->
  keeps_trees (_expand_macro expand_macros element expand_el macros tokens).
Proof.
  intros Hwfrec Hrec. unfold _expand_macro.
  apply keeps_bind; [apply preserves_deref|apply keeps_deref|]. intro ex.
  destruct (get_attr ex "macro") as [macro_name|]; [|apply keeps_raise].
  destruct (dict_get name_eqb macros (Some macro_name)) as [macro_def|].
  - apply keeps_bind; [apply preserves_deepcopy|apply keeps_deepcopy|]. intro copy_id.
    apply keeps_bind; [apply preserves_expand_yield_statements
                      |apply keeps_expand_yield_statements|]. intros _.
    apply keeps_bind; [apply preserves_deref|apply keeps_deref|]. intro copy.
    apply keeps_bind; [apply Hwfrec|apply Hrec|]. intros _.
    apply keeps_bind; [apply preserves_deref|apply keeps_deref|]. intro ex'.
    apply keeps_bind; [apply preserves_lift|apply keeps_lift|]. intro mt.
    apply keeps_bind.
    + destruct (is_empty mt); [apply preserves_ret|].
      apply preserves_expand_tokens_children.
    + destruct (is_empty mt); [apply keeps_ret|].
      apply keeps_in_place. intros e e' H.
      apply bind_inv in H. destruct H as [cs [Hcs H]]. inversion H.
      apply eid_set_children.
    + intros _. apply keeps_bind; [apply preserves_deref|apply keeps_deref|].
      intro copy'. apply keeps_xml_replace.
  - destruct (str_keys (dict_keys macros)); apply keeps_raise.
Qed.

Lemma keeps_expand_while {py : Interpreter} expand_macros n element macros tokens :
  (forall els, preserves_wf (expand_macros els macros tokens)) ->
  (forall els, keeps_trees (expand_macros els macros tokens)) ->
  keeps_trees (expand_while expand_macros n element macros tokens).
Proof.
  intros Hwfrec Hrec. induction n as [|n IH]; simpl; [apply keeps_out_of_fuel|].
  apply keeps_bind; [apply preserves_deref|apply keeps_deref|]. intro e.
  destruct (find_descendant "expand" e) as [expand_el|]; [|apply keeps_ret].
  apply keeps_bind; [now apply preserves_expand_macro
                    |now apply keeps_expand_macro|]. intros _. exact IH.
Qed.

(** The expansion of macros keeps every tree of the forest a tree of the
    forest: the document stays the document. *)
Lemma keeps_expand_macros {py : Interpreter} fuel :
  forall elements macros tokens,
    keeps_trees (_expand_macros fuel elements macros tokens).
Proof.
  induction fuel as [|fuel IH]; intros elements macros tokens; simpl.
  - apply keeps_out_of_fuel.
  - destruct (is_empty macros && is_empty tokens); [apply keeps_ret|].
    apply keeps_for_each; intro element.
    + apply preserves_expand_while. intro. apply preserves_expand_macros.
    + apply keeps_expand_while; intro; [apply preserves_expand_macros|apply IH].
Qed.

(* ================================================================== *)
(** * What the removal loop leaves *)
(* ================================================================== *)

Lemma nodes_children (t : _Element) : nodes t = t :: forest_nodes (children t).
Proof. destruct t. apply nodes_unfold. Qed.

Lemma prune_list_ids_incl x F i :
  In i (forest_ids (prune_list x F)) -> In i (forest_ids F).
Proof.
  induction F as [|t F IHt IHF] using forest_ind'; [now intros|].
  rewrite prune_list_cons, forest_ids_cons.
  destruct (eid t =? x).
  - intro H. apply in_or_app. right. now apply IHF.
  - rewrite forest_ids_cons, prune_unfold, ids_set_children, ids_unfold.
    intro H. apply in_app_or in H. destruct H as [[H|H]|H].
    + apply in_or_app. left. now left.
    + apply in_or_app. left. right. now apply IHt.
    + apply in_or_app. right. now apply IHF.
Qed.

Lemma NoDup_prune x F :
  NoDup (forest_ids F) -> NoDup (forest_ids (prune_list x F)).
Proof.
  intro Hnd. case_eq (lookup F x); [intros s L|intros L].
  - destruct (prune_segment F x s Hnd L) as [pre [post [H1 H2]]].
    rewrite H2. rewrite H1 in Hnd.
    apply NoDup_app_intro.
    + now apply NoDup_app_l in Hnd.
    + apply NoDup_app_r in Hnd. now apply NoDup_app_r in Hnd.
    + intros i Hi Hj. apply (NoDup_app_disjoint pre (ids s ++ post) i Hnd Hi).
      apply in_or_app. now right.
  - apply lookup_none in L. now rewrite (prune_list_notin x F L).
Qed.

(** An element that is not below [x] is still there when [x] has left,
    without what it had below it of [x]. *)
Lemma nodes_prune x F e :
  In e (forest_nodes F) ->
  (forall s, In s (forest_nodes F) -> eid s = x -> ~ In e (nodes s)) ->
  In (prune x e) (forest_nodes (prune_list x F)).
Proof.
  induction F as [|t F IHt IHF] using forest_ind'; [now intros|].
  rewrite forest_nodes_cons. intros He Hout.
  assert (HoutF : forall s, In s (forest_nodes F) -> eid s = x -> ~ In e (nodes s)).
  { intros s Hs. apply Hout. apply in_or_app. now right. }
  rewrite prune_list_cons.
  apply in_app_or in He. destruct He as [He|He].
  - assert (Hne : eid t <> x).
    { intro E. apply (Hout t); [apply in_or_app; left; apply nodes_self|exact E|exact He]. }
    apply Nat.eqb_neq in Hne. rewrite Hne. rewrite forest_nodes_cons.
    apply in_or_app. left.
    rewrite nodes_children in He.
    destruct He as [<-|He]; [apply nodes_self|].
    rewrite (prune_unfold x t), nodes_set_children. right.
    apply IHt; [exact He|]. intros s Hs. apply Hout.
    apply in_or_app. left. rewrite nodes_children. now right.
  - destruct (eid t =? x); [now apply IHF|].
    rewrite forest_nodes_cons. apply in_or_app. right. now apply IHF.
Qed.

Lemma lookup_prune x F j e s :
  NoDup (forest_ids F) ->
  lookup F x = Some s -> lookup F j = Some e -> ~ In j (ids s) ->
  lookup (prune_list x F) j = Some (prune x e).
Proof.
  intros Hnd Ls Le Hout.
  destruct (lookup_some _ _ _ Le) as [Ej He].
  rewrite <- Ej, <- (eid_prune x e).
  apply lookup_member; [now apply NoDup_prune|].
  apply nodes_prune; [exact He|].
  intros s' Hs' Es' Hin.
  assert (s' = s) by (apply (node_unique F x); auto). subst s'.
  apply Hout. rewrite <- Ej. unfold ids. now apply in_map.
Qed.

Lemma tag_prune x (e : _Element) : tag (prune x e) = tag e.
Proof. rewrite prune_unfold. now destruct e. Qed.

Lemma attrib_prune x (e : _Element) : attrib (prune x e) = attrib e.
Proof. rewrite prune_unfold. now destruct e. Qed.

(** After [remove], every element is still in the forest, with the tag
    and the attributes it had. *)
Lemma lookup_after_remove x F j e s :
  NoDup (forest_ids F) ->
  lookup F x = Some s -> lookup F j = Some e ->
  exists e', lookup (prune_list x F ++ [s]) j = Some e' /\
             tag e' = tag e /\ attrib e' = attrib e.
Proof.
  intros Hnd Ls Le. rewrite lookup_app.
  destruct (in_dec Nat.eq_dec j (ids s)) as [Hin|Hout].
  - destruct (prune_segment F x s Hnd Ls) as [pre [post [H1 H2]]].
    assert (N : lookup (prune_list x F) j = None).
    { apply lookup_none. rewrite H2. rewrite H1 in Hnd. intro Hj.
      apply in_app_or in Hj. destruct Hj as [Hj|Hj].
      - apply (NoDup_app_disjoint pre (ids s ++ post) j Hnd Hj).
        apply in_or_app. now left.
      - apply NoDup_app_r in Hnd. apply (NoDup_app_disjoint _ _ j Hnd Hin Hj). }
    rewrite N. exists e. split; [|split; reflexivity].
    unfold ids in Hin. apply in_map_iff in Hin. destruct Hin as [n [En Hn]].
    destruct (lookup_some _ _ _ Ls) as [_ Hs].
    assert (n = e).
    { apply (node_unique F j); auto.
      now apply (proj2 nodes_trans F s n). }
    subst n. rewrite <- En. apply lookup_member.
    + rewrite forest_ids_single. rewrite H1 in Hnd.
      apply NoDup_app_r in Hnd. now apply NoDup_app_l in Hnd.
    + simpl. rewrite app_nil_r. exact Hn.
  - rewrite (lookup_prune x F j e s Hnd Ls Le Hout).
    exists (prune x e). split; [reflexivity|].
    split; [apply tag_prune|apply attrib_prune].
Qed.

Lemma type_is_attrib t (a b : _Element) : attrib a = attrib b -> type_is t a = type_is t b.
Proof. intro H. unfold type_is, get_attr. now rewrite H. Qed.

(** The loop, one element after the other: the tree of the document loses
    the elements that are not templates. *)
Lemma remove_macros_loop (els : list _Element) :
  forall h r h',
    heap_wf h -> In r (trees h) ->
    (forall n, In n els ->
       exists n', lookup (trees h) (eid n) = Some n' /\ attrib n' = attrib n) ->
    remove_macros (map eid els) h = Return (tt, h') ->
    heap_wf h' /\
    In (fold_left (fun t i => prune i t)
          (map eid (filter (fun n => negb (type_is "template" n)) els)) r)
       (trees h').
Proof.
  induction els as [|n els IH]; intros h r h' Hwf Hr Hels H.
  - inversion H. subst. now split.
  - unfold remove_macros in H. cbn [map for_each] in H.
    apply bindM_inv in H. destruct H as [[] [h1 [H1 H]]].
    apply bindM_inv in H1. destruct H1 as [e [h0 [D H1]]].
    apply deref_inv in D. destruct D as [Le ->].
    destruct (Hels n (or_introl eq_refl)) as [n' [Ln' An']].
    rewrite Ln' in Le. inversion Le. subst e.
    rewrite (type_is_attrib "template" n' n An') in H1.
    cbn [filter]. destruct (type_is "template" n) eqn:T; cbn [negb].
    + inversion H1. subst h1. apply (IH h r h' Hwf Hr); [|exact H].
      intros m Hm. apply Hels. now right.
    + apply bindM_inv in H1. destruct H1 as [parent [h2 [G H1]]].
      unfold getparent in G. inversion G. subst h2. clear G.
      case_eq (parent_of (trees h) (eid n)).
      2:{ intro N. rewrite N in H2. subst parent. discriminate. }
      intros pn Lp. rewrite Lp in H2. cbn [option_map] in H2. subst parent.
      destruct (preserves_el_remove _ _ _ _ _ Hwf H1) as [Hwf1 _].
      apply el_remove_inv in H1. destruct H1 as [p [c [_ [_ [Lc ->]]]]].
      destruct (parent_of_some _ _ _ Lp) as [Hpn Hch].
      assert (Hroot : eid r <> eid n).
      { intro E. apply (child_not_root (trees h) (eid n) pn (proj1 Hwf) Hpn Hch).
        rewrite <- E. now apply in_map. }
      cbn [map fold_left].
      apply (IH _ (prune (eid n) r) h' Hwf1); [| |exact H].
      * cbn [trees]. apply in_or_app. left. unfold forest_prune.
        now apply member_prune.
      * intros m Hm. destruct (Hels m (or_intror Hm)) as [m' [Lm Am]].
        cbn [trees]. unfold forest_prune.
        destruct (lookup_after_remove (eid n) (trees h) (eid m) m' c
                    (proj1 Hwf) Lc Lm) as [m'' [L'' [_ A'']]].
        exists m''. split; [exact L''|congruence].
Qed.

Lemma prune_set_list_eq S (l : list _Element) :
  (fix prune_children (l : list _Element) : list _Element :=
     match l with
     | [] => []
     | c :: l' =>
         if existsb (Nat.eqb (eid c)) S then prune_children l'
         else prune_set S c :: prune_children l'
     end) l = prune_set_list S l.
Proof. induction l as [|c l IH]; simpl; [reflexivity|]. now rewrite IH. Qed.

Lemma prune_set_unfold S (t : _Element) :
  prune_set S t = set_children (prune_set_list S (children t)) t.
Proof. destruct t. simpl. now rewrite prune_set_list_eq. Qed.

Lemma prune_set_list_cons S c l :
  prune_set_list S (c :: l)
  = if existsb (Nat.eqb (eid c)) S then prune_set_list S l
    else prune_set S c :: prune_set_list S l.
Proof. reflexivity. Qed.

Lemma strip_list_eq (l : list _Element) :
  (fix strip_children (l : list _Element) : list _Element :=
     match l with
     | [] => []
     | c :: l' =>
         if removable c then strip_children l'
         else strip_macros c :: strip_children l'
     end) l = strip_list l.
Proof. induction l as [|c l IH]; simpl; [reflexivity|]. now rewrite IH. Qed.

Lemma strip_macros_unfold (t : _Element) :
  strip_macros t = set_children (strip_list (children t)) t.
Proof. destruct t. simpl. now rewrite strip_list_eq. Qed.

Lemma strip_list_cons c l :
  strip_list (c :: l)
  = if removable c then strip_list l else strip_macros c :: strip_list l.
Proof. reflexivity. Qed.

Lemma prune_set_nil_list F : prune_set_list [] F = F.
Proof.
  induction F as [|t F IHt IHF] using forest_ind'; [reflexivity|].
  rewrite prune_set_list_cons. cbn [existsb].
  now rewrite prune_set_unfold, IHt, set_children_same, IHF.
Qed.

Lemma prune_set_nil (t : _Element) : prune_set [] t = t.
Proof. now rewrite prune_set_unfold, prune_set_nil_list, set_children_same. Qed.

Lemma eid_prune_set S (t : _Element) : eid (prune_set S t) = eid t.
Proof. rewrite prune_set_unfold. apply eid_set_children. Qed.

Lemma prune_prune_set_list i S F :
  prune_list i (prune_set_list S F) = prune_set_list (i :: S) F.
Proof.
  induction F as [|t F IHt IHF] using forest_ind'; [reflexivity|].
  rewrite !prune_set_list_cons. cbn [existsb].
  destruct (existsb (Nat.eqb (eid t)) S).
  - now rewrite orb_true_r.
  - rewrite orb_false_r, prune_list_cons, eid_prune_set.
    destruct (eid t =? i); [exact IHF|].
    rewrite IHF. f_equal.
    rewrite prune_unfold, !prune_set_unfold, children_set_children, IHt.
    apply set_children_twice.
Qed.

Lemma prune_prune_set i S (t : _Element) :
  prune i (prune_set S t) = prune_set (i :: S) t.
Proof.
  rewrite prune_unfold, !prune_set_unfold, children_set_children,
    prune_prune_set_list.
  apply set_children_twice.
Qed.

Lemma fold_prune_set (L : list nat) :
  forall S t,
    fold_left (fun t i => prune i t) L (prune_set S t) = prune_set (rev L ++ S) t.
Proof.
  induction L as [|i L IH]; intros S t; [reflexivity|].
  cbn [fold_left rev]. rewrite prune_prune_set, IH, <- app_assoc. reflexivity.
Qed.

Lemma prune_set_strip_list S F :
  (forall c, In c (forest_nodes F) -> existsb (Nat.eqb (eid c)) S = removable c) ->
  prune_set_list S F = strip_list F.
Proof.
  induction F as [|t F IHt IHF] using forest_ind'; intro H; [reflexivity|].
  rewrite prune_set_list_cons, strip_list_cons.
  rewrite forest_nodes_cons in H.
  rewrite (H t) by (apply in_or_app; left; apply nodes_self).
  assert (HF : prune_set_list S F = strip_list F).
  { apply IHF. intros c Hc. apply H. apply in_or_app. now right. }
  rewrite HF. destruct (removable t); [reflexivity|]. f_equal.
  rewrite prune_set_unfold, strip_macros_unfold. f_equal.
  apply IHt. intros c Hc. apply H. apply in_or_app. left.
  rewrite nodes_children. now right.
Qed.

(** Taking out, one after the other, the elements tagged [macro] that are
    not templates leaves the stripped tree. *)
Lemma fold_prune_strip (r : _Element) :
  NoDup (ids r) ->
  fold_left (fun t i => prune i t)
    (map eid (filter (fun n => negb (type_is "template" n)) (xpath_all "macro" r))) r
  = strip_macros r.
Proof.
  intro Hnd.
  rewrite <- (prune_set_nil r) at 2. rewrite fold_prune_set, app_nil_r.
  rewrite prune_set_unfold, strip_macros_unfold. f_equal.
  apply prune_set_strip_list. intros c Hc.
  assert (Hcn : In c (nodes r)) by (rewrite nodes_children; now right).
  destruct (removable c) eqn:R.
  - apply existsb_exists. exists (eid c). split; [|apply Nat.eqb_refl].
    rewrite <- in_rev. apply in_map. apply filter_In.
    unfold removable in R. apply andb_true_iff in R. destruct R as [R1 R2].
    split; [|exact R2]. unfold xpath_all. apply filter_In. now split.
  - destruct (existsb (Nat.eqb (eid c))
                (rev (map eid (filter (fun n => negb (type_is "template" n))
                                 (xpath_all "macro" r))))) eqn:E; [|reflexivity].
    apply existsb_exists in E. destruct E as [i [Hi Ei]].
    apply Nat.eqb_eq in Ei. subst i. rewrite <- in_rev in Hi.
    apply in_map_iff in Hi. destruct Hi as [n [En Hn]].
    apply filter_In in Hn. destruct Hn as [Hn T].
    unfold xpath_all in Hn. apply filter_In in Hn. destruct Hn as [Hn G].
    assert (n = c) by (apply (NoDup_map_inj eid (nodes r)); auto).
    subst n. unfold removable in R. now rewrite G, T in R.
Qed.

(** The effect of the removal loop on the tree of the document. *)
Lemma remove_macros_effect (h h' : heap) (r : _Element) :
  heap_wf h -> In r (trees h) ->
  remove_macros (map eid (xpath_all "macro" r)) h = Return (tt, h') ->
  heap_wf h' /\ In (strip_macros r) (trees h').
Proof.
  intros Hwf Hr H.
  destruct (remove_macros_loop (xpath_all "macro" r) h r h' Hwf Hr) as [Hwf' Hin].
  - intros n Hn. exists n. split; [|reflexivity].
    apply lookup_member; [apply Hwf|].
    unfold xpath_all in Hn. apply filter_In in Hn.
    apply in_forest_nodes. exists r. split; [exact Hr|apply Hn].
  - exact H.
  - split; [exact Hwf'|].
    rewrite fold_prune_strip in Hin; [exact Hin|].
    apply (NoDup_member (trees h)); [apply Hwf|exact Hr].
Qed.

(** In the stripped tree no element below the root is removable. *)
Lemma strip_list_clean F n :
  In n (forest_nodes (strip_list F)) -> removable n = false.
Proof.
  induction F as [|t F IHt IHF] using forest_ind'; [now intros|].
  rewrite strip_list_cons. destruct (removable t) eqn:R; [exact IHF|].
  rewrite forest_nodes_cons, strip_macros_unfold, nodes_set_children.
  intro H. apply in_app_or in H. destruct H as [[<-|H]|H].
  - unfold removable in *. now destruct t.
  - now apply IHt.
  - now apply IHF.
Qed.

(** A child that is not removable stays a child, stripped itself. *)
Lemma strip_list_keeps F c :
  In c F -> removable c = false -> In (strip_macros c) (strip_list F).
Proof.
  induction F as [|t F IH]; intros Hc R; [destruct Hc|].
  rewrite strip_list_cons. destruct Hc as [->|Hc].
  - rewrite R. now left.
  - destruct (removable t); [|right]; now apply IH.
Qed.

(* ================================================================== *)
(** * The files that a document imports *)
(* ================================================================== *)

Lemma declared_imports_erase (l1 : list _Element) :
  forall l2, map erase l1 = map erase l2 -> declared_imports l1 = declared_imports l2.
Proof.
  induction l1 as [|a l1 IH]; intros [|b l2] H; try discriminate; [reflexivity|].
  simpl in H. inversion H as [[Hab Hl]]. simpl.
  rewrite (erase_tag a b Hab), (erase_text a b Hab), (IH l2 Hl). reflexivity.
Qed.

Lemma transitive_imports_erase parse_xml fuel base (a b : _Element) :
  erase a = erase b ->
  transitive_imports parse_xml fuel base a = transitive_imports parse_xml fuel base b.
Proof.
  intro H. destruct fuel as [|fuel]; [reflexivity|]. simpl.
  now rewrite (declared_imports_erase (children a) (children b) (erase_children a b H)).
Qed.

Lemma forest_ids_modify_same i g F :
  (forall e, ids (g e) = ids e) ->
  forest_ids (forest_modify i g F) = forest_ids F.
Proof.
  intro Hg. induction F as [|t F IHt IHF] using forest_ind'; [reflexivity|].
  rewrite forest_modify_cons, !forest_ids_cons, IHF. f_equal.
  rewrite modify_unfold. destruct (eid t =? i); [apply Hg|].
  now rewrite ids_set_children, IHt, <- ids_unfold.
Qed.

Lemma for_each_invariant {A} (P : heap -> Prop) (l : list A) (body : A -> M unit) :
  (forall x h u h', In x l -> P h -> body x h = Return (u, h') -> P h') ->
  forall h u h', P h -> for_each l body h = Return (u, h') -> P h'.
Proof.
  induction l as [|x l IH]; intros Hbody h u h' HP H.
  - inversion H. now subst.
  - cbn [for_each] in H. apply bindM_inv in H. destruct H as [v [h1 [H1 H2]]].
    apply (IH (fun y k w k' Hy => Hbody y k w k' (or_intror Hy)) h1 u h');
      [|exact H2].
    apply (Hbody x h v h1); [now left|exact HP|exact H1].
Qed.

Section Frame.
Variable parse_xml : string -> bool -> option _Element.
Variable n0 : nat.
Variable F0 : forest.
Hypothesis F0_old : Forall (fun i => i < n0) (forest_ids F0).

Lemma old_not_new j : n0 <= j -> ~ In j (forest_ids F0).
Proof.
  intros Hj Hin. rewrite Forall_forall in F0_old. apply F0_old in Hin. lia.
Qed.

Lemma frame_update c g h :
  frame n0 F0 h -> n0 <= c -> (forall e, ids (g e) = ids e) ->
  frame n0 F0 (Heap (forest_modify c g (trees h)) (next_id h)).
Proof.
  intros [Hn [extra [E Hex]]] Hc Hg. split; [exact Hn|].
  exists (forest_modify c g extra). cbn [trees]. split.
  - rewrite E, forest_modify_app, (forest_modify_notin c g F0); [reflexivity|].
    now apply old_not_new.
  - now rewrite forest_ids_modify_same.
Qed.

Lemma frame_parse path rc h j h' :
  frame n0 F0 h -> parse parse_xml path rc h = Return (j, h') ->
  frame n0 F0 h' /\ n0 <= j.
Proof.
  intros [Hn [extra [E Hex]]] H. apply parse_inv in H.
  destruct H as [e [_ [-> ->]]]. split; [|exact Hn].
  split; [cbn [next_id]; lia|].
  exists (extra ++ [fst (relabel e (next_id h))]). cbn [trees]. split.
  - now rewrite E, app_assoc.
  - rewrite forest_ids_app, forest_ids_single. apply Forall_app. split; [exact Hex|].
    destruct (relabel_spec e (next_id h)) as [_ [Hids _]]. rewrite Hids.
    apply Forall_forall. intros x Hx. apply in_seq in Hx. lia.
Qed.

(** What a new element has below it is new. *)
Lemma frame_children j h me :
  frame n0 F0 h -> n0 <= j -> lookup (trees h) j = Some me ->
  Forall (fun x => n0 <= x) (map eid (children me)).
Proof.
  intros [Hn [extra [E Hex]]] Hj L. rewrite E, lookup_app in L.
  assert (N : lookup F0 j = None) by (apply lookup_none; now apply old_not_new).
  rewrite N in L. apply lookup_some in L. destruct L as [_ Hme].
  apply Forall_forall. intros x Hx. apply in_map_iff in Hx.
  destruct Hx as [c [<- Hc]]. rewrite Forall_forall in Hex. apply Hex.
  unfold forest_ids. apply in_map. now apply (child_in_forest extra me c).
Qed.

Lemma Forall_filter_ids (P : nat -> Prop) (f : _Element -> bool) (l : list _Element) :
  Forall P (map eid l) -> Forall P (map eid (filter f l)).
Proof.
  rewrite !Forall_forall. intros H x Hx. apply in_map_iff in Hx.
  destruct Hx as [c [<- Hc]]. apply filter_In in Hc. apply H. apply in_map. apply Hc.
Qed.

Lemma attribute_typed_frame j h ids_ h' :
  frame n0 F0 h -> n0 <= j ->
  load_attribute_typed (Some j) h = Return (ids_, h') ->
  frame n0 F0 h' /\ Forall (fun x => n0 <= x) ids_.
Proof.
  intros Hf Hj H. unfold load_attribute_typed in H.
  apply bindM_inv in H. destruct H as [me [h0 [D H]]].
  apply deref_inv in D. destruct D as [L ->].
  apply bindM_inv in H. destruct H as [u [h1 [H1 H]]].
  inversion H. subst. clear H.
  assert (Hnew : Forall (fun x => n0 <= x) (map eid (findall_children "macro" me))).
  { apply Forall_filter_ids. now apply (frame_children j h me). }
  split; [|exact Hnew].
  apply (for_each_invariant (frame n0 F0) _ _) with (h := h) (u := u) (h' := h')
    in H1; [exact H1| |exact Hf].
  intros x k w k' Hx Hk Hbody.
  apply bindM_inv in Hbody. destruct Hbody as [e [k0 [D Hbody]]].
  apply deref_inv in D. destruct D as [_ ->].
  rewrite Forall_forall in Hnew.
  destruct (get_attr e "type").
  - inversion Hbody. now subst.
  - inversion Hbody. apply frame_update; [exact Hk|now apply Hnew|].
    apply ids_set_attrib.
Qed.

Lemma shortcut_frame j tg h ids_ h' :
  frame n0 F0 h -> n0 <= j ->
  load_shortcut (Some j) tg h = Return (ids_, h') ->
  frame n0 F0 h' /\ Forall (fun x => n0 <= x) ids_.
Proof.
  intros Hf Hj H. unfold load_shortcut in H.
  apply bindM_inv in H. destruct H as [me [h0 [D H]]].
  apply deref_inv in D. destruct D as [L ->].
  apply bindM_inv in H. destruct H as [u [h1 [H1 H]]].
  inversion H. subst. clear H.
  assert (Hnew : Forall (fun x => n0 <= x) (map eid (findall_children tg me))).
  { apply Forall_filter_ids. now apply (frame_children j h me). }
  split; [|exact Hnew].
  apply (for_each_invariant (frame n0 F0) _ _) with (h := h) (u := u) (h' := h')
    in H1; [exact H1| |exact Hf].
  intros x k w k' Hx Hk Hbody.
  apply bindM_inv in Hbody. destruct Hbody as [v [k0 [U1 U2]]].
  rewrite Forall_forall in Hnew.
  inversion U1. subst k0. inversion U2.
  apply (frame_update x (set_tag "macro")
           (Heap (forest_modify x (set_attrib "type" tg) (trees k)) (next_id k))).
  - apply frame_update; [exact Hk|now apply Hnew|apply ids_set_attrib].
  - now apply Hnew.
  - apply ids_set_tag.
Qed.

Lemma embedded_frame j base h ids_ h' :
  frame n0 F0 h -> n0 <= j ->
  _load_embedded_macros (Some j) base h = Return (ids_, h') ->
  frame n0 F0 h' /\ Forall (fun x => n0 <= x) ids_.
Proof.
  intros Hf Hj H. unfold _load_embedded_macros in H.
  apply bindM_inv in H. destruct H as [a [h1 [H1 H]]].
  apply bindM_inv in H. destruct H as [b [h2 [H2 H]]].
  apply bindM_inv in H. destruct H as [c [h3 [H3 H]]].
  apply bindM_inv in H. destruct H as [d [h4 [H4 H]]].
  inversion H. subst. clear H.
  destruct (attribute_typed_frame j h a h1 Hf Hj H1) as [Hf1 Ha].
  destruct (shortcut_frame j _ h1 b h2 Hf1 Hj H2) as [Hf2 Hb].
  destruct (shortcut_frame j _ h2 c h3 Hf2 Hj H3) as [Hf3 Hc].
  destruct (shortcut_frame j _ h3 d h' Hf3 Hj H4) as [Hf4 Hd].
  split; [exact Hf4|]. repeat (apply Forall_app; split); assumption.
Qed.

Section ImportLoop.
Variable rec : option nat -> string -> M (list nat * list string).
Variable spec_rec : _Element -> option (list string).
Variable base : string.
Hypothesis rec_wf : forall m b, preserves_wf (rec m b).
Hypothesis rec_paths :
  forall j h res h' me,
    heap_wf h -> rec (Some j) base h = Return (res, h') ->
    lookup (trees h) j = Some me -> spec_rec me = Some (snd res).
Hypothesis spec_rec_erase : forall a b, erase a = erase b -> spec_rec a = spec_rec b.
Hypothesis rec_frame :
  forall j h res h',
    frame n0 F0 h -> n0 <= j -> rec (Some j) base h = Return (res, h') ->
    frame n0 F0 h' /\ Forall (fun x => n0 <= x) (fst res).

Lemma load_imported_loop_paths (paths : list (option string)) :
  forall macros macro_paths h res h',
    heap_wf h ->
    load_imported_loop parse_xml rec paths base macros macro_paths h
    = Return (res, h') ->
    exists l, imports_of_paths parse_xml spec_rec base paths = Some l /\
              snd res = macro_paths ++ l.
Proof.
  induction paths as [|[rel|] paths IH]; intros macros macro_paths h res h' Hwf H;
    cbn [load_imported_loop] in H.
  - inversion H. subst. exists []. split; [reflexivity|]. now rewrite app_nil_r.
  - apply bindM_inv in H. destruct H as [r [h1 [H1 H]]].
    unfold _load_macro_file in H1.
    apply bindM_inv in H1. destruct H1 as [root [h0 [P H1]]].
    destruct (preserves_parse parse_xml _ _ _ _ _ Hwf P) as [Hwf0 _].
    destruct (rec_wf _ _ _ _ _ Hwf0 H1) as [Hwf1 _].
    apply parse_inv in P. destruct P as [doc [Pd [-> ->]]].
    destruct (relabel_spec doc (next_id h)) as [_ [_ [Her Heid]]].
    assert (S : spec_rec doc = Some (snd r)).
    { rewrite <- (spec_rec_erase _ _ Her).
      apply (rec_paths _ _ _ _ _ Hwf0 H1). cbn [trees].
      apply lookup_fresh_copy; [apply Hwf|exact Heid]. }
    destruct (IH _ _ _ _ _ Hwf1 H) as [l [Hl Hres]].
    cbn [imports_of_paths]. rewrite Pd, S, Hl.
    eexists. split; [reflexivity|]. rewrite Hres, <- !app_assoc. reflexivity.
  - discriminate.
Qed.

Lemma load_imported_loop_frame (paths : list (option string)) :
  forall macros macro_paths h res h',
    frame n0 F0 h -> Forall (fun x => n0 <= x) macros ->
    load_imported_loop parse_xml rec paths base macros macro_paths h
    = Return (res, h') ->
    frame n0 F0 h' /\ Forall (fun x => n0 <= x) (fst res).
Proof.
  induction paths as [|[rel|] paths IH]; intros macros macro_paths h res h' Hf Hm H;
    cbn [load_imported_loop] in H.
  - inversion H. subst. now split.
  - apply bindM_inv in H. destruct H as [r [h1 [H1 H]]].
    unfold _load_macro_file in H1.
    apply bindM_inv in H1. destruct H1 as [root [h0 [P H1]]].
    destruct (frame_parse _ _ _ _ _ Hf P) as [Hf0 Hroot].
    destruct (rec_frame _ _ _ _ Hf0 Hroot H1) as [Hf1 Hr].
    apply (IH _ _ _ _ _ Hf1) in H; [exact H|].
    apply Forall_app. now split.
  - discriminate.
Qed.

End ImportLoop.

(** The paths that [_load_macros] returns are the transitive imports of
    its argument. *)
Lemma load_macros_paths fuel :
  forall j base h res h' me,
    heap_wf h ->
    _load_macros parse_xml fuel (Some j) base h = Return (res, h') ->
    lookup (trees h) j = Some me ->
    transitive_imports parse_xml fuel base me = Some (snd res).
Proof.
  induction fuel as [|fuel IH]; intros j base h res h' me Hwf H L;
    cbn [_load_macros] in H; [discriminate|].
  apply bindM_inv in H. destruct H as [r [h1 [H1 H]]].
  apply bindM_inv in H. destruct H as [emb [h2 [_ H]]].
  inversion H. subst. clear H. cbn [snd].
  unfold _load_imported_macros in H1.
  apply bindM_inv in H1. destruct H1 as [paths [h0 [D H1]]].
  apply bindM_inv in D. destruct D as [me' [h00 [D R]]].
  apply deref_inv in D. destruct D as [L' ->]. inversion R. subst. clear R.
  rewrite L in L'. inversion L'. subst me'.
  destruct (load_imported_loop_paths (_load_macros parse_xml fuel)
              (transitive_imports parse_xml fuel base) base
              (preserves_load_macros parse_xml fuel)
              (fun j h res h' me => IH j base h res h' me)
              (transitive_imports_erase parse_xml fuel base)
              _ _ _ _ _ _ Hwf H1) as [l [Hl Hres]].
  cbn [transitive_imports].
  unfold _imported_macro_paths_from_el in Hl.
  rewrite <- findall_import_declared. unfold findall_children in Hl.
  rewrite Hl, Hres. reflexivity.
Qed.

(** Loading the macros of an imported file touches nothing old, and the
    elements it returns are new. *)
Lemma load_macros_frame fuel :
  forall j base h res h',
    frame n0 F0 h -> n0 <= j ->
    _load_macros parse_xml fuel (Some j) base h = Return (res, h') ->
    frame n0 F0 h' /\ Forall (fun x => n0 <= x) (fst res).
Proof.
  induction fuel as [|fuel IH]; intros j base h res h' Hf Hj H;
    cbn [_load_macros] in H; [discriminate|].
  apply bindM_inv in H. destruct H as [r [h1 [H1 H]]].
  apply bindM_inv in H. destruct H as [emb [h2 [H2 H]]].
  inversion H. subst. clear H. cbn [fst].
  unfold _load_imported_macros in H1.
  apply bindM_inv in H1. destruct H1 as [paths [h0 [D H1]]].
  apply bindM_inv in D. destruct D as [me' [h00 [D R]]].
  apply deref_inv in D. destruct D as [L' ->]. inversion R. subst. clear R.
  destruct (load_imported_loop_frame (_load_macros parse_xml fuel) base
              (fun j h res h' => IH j base h res h')
              _ _ _ _ _ _ Hf (Forall_nil _) H1) as [Hf1 Hr].
  destruct (embedded_frame j base h1 emb h' Hf1 Hj H2) as [Hf2 He].
  split; [exact Hf2|]. apply Forall_app. now split.
Qed.

(** The imports of the document itself. *)
Lemma load_imported_macros_frame fuel m base h r h' :
  frame n0 F0 h ->
  _load_imported_macros parse_xml (_load_macros parse_xml fuel) (Some m) base h
  = Return (r, h') ->
  frame n0 F0 h' /\ Forall (fun x => n0 <= x) (fst r).
Proof.
  intros Hf H. unfold _load_imported_macros in H.
  apply bindM_inv in H. destruct H as [paths [h0 [D H1]]].
  apply bindM_inv in D. destruct D as [me' [h00 [D R]]].
  apply deref_inv in D. destruct D as [L' ->]. inversion R. subst. clear R.
  apply (load_imported_loop_frame (_load_macros parse_xml fuel) base
           (fun j h res h' => load_macros_frame fuel j base h res h')
           _ _ _ _ _ _ Hf (Forall_nil _) H1).
Qed.

End Frame.

(* ================================================================== *)
(** * Loading the imports returns *)
(* ================================================================== *)

Lemma for_each_returns {A} (Inv : heap -> Prop) (l : list A) (body : A -> M unit) :
  (forall x h, In x l -> Inv h -> exists h', body x h = Return (tt, h') /\ Inv h') ->
  forall h, Inv h -> exists h', for_each l body h = Return (tt, h') /\ Inv h'.
Proof.
  induction l as [|x l IH]; intros Hbody h HI.
  - exists h. now split.
  - destruct (Hbody x h (or_introl eq_refl) HI) as [h1 [H1 HI1]].
    destruct (IH (fun y k Hy => Hbody y k (or_intror Hy)) h1 HI1) as [h' [H2 HI']].
    exists h'. split; [|exact HI']. cbn [for_each].
    now rewrite (bindM_step _ _ _ _ _ H1).
Qed.

Lemma deref_returns i h :
  In i (forest_ids (trees h)) -> exists e, deref i h = Return (e, h).
Proof.
  intro H. destruct (lookup_in_ids _ _ H) as [e L]. exists e.
  unfold deref. now rewrite L.
Qed.

Lemma child_ids_present F i me :
  lookup F i = Some me ->
  forall c, In c (children me) -> In (eid c) (forest_ids F).
Proof.
  intros L c Hc. apply lookup_some in L. destruct L as [_ Hme].
  unfold forest_ids. apply in_map. now apply (child_in_forest F me c).
Qed.

Lemma attribute_typed_returns j h :
  In j (forest_ids (trees h)) ->
  exists ids_ h',
    load_attribute_typed (Some j) h = Return (ids_, h') /\
    forest_ids (trees h') = forest_ids (trees h) /\
    forall x, In x ids_ -> In x (forest_ids (trees h)).
Proof.
  intro Hj. destruct (lookup_in_ids _ _ Hj) as [me L].
  unfold load_attribute_typed.
  assert (D : deref j h = Return (me, h)) by (unfold deref; now rewrite L).
  rewrite (bindM_step _ _ _ _ _ D).
  assert (Hids : forall x, In x (map eid (findall_children "macro" me)) ->
                           In x (forest_ids (trees h))).
  { intros x Hx. apply in_map_iff in Hx. destruct Hx as [c [<- Hc]].
    apply filter_In in Hc. apply (child_ids_present (trees h) j me L c). apply Hc. }
  match goal with
  | |- context [for_each ?l ?b] =>
      destruct (for_each_returns
                  (fun k => forest_ids (trees k) = forest_ids (trees h)) l b)
        with (h := h) as [h' [R E]]; [|reflexivity|]
  end.
  - intros x k Hx Ek.
    assert (Hxk : In x (forest_ids (trees k))) by (rewrite Ek; now apply Hids).
    destruct (deref_returns x k Hxk) as [e De].
    rewrite (bindM_step _ _ _ _ _ De).
    destruct (get_attr e "type").
    + exists k. now split.
    + eexists. split; [reflexivity|]. cbn [trees].
      rewrite forest_ids_modify_same; [exact Ek|apply ids_set_attrib].
  - exists (map eid (findall_children "macro" me)), h'.
    rewrite (bindM_step _ _ _ _ _ R). now repeat split.
Qed.

Lemma shortcut_returns j tg h :
  In j (forest_ids (trees h)) ->
  exists ids_ h',
    load_shortcut (Some j) tg h = Return (ids_, h') /\
    forest_ids (trees h') = forest_ids (trees h) /\
    forall x, In x ids_ -> In x (forest_ids (trees h)).
Proof.
  intro Hj. destruct (lookup_in_ids _ _ Hj) as [me L].
  unfold load_shortcut.
  assert (D : deref j h = Return (me, h)) by (unfold deref; now rewrite L).
  rewrite (bindM_step _ _ _ _ _ D).
  assert (Hids : forall x, In x (map eid (findall_children tg me)) ->
                           In x (forest_ids (trees h))).
  { intros x Hx. apply in_map_iff in Hx. destruct Hx as [c [<- Hc]].
    apply filter_In in Hc. apply (child_ids_present (trees h) j me L c). apply Hc. }
  match goal with
  | |- context [for_each ?l ?b] =>
      destruct (for_each_returns
                  (fun k => forest_ids (trees k) = forest_ids (trees h)) l b)
        with (h := h) as [h' [R E]]; [|reflexivity|]
  end.
  - intros x k Hx Ek. eexists. split; [reflexivity|]. cbn [trees].
    rewrite forest_ids_modify_same; [|apply ids_set_tag].
    rewrite forest_ids_modify_same; [exact Ek|apply ids_set_attrib].
  - exists (map eid (findall_children tg me)), h'.
    rewrite (bindM_step _ _ _ _ _ R). now repeat split.
Qed.

Lemma embedded_returns j base h :
  In j (forest_ids (trees h)) ->
  exists ids_ h',
    _load_embedded_macros (Some j) base h = Return (ids_, h') /\
    forest_ids (trees h') = forest_ids (trees h) /\
    forall x, In x ids_ -> In x (forest_ids (trees h)).
Proof.
  intro Hj. unfold _load_embedded_macros.
  destruct (attribute_typed_returns j h Hj) as [a [h1 [R1 [E1 P1]]]].
  assert (Hj1 : In j (forest_ids (trees h1))) by now rewrite E1.
  destruct (shortcut_returns j "template" h1 Hj1) as [b [h2 [R2 [E2 P2]]]].
  assert (Hj2 : In j (forest_ids (trees h2))) by now rewrite E2.
  destruct (shortcut_returns j "xml" h2 Hj2) as [c [h3 [R3 [E3 P3]]]].
  assert (Hj3 : In j (forest_ids (trees h3))) by now rewrite E3.
  destruct (shortcut_returns j "token" h3 Hj3) as [d [h4 [R4 [E4 P4]]]].
  exists (a ++ b ++ c ++ d), h4.
  rewrite (bindM_step _ _ _ _ _ R1), (bindM_step _ _ _ _ _ R2),
    (bindM_step _ _ _ _ _ R3), (bindM_step _ _ _ _ _ R4).
  split; [reflexivity|]. split; [congruence|].
  intros x Hx. apply in_app_or in Hx. destruct Hx as [Hx|Hx]; [now apply P1|].
  apply in_app_or in Hx. destruct Hx as [Hx|Hx];
    [rewrite <- E1; now apply P2|].
  apply in_app_or in Hx. destruct Hx as [Hx|Hx].
  - rewrite <- E1, <- E2. now apply P3.
  - rewrite <- E1, <- E2, <- E3. now apply P4.
Qed.

Section ImportsReturn.
Variable parse_xml : string -> bool -> option _Element.

Lemma parse_step path rc h e :
  parse_xml path rc = Some e ->
  parse parse_xml path rc h
  = Return (next_id h,
            Heap (trees h ++ [fst (relabel e (next_id h))]) (next_id h + size e)).
Proof.
  intro H. unfold parse. rewrite H.
  destruct (relabel_spec e (next_id h)) as [H1 [_ [_ H4]]].
  destruct (relabel e (next_id h)) as [e' n]. cbn [fst snd] in *.
  now rewrite H4, H1.
Qed.

Section LoopReturns.
Variable rec : option nat -> string -> M (list nat * list string).
Variable spec_rec : _Element -> option (list string).
Variable base : string.
Hypothesis rec_wf : forall m b, preserves_wf (rec m b).
Hypothesis spec_rec_erase : forall a b, erase a = erase b -> spec_rec a = spec_rec b.
Hypothesis rec_returns :
  forall j h me paths,
    heap_wf h -> lookup (trees h) j = Some me -> spec_rec me = Some paths ->
    exists ids_ h',
      rec (Some j) base h = Return ((ids_, paths), h') /\
      incl (forest_ids (trees h)) (forest_ids (trees h')) /\
      forall x, In x ids_ -> In x (forest_ids (trees h')).

Lemma load_imported_loop_returns (paths : list (option string)) :
  forall macros macro_paths h l,
    heap_wf h ->
    imports_of_paths parse_xml spec_rec base paths = Some l ->
    (forall x, In x macros -> In x (forest_ids (trees h))) ->
    exists ms h',
      load_imported_loop parse_xml rec paths base macros macro_paths h
      = Return ((ms, macro_paths ++ l), h') /\
      incl (forest_ids (trees h)) (forest_ids (trees h')) /\
      forall x, In x ms -> In x (forest_ids (trees h')).
Proof.
  induction paths as [|[rel|] paths IH]; intros macros macro_paths h l Hwf Hl Hm;
    cbn [imports_of_paths] in Hl; [| |discriminate].
  - inversion Hl. subst. exists macros, h. rewrite app_nil_r.
    split; [reflexivity|]. split; [apply incl_refl|exact Hm].
  - destruct (parse_xml (OsPath.join base rel) false) as [doc|] eqn:P;
      [|discriminate].
    destruct (spec_rec doc) as [sub|] eqn:S; [|discriminate].
    destruct (imports_of_paths parse_xml spec_rec base paths) as [more|] eqn:Mo;
      [|discriminate].
    inversion Hl. subst l. clear Hl.
    assert (Hp := parse_step _ _ h doc P).
    destruct (preserves_parse parse_xml _ _ _ _ _ Hwf Hp) as [Hwf0 _].
    destruct (relabel_spec doc (next_id h)) as [_ [_ [Her Heid]]].
    destruct (rec_returns (next_id h) _ (fst (relabel doc (next_id h))) sub Hwf0)
      as [ids_ [h1 [R [I1 P1]]]].
    { cbn [trees]. apply lookup_fresh_copy; [apply Hwf|exact Heid]. }
    { now rewrite (spec_rec_erase _ _ Her). }
    destruct (rec_wf _ _ _ _ _ Hwf0 R) as [Hwf1 _].
    assert (I0 : incl (forest_ids (trees h)) (forest_ids (trees h1))).
    { intros x Hx. apply I1. cbn [trees]. rewrite forest_ids_app.
      apply in_or_app. now left. }
    destruct (IH (macros ++ ids_) ((macro_paths ++ [OsPath.join base rel]) ++ sub)
                h1 more Hwf1 eq_refl) as [ms [h' [R' [I' P']]]].
    { intros x Hx. apply in_app_or in Hx. destruct Hx as [Hx|Hx].
      - apply I0. now apply Hm.
      - now apply P1. }
    exists ms, h'. split; [|split; [|exact P']].
    + assert (F : _load_macro_file parse_xml rec (OsPath.join base rel) base h
                  = Return ((ids_, sub), h1)).
      { unfold _load_macro_file. now rewrite (bindM_step _ _ _ _ _ Hp). }
      cbn [load_imported_loop]. rewrite (bindM_step _ _ _ _ _ F). cbn [fst snd].
      rewrite R'. rewrite <- !app_assoc. reflexivity.
    + intros x Hx. apply I'. now apply I0.
Qed.

Lemma load_imported_macros_step m h me l :
  heap_wf h -> lookup (trees h) m = Some me ->
  imports_of_paths parse_xml spec_rec base (declared_imports (children me)) = Some l ->
  exists I hA,
    _load_imported_macros parse_xml rec (Some m) base h = Return ((I, l), hA) /\
    incl (forest_ids (trees h)) (forest_ids (trees hA)) /\
    forall x, In x I -> In x (forest_ids (trees hA)).
Proof.
  intros Hwf L Hl.
  destruct (load_imported_loop_returns _ [] [] h l Hwf Hl) as [I [hA [RA [IA PA]]]];
    [intros x []|].
  exists I, hA. split; [|now split].
  assert (D : deref m h = Return (me, h)) by (unfold deref; now rewrite L).
  assert (D1 : bindM (deref m)
                 (fun me => ret (_imported_macro_paths_from_el (Some me))) h
               = Return (declared_imports (children me), h)).
  { rewrite (bindM_step _ _ _ _ _ D).
    unfold _imported_macro_paths_from_el, findall_children.
    now rewrite findall_import_declared. }
  unfold _load_imported_macros. rewrite (bindM_step _ _ _ _ _ D1). exact RA.
Qed.

End LoopReturns.

(** When every file of the transitive imports can be read within the
    depth that [fuel] allows, [_load_macros] returns, with the paths of
    the design document. *)
Lemma load_macros_returns fuel :
  forall j base h me paths,
    heap_wf h -> lookup (trees h) j = Some me ->
    transitive_imports parse_xml fuel base me = Some paths ->
    exists ids_ h',
      _load_macros parse_xml fuel (Some j) base h = Return ((ids_, paths), h') /\
      incl (forest_ids (trees h)) (forest_ids (trees h')) /\
      forall x, In x ids_ -> In x (forest_ids (trees h')).
Proof.
  induction fuel as [|fuel IH]; intros j base h me paths Hwf L Hp;
    cbn [transitive_imports] in Hp; [discriminate|].
  destruct (load_imported_macros_step (_load_macros parse_xml fuel)
              (transitive_imports parse_xml fuel base) base
              (preserves_load_macros parse_xml fuel)
              (transitive_imports_erase parse_xml fuel base)
              (fun j h me paths => IH j base h me paths)
              j h me paths Hwf L Hp) as [I [hA [RA [IA PA]]]].
  assert (Hj : In j (forest_ids (trees hA))).
  { apply IA. apply lookup_some in L. destruct L as [<- Hme].
    unfold forest_ids. now apply in_map. }
  destruct (embedded_returns j base hA Hj) as [E [hB [RB [EB PB]]]].
  exists (I ++ E), hB. split; [|split].
  - cbn [_load_macros]. rewrite (bindM_step _ _ _ _ _ RA). cbn [fst snd].
    now rewrite (bindM_step _ _ _ _ _ RB).
  - rewrite EB. exact IA.
  - rewrite EB. intros x Hx. apply in_app_or in Hx.
    destruct Hx as [Hx|Hx]; [now apply PA|now apply PB].
Qed.

(** The imports of the document itself. *)
Lemma load_imported_macros_returns fuel m base h me paths :
  heap_wf h -> lookup (trees h) m = Some me ->
  transitive_imports parse_xml (S fuel) base me = Some paths ->
  exists I hA,
    _load_imported_macros parse_xml (_load_macros parse_xml fuel) (Some m) base h
    = Return ((I, paths), hA) /\
    forall x, In x I -> In x (forest_ids (trees hA)).
Proof.
  intros Hwf L Hp. cbn [transitive_imports] in Hp.
  destruct (load_imported_macros_step (_load_macros parse_xml fuel)
              (transitive_imports parse_xml fuel base) base
              (preserves_load_macros parse_xml fuel)
              (transitive_imports_erase parse_xml fuel base)
              (fun j h me paths => load_macros_returns fuel j base h me paths)
              m h me paths Hwf L Hp) as [I [hA [RA [IA PA]]]].
  exists I, hA. now split.
Qed.

End ImportsReturn.

(* ================================================================== *)
(** * The macro container while the macros are loaded *)
(* ================================================================== *)

Lemma forest_modify_at a g (done todo : list _Element) (c : _Element) :
  eid c = a -> ~ In a (forest_ids done) -> ~ In a (forest_ids todo) ->
  forest_modify a g (done ++ c :: todo) = done ++ g c :: todo.
Proof.
  intros E Hd Ht.
  rewrite forest_modify_app, forest_modify_cons, (forest_modify_notin a g done Hd),
    (forest_modify_notin a g todo Ht), modify_unfold.
  apply Nat.eqb_eq in E. now rewrite E.
Qed.

Lemma NoDup_split_ids (done todo : list _Element) (c : _Element) :
  NoDup (forest_ids (done ++ c :: todo)) ->
  ~ In (eid c) (forest_ids done) /\ ~ In (eid c) (forest_ids todo).
Proof.
  rewrite forest_ids_app, forest_ids_cons. intro H. split; intro Hin.
  - apply (NoDup_app_disjoint _ _ (eid c) H Hin).
    apply in_or_app. left. apply eid_in_ids.
  - apply NoDup_app_r in H.
    apply (NoDup_app_disjoint _ _ (eid c) H (eid_in_ids c) Hin).
Qed.

Lemma list_insert_end {A} (k : nat) (c : A) (l : list A) :
  length l <= k -> list_insert k c l = l ++ [c].
Proof.
  intro H. unfold list_insert. rewrite firstn_all2 by exact H.
  now rewrite skipn_all2 by exact H.
Qed.

Lemma list_insert_length {A} (k : nat) (c : A) (l : list A) :
  length (list_insert k c l) = S (length l).
Proof.
  unfold list_insert. rewrite length_app. cbn [length].
  rewrite <- (firstn_skipn k l) at 3. rewrite length_app. lia.
Qed.

Lemma list_insert_in {A} (k : nat) (c x : A) (l : list A) :
  In x (list_insert k c l) -> x = c \/ In x l.
Proof.
  unfold list_insert. intro H. rewrite <- (firstn_skipn k l).
  apply in_app_or in H. destruct H as [H|[H|H]].
  - right. apply in_or_app. now left.
  - now left.
  - right. apply in_or_app. now right.
Qed.

Lemma prune_list_length x F : length (prune_list x F) <= length F.
Proof.
  induction F as [|t F IH]; [reflexivity|].
  rewrite prune_list_cons. destruct (eid t =? x); simpl; lia.
Qed.

Lemma prune_list_eids x F e :
  In e (prune_list x F) -> exists e0, In e0 F /\ eid e = eid e0.
Proof.
  induction F as [|t F IH]; [now intros|].
  rewrite prune_list_cons. destruct (eid t =? x).
  - intro H. destruct (IH H) as [e0 [H0 E]]. exists e0. split; [now right|exact E].
  - intros [<-|H].
    + exists t. split; [now left|apply eid_prune].
    + destruct (IH H) as [e0 [H0 E]]. exists e0. split; [now right|exact E].
Qed.

Lemma for_each_app_inv {A} (l1 l2 : list A) (body : A -> M unit) :
  forall h u h',
    for_each (l1 ++ l2) body h = Return (u, h') ->
    exists h1, for_each l1 body h = Return (tt, h1) /\
               for_each l2 body h1 = Return (u, h').
Proof.
  induction l1 as [|x l1 IH]; intros h u h' H.
  - exists h. now split.
  - rewrite <- app_comm_cons in H. cbn [for_each] in H.
    apply bindM_inv in H. destruct H as [v [h0 [H1 H2]]].
    destruct (IH _ _ _ H2) as [h1 [H3 H4]].
    exists h1. split; [|exact H4].
    cbn [for_each]. now rewrite (bindM_step _ _ _ _ _ H1).
Qed.

Lemma combine_seq_app {A} (l1 l2 : list A) (k : nat) :
  combine (seq k (length (l1 ++ l2))) (l1 ++ l2)
  = combine (seq k (length l1)) l1 ++ combine (seq (k + length l1) (length l2)) l2.
Proof.
  revert k. induction l1 as [|x l1 IH]; intro k.
  - simpl. now rewrite Nat.add_0_r.
  - simpl. rewrite IH. now rewrite Nat.add_succ_r.
Qed.

Section Container.
Variables (r0 me0 : _Element) (pre0 post0 : list _Element).
Local Abbreviation cn := (canon r0 me0 pre0 post0).

Lemma eid_canon CS : eid (cn CS) = eid r0.
Proof. apply eid_set_children. Qed.

Lemma ids_canon CS :
  ids (cn CS)
  = eid r0 :: forest_ids pre0 ++ (eid me0 :: forest_ids CS) ++ forest_ids post0.
Proof.
  unfold canon. now rewrite ids_set_children, forest_ids_app, forest_ids_cons,
    ids_set_children.
Qed.

Lemma canon_facts CS :
  NoDup (ids (cn CS)) ->
  eid me0 <> eid r0 /\
  ~ In (eid me0) (forest_ids pre0) /\ ~ In (eid me0) (forest_ids post0) /\
  NoDup (forest_ids CS) /\
  forall a, In a (forest_ids CS) ->
            a <> eid r0 /\ a <> eid me0 /\
            ~ In a (forest_ids pre0) /\ ~ In a (forest_ids post0).
Proof.
  rewrite ids_canon. intro H. inversion H as [|x l Hroot Hrest]. subst.
  assert (Hm : NoDup (eid me0 :: forest_ids CS ++ forest_ids post0)).
  { apply NoDup_app_r in Hrest. exact Hrest. }
  inversion Hm as [|y l' Hmnot Hcq]. subst.
  split; [|split; [|split; [|split]]].
  - intro E. apply Hroot. apply in_or_app. right. left. exact E.
  - intro Hin. apply (NoDup_app_disjoint _ _ (eid me0) Hrest Hin). now left.
  - intro Hin. apply Hmnot. apply in_or_app. now right.
  - now apply NoDup_app_l in Hcq.
  - intros a Ha. split; [|split; [|split]].
    + intro E. apply Hroot. apply in_or_app. right. right. apply in_or_app.
      left. now rewrite <- E.
    + intro E. apply Hmnot. apply in_or_app. left. now rewrite <- E.
    + intro Hin. apply (NoDup_app_disjoint _ _ a Hrest Hin).
      right. apply in_or_app. now left.
    + intro Hin. apply (NoDup_app_disjoint _ _ a Hcq Ha Hin).
Qed.

Lemma container_in_canon CS : In (set_children CS me0) (nodes (cn CS)).
Proof.
  rewrite nodes_children. right. unfold canon. rewrite children_set_children.
  apply in_forest_nodes. exists (set_children CS me0).
  split; [apply in_or_app; right; now left|apply nodes_self].
Qed.

Lemma child_in_canon CS c : In c CS -> In c (nodes (cn CS)).
Proof.
  intro Hc. apply (proj1 nodes_trans (cn CS) (set_children CS me0) c).
  - apply container_in_canon.
  - rewrite nodes_set_children. right. apply in_forest_nodes.
    exists c. split; [exact Hc|apply nodes_self].
Qed.

Lemma child_ids_in_canon CS c : In c CS -> In (eid c) (forest_ids CS).
Proof.
  intro Hc. apply in_forest_ids. exists c. split; [exact Hc|apply eid_in_ids].
Qed.

Lemma modify_canon_child a g CS :
  a <> eid r0 -> a <> eid me0 ->
  ~ In a (forest_ids pre0) -> ~ In a (forest_ids post0) ->
  modify a g (cn CS) = cn (forest_modify a g CS).
Proof.
  intros Hr Hm Hpre Hpost. unfold canon.
  assert (Er : (eid r0 =? a) = false) by (apply Nat.eqb_neq; congruence).
  assert (Em : (eid me0 =? a) = false) by (apply Nat.eqb_neq; congruence).
  rewrite modify_unfold, eid_set_children, Er.
  rewrite children_set_children, set_children_twice. f_equal.
  rewrite forest_modify_app, forest_modify_cons,
    (forest_modify_notin a g pre0 Hpre), (forest_modify_notin a g post0 Hpost).
  f_equal. f_equal.
  rewrite modify_unfold, eid_set_children, Em.
  now rewrite children_set_children, set_children_twice.
Qed.

Lemma modify_canon_container idx c CS :
  eid me0 <> eid r0 ->
  ~ In (eid me0) (forest_ids pre0) -> ~ In (eid me0) (forest_ids post0) ->
  modify (eid me0)
    (fun p => set_children (list_insert idx c (children p)) p) (cn CS)
  = cn (list_insert idx c CS).
Proof.
  intros Hr Hpre Hpost. unfold canon.
  assert (Er : (eid r0 =? eid me0) = false) by (apply Nat.eqb_neq; congruence).
  rewrite modify_unfold, eid_set_children, Er.
  rewrite children_set_children, set_children_twice. f_equal.
  rewrite forest_modify_app, forest_modify_cons,
    (forest_modify_notin _ _ pre0 Hpre), (forest_modify_notin _ _ post0 Hpost).
  f_equal. f_equal.
  rewrite modify_unfold, eid_set_children, Nat.eqb_refl.
  now rewrite children_set_children, set_children_twice.
Qed.

Lemma prune_canon x CS :
  x <> eid me0 -> ~ In x (forest_ids pre0) -> ~ In x (forest_ids post0) ->
  prune x (cn CS) = cn (prune_list x CS).
Proof.
  intros Hm Hpre Hpost. unfold canon.
  rewrite prune_unfold, children_set_children, set_children_twice. f_equal.
  rewrite prune_list_app, (prune_list_notin x pre0 Hpre), prune_list_cons,
    eid_set_children.
  assert (E : (eid me0 =? x) = false) by (apply Nat.eqb_neq; congruence).
  rewrite E, (prune_list_notin x post0 Hpost). f_equal. f_equal.
  now rewrite prune_unfold, children_set_children, set_children_twice.
Qed.

Lemma lookup_canon_child h CS c :
  heap_wf h -> In (cn CS) (trees h) -> In c CS ->
  lookup (trees h) (eid c) = Some c.
Proof.
  intros Hwf Hin Hc. apply lookup_member; [apply Hwf|].
  apply in_forest_nodes. exists (cn CS). split; [exact Hin|now apply child_in_canon].
Qed.

Lemma lookup_canon_container h CS :
  heap_wf h -> In (cn CS) (trees h) ->
  lookup (trees h) (eid me0) = Some (set_children CS me0).
Proof.
  intros Hwf Hin. rewrite <- (eid_set_children CS me0).
  apply lookup_member; [apply Hwf|].
  apply in_forest_nodes. exists (cn CS). split; [exact Hin|apply container_in_canon].
Qed.

(** A loop that rewrites, one after the other, the children of the
    container with the tag [t]. *)
Section UpdateLoop.
Variable t : string.
Variable body : nat -> M unit.
Variable fx : _Element -> _Element.
Hypothesis body_returns :
  forall c h,
    lookup (trees h) (eid c) = Some c -> has_tag t c = true ->
    exists g,
      body (eid c) h
      = Return (tt, Heap (forest_modify (eid c) g (trees h)) (next_id h)) /\
      g c = fx c.
Hypothesis fx_ids : forall c, ids (fx c) = ids c.

Lemma update_children_loop (todo : list _Element) :
  forall done h,
    heap_wf h -> In (cn (done ++ todo)) (trees h) ->
    exists h',
      for_each (map eid (filter (has_tag t) todo)) body h = Return (tt, h') /\
      heap_wf h' /\
      In (cn (done ++ map (normalise_step t fx) todo)) (trees h') /\
      Permutation (forest_ids (trees h)) (forest_ids (trees h')).
Proof.
  induction todo as [|c todo IH]; intros done h Hwf Hin.
  - exists h. split; [reflexivity|]. split; [exact Hwf|]. split; [exact Hin|].
    apply Permutation_refl.
  - cbn [filter map]. unfold normalise_step at 1.
    destruct (has_tag t c) eqn:T.
    + assert (L : lookup (trees h) (eid c) = Some c).
      { apply (lookup_canon_child h (done ++ c :: todo)); auto.
        apply in_or_app. right. now left. }
      destruct (body_returns c h L T) as [g [Hb Hg]].
      assert (Hnd : NoDup (ids (cn (done ++ c :: todo)))).
      { apply (NoDup_member (trees h)); [apply Hwf|exact Hin]. }
      destruct (canon_facts _ Hnd) as [_ [_ [_ [Hcs Hch]]]].
      destruct (Hch (eid c)) as [A1 [A2 [A3 A4]]].
      { apply child_ids_in_canon. apply in_or_app. right. now left. }
      destruct (NoDup_split_ids done todo c Hcs) as [B1 B2].
      assert (Hwf1 : heap_wf (Heap (forest_modify (eid c) g (trees h)) (next_id h))).
      { apply (update_wf (eid c) g h tt _); [|exact Hwf|reflexivity].
        intros e Le. rewrite L in Le. inversion Le. subst e.
        now rewrite Hg, fx_ids. }
      destruct (IH (done ++ [fx c]) _ Hwf1) as [h' [R [Hwf' [Hin' P]]]].
      * cbn [trees]. rewrite <- app_assoc. cbn [app]. rewrite <- Hg.
        rewrite <- (forest_modify_at (eid c) g done todo c eq_refl B1 B2).
        rewrite <- (modify_canon_child (eid c) g _ A1 A2 A3 A4).
        now apply member_modify.
      * exists h'. split; [|split; [exact Hwf'|split]].
        -- cbn [map for_each]. now rewrite (bindM_step _ _ _ _ _ Hb).
        -- rewrite <- app_assoc in Hin'. exact Hin'.
        -- cbn [trees] in P. apply Permutation_trans with
             (forest_ids (forest_modify (eid c) g (trees h))); [|exact P].
           destruct (forest_modify_segment (trees h) (eid c) g c (proj1 Hwf) L)
             as [pre [post [G1 G2]]].
           rewrite G1, G2, Hg, fx_ids. apply Permutation_refl.
    + destruct (IH (done ++ [c]) h Hwf) as [h' [R [Hwf' [Hin' P]]]].
      * rewrite <- app_assoc. exact Hin.
      * exists h'. split; [exact R|]. split; [exact Hwf'|]. split; [|exact P].
        rewrite <- app_assoc in Hin'. exact Hin'.
Qed.

End UpdateLoop.

Lemma ids_typed (c : _Element) : ids (typed c) = ids c.
Proof. unfold typed. destruct (get_attr c "type"); [reflexivity|apply ids_set_attrib]. Qed.

Lemma ids_shortcut tg (c : _Element) : ids (shortcut tg c) = ids c.
Proof. unfold shortcut. now rewrite ids_set_tag, ids_set_attrib. Qed.

Lemma deref_step i h e : lookup (trees h) i = Some e -> deref i h = Return (e, h).
Proof. intro L. unfold deref. now rewrite L. Qed.

Lemma attribute_typed_effect h CS :
  heap_wf h -> In (cn CS) (trees h) ->
  exists h',
    load_attribute_typed (Some (eid me0)) h
    = Return (map eid (filter (has_tag "macro") CS), h') /\
    heap_wf h' /\
    In (cn (map (normalise_step "macro" typed) CS)) (trees h') /\
    Permutation (forest_ids (trees h)) (forest_ids (trees h')).
Proof.
  intros Hwf Hin. unfold load_attribute_typed.
  rewrite (bindM_step _ _ _ _ _
             (deref_step _ _ _ (lookup_canon_container h CS Hwf Hin))).
  unfold findall_children. rewrite children_set_children.
  match goal with
  | |- context [for_each _ ?b] =>
      destruct (update_children_loop "macro" b typed) with
        (todo := CS) (done := @nil _Element) (h := h) as [h' [R [Hwf' [Hin' P]]]]; auto
  end.
  - intros c k Lc T. unfold typed.
    rewrite (bindM_step _ _ _ _ _ (deref_step _ _ _ Lc)).
    destruct (get_attr c "type").
    + exists (fun e => e). split; [|reflexivity].
      rewrite forest_modify_id. now destruct k.
    + exists (set_attrib "type" "xml"). now split.
  - apply ids_typed.
  - exists h'. split; [|split; [exact Hwf'|split; [exact Hin'|exact P]]].
    now rewrite (bindM_step _ _ _ _ _ R).
Qed.

Lemma shortcut_effect tg h CS :
  heap_wf h -> In (cn CS) (trees h) ->
  exists h',
    load_shortcut (Some (eid me0)) tg h
    = Return (map eid (filter (has_tag tg) CS), h') /\
    heap_wf h' /\
    In (cn (map (normalise_step tg (shortcut tg)) CS)) (trees h') /\
    Permutation (forest_ids (trees h)) (forest_ids (trees h')).
Proof.
  intros Hwf Hin. unfold load_shortcut.
  rewrite (bindM_step _ _ _ _ _
             (deref_step _ _ _ (lookup_canon_container h CS Hwf Hin))).
  unfold findall_children. rewrite children_set_children.
  match goal with
  | |- context [for_each _ ?b] =>
      destruct (update_children_loop tg b (shortcut tg)) with
        (todo := CS) (done := @nil _Element) (h := h) as [h' [R [Hwf' [Hin' P]]]]; auto
  end.
  - intros c k Lc T.
    exists (fun e => set_tag "macro" (set_attrib "type" tg e)). split; [|reflexivity].
    unfold bindM, update. cbn [trees next_id].
    rewrite forest_modify_compose; [reflexivity|]. now intros [].
  - apply ids_shortcut.
  - exists h'. split; [|split; [exact Hwf'|split; [exact Hin'|exact P]]].
    now rewrite (bindM_step _ _ _ _ _ R).
Qed.

End Container.

(* ================================================================== *)
(** * The children that the container gets *)
(* ================================================================== *)

Lemma eid_typed (c : _Element) : eid (typed c) = eid c.
Proof. unfold typed. now destruct (get_attr c "type"). Qed.

Lemma eid_shortcut tg (c : _Element) : eid (shortcut tg c) = eid c.
Proof. reflexivity. Qed.

Lemma tag_typed (c : _Element) : tag (typed c) = tag c.
Proof. unfold typed. now destruct (get_attr c "type"). Qed.

Lemma eid_normalise_step t fx (c : _Element) :
  (forall e, eid (fx e) = eid e) -> eid (normalise_step t fx c) = eid c.
Proof. intro H. unfold normalise_step. destruct (has_tag t c); [apply H|reflexivity]. Qed.

Lemma eid_normalise (c : _Element) : eid (normalise c) = eid c.
Proof.
  unfold normalise.
  rewrite !eid_normalise_step; try reflexivity; try (intro; apply eid_shortcut).
  apply eid_typed.
Qed.

Lemma ids_normalise_step t fx (c : _Element) :
  (forall e, ids (fx e) = ids e) -> ids (normalise_step t fx c) = ids c.
Proof. intro H. unfold normalise_step. destruct (has_tag t c); [apply H|reflexivity]. Qed.

Lemma ids_normalise (c : _Element) : ids (normalise c) = ids c.
Proof.
  unfold normalise.
  rewrite !ids_normalise_step; try reflexivity; try (intro; apply ids_shortcut).
  apply ids_typed.
Qed.

Lemma forest_ids_map_same (f : _Element -> _Element) (l : list _Element) :
  (forall e, ids (f e) = ids e) -> forest_ids (map f l) = forest_ids l.
Proof.
  intro H. induction l as [|c l IH]; [reflexivity|].
  cbn [map]. now rewrite !forest_ids_cons, H, IH.
Qed.

(** The children with the tag [t] are the same before and after a step
    for another tag. *)
Lemma filter_after_step t s fx (l : list _Element) :
  (forall c, eid (fx c) = eid c) ->
  (forall c, has_tag s c = true -> has_tag t (fx c) = has_tag t c) ->
  map eid (filter (has_tag t) (map (normalise_step s fx) l))
  = map eid (filter (has_tag t) l).
Proof.
  intros He Ht. induction l as [|c l IH]; [reflexivity|].
  cbn [map filter]. unfold normalise_step at 1 2.
  destruct (has_tag s c) eqn:S.
  - rewrite (Ht c S). destruct (has_tag t c); cbn [map]; now rewrite ?He, IH.
  - destruct (has_tag t c); cbn [map]; now rewrite IH.
Qed.

Lemma has_tag_typed t (c : _Element) : has_tag t (typed c) = has_tag t c.
Proof. unfold has_tag. now rewrite tag_typed. Qed.

Lemma has_tag_shortcut s t tg (c : _Element) :
  String.eqb s t = false -> String.eqb "macro" t = false ->
  has_tag s c = true -> has_tag t (shortcut tg c) = has_tag t c.
Proof.
  intros Hst Hmt Hs. unfold has_tag in *. apply String.eqb_eq in Hs.
  cbn [shortcut set_tag tag]. now rewrite Hs, Hst, Hmt.
Qed.

Lemma NoDup_roots (F : list _Element) : NoDup (forest_ids F) -> NoDup (map eid F).
Proof.
  induction F as [|t F IH]; intro H; [constructor|].
  rewrite forest_ids_cons in H. cbn [map]. constructor.
  - intro Hin. apply (NoDup_app_disjoint _ _ (eid t) H (eid_in_ids t)).
    apply in_map_iff in Hin. destruct Hin as [c [E Hc]].
    apply in_forest_ids. exists c. split; [exact Hc|]. rewrite <- E. apply eid_in_ids.
  - apply IH. now apply NoDup_app_r in H.
Qed.

Lemma embedded_in (cs : list _Element) c : In c (embedded cs) -> In c cs.
Proof.
  unfold embedded. intro H.
  repeat (apply in_app_or in H; destruct H as [H|H];
          [apply filter_In in H; apply H|]).
  apply filter_In in H. apply H.
Qed.

Lemma NoDup_embedded (cs : list _Element) :
  NoDup (map eid cs) -> NoDup (map eid (embedded cs)).
Proof.
  intro Hnd. unfold embedded. rewrite !map_app.
  assert (Hf : forall t, NoDup (map eid (filter (has_tag t) cs)))
    by (intro t; now apply NoDup_map_filter).
  assert (Hd : forall s t x,
             String.eqb s t = false ->
             In x (map eid (filter (has_tag s) cs)) ->
             In x (map eid (filter (has_tag t) cs)) -> False).
  { intros s t x Hst Hs Ht.
    apply in_map_iff in Hs. destruct Hs as [a [Ea Ha]].
    apply in_map_iff in Ht. destruct Ht as [b [Eb Hb]].
    apply filter_In in Ha. destruct Ha as [Ha Ta].
    apply filter_In in Hb. destruct Hb as [Hb Tb].
    assert (a = b) by (apply (NoDup_map_inj eid cs); auto; congruence).
    subst b. unfold has_tag in *. apply String.eqb_eq in Ta, Tb.
    rewrite Ta in Tb. subst t. rewrite String.eqb_refl in Hst. discriminate. }
  repeat apply NoDup_app_intro; auto.
  - intros x H1 H2. apply (Hd "xml" "token" x eq_refl H1 H2).
  - intros x H1 H2. apply in_app_or in H2. destruct H2 as [H2|H2].
    + apply (Hd "template" "xml" x eq_refl H1 H2).
    + apply (Hd "template" "token" x eq_refl H1 H2).
  - intros x H1 H2. apply in_app_or in H2. destruct H2 as [H2|H2].
    + apply (Hd "macro" "template" x eq_refl H1 H2).
    + apply in_app_or in H2. destruct H2 as [H2|H2].
      * apply (Hd "macro" "xml" x eq_refl H1 H2).
      * apply (Hd "macro" "token" x eq_refl H1 H2).
Qed.

Lemma el_remove_step parent child h p c :
  lookup (trees h) parent = Some p -> is_child child p = true ->
  lookup (trees h) child = Some c ->
  el_remove parent child h
  = Return (tt, Heap (forest_prune child (trees h) ++ [c]) (next_id h)).
Proof.
  intros Lp Hc Lc. unfold el_remove.
  rewrite (bindM_step _ _ _ _ _ (deref_step _ _ _ Lp)), Hc.
  now rewrite (bindM_step _ _ _ _ _ (deref_step _ _ _ Lc)).
Qed.

Lemma el_insert_step parent index child h c :
  lookup (trees h) child = Some c ->
  el_insert parent index child h
  = Return (tt, Heap (forest_modify parent
                        (fun p => set_children (list_insert index c (children p)) p)
                        (forest_prune child (trees h)))
                     (next_id h)).
Proof.
  intro Lc. unfold el_insert.
  now rewrite (bindM_step _ _ _ _ _ (deref_step _ _ _ Lc)).
Qed.

(** [remove] and [insert] keep the identities that the forest has. *)
Lemma el_remove_perm F child c :
  NoDup (forest_ids F) -> lookup F child = Some c ->
  Permutation (forest_ids F) (forest_ids (prune_list child F ++ [c])).
Proof.
  intros Hnd Lc.
  destruct (prune_segment F child c Hnd Lc) as [pre [post [H1 H2]]].
  rewrite forest_ids_app, forest_ids_single, H1, H2.
  rewrite <- app_assoc. apply Permutation_app_head. apply Permutation_app_comm.
Qed.

Lemma el_insert_perm F parent index child c p :
  NoDup (forest_ids F) -> lookup F child = Some c ->
  lookup (prune_list child F) parent = Some p ->
  Permutation (forest_ids F)
    (forest_ids (forest_modify parent
                   (fun p => set_children (list_insert index c (children p)) p)
                   (prune_list child F))).
Proof.
  intros Hnd Lc Lp.
  destruct (prune_segment F child c Hnd Lc) as [pre [post [H1 H2]]].
  destruct (forest_modify_segment (prune_list child F) parent
              (fun p => set_children (list_insert index c (children p)) p)
              p (NoDup_prune child F Hnd) Lp) as [pre' [post' [G1 G2]]].
  rewrite G2, ids_set_children, H1. rewrite H2 in G1.
  apply Permutation_trans with (ids c ++ (pre ++ post)).
  - rewrite app_assoc.
    apply Permutation_trans with ((ids c ++ pre) ++ post);
      [|now rewrite app_assoc].
    apply Permutation_app_tail. apply Permutation_app_comm.
  - rewrite G1.
    apply Permutation_trans with (pre' ++ (ids c ++ ids p) ++ post').
    + rewrite <- !app_assoc.
      apply Permutation_trans with ((ids c ++ pre') ++ ids p ++ post');
        [now rewrite <- app_assoc|].
      apply Permutation_trans with ((pre' ++ ids c) ++ ids p ++ post');
        [|now rewrite <- app_assoc].
      apply Permutation_app_tail. apply Permutation_app_comm.
    + apply Permutation_app_head. apply Permutation_app_tail.
      rewrite (ids_unfold p).
      apply Permutation_trans with (eid p :: ids c ++ forest_ids (children p)).
      * apply Permutation_sym. apply Permutation_middle.
      * apply perm_skip. apply Permutation_sym. apply forest_ids_list_insert.
Qed.

Section ContainerChildren.
Variables (r0 me0 : _Element) (pre0 post0 : list _Element).
Local Abbreviation cn := (canon r0 me0 pre0 post0).

(** [_load_embedded_macros] on the container of the document. *)
Lemma embedded_effect base h CS :
  heap_wf h -> In (cn CS) (trees h) ->
  exists h',
    _load_embedded_macros (Some (eid me0)) base h
    = Return (map eid (embedded CS), h') /\
    heap_wf h' /\ In (cn (map normalise CS)) (trees h') /\
    Permutation (forest_ids (trees h)) (forest_ids (trees h')).
Proof.
  intros Hwf Hin. unfold _load_embedded_macros.
  destruct (attribute_typed_effect r0 me0 pre0 post0 h CS Hwf Hin)
    as [h1 [R1 [Hwf1 [Hin1 P1]]]].
  destruct (shortcut_effect r0 me0 pre0 post0 "template" h1 _ Hwf1 Hin1)
    as [h2 [R2 [Hwf2 [Hin2 P2]]]].
  destruct (shortcut_effect r0 me0 pre0 post0 "xml" h2 _ Hwf2 Hin2)
    as [h3 [R3 [Hwf3 [Hin3 P3]]]].
  destruct (shortcut_effect r0 me0 pre0 post0 "token" h3 _ Hwf3 Hin3)
    as [h4 [R4 [Hwf4 [Hin4 P4]]]].
  exists h4.
  rewrite (bindM_step _ _ _ _ _ R1), (bindM_step _ _ _ _ _ R2),
    (bindM_step _ _ _ _ _ R3), (bindM_step _ _ _ _ _ R4).
  split; [|split; [exact Hwf4|split]].
  - unfold ret, embedded. rewrite !map_app. f_equal. f_equal. f_equal.
    f_equal; [|f_equal].
    + apply filter_after_step; [apply eid_typed|]. intros. apply has_tag_typed.
    + rewrite filter_after_step;
        [|intro; apply eid_shortcut|intro; now apply has_tag_shortcut].
      apply filter_after_step; [apply eid_typed|]. intros. apply has_tag_typed.
    + rewrite filter_after_step;
        [|intro; apply eid_shortcut|intro; now apply has_tag_shortcut].
      rewrite filter_after_step;
        [|intro; apply eid_shortcut|intro; now apply has_tag_shortcut].
      apply filter_after_step; [apply eid_typed|]. intros. apply has_tag_typed.
  - rewrite !map_map in Hin4. exact Hin4.
  - apply (Permutation_trans P1). apply (Permutation_trans P2).
    apply (Permutation_trans P3). exact P4.
Qed.

(** Another tree of the forest has nothing of the document. *)
Lemma other_tree_apart h CS d x :
  heap_wf h -> In (cn CS) (trees h) -> In d (trees h) -> eid d <> eid r0 ->
  In x (ids (cn CS)) -> ~ In x (ids d).
Proof.
  intros Hwf Hin Hd Hne Hx Hxd. apply Hne.
  rewrite (members_disjoint (trees h) d (cn CS) x (proj1 Hwf) Hd Hin Hxd Hx).
  apply eid_canon.
Qed.

Lemma container_id_in_canon CS : In (eid me0) (ids (cn CS)).
Proof. rewrite ids_canon. right. apply in_or_app. right. now left. Qed.

Lemma child_id_in_canon CS a : In a (forest_ids CS) -> In a (ids (cn CS)).
Proof.
  intro H. rewrite ids_canon. right. apply in_or_app. right. right.
  apply in_or_app. now left.
Qed.

(** The first loop of [_xml_set_children]: every child leaves. *)
Lemma remove_children_loop (todo : list _Element) :
  forall dets h,
    heap_wf h -> In (cn todo) (trees h) ->
    (forall d, In d dets -> In d (trees h) /\ eid d <> eid r0) ->
    exists h',
      for_each (map eid todo) (fun old_child => el_remove (eid me0) old_child) h
      = Return (tt, h') /\
      heap_wf h' /\ In (cn []) (trees h') /\
      (forall d, In d (dets ++ todo) -> In d (trees h') /\ eid d <> eid r0) /\
      Permutation (forest_ids (trees h)) (forest_ids (trees h')).
Proof.
  induction todo as [|c todo IH]; intros dets h Hwf Hin Hdets.
  - exists h. split; [reflexivity|]. rewrite app_nil_r. auto.
  - assert (Lm := lookup_canon_container r0 me0 pre0 post0 h (c :: todo) Hwf Hin).
    assert (Lc := lookup_canon_child r0 me0 pre0 post0 h (c :: todo) c Hwf Hin
                    (or_introl eq_refl)).
    assert (H1 := el_remove_step (eid me0) (eid c) h _ c Lm).
    assert (Ic : is_child (eid c) (set_children (c :: todo) me0) = true).
    { unfold is_child. rewrite children_set_children. cbn [existsb].
      now rewrite Nat.eqb_refl. }
    specialize (H1 Ic Lc).
    destruct (preserves_el_remove _ _ _ _ _ Hwf H1) as [Hwf1 _].
    assert (Hnd : NoDup (ids (cn (c :: todo)))).
    { apply (NoDup_member (trees h)); [apply Hwf|exact Hin]. }
    destruct (canon_facts r0 me0 pre0 post0 _ Hnd) as [_ [_ [_ [Hcs Hch]]]].
    destruct (Hch (eid c)) as [A1 [A2 [A3 A4]]].
    { apply in_forest_ids. exists c. split; [now left|apply eid_in_ids]. }
    destruct (NoDup_split_ids [] todo c Hcs) as [_ B2].
    assert (Hin1 : In (cn todo) (forest_prune (eid c) (trees h) ++ [c])).
    { apply in_or_app. left. unfold forest_prune.
      replace (cn todo) with (prune (eid c) (cn (c :: todo))).
      - apply member_prune; [exact Hin|]. rewrite eid_canon. congruence.
      - rewrite (prune_canon r0 me0 pre0 post0 (eid c) _ A2 A3 A4).
        rewrite prune_list_cons, Nat.eqb_refl. f_equal.
        now apply prune_list_notin. }
    destruct (IH (dets ++ [c]) _ Hwf1 Hin1) as [h' [R [Hwf' [Hin' [Hall P]]]]].
    + intros d Hd. apply in_app_or in Hd. destruct Hd as [Hd|[<-|[]]].
      * destruct (Hdets d Hd) as [Hd1 Hd2]. split; [|exact Hd2].
        cbn [trees]. apply in_or_app. left. unfold forest_prune.
        assert (Hout : ~ In (eid c) (ids d)).
        { apply (other_tree_apart h (c :: todo) d (eid c) Hwf Hin Hd1 Hd2).
          apply child_id_in_canon. apply in_forest_ids.
          exists c. split; [now left|apply eid_in_ids]. }
        rewrite <- (prune_notin (eid c) d Hout).
        apply member_prune; [exact Hd1|].
        intro E. apply Hout. rewrite <- E. apply eid_in_ids.
      * split; [|congruence]. cbn [trees]. apply in_or_app. right. now left.
    + exists h'. split; [|split; [exact Hwf'|split; [exact Hin'|split]]].
      * cbn [map for_each]. now rewrite (bindM_step _ _ _ _ _ H1).
      * intros d Hd. apply Hall. rewrite <- app_assoc. exact Hd.
      * apply Permutation_trans with
          (forest_ids (forest_prune (eid c) (trees h) ++ [c])); [|exact P].
        apply el_remove_perm; [apply Hwf|exact Lc].
Qed.

(** The second loop, for the elements that the document has of its own:
    each goes to the end of the children. *)
Lemma insert_own_loop (Ds : list _Element) :
  forall k CS h,
    heap_wf h -> In (cn CS) (trees h) -> length CS <= k ->
    (forall d, In d Ds -> In d (trees h) /\ eid d <> eid r0) ->
    NoDup (map eid Ds) ->
    exists h',
      for_each (combine (seq k (length (map eid Ds))) (map eid Ds))
        (fun inew => el_insert (eid me0) (fst inew) (snd inew)) h
      = Return (tt, h') /\
      heap_wf h' /\ In (cn (CS ++ Ds)) (trees h').
Proof.
  induction Ds as [|d Ds IH]; intros k CS h Hwf Hin Hlen HDs Hnd.
  - exists h. split; [reflexivity|]. now rewrite app_nil_r.
  - destruct (HDs d (or_introl eq_refl)) as [Hd Hdr].
    assert (H1 := el_insert_step (eid me0) k (eid d) h d
                    (lookup_root (trees h) d (proj1 Hwf) Hd)).
    destruct (preserves_el_insert _ _ _ _ _ _ Hwf H1) as [Hwf1 _].
    assert (Hndc : NoDup (ids (cn CS))).
    { apply (NoDup_member (trees h)); [apply Hwf|exact Hin]. }
    destruct (canon_facts r0 me0 pre0 post0 _ Hndc) as [C1 [C2 [C3 _]]].
    assert (Hout : ~ In (eid d) (ids (cn CS))).
    { intro Hx. apply (other_tree_apart h CS d (eid d) Hwf Hin Hd Hdr Hx).
      apply eid_in_ids. }
    inversion Hnd as [|x l Hdnot Hnd']. subst.
    destruct (IH (S k) (CS ++ [d]) _ Hwf1) as [h' [R [Hwf' Hin']]].
    + cbn [trees]. unfold forest_prune.
      rewrite <- (list_insert_end k d CS Hlen).
      rewrite <- (modify_canon_container r0 me0 pre0 post0 k d CS C1 C2 C3).
      apply member_modify.
      rewrite <- (prune_notin (eid d) (cn CS) Hout).
      apply member_prune; [exact Hin|]. rewrite eid_canon. congruence.
    + rewrite length_app. cbn [length]. lia.
    + intros d' Hd'. destruct (HDs d' (or_intror Hd')) as [Hd1 Hd2].
      split; [|exact Hd2]. cbn [trees]. unfold forest_prune.
      assert (Hne : eid d' <> eid d).
      { intro E. apply Hdnot. rewrite <- E. now apply in_map. }
      assert (Hout' : ~ In (eid d) (ids d')).
      { intro Hx. apply Hne.
        now rewrite (members_disjoint (trees h) d d' (eid d) (proj1 Hwf) Hd Hd1
                       (eid_in_ids d) Hx). }
      apply member_modify_notin.
      * rewrite <- (prune_notin (eid d) d' Hout').
        now apply member_prune.
      * apply (other_tree_apart h CS d' (eid me0) Hwf Hin Hd1 Hd2).
        apply container_id_in_canon.
    + exact Hnd'.
    + exists h'. split; [|split; [exact Hwf'|]].
      * cbn [map length seq combine for_each fst snd].
        now rewrite (bindM_step _ _ _ _ _ H1).
      * rewrite <- app_assoc in Hin'. exact Hin'.
Qed.

Section Imported.
Variable n0 : nat.
Variable D : list _Element.
Hypothesis root_old : eid r0 < n0.
Hypothesis container_old : eid me0 < n0.
Hypothesis pre_old : Forall (fun i => i < n0) (forest_ids pre0).
Hypothesis post_old : Forall (fun i => i < n0) (forest_ids post0).
Hypothesis own_old : forall d, In d D -> Forall (fun i => i < n0) (ids d).
Hypothesis own_not_root : forall d, In d D -> eid d <> eid r0.

(** The second loop, for the elements that come from imported files. *)
Lemma insert_new_loop (I : list nat) :
  forall k CS h,
    heap_wf h -> Forall (fun x => n0 <= x) I ->
    (forall x, In x I -> In x (forest_ids (trees h))) ->
    In (cn CS) (trees h) -> length CS <= k ->
    Forall (fun e => n0 <= eid e) CS ->
    (forall d, In d D -> In d (trees h)) ->
    exists h' CS',
      for_each (combine (seq k (length I)) I)
        (fun inew => el_insert (eid me0) (fst inew) (snd inew)) h
      = Return (tt, h') /\
      heap_wf h' /\
      In (cn CS') (trees h') /\ length CS' <= k + length I /\
      Forall (fun e => n0 <= eid e) CS' /\
      (forall d, In d D -> In d (trees h')).
Proof.
  induction I as [|x I IH]; intros k CS h Hwf HI Hpres Hin Hlen Hnew HD.
  - exists h, CS. split; [reflexivity|]. cbn [length]. rewrite Nat.add_0_r. auto.
  - destruct (lookup_in_ids (trees h) x (Hpres x (or_introl eq_refl))) as [c Lc].
    assert (H1 := el_insert_step (eid me0) k x h c Lc).
    destruct (preserves_el_insert _ _ _ _ _ _ Hwf H1) as [Hwf1 _].
    inversion HI as [|y l Hx HI']. subst.
    assert (Hndc : NoDup (ids (cn CS))).
    { apply (NoDup_member (trees h)); [apply Hwf|exact Hin]. }
    destruct (canon_facts r0 me0 pre0 post0 _ Hndc) as [C1 [C2 [C3 _]]].
    assert (X1 : x <> eid me0) by lia.
    assert (X2 : ~ In x (forest_ids pre0)).
    { intro Hi. rewrite Forall_forall in pre_old. apply pre_old in Hi. lia. }
    assert (X3 : ~ In x (forest_ids post0)).
    { intro Hi. rewrite Forall_forall in post_old. apply post_old in Hi. lia. }
    assert (Hpr : In (cn (prune_list x CS)) (prune_list x (trees h))).
    { rewrite <- (prune_canon r0 me0 pre0 post0 x CS X1 X2 X3).
      apply member_prune; [exact Hin|]. rewrite eid_canon. lia. }
    assert (Lp : lookup (prune_list x (trees h)) (eid me0)
                 = Some (set_children (prune_list x CS) me0)).
    { rewrite <- (eid_set_children (prune_list x CS) me0).
      apply lookup_member; [apply NoDup_prune; apply Hwf|].
      apply in_forest_nodes. exists (cn (prune_list x CS)).
      split; [exact Hpr|apply container_in_canon]. }
    destruct (IH (S k) (list_insert k c (prune_list x CS)) _ Hwf1 HI')
      as [h' [CS' [R [Hwf' [Hin' [Hlen' [Hnew' HD']]]]]]].
    + intros y Hy. cbn [trees]. unfold forest_prune.
      apply (Permutation_in y
               (el_insert_perm (trees h) (eid me0) k x c _ (proj1 Hwf) Lc Lp)).
      apply Hpres. now right.
    + cbn [trees]. unfold forest_prune.
      rewrite <- (modify_canon_container r0 me0 pre0 post0 k c _ C1 C2 C3).
      now apply member_modify.
    + rewrite list_insert_length. pose proof (prune_list_length x CS). lia.
    + apply Forall_forall. intros e He. apply list_insert_in in He.
      destruct He as [->|He].
      * apply lookup_some in Lc. destruct Lc as [-> _]. exact Hx.
      * apply prune_list_eids in He. destruct He as [e0 [He0 ->]].
        rewrite Forall_forall in Hnew. now apply Hnew.
    + intros d Hd. cbn [trees]. unfold forest_prune.
      pose proof (own_old d Hd) as Hold. rewrite Forall_forall in Hold.
      assert (Hout : ~ In x (ids d)).
      { intro Hi. apply Hold in Hi. lia. }
      apply member_modify_notin.
      * rewrite <- (prune_notin x d Hout). apply member_prune; [now apply HD|].
        intro E. apply Hout. rewrite <- E. apply eid_in_ids.
      * apply (other_tree_apart h CS d (eid me0) Hwf Hin (HD d Hd)
                 (own_not_root d Hd)).
        apply container_id_in_canon.
    + exists h', CS'. split; [|split; [exact Hwf'|split; [exact Hin'|]]].
      * cbn [length seq combine for_each fst snd].
        now rewrite (bindM_step _ _ _ _ _ H1).
      * split; [cbn [length]; lia|]. now split.
Qed.

Lemma for_each_app_step {A} (l1 l2 : list A) (body : A -> M unit) h h1 :
  for_each l1 body h = Return (tt, h1) ->
  for_each (l1 ++ l2) body h = for_each l2 body h1.
Proof.
  revert h. induction l1 as [|x l1 IH]; intros h H.
  - inversion H. now subst.
  - cbn [app for_each] in *. apply bindM_inv in H.
    destruct H as [[] [h0 [H1 H2]]].
    rewrite (bindM_step _ _ _ _ _ H1). now apply IH.
Qed.

(** [_xml_set_children] on the container: the imported elements, or
    what there is of them, then the document's own. *)
Lemma xml_set_children_effect (I : list nat) CS h :
  heap_wf h -> In (cn CS) (trees h) ->
  Forall (fun x => n0 <= x) I ->
  (forall x, In x I -> In x (forest_ids (trees h))) ->
  incl D CS -> NoDup (map eid D) ->
  exists h' pre,
    _xml_set_children (eid me0) (I ++ map eid D) h = Return (tt, h') /\
    heap_wf h' /\
    In (cn (pre ++ D)) (trees h') /\
    Forall (fun e => n0 <= eid e) pre.
Proof.
  intros Hwf Hin HI Hpres Hincl Hnd. unfold _xml_set_children.
  rewrite (bindM_step _ _ _ _ _
             (deref_step _ _ _ (lookup_canon_container r0 me0 pre0 post0 h CS Hwf Hin))).
  rewrite children_set_children.
  destruct (remove_children_loop CS [] h Hwf Hin) as [h1 [R1 [Hwf1 [Hin1 [Hall P1]]]]];
    [intros d []|]. cbn [app] in Hall.
  rewrite (bindM_step _ _ _ _ _ R1).
  destruct (insert_new_loop I 0 [] h1 Hwf1 HI) as
    [h2 [CS' [R2 [Hwf2 [Hin2 [Hlen2 [Hnew2 HD2]]]]]]];
    [|exact Hin1|cbn [length]; lia|constructor| |].
  { intros x Hx. apply (Permutation_in x P1). now apply Hpres. }
  { intros d Hd. apply Hall. now apply Hincl. }
  destruct (insert_own_loop D (0 + length I) CS' h2 Hwf2 Hin2 Hlen2)
    as [h3 [R3 [Hwf3 Hin3]]]; [|exact Hnd|].
  { intros d Hd. split; [now apply HD2|now apply own_not_root]. }
  exists h3, CS'. split; [|split; [exact Hwf3|now split]].
  rewrite combine_seq_app, (for_each_app_step _ _ _ _ _ R2). exact R3.
Qed.

End Imported.
End ContainerChildren.

(* ================================================================== *)
(** * The document after its macros are imported *)
(* ================================================================== *)

Lemma find_split {A} (f : A -> bool) (l : list A) (x : A) :
  find f l = Some x ->
  exists pre post, l = pre ++ x :: post /\ f x = true /\
                   forall y, In y pre -> f y = false.
Proof.
  induction l as [|a l IH]; [discriminate|]. cbn [find].
  destruct (f a) eqn:F.
  - intro H. inversion H. subst. exists [], l. split; [reflexivity|].
    split; [exact F|]. intros y [].
  - intro H. destruct (IH H) as [pre [post [-> [Fx Hpre]]]].
    exists (a :: pre), post. split; [reflexivity|]. split; [exact Fx|].
    intros y [<-|Hy]; [exact F|now apply Hpre].
Qed.

Lemma find_first {A} (f : A -> bool) (pre post : list A) (x : A) :
  f x = true -> (forall y, In y pre -> f y = false) ->
  find f (pre ++ x :: post) = Some x.
Proof.
  intros Fx. induction pre as [|a pre IH]; intro Hpre; cbn [app find].
  - now rewrite Fx.
  - rewrite (Hpre a (or_introl eq_refl)). apply IH.
    intros y Hy. apply Hpre. now right.
Qed.

Lemma canon_same (r0 me0 : _Element) pre0 post0 :
  children r0 = pre0 ++ me0 :: post0 ->
  canon r0 me0 pre0 post0 (children me0) = r0.
Proof.
  intro H. unfold canon. now rewrite set_children_same, <- H, set_children_same.
Qed.

Lemma find_child_canon t (r0 me0 : _Element) pre0 post0 CS :
  has_tag t me0 = true -> (forall y, In y pre0 -> has_tag t y = false) ->
  find_child t (canon r0 me0 pre0 post0 CS) = Some (set_children CS me0).
Proof.
  intros Hme Hpre. unfold find_child, canon. rewrite children_set_children.
  apply find_first; [|exact Hpre]. unfold has_tag in *. now destruct me0.
Qed.

Section ImportEffect.
Variable parse_xml : string -> bool -> option _Element.

Lemma preserves_load_imported_macros fuel macros_el base :
  preserves_wf
    (_load_imported_macros parse_xml (_load_macros parse_xml fuel) macros_el base).
Proof.
  unfold _load_imported_macros. apply preserves_bind.
  - destruct macros_el as [m|]; [|apply preserves_ret].
    apply preserves_bind; [apply preserves_deref|]. intro. apply preserves_ret.
  - intro paths. apply preserves_load_imported_loop. apply preserves_load_macros.
Qed.

(** [_import_macros] on a document with a container, when the files of
    its transitive imports can be read: it returns the paths, the
    document is still a tree of the forest, and its container has for
    children what is left of the imported elements, followed by the
    elements that the document defines itself, normalised, in the order
    macro, template, xml, token. *)
Lemma import_macros_run fuel path h0 (r0 me0 : _Element) paths :
  heap_wf h0 -> In r0 (trees h0) -> _macros_el r0 = Some me0 ->
  transitive_imports parse_xml fuel (OsPath.dirname path) me0 = Some paths ->
  exists h1 pre0 post0 pre,
    _import_macros parse_xml fuel (eid r0) path h0 = Return (Some paths, h1) /\
    children r0 = pre0 ++ me0 :: post0 /\
    (forall y, In y pre0 -> has_tag "macros" y = false) /\
    has_tag "macros" me0 = true /\
    heap_wf h1 /\
    In (canon r0 me0 pre0 post0
          (pre ++ map normalise (embedded (children me0)))) (trees h1) /\
    Forall (fun e => next_id h0 <= eid e) pre.
Proof.
  intros Hwf Hr0 Hme Hp.
  pose proof Hme as Hme'. unfold _macros_el, find_child in Hme'.
  apply find_split in Hme'.
  destruct Hme' as [pre0 [post0 [Hshape [Htag Hpre]]]].
  assert (Hcanon := canon_same r0 me0 pre0 post0 Hshape).
  assert (Hnd : NoDup (ids (canon r0 me0 pre0 post0 (children me0)))).
  { rewrite Hcanon. apply (NoDup_member (trees h0)); [apply Hwf|exact Hr0]. }
  destruct (canon_facts r0 me0 pre0 post0 _ Hnd) as [C1 [C2 [C3 [C4 C5]]]].
  assert (Hold : Forall (fun i => i < next_id h0) (ids r0)).
  { apply Forall_forall. intros i Hi. destruct Hwf as [_ Hlt].
    rewrite Forall_forall in Hlt. apply Hlt.
    apply (member_ids_incl r0 (trees h0) Hr0 i Hi). }
  rewrite <- Hcanon, ids_canon in Hold.
  inversion Hold as [|x l Hroot_old Hold1]. subst.
  apply Forall_app in Hold1. destruct Hold1 as [Hpre_old Hold2].
  inversion Hold2 as [|x l Hm_old Hold3]. subst.
  apply Forall_app in Hold3. destruct Hold3 as [Hcs_old Hpost_old].
  assert (Lme : lookup (trees h0) (eid me0) = Some me0).
  { apply lookup_member; [apply Hwf|]. apply in_forest_nodes. exists r0.
    split; [exact Hr0|]. rewrite nodes_children. right.
    apply in_forest_nodes. exists me0. split; [|apply nodes_self].
    rewrite Hshape. apply in_or_app. right. now left. }
  destruct fuel as [|fuel]; [discriminate|].
  destruct (load_imported_macros_returns parse_xml fuel (eid me0) _ h0 me0 paths
              Hwf Lme Hp) as [I [hA [RA PA]]].
  destruct (preserves_load_imported_macros _ _ _ _ _ _ Hwf RA) as [HwfA _].
  destruct (load_imported_macros_frame parse_xml (next_id h0) (trees h0)
              (proj2 Hwf) fuel (eid me0) (OsPath.dirname path) h0 (I, paths) hA)
    as [[_ [extra [EA _]]] HI]; [|exact RA|].
  { split; [lia|]. exists []. split; [now rewrite app_nil_r|constructor]. }
  cbn [fst] in HI.
  assert (HinA : In (canon r0 me0 pre0 post0 (children me0)) (trees hA)).
  { rewrite Hcanon, EA. apply in_or_app. now left. }
  destruct (embedded_effect r0 me0 pre0 post0 (OsPath.dirname path) hA
              (children me0) HwfA HinA) as [hB [RB [HwfB [HinB PB]]]].
  assert (Hemb : forall c, In c (embedded (children me0)) ->
                           In (eid c) (forest_ids (children me0)) /\
                           incl (ids c) (forest_ids (children me0))).
  { intros c Hc. apply embedded_in in Hc. split.
    - apply in_forest_ids. exists c. split; [exact Hc|apply eid_in_ids].
    - now apply member_ids_incl. }
  destruct (xml_set_children_effect r0 me0 pre0 post0 (next_id h0)
              (map normalise (embedded (children me0)))
              Hroot_old Hm_old Hpre_old Hpost_old) with
    (I := I) (CS := map normalise (children me0)) (h := hB)
    as [h1 [pre [RC [Hwf1 [Hin1 Hpre_new]]]]]; auto.
  - intros d Hd. apply in_map_iff in Hd. destruct Hd as [c [<- Hc]].
    rewrite ids_normalise. apply Forall_forall. intros i Hi.
    rewrite Forall_forall in Hcs_old. apply Hcs_old.
    now apply (proj2 (Hemb c Hc)).
  - intros d Hd. apply in_map_iff in Hd. destruct Hd as [c [<- Hc]].
    rewrite eid_normalise. apply (C5 (eid c)). apply (proj1 (Hemb c Hc)).
  - intros x Hx. apply (Permutation_in x PB). now apply PA.
  - intros d Hd. apply in_map_iff in Hd. destruct Hd as [c [<- Hc]].
    apply in_map. now apply embedded_in.
  - rewrite map_map. rewrite (map_ext _ eid eid_normalise).
    apply NoDup_embedded. now apply NoDup_roots.
  - rewrite map_map, (map_ext _ eid eid_normalise) in RC.
    exists h1, pre0, post0, pre.
    split; [|repeat (split; [assumption|]); exact Hpre_new].
    unfold _import_macros.
    rewrite (bindM_step _ _ _ _ _
               (deref_step _ _ _ (lookup_root (trees h0) r0 (proj1 Hwf) Hr0))).
    rewrite Hme.
    assert (RL : _load_macros parse_xml (S fuel) (Some (eid me0))
                   (OsPath.dirname path) h0
                 = Return ((I ++ map eid (embedded (children me0)), paths), hB)).
    { cbn [_load_macros]. rewrite (bindM_step _ _ _ _ _ RA). cbn [fst snd].
      now rewrite (bindM_step _ _ _ _ _ RB). }
    rewrite (bindM_step _ _ _ _ _ RL). cbn [fst snd].
    now rewrite (bindM_step _ _ _ _ _ RC).
Qed.

(** The same, read from a run that has returned. *)
Lemma import_macros_effect fuel path h0 (r0 me0 : _Element) res h1 :
  heap_wf h0 -> In r0 (trees h0) -> _macros_el r0 = Some me0 ->
  _import_macros parse_xml fuel (eid r0) path h0 = Return (res, h1) ->
  exists pre0 post0 pre paths,
    children r0 = pre0 ++ me0 :: post0 /\
    (forall y, In y pre0 -> has_tag "macros" y = false) /\
    has_tag "macros" me0 = true /\
    res = Some paths /\
    transitive_imports parse_xml fuel (OsPath.dirname path) me0 = Some paths /\
    heap_wf h1 /\
    In (canon r0 me0 pre0 post0
          (pre ++ map normalise (embedded (children me0)))) (trees h1) /\
    Forall (fun e => next_id h0 <= eid e) pre.
Proof.
  intros Hwf Hr0 Hme H. pose proof H as H'. unfold _import_macros in H'.
  apply bindM_inv in H'. destruct H' as [r [h00 [D H']]].
  apply deref_inv in D. destruct D as [Lr ->].
  rewrite (lookup_root (trees h0) r0 (proj1 Hwf) Hr0) in Lr.
  inversion Lr. subst r. clear Lr. rewrite Hme in H'.
  apply bindM_inv in H'. destruct H' as [lm [hB [Hlm _]]].
  assert (Lme : lookup (trees h0) (eid me0) = Some me0).
  { apply lookup_member; [apply Hwf|]. apply in_forest_nodes. exists r0.
    split; [exact Hr0|]. rewrite nodes_children. right.
    apply in_forest_nodes. exists me0. split; [|apply nodes_self].
    unfold _macros_el, find_child in Hme. now apply find_some in Hme. }
  pose proof (load_macros_paths parse_xml fuel _ _ _ _ _ me0 Hwf Hlm Lme) as Hp.
  destruct (import_macros_run fuel path h0 r0 me0 (snd lm) Hwf Hr0 Hme Hp)
    as [h1' [pre0 [post0 [pre [R [A1 [A2 [A3 [A4 [A5 A6]]]]]]]]]].
  rewrite R in H. inversion H. subst.
  exists pre0, post0, pre, (snd lm). now repeat (split; [assumption||reflexivity|]).
Qed.

End ImportEffect.

(* ================================================================== *)
(** * The catalog of a document that imports *)
(* ================================================================== *)

Lemma type_is_eq k (e : _Element) : type_is k e = true <-> get_attr e "type" = Some k.
Proof.
  unfold type_is. destruct (get_attr e "type") as [v|]; split; intro H;
    try discriminate.
  - apply String.eqb_eq in H. now subst.
  - inversion H. apply String.eqb_refl.
Qed.

Lemma get_type_set v (c : _Element) : get_attr (set_attrib "type" v c) "type" = Some v.
Proof. unfold get_attr, set_attrib. cbn [attrib]. apply dict_get_set_same. Qed.

Lemma get_name_set v (c : _Element) :
  get_attr (set_attrib "type" v c) "name" = get_attr c "name".
Proof.
  unfold get_attr, set_attrib. cbn [attrib]. apply dict_get_set_other. discriminate.
Qed.

Lemma normalise_macro (c : _Element) :
  has_tag "macro" c = true -> normalise c = typed c.
Proof.
  destruct c as [i tg at_ tx tl cs]. unfold has_tag. cbn [tag]. intro H.
  apply String.eqb_eq in H. subst tg.
  unfold normalise, normalise_step, has_tag, typed, get_attr. cbn [tag attrib].
  now destruct (dict_get String.eqb at_ "type").
Qed.

Lemma normalise_shortcut tg (c : _Element) :
  tg = "template" \/ tg = "xml" \/ tg = "token" ->
  has_tag tg c = true -> normalise c = shortcut tg c.
Proof.
  destruct c as [i tg' at_ tx tl cs]. unfold has_tag. cbn [tag]. intros Htg H.
  apply String.eqb_eq in H. subst tg'.
  destruct Htg as [-> | [-> | ->]]; reflexivity.
Qed.

Lemma kind_of_normalise (c : _Element) k :
  kind_of c = Some k ->
  has_tag "macro" (normalise c) = true /\
  get_attr (normalise c) "type" = Some k /\
  get_attr (normalise c) "name" = get_attr c "name".
Proof.
  unfold kind_of.
  destruct (has_tag "macro" c) eqn:T1.
  - rewrite (normalise_macro c T1), has_tag_typed, T1. unfold typed.
    destruct (get_attr c "type") as [t|] eqn:G; intro H; inversion H; subst.
    + now repeat split.
    + split; [reflexivity|]. split; [apply get_type_set|apply get_name_set].
  - destruct (has_tag "template" c) eqn:T2.
    { intro H. inversion H. subst. rewrite (normalise_shortcut "template" c); auto.
      split; [reflexivity|]. split; [apply get_type_set|apply get_name_set]. }
    destruct (has_tag "xml" c) eqn:T3.
    { intro H. inversion H. subst. rewrite (normalise_shortcut "xml" c); auto.
      split; [reflexivity|]. split; [apply get_type_set|apply get_name_set]. }
    destruct (has_tag "token" c) eqn:T4; [|discriminate].
    intro H. inversion H. subst. rewrite (normalise_shortcut "token" c); auto.
    split; [reflexivity|]. split; [apply get_type_set|apply get_name_set].
Qed.

Lemma kind_of_embedded (cs : list _Element) c k :
  In c cs -> kind_of c = Some k -> In c (embedded cs).
Proof.
  intros Hc. unfold kind_of, embedded. intro H.
  destruct (has_tag "macro" c) eqn:T1.
  { apply in_or_app. left. apply filter_In. now split. }
  apply in_or_app. right.
  destruct (has_tag "template" c) eqn:T2.
  { apply in_or_app. left. apply filter_In. now split. }
  apply in_or_app. right.
  destruct (has_tag "xml" c) eqn:T3.
  { apply in_or_app. left. apply filter_In. now split. }
  apply in_or_app. right.
  destruct (has_tag "token" c) eqn:T4; [|discriminate].
  apply filter_In. now split.
Qed.

Lemma embedded_kind (cs : list _Element) c :
  In c (embedded cs) -> exists k, kind_of c = Some k.
Proof.
  unfold embedded, kind_of. intro H.
  destruct (has_tag "macro" c) eqn:T1; [eexists; reflexivity|].
  destruct (has_tag "template" c) eqn:T2; [eexists; reflexivity|].
  destruct (has_tag "xml" c) eqn:T3; [eexists; reflexivity|].
  destruct (has_tag "token" c) eqn:T4; [eexists; reflexivity|].
  repeat (apply in_app_or in H; destruct H as [H|H];
          [apply filter_In in H; destruct H; congruence|]).
  apply filter_In in H. destruct H. congruence.
Qed.

Section NameDict.
Variable V : Type.

Lemma name_get_set_same (d : dict (option string) V) k v :
  dict_get name_eqb (dict_set name_eqb d k v) k = Some v.
Proof.
  induction d as [|[k' v'] d IH]; simpl.
  - now rewrite name_eqb_refl.
  - destruct (name_eqb k' k) eqn:E; simpl; now rewrite E.
Qed.

Lemma name_get_set_other (d : dict (option string) V) k k' v :
  k' <> k ->
  dict_get name_eqb (dict_set name_eqb d k' v) k = dict_get name_eqb d k.
Proof.
  intro Hne. apply name_eqb_neq in Hne.
  induction d as [|[k0 v0] d IH]; simpl.
  - now rewrite Hne.
  - destruct (name_eqb k0 k') eqn:E; simpl.
    + apply name_eqb_eq in E. subst k0. now rewrite Hne.
    + destruct (name_eqb k0 k); [reflexivity|exact IH].
Qed.

Lemma find_app' {A} (f : A -> bool) (l1 l2 : list A) :
  find f (l1 ++ l2)
  = match find f l1 with Some x => Some x | None => find f l2 end.
Proof.
  induction l1 as [|a l1 IH]; [reflexivity|]. cbn [app find].
  destruct (f a); [reflexivity|exact IH].
Qed.

(** [dict(pairs)]: the last pair with a key gives its value. *)
Lemma dict_of_pairs_get (l : list (option string * V)) :
  forall d k,
    dict_get name_eqb
      (fold_left (fun d kv => dict_set name_eqb d (fst kv) (snd kv)) l d) k
    = match find (fun kv => name_eqb (fst kv) k) (rev l) with
      | Some kv => Some (snd kv)
      | None => dict_get name_eqb d k
      end.
Proof.
  induction l as [|[k0 v0] l IH]; intros d k; [reflexivity|].
  cbn [fold_left rev fst snd]. rewrite IH, find_app'.
  destruct (find (fun kv => name_eqb (fst kv) k) (rev l)); [reflexivity|].
  cbn [find fst snd]. destruct (name_eqb k0 k) eqn:E.
  - apply name_eqb_eq in E. subst k0. cbn [snd]. apply name_get_set_same.
  - apply name_eqb_neq in E. now apply name_get_set_other.
Qed.

(** The catalog built from the children [pre ++ own] of the container
    maps a name that [own] defines to its last definition in [own]. *)
Lemma catalog_last_wins (f : _Element -> V) (k M : string) (pre own : list _Element)
    (d : _Element) :
  In d own -> type_is k d = true -> get_attr d "name" = Some M ->
  exists d',
    In d' own /\ type_is k d' = true /\ get_attr d' "name" = Some M /\
    dict_get name_eqb
      (dict_of_list name_eqb
         (map (fun macro_el => (get_attr macro_el "name", f macro_el))
            (filter (type_is k) (pre ++ own))))
      (Some M)
    = Some (f d').
Proof.
  intros Hd Hk Hn. unfold dict_of_list. rewrite dict_of_pairs_get.
  rewrite filter_app, map_app, rev_app_distr, find_app'.
  destruct (find (fun kv => name_eqb (fst kv) (Some M))
              (rev (map (fun macro_el => (get_attr macro_el "name", f macro_el))
                      (filter (type_is k) own)))) as [kv|] eqn:F.
  - apply find_some in F. destruct F as [Hkv Hkey].
    rewrite <- in_rev in Hkv. apply in_map_iff in Hkv.
    destruct Hkv as [d' [<- Hd']]. apply filter_In in Hd'.
    destruct Hd' as [Hd' Hk']. cbn [fst snd] in *.
    apply name_eqb_eq in Hkey. exists d'. now repeat split.
  - exfalso.
    assert (Hin : In (get_attr d "name", f d)
                    (rev (map (fun macro_el => (get_attr macro_el "name", f macro_el))
                            (filter (type_is k) own)))).
    { rewrite <- in_rev.
      apply (in_map (fun macro_el => (get_attr macro_el "name", f macro_el))).
      apply filter_In. now split. }
    assert (E := find_none _ _ F _ Hin). cbn [fst] in E.
    rewrite Hn, name_eqb_refl in E. discriminate.
Qed.

End NameDict.

Lemma filter_macro_normalised (l : list _Element) :
  filter (has_tag "macro") (map normalise (embedded l)) = map normalise (embedded l).
Proof.
  assert (H : forall c, In c (embedded l) -> has_tag "macro" (normalise c) = true).
  { intros c Hc. destruct (embedded_kind l c Hc) as [k Hk].
    apply (kind_of_normalise c k Hk). }
  induction (embedded l) as [|c e IH]; [reflexivity|].
  cbn [map filter]. rewrite (H c (or_introl eq_refl)). f_equal.
  apply IH. intros c' Hc'. apply H. now right.
Qed.



(** The run of the witness, in full: the imported definition of [M]
    comes first among the children of the container, the document's own
    comes last, and the catalog has the document's own. *)
Example import_then_own :
  _import_macros
    (fun (p : string) (_ : bool) =>
       if String.eqb p "lib.xml"
       then Some (Element 0 "macros" [] None None
                    [Element 0 "xml" [("name", "M")] None None
                       [Element 0 "lib" [] None None []]])
       else None)
    2 0 "tool.xml"
    (Heap [Element 0 "tool" [] None None
             [Element 1 "macros" [] None None
                [Element 2 "import" [] (Some "lib.xml") None [];
                 Element 3 "xml" [("name", "M")] None None
                   [Element 4 "own" [] None None []]]]] 5)
  = Return (Some ["lib.xml"],
            Heap [Element 0 "tool" [] None None
                    [Element 1 "macros" [] None None
                       [Element 6 "macro" [("name", "M"); ("type", "xml")] None None
                          [Element 7 "lib" [] None None []];
                        Element 3 "macro" [("name", "M"); ("type", "xml")] None None
                          [Element 4 "own" [] None None []]]];
                  Element 5 "macros" [] None None [];
                  Element 2 "import" [] (Some "lib.xml") None []] 8).
Proof. vm_compute. reflexivity. Qed.

(* ================================================================== *)
(** * What [load_with_references] returns *)
(* ================================================================== *)

Lemma eid_strip_macros (t : _Element) : eid (strip_macros t) = eid t.
Proof. rewrite strip_macros_unfold. apply eid_set_children. Qed.

Lemma find_child_some_erase t (a b x : _Element) :
  erase a = erase b -> find_child t a = Some x ->
  exists y, find_child t b = Some y /\ erase x = erase y.
Proof.
  intro H. apply erase_children in H. unfold find_child.
  revert H. generalize (children b). induction (children a) as [|c l IH];
    intros [|d l'] H F; try discriminate.
  cbn [map] in H. inversion H as [[Hcd Hl]]. cbn [find] in *.
  unfold has_tag in *. rewrite <- (erase_tag c d Hcd).
  destruct (String.eqb (tag c) t).
  - inversion F. subst. now exists d.
  - now apply IH.
Qed.

Section Finalizer.
Variable parse_xml : string -> bool -> option _Element.

(** The document is a tree of the forest after the import. *)
Lemma import_macros_keeps_root fuel path h0 (r0 : _Element) res h1 :
  heap_wf h0 -> In r0 (trees h0) ->
  _import_macros parse_xml fuel (eid r0) path h0 = Return (res, h1) ->
  (exists r1, In r1 (trees h1) /\ eid r1 = eid r0) /\
  res = match _macros_el r0 with
        | None => None
        | Some me => transitive_imports parse_xml fuel (OsPath.dirname path) me
        end /\
  (forall me, _macros_el r0 = Some me -> exists l, res = Some l).
Proof.
  intros Hwf Hr0 H. case_eq (_macros_el r0).
  - intros me0 Hme.
    destruct (import_macros_effect parse_xml fuel path h0 r0 me0 res h1 Hwf Hr0 Hme H)
      as [pre0 [post0 [pre [paths [_ [_ [_ [-> [Hp [_ [Hin _]]]]]]]]]]].
    split; [|split].
    + eexists. split; [exact Hin|apply eid_canon].
    + now rewrite Hp.
    + intros. now exists paths.
  - intro Hnone. unfold _import_macros in H.
    apply bindM_inv in H. destruct H as [r [h00 [D H]]].
    apply deref_inv in D. destruct D as [Lr ->].
    rewrite (lookup_root (trees h0) r0 (proj1 Hwf) Hr0) in Lr.
    inversion Lr. subst r. rewrite Hnone in H. inversion H. subst.
    split; [|split].
    + now exists r0.
    + reflexivity.
    + intros me Hme. discriminate.
Qed.

(** C8, amended: when [load_with_references] returns, the second
    component is, for a document with a macro container, the list of the
    transitive imports of the container, and [None] for a document
    without one.  The tree behind the root that is returned is the tree
    that the expansion of the macros left, without its elements tagged
    [macro] of another type than [template] and what is below them, and
    then rewritten with the token table.  Before that last rewrite no
    element below the root is tagged [macro] with another type than
    [template], and every child of a child of the root that is not such
    an element is still where it was: the templates of the container
    stay. *)
Theorem load_with_references_result {py : Interpreter} (fuel : nat) (path : string) (root : nat)
    (paths : option (list string)) (h : heap) :
  run (load_with_references parse_xml fuel path) = Return ((root, paths), h) ->
  exists doc tokens h2 r2 r',
    parse_xml path true = Some doc /\
    run (expand_phase parse_xml fuel path) = Return ((root, paths, tokens), h2) /\
    lookup (trees h2) root = Some r2 /\
    _expand_tokens_for_el (strip_macros r2) tokens = Return r' /\
    lookup (trees h) root = Some r' /\
    (forall n, In n (descendants (strip_macros r2)) -> removable n = false) /\
    (forall m c,
        In m (children r2) -> removable m = false ->
        In c (children m) -> removable c = false ->
        In (strip_macros m) (children (strip_macros r2)) /\
        In (strip_macros c) (children (strip_macros m))) /\
    paths = match _macros_el doc with
            | None => None
            | Some me => transitive_imports parse_xml fuel (OsPath.dirname path) me
            end /\
    (forall me, _macros_el doc = Some me -> exists l, paths = Some l).
Proof.
  unfold run, load_with_references, expand_phase, raw_xml_tree. intro H.
  apply bindM_inv in H. destruct H as [root0 [h0 [Hparse H]]].
  apply bindM_inv in H. destruct H as [macro_paths [h1 [Himp H]]].
  apply bindM_inv in H. destruct H as [ra [h1a [Da H]]].
  apply bindM_inv in H. destruct H as [tokens [h1b [Ht H]]].
  apply bindM_inv in H. destruct H as [rb [h1c [Db H]]].
  apply bindM_inv in H. destruct H as [u [h2 [Hexp H]]].
  apply bindM_inv in H. destruct H as [r2 [h2a [D2 H]]].
  apply bindM_inv in H. destruct H as [v [h3 [Hrem H]]].
  apply bindM_inv in H. destruct H as [w [h4 [Hrw H]]].
  inversion H. subst root0 macro_paths h4. clear H.
  (* the heap stays well formed *)
  destruct (preserves_parse parse_xml _ _ _ _ _ empty_heap_wf Hparse) as [Hwf0 _].
  destruct (preserves_import_macros parse_xml _ _ _ _ _ _ Hwf0 Himp) as [Hwf1 _].
  pose proof Da as Da'. apply deref_inv in Da'. destruct Da' as [_ ->].
  pose proof Ht as Ht'. apply lift_inv in Ht'. destruct Ht' as [_ ->].
  pose proof Db as Db'. apply deref_inv in Db'. destruct Db' as [_ ->].
  destruct (preserves_expand_macros _ _ _ _ _ _ _ Hwf1 Hexp) as [Hwf2 _].
  apply deref_inv in D2. destruct D2 as [L2 ->].
  (* the document is a tree of the forest all along *)
  pose proof Hparse as Hp. apply parse_inv in Hp.
  destruct Hp as [doc [Hdoc [Eroot Eh0]]]. cbn [next_id] in Eroot.
  destruct (relabel_spec doc 0) as [_ [_ [Her Heid]]].
  set (r0 := fst (relabel doc 0)) in *.
  assert (Hr0 : In r0 (trees h0)) by (rewrite Eh0; now left).
  assert (Hroot : eid r0 = root) by congruence.
  rewrite <- Hroot in Himp.
  destruct (import_macros_keeps_root fuel path h0 r0 paths h1 Hwf0 Hr0 Himp)
    as [[r1 [Hr1 E1]] [Hpaths Hsome]].
  rewrite Hroot in Himp.
  destruct (keeps_expand_macros _ _ _ _ _ _ _ Hwf1 Hexp r1 Hr1) as [r2' [Hr2 E2]].
  assert (r2' = r2).
  { assert (L := lookup_root (trees h2) r2' (proj1 Hwf2) Hr2).
    rewrite E2, E1, Hroot, L2 in L. now inversion L. }
  subst r2'.
  destruct v.
  destruct (remove_macros_effect h2 h3 r2 Hwf2 Hr2 Hrem) as [Hwf3 Hr3].
  unfold in_place in Hrw.
  apply bindM_inv in Hrw. destruct Hrw as [e [h3a [D3 Hrw]]].
  apply deref_inv in D3. destruct D3 as [L3 ->].
  assert (L3' : lookup (trees h3) root = Some (strip_macros r2)).
  { rewrite <- Hroot, <- E1, <- E2, <- (eid_strip_macros r2).
    apply lookup_root; [apply Hwf3|exact Hr3]. }
  rewrite L3' in L3. inversion L3. subst e. clear L3.
  apply bindM_inv in Hrw. destruct Hrw as [r' [h3b [Hl Hrw]]].
  apply lift_inv in Hl. destruct Hl as [Hr' ->].
  inversion Hrw. subst h. clear Hrw.
  exists doc, tokens, h2, r2, r'.
  split; [exact Hdoc|]. split.
  { rewrite (bindM_step _ _ _ _ _ Hparse), (bindM_step _ _ _ _ _ Himp),
      (bindM_step _ _ _ _ _ Da), (bindM_step _ _ _ _ _ Ht),
      (bindM_step _ _ _ _ _ Db), (bindM_step _ _ _ _ _ Hexp).
    reflexivity. }
  split; [exact L2|]. split; [exact Hr'|]. split.
  { cbn [trees].
    apply (lookup_modify_same (trees h3) root (fun _ => r') (strip_macros r2));
      [apply Hwf3|exact L3'|].
    rewrite (expand_tokens_for_el_eid _ _ _ Hr'), eid_strip_macros. congruence. }
  split.
  { intros n Hn. unfold descendants in Hn.
    rewrite strip_macros_unfold, children_set_children in Hn.
    now apply (strip_list_clean (children r2)). }
  split.
  { intros m c Hm Rm Hc Rc. split.
    - rewrite (strip_macros_unfold r2), children_set_children.
      now apply strip_list_keeps.
    - rewrite (strip_macros_unfold m), children_set_children.
      now apply strip_list_keeps. }
  case_eq (_macros_el r0).
  - intros me0 Hme0. rewrite Hme0 in Hpaths.
    destruct (find_child_some_erase "macros" r0 doc me0 Her Hme0) as [me [Hme Hee]].
    unfold _macros_el. rewrite Hme. split.
    + rewrite Hpaths. now apply transitive_imports_erase.
    + intros me' _. now apply (Hsome me0).
  - intro Hnone. rewrite Hnone in Hpaths.
    unfold _macros_el. rewrite (find_child_none_erase "macros" r0 doc Her Hnone).
    split; [exact Hpaths|]. intros me' Hme'. discriminate.
Qed.

End Finalizer.

(** C8, counterexample: the document [<tool/>] has no macro container;
    [load_with_references] returns its tree and [None], which is no list
    of paths. *)
Lemma load_without_container_returns_no_list :
  ~ load_removes_macros_and_lists_imports
      (fun path _ =>
         if String.eqb path "tool.xml"
         then Some (Element 0 "tool" [] None None [])
         else None).
Proof.
  intro H.
  destruct (H 1 "tool.xml" 0 None
              (Heap [Element 0 "tool" [] None None []] 1) eq_refl)
    as [r' [l [_ [_ E]]]].
  discriminate E.
Qed.

(** A token whose name occurs in the word [template]: the last rewrite
    changes the type of the template that was kept. *)
Example token_rewrites_kept_template :
  run (load_with_references
         (fun path _ =>
            if String.eqb path "tool.xml"
            then Some (Element 0 "tool" [] None None
                         [Element 0 "macros" [] None None
                            [Element 0 "token" [("name", "plate")] (Some "X") None [];
                             Element 0 "template" [("name", "t")] (Some "body")
                               None []]])
            else None)
         3 "tool.xml")
  = Return
      ((0, Some []),
       Heap [Element 0 "tool" [] None None
               [Element 1 "macros" [] None None
                  [Element 3 "macro" [("name", "t"); ("type", "temX")]
                     (Some "body") None []]];
             Element 2 "macro" [("name", "plate"); ("type", "token")]
               (Some "X") None []] 4).
Proof. vm_compute. reflexivity. Qed.

Lemma load_with_references_result_witness :
  exists doc tokens h2 r2 r',
    (if String.eqb "tool.xml" "tool.xml"
     then Some (Element 0 "tool" [] None None
                  [Element 0 "macros" [] None None
                     [Element 0 "xml" [("name", "m")] None None
                        [Element 0 "a" [] None None []];
                      Element 0 "template" [("name", "t")] (Some "body") None []];
                   Element 0 "expand" [("macro", "m")] None None []])
     else None) = Some doc /\
    run (expand_phase
           (fun path _ =>
              if String.eqb path "tool.xml"
              then Some (Element 0 "tool" [] None None
                           [Element 0 "macros" [] None None
                              [Element 0 "xml" [("name", "m")] None None
                                 [Element 0 "a" [] None None []];
                               Element 0 "template" [("name", "t")] (Some "body")
                                 None []];
                            Element 0 "expand" [("macro", "m")] None None []])
              else None)
           3 "tool.xml")
    = Return ((0, Some [], tokens), h2) /\
    lookup (trees h2) 0 = Some r2 /\
    _expand_tokens_for_el (strip_macros r2) tokens = Return r' /\
    lookup
      [Element 0 "tool" [] None None
         [Element 1 "macros" [] None None
            [Element 4 "macro" [("name", "t"); ("type", "template")]
               (Some "body") None []];
          Element 8 "a" [] None None []];
       Element 6 "macro" [("name", "m"); ("type", "xml")] None None
         [Element 7 "a" [] None None []];
       Element 5 "expand" [("macro", "m")] None None [];
       Element 2 "macro" [("name", "m"); ("type", "xml")] None None
         [Element 3 "a" [] None None []]] 0 = Some r' /\
    (forall n, In n (descendants (strip_macros r2)) -> removable n = false) /\
    (forall m c,
        In m (children r2) -> removable m = false ->
        In c (children m) -> removable c = false ->
        In (strip_macros m) (children (strip_macros r2)) /\
        In (strip_macros c) (children (strip_macros m))) /\
    Some [] = match _macros_el doc with
              | None => None
              | Some me =>
                  transitive_imports
                    (fun path _ =>
                       if String.eqb path "tool.xml"
                       then Some (Element 0 "tool" [] None None
                                    [Element 0 "macros" [] None None
                                       [Element 0 "xml" [("name", "m")] None None
                                          [Element 0 "a" [] None None []];
                                        Element 0 "template" [("name", "t")]
                                          (Some "body") None []];
                                     Element 0 "expand" [("macro", "m")] None None []])
                       else None)
                    3 (OsPath.dirname "tool.xml") me
              end /\
    (forall me, _macros_el doc = Some me -> exists l, Some (@nil string) = Some l).
Proof.
  apply (load_with_references_result
           (fun path _ =>
              if String.eqb path "tool.xml"
              then Some (Element 0 "tool" [] None None
                           [Element 0 "macros" [] None None
                              [Element 0 "xml" [("name", "m")] None None
                                 [Element 0 "a" [] None None []];
                               Element 0 "template" [("name", "t")] (Some "body")
                                 None []];
                            Element 0 "expand" [("macro", "m")] None None []])
              else None)
           3 "tool.xml" 0 (Some [])
           (Heap [Element 0 "tool" [] None None
                    [Element 1 "macros" [] None None
                       [Element 4 "macro" [("name", "t"); ("type", "template")]
                          (Some "body") None []];
                     Element 8 "a" [] None None []];
                  Element 6 "macro" [("name", "m"); ("type", "xml")] None None
                    [Element 7 "a" [] None None []];
                  Element 5 "expand" [("macro", "m")] None None [];
                  Element 2 "macro" [("name", "m"); ("type", "xml")] None None
                    [Element 3 "a" [] None None []]] 9)).
  vm_compute. reflexivity.
Defined.
(* ================================================================== *)
(** * Token tables: what the resolution keeps, and when it fails *)
(* ================================================================== *)

Lemma tokens_set_keys (t : token_table) k v v0 :
  tokens_get t k = Some v0 -> dict_keys (tokens_set t k v) = dict_keys t.
Proof.
  unfold tokens_get, tokens_set. induction t as [|[k' v'] t IH]; simpl; [discriminate|].
  destruct (name_eqb k' k); [reflexivity|]. intro H. simpl. now rewrite (IH H).
Qed.

Lemma nested_step_keys name cur (t : token_table) :
  dict_keys (fst (nested_step name cur t)) = dict_keys t.
Proof.
  unfold nested_step. destruct (tokens_get t cur) as [v|] eqn:G; [|reflexivity].
  destruct name as [name|]; [|reflexivity].
  destruct (PyStr.contains name v); [|reflexivity].
  destruct (name_eqb (Some name) cur); [reflexivity|].
  destruct (tokens_get t (Some name)); [|reflexivity].
  simpl. now apply tokens_set_keys with (v0 := v).
Qed.

Lemma nested_inner_keys name todo :
  forall t : token_table, dict_keys (fst (nested_inner name todo t)) = dict_keys t.
Proof.
  induction todo as [|cur todo IH]; intro t; [reflexivity|].
  cbn [nested_inner]. pose proof (nested_step_keys name cur t) as K.
  destruct (nested_step name cur t) as [t' [u| e | |]]; simpl in K; simpl; auto.
  now rewrite IH.
Qed.

Lemma nested_outer_keys todo :
  forall t : token_table, dict_keys (fst (nested_outer todo t)) = dict_keys t.
Proof.
  induction todo as [|name todo IH]; intro t; [reflexivity|].
  cbn [nested_outer]. pose proof (nested_inner_keys name (dict_keys t) t) as K.
  destruct (nested_inner name (dict_keys t) t) as [t' [u| e | |]]; simpl in K; simpl; auto.
  now rewrite IH.
Qed.

(** X1: [expand_nested_tokens] never adds, drops or reorders a token:
    the table it leaves behind has the keys of the table it was given,
    in the same order, whether it returns or raises; and the table it
    returns is the very table it has rewritten. *)
Theorem expand_nested_tokens_keeps_keys (tokens : token_table) :
  dict_keys (fst (expand_nested_tokens tokens)) = dict_keys tokens /\
  forall t', snd (expand_nested_tokens tokens) = Return t' ->
             t' = fst (expand_nested_tokens tokens).
Proof.
  unfold expand_nested_tokens.
  pose proof (nested_outer_keys (dict_keys tokens) tokens) as K.
  destruct (nested_outer (dict_keys tokens) tokens) as [t' [u| e | |]];
    simpl in K; simpl; (split; [exact K|]); intros t'' H; now inversion H.
Qed.

Lemma expand_nested_tokens_keeps_keys_witness :
  dict_keys (fst (expand_nested_tokens [(Some "@A@", "x @B@"); (Some "@B@", "y")]))
  = dict_keys [(Some "@A@", "x @B@"); (Some "@B@", "y")] /\
  forall t', snd (expand_nested_tokens [(Some "@A@", "x @B@"); (Some "@B@", "y")])
             = Return t' ->
             t' = fst (expand_nested_tokens [(Some "@A@", "x @B@"); (Some "@B@", "y")]).
Proof.
  exact (expand_nested_tokens_keeps_keys [(Some "@A@", "x @B@"); (Some "@B@", "y")]).
Defined.

Lemma flat_table_keys (tokens : token_table) :
  forallb (fun e : option string * string => str_free tokens (snd e)) tokens = true ->
  forall k, In k (dict_keys tokens) ->
    exists s, k = Some s /\ forall e, In e tokens -> PyStr.contains s (snd e) = false.
Proof.
  intros H k Hk. unfold dict_keys in Hk. apply in_map_iff in Hk.
  destruct Hk as [[k0 v0] [<- Hin]]. simpl.
  rewrite forallb_forall in H.
  destruct k0 as [s|].
  - exists s. split; [reflexivity|]. intros e He.
    specialize (H e He). unfold str_free in H. rewrite forallb_forall in H.
    specialize (H _ Hin). simpl in H. now apply negb_true_iff in H.
  - exfalso. specialize (H _ Hin). unfold str_free in H. rewrite forallb_forall in H.
    specialize (H _ Hin). simpl in H. discriminate.
Qed.

(** X2: a table in which no value contains a placeholder of the table
    comes back from [expand_nested_tokens] as it was. *)
Theorem expand_nested_tokens_flat (tokens : token_table) :
  forallb (fun e : option string * string => str_free tokens (snd e)) tokens = true ->
  expand_nested_tokens tokens = (tokens, Return tokens).
Proof.
  intro H. unfold expand_nested_tokens.
  rewrite <- (app_nil_r (dict_keys tokens)).
  rewrite (nested_outer_inert (dict_keys tokens) tokens []).
  - reflexivity.
  - now apply flat_table_keys.
Qed.

Lemma expand_nested_tokens_flat_witness :
  expand_nested_tokens [(Some "@A@", "x"); (Some "@B@", "y")]
  = ([(Some "@A@", "x"); (Some "@B@", "y")],
     Return [(Some "@A@", "x"); (Some "@B@", "y")]).
Proof. apply expand_nested_tokens_flat. reflexivity. Defined.

Lemma first_nameless (keys : list (option string)) :
  In None keys ->
  exists pre post, keys = pre ++ None :: post /\
                   forall k, In k pre -> exists s, k = Some s.
Proof.
  induction keys as [|k keys IH]; [intros []|].
  intro H. destruct k as [s|].
  - destruct H as [H|H]; [discriminate|].
    destruct (IH H) as [pre [post [-> Hpre]]].
    exists (Some s :: pre), post. split; [reflexivity|].
    intros k [<-|Hk]; [now exists s | now apply Hpre].
  - exists [], keys. split; [reflexivity|]. intros k [].
Qed.

(** X3: a token without a name makes [expand_nested_tokens] raise
    [TypeError]: in a table that has the key [None], and in which no value
    contains the placeholder of a named token, the test [None in value]
    is reached, and the table is left as it was. *)
Theorem expand_nested_tokens_nameless (tokens : token_table) :
  In None (dict_keys tokens) ->
  (forall s e, In (Some s) (dict_keys tokens) -> In e tokens ->
               PyStr.contains s (snd e) = false) ->
  expand_nested_tokens tokens = (tokens, Raise TypeError).
Proof.
  intros HN Hflat. unfold expand_nested_tokens.
  destruct (first_nameless _ HN) as [pre [post [E Hpre]]].
  assert (Hout : nested_outer (dict_keys tokens) tokens = (tokens, Raise TypeError)).
  { rewrite E at 1. rewrite nested_outer_inert.
    - cbn [nested_outer].
      destruct tokens as [|[k0 v0] rest]; [destruct HN|].
      cbn [dict_keys map fst nested_inner]. unfold nested_step.
      rewrite tokens_get_head. reflexivity.
    - intros k Hk. destruct (Hpre k Hk) as [s ->]. exists s. split; [reflexivity|].
      intros e He. apply Hflat; [|exact He]. rewrite E. apply in_or_app. now left. }
  now rewrite Hout.
Qed.

Lemma expand_nested_tokens_nameless_witness :
  expand_nested_tokens [(Some "@A@", "x"); (None, "y")]
  = ([(Some "@A@", "x"); (None, "y")], Raise TypeError).
Proof.
  apply expand_nested_tokens_nameless.
  - simpl. auto.
  - intros s e Hs He. simpl in Hs. destruct Hs as [Hs|[Hs|[]]]; [|discriminate].
    inversion Hs. subst s. destruct He as [<-|[<-|[]]]; reflexivity.
Defined.

(* ================================================================== *)
(** * The rewrite of a string and of a tree *)
(* ================================================================== *)

(** X4: [_expand_tokens_str] applies the tokens one after the other, in
    the order of the table, each to what the ones before have made of the
    string: the rewrite with two tables on end is the rewrite with the
    first followed by the rewrite with the second. *)
Theorem expand_tokens_str_app (t1 t2 : token_table) (s : string) :
  _expand_tokens_str s (t1 ++ t2)
  = (s' <- _expand_tokens_str s t1 ;; _expand_tokens_str s' t2)%py.
Proof.
  revert s. induction t1 as [|[[key|] value] t1 IH]; intro s; simpl; [reflexivity| |reflexivity].
  destruct (PyStr.contains key s); apply IH.
Qed.

Lemma expand_tokens_str_returns (tokens : token_table) :
  string_keys tokens = true ->
  forall s, exists s', _expand_tokens_str s tokens = Return s'.
Proof.
  induction tokens as [|[[key|] value] tokens IH]; simpl; intros H s.
  - now exists s.
  - destruct (PyStr.contains key s); apply IH; exact H.
  - discriminate.
Qed.

Lemma expand_tokens_attrib_returns (tokens : token_table) (at_ : dict string string) :
  string_keys tokens = true ->
  exists at', expand_tokens_attrib at_ tokens = Return at'.
Proof.
  intro H. unfold expand_tokens_attrib. induction at_ as [|[k v] at_ IH]; simpl.
  - now exists [].
  - destruct (expand_tokens_str_returns tokens H v) as [v' ->]. simpl.
    destruct IH as [at' ->]. simpl. eauto.
Qed.

Lemma expand_tokens_for_el_returns (tokens : token_table) :
  string_keys tokens = true ->
  forall e, exists e', _expand_tokens_for_el e tokens = Return e'.
Proof.
  intros H e. induction e as [i tg at_ tx tl cs IH] using element_rect'.
  cbn [_expand_tokens_for_el].
  assert (Htx : exists tx',
             match tx with
             | None => Return tx
             | Some EmptyString => Return tx
             | Some value => (new_value <- _expand_tokens_str value tokens ;;
                              Return (Some new_value))%py
             end = Return tx').
  { destruct tx as [[|c s]|]; eauto.
    destruct (expand_tokens_str_returns tokens H (String c s)) as [s' ->]. simpl. eauto. }
  destruct Htx as [tx' ->]. cbn [bind].
  destruct (expand_tokens_attrib_returns tokens at_ H) as [at' ->]. cbn [bind].
  destruct (is_empty tokens); [cbn [bind]; eauto|].
  assert (Hcs : exists cs',
             (fix expand_list (l : list _Element) : result (list _Element) :=
                match l with
                | [] => Return []
                | c :: l' =>
                    (c' <- _expand_tokens_for_el c tokens ;;
                     l'' <- expand_list l' ;;
                     Return (c' :: l''))%py
                end) cs = Return cs').
  { induction IH as [|c cs [c' Hc] _ [cs' Hcs]]; [eauto|].
    rewrite Hc. cbn [bind]. rewrite Hcs. cbn [bind]. eauto. }
  destruct Hcs as [cs' ->]. cbn [bind]. eauto.
Qed.

Lemma expand_tokens_returns (tokens : token_table) (l : list _Element) :
  string_keys tokens = true -> exists l', _expand_tokens l tokens = Return l'.
Proof.
  intro H. unfold _expand_tokens. destruct (is_empty tokens); [eauto|].
  induction l as [|c l [l' IH]]; [now exists []|].
  cbn [map_result]. destruct (expand_tokens_for_el_returns tokens H c) as [c' ->].
  rewrite IH. cbn [bind]. eauto.
Qed.

(** X5: the rewrite of tokens fails only on a token without a name: with
    a table whose placeholders are all strings, [_expand_tokens_str]
    returns on every string, [_expand_tokens_for_el] on every tree and
    [_expand_tokens] on every list of trees; with a table whose first
    placeholder is [None], the rewrite of a string raises [TypeError]. *)
Theorem expand_tokens_total (tokens : token_table) :
  (string_keys tokens = true ->
   (forall s, exists s', _expand_tokens_str s tokens = Return s') /\
   (forall e, exists e', _expand_tokens_for_el e tokens = Return e') /\
   (forall l, exists l', _expand_tokens l tokens = Return l')) /\
  (forall v rest s, tokens = (None, v) :: rest ->
                    _expand_tokens_str s tokens = Raise TypeError).
Proof.
  split.
  - intro H. split; [|split].
    + now apply expand_tokens_str_returns.
    + now apply expand_tokens_for_el_returns.
    + intro l. now apply expand_tokens_returns.
  - intros v rest s ->. reflexivity.
Qed.

Lemma expand_tokens_total_witness :
  (forall s, exists s',
      _expand_tokens_str s [(Some "@V@", "1"); (Some "@W@", "@V@")] = Return s') /\
  (forall e, exists e',
      _expand_tokens_for_el e [(Some "@V@", "1"); (Some "@W@", "@V@")] = Return e') /\
  (forall l, exists l',
      _expand_tokens l [(Some "@V@", "1"); (Some "@W@", "@V@")] = Return l').
Proof.
  apply (proj1 (expand_tokens_total [(Some "@V@", "1"); (Some "@W@", "@V@")])).
  reflexivity.
Defined.

(** X6: the rewrite of tokens touches texts and attribute values only:
    the tree it returns has the nodes of the tree it was given, with their
    identities, tags, attribute names and tails, in the same places; and a
    node has a text if and only if it had one. *)
Theorem expand_tokens_for_el_skeleton (tokens : token_table) (e e' : _Element) :
  _expand_tokens_for_el e tokens = Return e' -> skeleton e' = skeleton e.
Proof.
  revert e'. induction e as [i tg at_ tx tl cs IH] using element_rect'.
  intros e' H. cbn [_expand_tokens_for_el] in H.
  apply bind_inv in H. destruct H as [tx' [Htx H]].
  apply bind_inv in H. destruct H as [at' [Hat H]].
  apply bind_inv in H. destruct H as [cs' [Hcs H]].
  inversion H. subst e'. clear H. cbn [skeleton]. f_equal.
  - clear - Hat. unfold expand_tokens_attrib in Hat. revert at' Hat.
    induction at_ as [|[k v] at_ IHa]; intros at' Hat.
    + now inversion Hat.
    + cbn [map_result] in Hat.
      apply bind_inv in Hat. destruct Hat as [kv [Hkv Hat]].
      apply bind_inv in Hat. destruct Hat as [l [Hl Hat]].
      inversion Hat. subst at'. simpl in Hkv.
      apply bind_inv in Hkv. destruct Hkv as [v' [_ Hkv]]. inversion Hkv. subst kv.
      simpl. now rewrite (IHa _ Hl).
  - clear - Htx. destruct tx as [[|c s]|].
    + now inversion Htx.
    + apply bind_inv in Htx. destruct Htx as [s' [_ Htx]]. now inversion Htx.
    + now inversion Htx.
  - destruct (is_empty tokens); [now inversion Hcs|].
    revert cs' Hcs. induction IH as [|c cs Hc _ IHcs]; intros cs' Hcs.
    + now inversion Hcs.
    + apply bind_inv in Hcs. destruct Hcs as [c' [Hc' Hcs]].
      apply bind_inv in Hcs. destruct Hcs as [l'' [Hl Hcs]].
      inversion Hcs. subst cs'. simpl.
      now rewrite (Hc _ Hc'), (IHcs _ Hl).
Qed.

Lemma expand_tokens_for_el_skeleton_witness :
  skeleton (Element 0 "a" [("x", "1")] (Some "v 1") None [Element 1 "b" [] (Some "1") (Some "1") []])
  = skeleton (Element 0 "a" [("x", "@V@")] (Some "v @V@") None
                [Element 1 "b" [] (Some "@V@") (Some "1") []]).
Proof.
  apply (expand_tokens_for_el_skeleton [(Some "@V@", "1")]). reflexivity.
Defined.
(* ================================================================== *)
(** * The parameters of a macro and the table of an expansion *)
(* ================================================================== *)

Lemma tokens_set_keys_incl (t : token_table) k v x :
  In x (dict_keys (tokens_set t k v)) -> x = k \/ In x (dict_keys t).
Proof.
  unfold tokens_set. induction t as [|[k' v'] t IH]; simpl.
  - intros [<-|[]]. now left.
  - destruct (name_eqb k' k); simpl.
    + intros [<-|H]; auto.
    + intros [<-|H]; auto. destruct (IH H); auto.
Qed.

Lemma tokens_set_string_keys (t : token_table) name v :
  string_keys t = true -> string_keys (tokens_set t (Some name) v) = true.
Proof.
  unfold string_keys, tokens_set. induction t as [|[k' v'] t IH]; simpl; [reflexivity|].
  intro H. apply andb_true_iff in H. destruct H as [H1 H2].
  destruct (name_eqb k' (Some name)); simpl; rewrite H1; simpl; auto.
Qed.

Lemma macro_tokens_loop_outcome {py : Interpreter} (expand_el : _Element)
    (items : list (string * (string * param_default))) :
  forall acc : token_table,
    string_keys acc = true ->
    match XmlMacroDef.macro_tokens_loop items expand_el acc with
    | Return table =>
        (forall key q d, In (key, (q, d)) items ->
           exists name, clark_name key = Return name /\
                        (d = REQUIRED_PARAMETER -> get_attr expand_el name <> None)) /\
        string_keys table = true /\
        (forall k, In k (dict_keys table) ->
           In k (dict_keys acc) \/
           exists key q d, In (key, (q, d)) items /\
                           k = Some (q ++ str_upper key ++ q)%string)
    | Raise e =>
        exists key q d,
          In (key, (q, d)) items /\
          ((clark_name key = Raise e /\
            (e = ValueError "Empty tag name" \/ e = ValueError "Invalid tag name")) \/
           (d = REQUIRED_PARAMETER /\
            exists name, clark_name key = Return name /\
                         get_attr expand_el name = None /\
                         e = ValueError
                               ("Failed to expand macro - missing required parameter ["
                                ++ key ++ "].")%string))
    | OutOfFuel => False
    | Dangling => False
    end.
Proof.
  induction items as [|[key [q d]] items IH]; intros acc Hacc.
  - cbn [XmlMacroDef.macro_tokens_loop]. split; [intros ? ? ? []|]. split; auto.
  - cbn [XmlMacroDef.macro_tokens_loop].
    destruct (attrib_get_cases expand_el key) as [[name [Ec Eg]]|[x [Ec [Eg Hx]]]];
      rewrite Eg; cbn [bind].
    2: { exists key, q, d. split; [now left|]. left. now split. }
    destruct (get_attr expand_el name) as [v|] eqn:G.
    + specialize (IH (tokens_set acc (Some (q ++ str_upper key ++ q)%string) v)
                     (tokens_set_string_keys _ _ _ Hacc)).
      destruct (XmlMacroDef.macro_tokens_loop items expand_el _) as [table|e| |]; auto.
      * destruct IH as [R [S K]]. split; [|split; [exact S|]].
        -- intros key' q' d' [E|Hin]; [|now apply (R key' q' d')].
           inversion E. subst. exists name. split; [exact Ec|]. intros _. now rewrite G.
        -- intros k Hk. destruct (K k Hk) as [Hk'|[key' [q' [d' [Hin E]]]]].
           ++ apply tokens_set_keys_incl in Hk'. destruct Hk' as [->|Hk']; [|now left].
              right. exists key, q, d. split; [now left|reflexivity].
           ++ right. exists key', q', d'. split; [now right|exact E].
      * destruct IH as [key' [q' [d' [Hin H]]]]. exists key', q', d'.
        split; [now right|exact H].
    + destruct d as [|v].
      * exists key, q, REQUIRED_PARAMETER. split; [now left|]. right.
        split; [reflexivity|]. exists name. now split.
      * specialize (IH (tokens_set acc (Some (q ++ str_upper key ++ q)%string) v)
                       (tokens_set_string_keys _ _ _ Hacc)).
        destruct (XmlMacroDef.macro_tokens_loop items expand_el _) as [table|e| |]; auto.
        -- destruct IH as [R [S K]]. split; [|split; [exact S|]].
           ++ intros key' q' d' [E|Hin]; [|now apply (R key' q' d')].
              inversion E. subst. exists name. split; [exact Ec|]. discriminate.
           ++ intros k Hk. destruct (K k Hk) as [Hk'|[key' [q' [d' [Hin E]]]]].
              ** apply tokens_set_keys_incl in Hk'. destruct Hk' as [->|Hk']; [|now left].
                 right. exists key, q, (Default v). split; [now left|reflexivity].
              ** right. exists key', q', d'. split; [now right|exact E].
        -- destruct IH as [key' [q' [d' [Hin H]]]]. exists key', q', d'.
           split; [now right|exact H].
Qed.

(** X7: [macro_tokens] returns a table exactly when lxml accepts the
    name of every parameter of the macro and the placeholder has an
    attribute for every required parameter; the placeholders of the
    table are then strings, each the upper-case name of a parameter, as
    the interpreter gives it, between its delimiters.  Otherwise it
    raises [ValueError]: for a parameter name that lxml refuses, the
    error of lxml, [Empty tag name] or [Invalid tag name]; for a required
    parameter that the placeholder lacks, the error with the name of the
    parameter.  These are its only errors. *)
Theorem macro_tokens_outcome {py : Interpreter} (md : XmlMacroDef.t) (expand_el : _Element) :
  match XmlMacroDef.macro_tokens md expand_el with
  | Return table =>
      (forall key q d, In (key, (q, d)) (XmlMacroDef.parameters md) ->
         exists name, clark_name key = Return name /\
                      (d = REQUIRED_PARAMETER -> get_attr expand_el name <> None)) /\
      string_keys table = true /\
      (forall k, In k (dict_keys table) ->
         exists key q d, In (key, (q, d)) (XmlMacroDef.parameters md) /\
                         k = Some (q ++ str_upper key ++ q)%string)
  | Raise e =>
      exists key q d,
        In (key, (q, d)) (XmlMacroDef.parameters md) /\
        ((clark_name key = Raise e /\
          (e = ValueError "Empty tag name" \/ e = ValueError "Invalid tag name")) \/
         (d = REQUIRED_PARAMETER /\
          exists name, clark_name key = Return name /\
                       get_attr expand_el name = None /\
                       e = ValueError
                             ("Failed to expand macro - missing required parameter ["
                              ++ key ++ "].")%string))
  | OutOfFuel => False
  | Dangling => False
  end.
Proof.
  unfold XmlMacroDef.macro_tokens.
  pose proof (macro_tokens_loop_outcome expand_el (XmlMacroDef.parameters md) []
                eq_refl) as H.
  destruct (XmlMacroDef.macro_tokens_loop (XmlMacroDef.parameters md) expand_el [])
    as [table|e| |]; auto.
  destruct H as [R [S K]]. split; [exact R|]. split; [exact S|].
  intros k Hk. destruct (K k Hk) as [[]|H]. exact H.
Qed.

(** The statement at a macro with the parameters [foo], required, and the
    empty name, which a [tokens] attribute that ends in a comma declares:
    the placeholder supplies [foo], and the expansion fails on the empty
    name. *)
Lemma macro_tokens_outcome_witness :
  exists key q d,
    In (key, (q, d)) [("foo", ("@", REQUIRED_PARAMETER)); ("", ("@", REQUIRED_PARAMETER))] /\
    ((clark_name key = Raise (ValueError "Empty tag name") /\
      (ValueError "Empty tag name" = ValueError "Empty tag name" \/
       ValueError "Empty tag name" = ValueError "Invalid tag name")) \/
     (d = REQUIRED_PARAMETER /\
      exists name, clark_name key = Return name /\
                   get_attr (Element 1 "expand" [("macro", "m"); ("foo", "1")] None None [])
                     name = None /\
                   ValueError "Empty tag name"
                   = ValueError ("Failed to expand macro - missing required parameter ["
                                 ++ key ++ "].")%string)).
Proof.
  exact (macro_tokens_outcome
           (XmlMacroDef.Build_t 0 [("foo", ("@", REQUIRED_PARAMETER));
                                   ("", ("@", REQUIRED_PARAMETER))])
           (Element 1 "expand" [("macro", "m"); ("foo", "1")] None None [])).
Defined.

Lemma init_parameters_wf (el : _Element) :
  dict_wf (XmlMacroDef.parameters (XmlMacroDef.__init__ el)).
Proof. rewrite init_parameters. apply register_wf. constructor. Qed.

(** X8: in the table of an expansion, the placeholder of a parameter
    stands for the attribute of that name on the [expand] element, the
    name read as lxml reads it, or else for the default of the
    parameter, as long as no other parameter of the macro has the same
    placeholder. *)
Theorem macro_tokens_value {py : Interpreter} (el expand_el : _Element) (table : token_table)
    (key q : string) (d : param_default) :
  XmlMacroDef.macro_tokens (XmlMacroDef.__init__ el) expand_el = Return table ->
  In (key, (q, d)) (XmlMacroDef.parameters (XmlMacroDef.__init__ el)) ->
  (forall key' q' d',
      In (key', (q', d')) (XmlMacroDef.parameters (XmlMacroDef.__init__ el)) ->
      (q' ++ str_upper key' ++ q')%string = (q ++ str_upper key ++ q)%string ->
      key' = key) ->
  exists name v,
    clark_name key = Return name /\
    tokens_get table (Some (q ++ str_upper key ++ q)%string) = Some v /\
    (get_attr expand_el name = Some v \/
     (get_attr expand_el name = None /\ d = Default v)).
Proof.
  intros Hrun Hin Hcol. pose proof (init_parameters_wf el) as Hwf.
  unfold XmlMacroDef.macro_tokens in Hrun.
  destruct (in_split _ _ Hin) as [l1 [l2 E]]. rewrite E in Hrun, Hwf, Hcol.
  rewrite macro_tokens_loop_app in Hrun.
  apply bind_inv in Hrun. destruct Hrun as [acc1 [_ Hrun]].
  cbn [XmlMacroDef.macro_tokens_loop] in Hrun.
  assert (Hl2 : forall key' w d', In (key', (w, d')) l2 ->
                  (w ++ str_upper key' ++ w)%string
                  <> (q ++ str_upper key ++ q)%string).
  { intros key' w d' Hin' Eq.
    assert (key' = key).
    { apply (Hcol key' w d'); [|exact Eq]. apply in_or_app. right. now right. }
    subst key'. unfold dict_wf, dict_keys in Hwf. rewrite map_app in Hwf.
    apply NoDup_app_r in Hwf. simpl in Hwf. inversion Hwf as [|? ? Hn _]. apply Hn.
    change key with (fst (key, (w, d'))). now apply in_map. }
  destruct (attrib_get_cases expand_el key) as [[name [Ec Eg]]|[x [Ec [Eg Hx]]]];
    rewrite Eg in Hrun; cbn [bind] in Hrun; [|discriminate].
  exists name.
  destruct (get_attr expand_el name) as [v|] eqn:G.
  - exists v. split; [exact Ec|]. split; [|now left].
    rewrite (macro_tokens_loop_other _ _ _ Hl2 Hrun). apply tokens_get_set_same.
  - destruct d as [|v]; [discriminate|].
    exists v. split; [exact Ec|]. split; [|now right].
    rewrite (macro_tokens_loop_other _ _ _ Hl2 Hrun). apply tokens_get_set_same.
Qed.

(** The statement at a macro with the parameters [foo], optional, and
    [{}bar], required: the placeholder supplies the second under the name
    [bar]. *)
Lemma macro_tokens_value_witness :
  exists name v,
    clark_name "{}bar" = Return name /\
    tokens_get [(Some "@FOO@", "d"); (Some "@{}BAR@", "b")] (Some "@{}BAR@") = Some v /\
    (get_attr (Element 1 "expand" [("macro", "m"); ("bar", "b")] None None []) name
     = Some v \/
     (get_attr (Element 1 "expand" [("macro", "m"); ("bar", "b")] None None []) name
      = None /\ REQUIRED_PARAMETER = Default v)).
Proof.
  refine (macro_tokens_value
            (Element 0 "macro"
               [("name", "m"); ("type", "xml"); ("token_foo", "d"); ("tokens", "{}bar")]
               None None [])
            (Element 1 "expand" [("macro", "m"); ("bar", "b")] None None [])
            [(Some "@FOO@", "d"); (Some "@{}BAR@", "b")] "{}bar" "@" REQUIRED_PARAMETER
            _ _ _).
  - reflexivity.
  - simpl. auto.
  - intros key' q' d' Hin E. simpl in Hin.
    destruct Hin as [Hin|[Hin|[]]]; inversion Hin; subst; [discriminate|reflexivity].
Defined.

(** X9: a macro whose element has no [tokens] attribute and no attribute
    that begins with [token_] has no parameters, and every expansion of
    it gets the empty table, whatever the attributes of the placeholder. *)
Theorem macro_without_parameters {py : Interpreter} (el expand_el : _Element) :
  get_attr el "tokens" = None ->
  (forall k v, In (k, v) (attrib el) -> PyStr.startswith "token_" k = false) ->
  XmlMacroDef.parameters (XmlMacroDef.__init__ el) = [] /\
  XmlMacroDef.macro_tokens (XmlMacroDef.__init__ el) expand_el = Return [].
Proof.
  intros Ht Hp.
  assert (E : XmlMacroDef.parameters (XmlMacroDef.__init__ el) = []).
  { rewrite init_parameters. rewrite collect_tokens_none; [reflexivity| |exact Hp].
    intro Hin. apply in_map_iff in Hin. destruct Hin as [[k v] [Ek Hin]]. simpl in Ek.
    subst k. unfold get_attr in Ht. clear Hp.
    induction (attrib el) as [|[k' v'] l IH]; [destruct Hin|].
    simpl in Ht. destruct Hin as [Hin|Hin].
    - inversion Hin. subst. simpl in Ht. discriminate.
    - destruct (String.eqb k' "tokens"); [discriminate|]. now apply IH. }
  split; [exact E|]. unfold XmlMacroDef.macro_tokens. now rewrite E.
Qed.

Lemma macro_without_parameters_witness :
  XmlMacroDef.parameters
    (XmlMacroDef.__init__ (Element 0 "macro" [("name", "m"); ("type", "xml")] None None []))
  = [] /\
  XmlMacroDef.macro_tokens
    (XmlMacroDef.__init__ (Element 0 "macro" [("name", "m"); ("type", "xml")] None None []))
    (Element 1 "expand" [("macro", "m"); ("foo", "1")] None None [])
  = Return [].
Proof.
  apply macro_without_parameters.
  - reflexivity.
  - intros k v [H|[H|[]]]; inversion H; reflexivity.
Defined.
(* ================================================================== *)
(** * The template parameters *)
(* ================================================================== *)

Section NameDictCopy.
Variable V : Type.

Lemma name_set_fresh (d : dict (option string) V) k v :
  ~ In k (dict_keys d) -> dict_set name_eqb d k v = d ++ [(k, v)].
Proof.
  induction d as [|[k' v'] d IH]; simpl; [reflexivity|].
  intro H. destruct (name_eqb k' k) eqn:E.
  - apply name_eqb_eq in E. subst. exfalso. apply H. now left.
  - rewrite IH; [reflexivity|]. intro Hin. apply H. now right.
Qed.

Lemma name_set_keys_incl (d : dict (option string) V) k v x :
  In x (dict_keys (dict_set name_eqb d k v)) -> x = k \/ In x (dict_keys d).
Proof.
  induction d as [|[k' v'] d IH]; simpl.
  - intros [<-|[]]. now left.
  - destruct (name_eqb k' k); simpl.
    + intros [<-|H]; auto.
    + intros [<-|H]; auto. destruct (IH H); auto.
Qed.

Lemma name_set_wf (d : dict (option string) V) k v :
  dict_wf d -> dict_wf (dict_set name_eqb d k v).
Proof.
  unfold dict_wf. induction d as [|[k' v'] d IH]; simpl.
  - intros _. constructor; [intros []|constructor].
  - intro H. inversion H as [|? ? Hn Hd]. subst.
    destruct (name_eqb k' k) eqn:E; simpl.
    + constructor; assumption.
    + constructor; [|now apply IH].
      intro Hin. apply name_set_keys_incl in Hin. destruct Hin as [->|Hin]; [|now apply Hn].
      rewrite name_eqb_refl in E. discriminate.
Qed.

Lemma dict_of_list_wf (l : list (option string * V)) :
  forall d, dict_wf d ->
    dict_wf (fold_left (fun d kv => dict_set name_eqb d (fst kv) (snd kv)) l d).
Proof.
  induction l as [|[k v] l IH]; intros d Hd; [exact Hd|].
  simpl. apply IH. now apply name_set_wf.
Qed.

(** Copying a dictionary entry by entry gives the dictionary. *)
Lemma dict_copy (l : dict (option string) V) :
  forall acc,
    NoDup (dict_keys (acc ++ l)) ->
    fold_left (fun d kv => dict_set name_eqb d (fst kv) (snd kv)) l acc = acc ++ l.
Proof.
  induction l as [|[k v] l IH]; intros acc H; simpl.
  - now rewrite app_nil_r.
  - rewrite name_set_fresh.
    + rewrite IH; rewrite <- app_assoc; [reflexivity|exact H].
    + unfold dict_keys in H. rewrite map_app in H. simpl in H.
      apply NoDup_remove_2 in H. intro Hin. apply H. apply in_or_app. now left.
Qed.

End NameDictCopy.

Lemma find_map_pair {A B} (g : A -> B) (p : B -> bool) (l : list A) :
  find p (map g l) = option_map g (find (fun a => p (g a)) l).
Proof.
  induction l as [|a l IH]; [reflexivity|]. cbn [map find].
  destruct (p (g a)); [reflexivity|exact IH].
Qed.

(** X22: a lookup in the dictionary of [_macros_of_type]: without a
    container it finds nothing; with one, the name [name] ([None] for a
    macro without a name) gives [el_func] of the last child of the
    container tagged [macro], of the given type and with that name, and
    nothing if there is none. *)
Theorem macros_of_type_lookup {V : Type} (root : _Element) (type : string)
    (el_func : _Element -> V) (name : option string) :
  dict_get name_eqb (_macros_of_type root type el_func) name
  = match _macros_el root with
    | None => None
    | Some macros_el =>
        option_map el_func
          (find (fun macro_el => name_eqb (get_attr macro_el "name") name)
                (rev (filter (type_is type) (findall_children "macro" macros_el))))
    end.
Proof.
  unfold _macros_of_type, _macros_el.
  destruct (find_child "macros" root) as [me|]; [|reflexivity].
  unfold dict_of_list. rewrite dict_of_pairs_get, <- map_rev.
  rewrite (find_map_pair
             (fun macro_el : _Element => (get_attr macro_el "name", el_func macro_el))
             (fun kv => name_eqb (fst kv) name)).
  cbn [fst]. destruct (find _ (rev _)); reflexivity.
Qed.

(** X10: [template_macro_params] gives the dictionary of the template
    macros of the container, name to text: among the elements tagged
    [macro] of type [template], in document order, the last one with a
    given name gives the text for that name (a macro without a name goes
    under [None], a macro without a text gives [None]). *)
Theorem template_macro_params_last (root me d : _Element) (l1 l2 : list _Element)
    (name : option string) :
  _macros_el root = Some me ->
  filter (type_is "template") (findall_children "macro" me) = l1 ++ d :: l2 ->
  get_attr d "name" = name ->
  (forall d', In d' l2 -> get_attr d' "name" <> name) ->
  template_macro_params root = _macros_of_type root "template" text /\
  dict_get name_eqb (template_macro_params root) name = Some (text d).
Proof.
  intros Hme Hf Hn Hl2.
  assert (E : template_macro_params root = _macros_of_type root "template" text).
  { unfold template_macro_params. rewrite dict_copy; [reflexivity|].
    simpl. unfold _macros_of_type. destruct (find_child "macros" root); [|constructor].
    apply dict_of_list_wf. constructor. }
  split; [exact E|]. rewrite E. unfold _macros_of_type.
  unfold _macros_el in Hme. rewrite Hme. unfold dict_of_list.
  rewrite dict_of_pairs_get. rewrite Hf, map_app. cbn [map].
  rewrite rev_app_distr. cbn [rev]. rewrite <- app_assoc. rewrite find_app'.
  assert (Hnone : find (fun kv : option string * option string => name_eqb (fst kv) name)
                    (rev (map (fun macro_el => (get_attr macro_el "name", text macro_el)) l2))
                  = None).
  { destruct (find _ (rev _)) as [kv|] eqn:F; [|reflexivity]. exfalso.
    apply find_some in F. destruct F as [Hin Hk]. apply in_rev in Hin.
    apply in_map_iff in Hin. destruct Hin as [d' [<- Hd']]. simpl in Hk.
    apply name_eqb_eq in Hk. now apply (Hl2 d'). }
  rewrite Hnone. cbn [app find fst snd]. rewrite Hn, name_eqb_refl. reflexivity.
Qed.

Lemma template_macro_params_last_witness :
  template_macro_params
    (Element 0 "tool" [] None None
       [Element 1 "macros" [] None None
          [Element 2 "macro" [("name", "t"); ("type", "template")] (Some "one") None [];
           Element 3 "macro" [("name", "x"); ("type", "xml")] None None [];
           Element 4 "macro" [("name", "t"); ("type", "template")] (Some "two") None []]])
  = _macros_of_type
      (Element 0 "tool" [] None None
         [Element 1 "macros" [] None None
            [Element 2 "macro" [("name", "t"); ("type", "template")] (Some "one") None [];
             Element 3 "macro" [("name", "x"); ("type", "xml")] None None [];
             Element 4 "macro" [("name", "t"); ("type", "template")] (Some "two") None []]])
      "template" text /\
  dict_get name_eqb
    (template_macro_params
       (Element 0 "tool" [] None None
          [Element 1 "macros" [] None None
             [Element 2 "macro" [("name", "t"); ("type", "template")] (Some "one") None [];
              Element 3 "macro" [("name", "x"); ("type", "xml")] None None [];
              Element 4 "macro" [("name", "t"); ("type", "template")] (Some "two") None []]]))
    (Some "t")
  = Some (text (Element 4 "macro" [("name", "t"); ("type", "template")] (Some "two") None [])).
Proof.
  apply (template_macro_params_last _
           (Element 1 "macros" [] None None
              [Element 2 "macro" [("name", "t"); ("type", "template")] (Some "one") None [];
               Element 3 "macro" [("name", "x"); ("type", "xml")] None None [];
               Element 4 "macro" [("name", "t"); ("type", "template")] (Some "two") None []])
           _
           [Element 2 "macro" [("name", "t"); ("type", "template")] (Some "one") None []]
           []).
  - reflexivity.
  - reflexivity.
  - reflexivity.
  - intros d' [].
Defined.
(* ================================================================== *)
(** * Replacing an element by copies *)
(* ================================================================== *)

Lemma relabel_forest_new ts n i :
  In i (forest_ids (fst (relabel_forest ts n))) -> n <= i.
Proof.
  destruct (relabel_forest_spec ts n) as [_ [E _]]. rewrite E.
  intro H. apply in_seq in H. lia.
Qed.

(** X11: [_xml_replace(query, targets)], for a [query] that has a parent
    and targets that are nodes of a tree other than the parent's: the
    call returns; in the list of children where [query] stood, new copies
    of the targets stand in its place, in the order of the targets; the
    copies have the content of the targets and new identities; [query]
    itself is left without a parent; nothing else changes. *)
Theorem xml_replace_splices (h : heap) (query : nat) (pn X : _Element)
    (ts : list _Element) :
  heap_wf h ->
  parent_of (trees h) query = Some pn ->
  In X (trees h) -> ~ In (eid pn) (ids X) ->
  (forall t, In t ts -> In t (nodes X)) ->
  exists q copies h',
    _xml_replace query (map eid ts) h = Return (tt, h') /\
    heap_wf h' /\
    lookup (trees h) query = Some q /\ In q (children pn) /\
    trees h' = splice_list query copies (trees h) ++ [q] /\
    map erase copies = map erase ts /\
    (forall i, In i (forest_ids copies) -> next_id h <= i).
Proof.
  intros Hwf Hp HX Hout Hts.
  destruct (xml_replace_effect h query pn X ts Hwf Hp HX Hout Hts) as [q [L [Hc R]]].
  exists q, (fst (relabel_forest ts (next_id h))),
         (Heap (splice_list query (fst (relabel_forest ts (next_id h))) (trees h) ++ [q])
               (snd (relabel_forest ts (next_id h)))).
  split; [exact R|]. split.
  - exact (proj1 (preserves_xml_replace query (map eid ts) h tt _ Hwf R)).
  - split; [exact L|]. split; [exact Hc|]. split; [reflexivity|].
    split; [apply relabel_forest_erase|]. intros i. apply relabel_forest_new.
Qed.

Lemma xml_replace_splices_witness :
  exists q copies h',
    _xml_replace 1 (map eid [Element 4 "c" [] (Some "t") None []])
      (Heap [Element 0 "tool" [] None None
               [Element 1 "a" [] None None []; Element 2 "b" [] None None []];
             Element 3 "frag" [] None None [Element 4 "c" [] (Some "t") None []]] 5)
    = Return (tt, h') /\
    heap_wf h' /\
    lookup [Element 0 "tool" [] None None
              [Element 1 "a" [] None None []; Element 2 "b" [] None None []];
            Element 3 "frag" [] None None [Element 4 "c" [] (Some "t") None []]] 1
    = Some q /\
    In q (children (Element 0 "tool" [] None None
                      [Element 1 "a" [] None None []; Element 2 "b" [] None None []])) /\
    trees h'
    = splice_list 1 copies
        [Element 0 "tool" [] None None
           [Element 1 "a" [] None None []; Element 2 "b" [] None None []];
         Element 3 "frag" [] None None [Element 4 "c" [] (Some "t") None []]] ++ [q] /\
    map erase copies = map erase [Element 4 "c" [] (Some "t") None []] /\
    (forall i, In i (forest_ids copies) -> 5 <= i).
Proof.
  apply (xml_replace_splices
           (Heap [Element 0 "tool" [] None None
                    [Element 1 "a" [] None None []; Element 2 "b" [] None None []];
                  Element 3 "frag" [] None None [Element 4 "c" [] (Some "t") None []]] 5)
           1
           (Element 0 "tool" [] None None
              [Element 1 "a" [] None None []; Element 2 "b" [] None None []])
           (Element 3 "frag" [] None None [Element 4 "c" [] (Some "t") None []])
           [Element 4 "c" [] (Some "t") None []]).
  - split; simpl.
    + repeat constructor; simpl; intuition discriminate.
    + repeat constructor.
  - reflexivity.
  - simpl. auto.
  - simpl. intuition discriminate.
  - intros t [<-|[]]. simpl. auto.
Defined.

Lemma root_has_no_parent (h : heap) (r : _Element) :
  heap_wf h -> In r (trees h) -> parent_of (trees h) (eid r) = None.
Proof.
  intros Hwf Hr. destruct (parent_of (trees h) (eid r)) as [pn|] eqn:P; [|reflexivity].
  exfalso. apply parent_of_some in P. destruct P as [Hpn Hc].
  apply (child_not_root (trees h) (eid r) pn (proj1 Hwf) Hpn Hc). now apply in_map.
Qed.

(** X12: [_xml_replace] on an element that has no parent, the root of a
    document or of a fragment, raises [TypeError] (the parent is [None]
    and cannot be listed), and nothing is changed. *)
Theorem xml_replace_root (h : heap) (r : _Element) (targets : list nat) :
  heap_wf h -> In r (trees h) ->
  _xml_replace (eid r) targets h = Raise TypeError.
Proof.
  intros Hwf Hr. unfold _xml_replace, bindM.
  now rewrite (root_has_no_parent h r Hwf Hr).
Qed.

Lemma xml_replace_root_witness :
  _xml_replace (eid (Element 0 "tool" [] None None [Element 1 "a" [] None None []])) [1]
    (Heap [Element 0 "tool" [] None None [Element 1 "a" [] None None []]] 2)
  = Raise TypeError.
Proof.
  apply xml_replace_root.
  - split; simpl.
    + repeat constructor; simpl; intuition discriminate.
    + repeat constructor.
  - simpl. auto.
Defined.

(* ================================================================== *)
(** * Expansion of a document without placeholders *)
(* ================================================================== *)

(** X13: [_expand_macros] changes nothing when none of the elements it is
    given has an [expand] element below it, whatever the catalog and the
    token table: the token table is not applied by the expansion. *)
Theorem expand_macros_no_placeholder {py : Interpreter} (fuel : nat) (elements : list nat)
    (macros : macro_catalog) (tokens : token_table) (h : heap) :
  (forall i, In i elements ->
     exists e, lookup (trees h) i = Some e /\ find_descendant "expand" e = None) ->
  _expand_macros (S (S fuel)) elements macros tokens h = Return (tt, h).
Proof.
  intro H. rewrite expand_macros_unfold.
  destruct (is_empty macros && is_empty tokens); [reflexivity|].
  apply for_each_skip. intros i Hi. destruct (H i Hi) as [e [L F]].
  rewrite expand_while_unfold, (bindM_step _ _ _ _ _ (deref_step _ _ _ L)).
  now rewrite F.
Qed.

Lemma expand_macros_no_placeholder_witness :
  _expand_macros 2 [0] [(Some "m", XmlMacroDef.Build_t 5 [])] [(Some "@A@", "x")]
    (Heap [Element 0 "tool" [] (Some "@A@") None [Element 1 "a" [] None None []]] 2)
  = Return (tt, Heap [Element 0 "tool" [] (Some "@A@") None
                        [Element 1 "a" [] None None []]] 2).
Proof.
  apply expand_macros_no_placeholder.
  intros i [<-|[]]. eexists. split; reflexivity.
Defined.

(* ================================================================== *)
(** * The children of the container *)
(* ================================================================== *)

Lemma xml_set_children_canon (r0 me0 : _Element) (pre0 post0 CS D : list _Element)
    (h : heap) :
  heap_wf h -> In (canon r0 me0 pre0 post0 CS) (trees h) ->
  incl D CS -> NoDup (map eid D) ->
  exists h',
    _xml_set_children (eid me0) (map eid D) h = Return (tt, h') /\
    heap_wf h' /\
    In (canon r0 me0 pre0 post0 D) (trees h').
Proof.
  intros Hwf Hin Hincl Hnd. unfold _xml_set_children.
  rewrite (bindM_step _ _ _ _ _
             (deref_step _ _ _ (lookup_canon_container r0 me0 pre0 post0 h CS Hwf Hin))).
  rewrite children_set_children.
  destruct (remove_children_loop r0 me0 pre0 post0 CS [] h Hwf Hin)
    as [h1 [R1 [Hwf1 [Hin1 [Hall P1]]]]]; [intros d []|]. cbn [app] in Hall.
  rewrite (bindM_step _ _ _ _ _ R1).
  destruct (insert_own_loop r0 me0 pre0 post0 D 0 [] h1 Hwf1 Hin1) as [h2 [R2 [Hwf2 Hin2]]];
    [cbn [length]; lia| |exact Hnd|].
  { intros d Hd. apply Hall. now apply Hincl. }
  exists h2. split; [exact R2|]. split; [exact Hwf2|exact Hin2].
Qed.

(** X14: [_xml_set_children] on a child [m] of the root of a document,
    with a list of children of [m] without repetition: the call returns,
    and [m] has for children the elements of the list, in the order of the
    list, each with its subtree and tail; the rest of the document is as
    it was.  With the list of all the children of [m], in their order, the
    document is unchanged. *)
Theorem xml_set_children_own (h : heap) (r0 me0 : _Element)
    (pre0 post0 D : list _Element) :
  heap_wf h -> In r0 (trees h) -> children r0 = pre0 ++ me0 :: post0 ->
  incl D (children me0) -> NoDup (map eid D) ->
  exists h',
    _xml_set_children (eid me0) (map eid D) h = Return (tt, h') /\
    heap_wf h' /\
    In (canon r0 me0 pre0 post0 D) (trees h') /\
    (D = children me0 -> In r0 (trees h')).
Proof.
  intros Hwf Hr0 Hshape Hincl Hnd.
  assert (Hcanon := canon_same r0 me0 pre0 post0 Hshape).
  destruct (xml_set_children_canon r0 me0 pre0 post0 (children me0) D h Hwf)
    as [h' [R [Hwf' Hin']]]; auto.
  { now rewrite Hcanon. }
  exists h'. split; [exact R|]. split; [exact Hwf'|]. split; [exact Hin'|].
  intros ->. now rewrite Hcanon in Hin'.
Qed.

Lemma xml_set_children_own_witness :
  exists h',
    _xml_set_children
      (eid (Element 1 "m" [] None None
              [Element 2 "a" [] None None []; Element 3 "b" [] None None [];
               Element 4 "c" [] None None []]))
      (map eid [Element 4 "c" [] None None []; Element 2 "a" [] None None []])
      (Heap [Element 0 "tool" [] None None
               [Element 1 "m" [] None None
                  [Element 2 "a" [] None None []; Element 3 "b" [] None None [];
                   Element 4 "c" [] None None []];
                Element 5 "z" [] None None []]] 6)
    = Return (tt, h') /\
    heap_wf h' /\
    In (canon
          (Element 0 "tool" [] None None
             [Element 1 "m" [] None None
                [Element 2 "a" [] None None []; Element 3 "b" [] None None [];
                 Element 4 "c" [] None None []];
              Element 5 "z" [] None None []])
          (Element 1 "m" [] None None
             [Element 2 "a" [] None None []; Element 3 "b" [] None None [];
              Element 4 "c" [] None None []])
          [] [Element 5 "z" [] None None []]
          [Element 4 "c" [] None None []; Element 2 "a" [] None None []])
       (trees h') /\
    ([Element 4 "c" [] None None []; Element 2 "a" [] None None []]
     = children (Element 1 "m" [] None None
                   [Element 2 "a" [] None None []; Element 3 "b" [] None None [];
                    Element 4 "c" [] None None []]) ->
     In (Element 0 "tool" [] None None
           [Element 1 "m" [] None None
              [Element 2 "a" [] None None []; Element 3 "b" [] None None [];
               Element 4 "c" [] None None []];
            Element 5 "z" [] None None []])
        (trees h')).
Proof.
  apply (xml_set_children_own
           (Heap [Element 0 "tool" [] None None
                    [Element 1 "m" [] None None
                       [Element 2 "a" [] None None []; Element 3 "b" [] None None [];
                        Element 4 "c" [] None None []];
                     Element 5 "z" [] None None []]] 6)).
  - split; simpl.
    + repeat constructor; simpl; intuition discriminate.
    + repeat constructor.
  - simpl. auto.
  - reflexivity.
  - intros d [<-|[<-|[]]]; simpl; auto.
  - repeat constructor; simpl; intuition discriminate.
Defined.

Example set_children_reorders :
  _xml_set_children 1 [4; 2]
    (Heap [Element 0 "tool" [] None None
             [Element 1 "m" [] None None
                [Element 2 "a" [] None None []; Element 3 "b" [] None None [];
                 Element 4 "c" [] None None []];
              Element 5 "z" [] None None []]] 6)
  = Return (tt,
      Heap [Element 0 "tool" [] None None
              [Element 1 "m" [] None None
                 [Element 4 "c" [] None None []; Element 2 "a" [] None None []];
               Element 5 "z" [] None None []];
            Element 3 "b" [] None None []] 6).
Proof. reflexivity. Qed.

(* ================================================================== *)
(** * The definitions that a container embeds *)
(* ================================================================== *)

Lemma normalise_other (c : _Element) : kind_of c = None -> normalise c = c.
Proof.
  unfold kind_of, normalise, normalise_step.
  destruct (has_tag "macro" c); [discriminate|].
  destruct (has_tag "template" c); [discriminate|].
  destruct (has_tag "xml" c); [discriminate|].
  destruct (has_tag "token" c); [discriminate|]. reflexivity.
Qed.

Lemma children_normalise (c : _Element) : children (normalise c) = children c.
Proof.
  unfold normalise, normalise_step, shortcut, typed.
  repeat match goal with |- context [if ?b then _ else _] => destruct b end;
    try destruct (get_attr c "type"); reflexivity.
Qed.

Lemma text_normalise (c : _Element) : text (normalise c) = text c.
Proof.
  unfold normalise, normalise_step, shortcut, typed.
  repeat match goal with |- context [if ?b then _ else _] => destruct b end;
    try destruct (get_attr c "type"); reflexivity.
Qed.

(** X15: [_load_embedded_macros] on the container [m] of a document: it
    returns the children of [m] that define a macro, those tagged [macro]
    first, then those tagged [template], [xml] and [token]; after it, each
    of them is tagged [macro], has the type of its kind (the [type]
    attribute it had, or [xml], for an element tagged [macro]; its former
    tag for a shortcut) and keeps its name; the other children of [m] and
    the rest of the document are as they were. *)
Theorem load_embedded_macros_normalises (base : string) (h : heap)
    (r0 me0 : _Element) (pre0 post0 : list _Element) :
  heap_wf h -> In r0 (trees h) -> children r0 = pre0 ++ me0 :: post0 ->
  exists h',
    _load_embedded_macros (Some (eid me0)) base h
    = Return (map eid (embedded (children me0)), h') /\
    heap_wf h' /\
    In (canon r0 me0 pre0 post0 (map normalise (children me0))) (trees h') /\
    (forall c k, kind_of c = Some k ->
       has_tag "macro" (normalise c) = true /\
       get_attr (normalise c) "type" = Some k /\
       get_attr (normalise c) "name" = get_attr c "name" /\
       eid (normalise c) = eid c /\ children (normalise c) = children c /\
       text (normalise c) = text c) /\
    (forall c, kind_of c = None -> normalise c = c).
Proof.
  intros Hwf Hr0 Hshape.
  assert (Hcanon := canon_same r0 me0 pre0 post0 Hshape).
  destruct (embedded_effect r0 me0 pre0 post0 base h (children me0) Hwf)
    as [h' [R [Hwf' [Hin' _]]]].
  { now rewrite Hcanon. }
  exists h'. split; [exact R|]. split; [exact Hwf'|]. split; [exact Hin'|].
  split; [|exact normalise_other].
  intros c k Hk. destruct (kind_of_normalise c k Hk) as [A [B C]].
  split; [exact A|]. split; [exact B|]. split; [exact C|].
  split; [apply eid_normalise|]. split; [apply children_normalise|apply text_normalise].
Qed.

Lemma load_embedded_macros_normalises_witness :
  exists h',
    _load_embedded_macros
      (Some (eid (Element 1 "macros" [] None None
                    [Element 2 "token" [("name", "@A@")] (Some "x") None [];
                     Element 3 "import" [] (Some "lib.xml") None [];
                     Element 4 "macro" [("name", "m")] None None []])))
      "dir"
      (Heap [Element 0 "tool" [] None None
               [Element 1 "macros" [] None None
                  [Element 2 "token" [("name", "@A@")] (Some "x") None [];
                   Element 3 "import" [] (Some "lib.xml") None [];
                   Element 4 "macro" [("name", "m")] None None []]]] 5)
    = Return (map eid (embedded (children
                (Element 1 "macros" [] None None
                   [Element 2 "token" [("name", "@A@")] (Some "x") None [];
                    Element 3 "import" [] (Some "lib.xml") None [];
                    Element 4 "macro" [("name", "m")] None None []]))), h') /\
    heap_wf h' /\
    In (canon
          (Element 0 "tool" [] None None
             [Element 1 "macros" [] None None
                [Element 2 "token" [("name", "@A@")] (Some "x") None [];
                 Element 3 "import" [] (Some "lib.xml") None [];
                 Element 4 "macro" [("name", "m")] None None []]])
          (Element 1 "macros" [] None None
             [Element 2 "token" [("name", "@A@")] (Some "x") None [];
              Element 3 "import" [] (Some "lib.xml") None [];
              Element 4 "macro" [("name", "m")] None None []])
          [] []
          (map normalise (children
             (Element 1 "macros" [] None None
                [Element 2 "token" [("name", "@A@")] (Some "x") None [];
                 Element 3 "import" [] (Some "lib.xml") None [];
                 Element 4 "macro" [("name", "m")] None None []]))))
       (trees h') /\
    (forall c k, kind_of c = Some k ->
       has_tag "macro" (normalise c) = true /\
       get_attr (normalise c) "type" = Some k /\
       get_attr (normalise c) "name" = get_attr c "name" /\
       eid (normalise c) = eid c /\ children (normalise c) = children c /\
       text (normalise c) = text c) /\
    (forall c, kind_of c = None -> normalise c = c).
Proof.
  apply (load_embedded_macros_normalises "dir"
           (Heap [Element 0 "tool" [] None None
                    [Element 1 "macros" [] None None
                       [Element 2 "token" [("name", "@A@")] (Some "x") None [];
                        Element 3 "import" [] (Some "lib.xml") None [];
                        Element 4 "macro" [("name", "m")] None None []]]] 5)).
  - split; simpl.
    + repeat constructor; simpl; intuition discriminate.
    + repeat constructor.
  - simpl. auto.
  - reflexivity.
Defined.

Example embedded_run :
  _load_embedded_macros (Some 1) "dir"
    (Heap [Element 0 "tool" [] None None
             [Element 1 "macros" [] None None
                [Element 2 "token" [("name", "@A@")] (Some "x") None [];
                 Element 3 "import" [] (Some "lib.xml") None [];
                 Element 4 "macro" [("name", "m")] None None []]]] 5)
  = Return ([4; 2],
      Heap [Element 0 "tool" [] None None
              [Element 1 "macros" [] None None
                 [Element 2 "macro" [("name", "@A@"); ("type", "token")] (Some "x") None [];
                  Element 3 "import" [] (Some "lib.xml") None [];
                  Element 4 "macro" [("name", "m"); ("type", "xml")] None None []]]] 5).
Proof. reflexivity. Qed.

(* ================================================================== *)
(** * A container without imports *)
(* ================================================================== *)

Lemma import_macros_plain (parse_xml : string -> bool -> option _Element)
    (fuel : nat) (path : string) (h0 : heap) (r0 me0 : _Element)
    (pre0 post0 : list _Element) :
  heap_wf h0 -> In r0 (trees h0) -> _macros_el r0 = Some me0 ->
  children r0 = pre0 ++ me0 :: post0 ->
  _imported_macro_paths_from_el (Some me0) = [] ->
  exists h1,
    _import_macros parse_xml (S fuel) (eid r0) path h0 = Return (Some [], h1) /\
    heap_wf h1 /\
    In (canon r0 me0 pre0 post0 (map normalise (embedded (children me0)))) (trees h1).
Proof.
  intros Hwf Hr0 Hme Hshape Hp.
  assert (Hcanon := canon_same r0 me0 pre0 post0 Hshape).
  assert (Hin0 : In (canon r0 me0 pre0 post0 (children me0)) (trees h0)).
  { now rewrite Hcanon. }
  assert (Lme : lookup (trees h0) (eid me0) = Some me0).
  { rewrite (lookup_canon_container r0 me0 pre0 post0 h0 _ Hwf Hin0).
    now rewrite set_children_same. }
  assert (Hnd : NoDup (ids (canon r0 me0 pre0 post0 (children me0)))).
  { rewrite Hcanon. apply (NoDup_member (trees h0)); [apply Hwf|exact Hr0]. }
  destruct (canon_facts r0 me0 pre0 post0 _ Hnd) as [C1 [C2 [C3 [C4 C5]]]].
  assert (RP : bindM (deref (eid me0))
                 (fun me => ret (_imported_macro_paths_from_el (Some me))) h0
               = Return ([], h0)).
  { rewrite (bindM_step _ _ _ _ _ (deref_step _ _ _ Lme)). now rewrite Hp. }
  assert (RA : _load_imported_macros parse_xml (_load_macros parse_xml fuel)
                 (Some (eid me0)) (OsPath.dirname path) h0
               = Return (([], []), h0)).
  { unfold _load_imported_macros. now rewrite (bindM_step _ _ _ _ _ RP). }
  destruct (embedded_effect r0 me0 pre0 post0 (OsPath.dirname path) h0
              (children me0) Hwf Hin0) as [hB [RB [HwfB [HinB _]]]].
  destruct (xml_set_children_canon r0 me0 pre0 post0 (map normalise (children me0))
              (map normalise (embedded (children me0))) hB HwfB HinB)
    as [h1 [RC [Hwf1 Hin1]]].
  { intros d Hd. apply in_map_iff in Hd. destruct Hd as [c [<- Hc]].
    apply in_map. now apply embedded_in. }
  { rewrite map_map. rewrite (map_ext _ eid eid_normalise).
    apply NoDup_embedded. now apply NoDup_roots. }
  rewrite map_map, (map_ext _ eid eid_normalise) in RC.
  exists h1. split; [|split; [exact Hwf1|exact Hin1]].
  unfold _import_macros.
  rewrite (bindM_step _ _ _ _ _
             (deref_step _ _ _ (lookup_root (trees h0) r0 (proj1 Hwf) Hr0))).
  rewrite Hme.
  assert (RL : _load_macros parse_xml (S fuel) (Some (eid me0))
                 (OsPath.dirname path) h0
               = Return (([] ++ map eid (embedded (children me0)), []), hB)).
  { cbn [_load_macros]. rewrite (bindM_step _ _ _ _ _ RA). cbn [fst snd].
    now rewrite (bindM_step _ _ _ _ _ RB). }
  rewrite (bindM_step _ _ _ _ _ RL). cbn [fst snd app].
  now rewrite (bindM_step _ _ _ _ _ RC).
Qed.

(** X16: [_import_macros] on a document whose container declares no
    import: it returns the empty list of paths, and the container is left
    with the macro definitions among its children, normalised, those that
    were tagged [macro] first, then the templates, the [xml] and the
    [token] shortcuts; its other children are taken out, and the rest of
    the document is as it was. *)
Theorem import_macros_without_imports (parse_xml : string -> bool -> option _Element)
    (fuel : nat) (path : string) (h0 : heap) (r0 me0 : _Element) :
  heap_wf h0 -> In r0 (trees h0) -> _macros_el r0 = Some me0 ->
  _imported_macro_paths_from_el (Some me0) = [] ->
  exists h1 pre0 post0,
    _import_macros parse_xml (S fuel) (eid r0) path h0 = Return (Some [], h1) /\
    children r0 = pre0 ++ me0 :: post0 /\
    heap_wf h1 /\
    In (canon r0 me0 pre0 post0 (map normalise (embedded (children me0)))) (trees h1).
Proof.
  intros Hwf Hr0 Hme Hp.
  pose proof Hme as Hme'. unfold _macros_el, find_child in Hme'.
  apply find_split in Hme'.
  destruct Hme' as [pre0 [post0 [Hshape _]]].
  destruct (import_macros_plain parse_xml fuel path h0 r0 me0 pre0 post0
              Hwf Hr0 Hme Hshape Hp) as [h1 [R [Hwf1 Hin1]]].
  exists h1, pre0, post0.
  split; [exact R|]. split; [exact Hshape|]. split; [exact Hwf1|exact Hin1].
Qed.

Lemma import_macros_without_imports_witness :
  exists h1 pre0 post0,
    _import_macros (fun _ _ => None) 1
      (eid (Element 0 "tool" [] None None
              [Element 1 "macros" [] None None
                 [Element 2 "token" [("name", "@A@")] (Some "x") None [];
                  Element 3 "note" [] None None [];
                  Element 4 "macro" [("name", "m")] None None []]]))
      "tool.xml"
      (Heap [Element 0 "tool" [] None None
               [Element 1 "macros" [] None None
                  [Element 2 "token" [("name", "@A@")] (Some "x") None [];
                   Element 3 "note" [] None None [];
                   Element 4 "macro" [("name", "m")] None None []]]] 5)
    = Return (Some [], h1) /\
    children (Element 0 "tool" [] None None
                [Element 1 "macros" [] None None
                   [Element 2 "token" [("name", "@A@")] (Some "x") None [];
                    Element 3 "note" [] None None [];
                    Element 4 "macro" [("name", "m")] None None []]])
    = pre0 ++ Element 1 "macros" [] None None
                [Element 2 "token" [("name", "@A@")] (Some "x") None [];
                 Element 3 "note" [] None None [];
                 Element 4 "macro" [("name", "m")] None None []] :: post0 /\
    heap_wf h1 /\
    In (canon
          (Element 0 "tool" [] None None
             [Element 1 "macros" [] None None
                [Element 2 "token" [("name", "@A@")] (Some "x") None [];
                 Element 3 "note" [] None None [];
                 Element 4 "macro" [("name", "m")] None None []]])
          (Element 1 "macros" [] None None
             [Element 2 "token" [("name", "@A@")] (Some "x") None [];
              Element 3 "note" [] None None [];
              Element 4 "macro" [("name", "m")] None None []])
          pre0 post0
          (map normalise (embedded (children
             (Element 1 "macros" [] None None
                [Element 2 "token" [("name", "@A@")] (Some "x") None [];
                 Element 3 "note" [] None None [];
                 Element 4 "macro" [("name", "m")] None None []])))))
       (trees h1).
Proof.
  apply (import_macros_without_imports (fun _ _ => None) 0 "tool.xml"
           (Heap [Element 0 "tool" [] None None
                    [Element 1 "macros" [] None None
                       [Element 2 "token" [("name", "@A@")] (Some "x") None [];
                        Element 3 "note" [] None None [];
                        Element 4 "macro" [("name", "m")] None None []]]] 5)).
  - split; simpl.
    + repeat constructor; simpl; intuition discriminate.
    + repeat constructor.
  - simpl. auto.
  - reflexivity.
  - reflexivity.
Defined.

Example import_without_imports_run :
  _import_macros (fun _ _ => None) 1 0 "tool.xml"
    (Heap [Element 0 "tool" [] None None
             [Element 1 "macros" [] None None
                [Element 2 "token" [("name", "@A@")] (Some "x") None [];
                 Element 3 "note" [] None None [];
                 Element 4 "macro" [("name", "m")] None None []]]] 5)
  = Return (Some [],
      Heap [Element 0 "tool" [] None None
              [Element 1 "macros" [] None None
                 [Element 4 "macro" [("name", "m"); ("type", "xml")] None None [];
                  Element 2 "macro" [("name", "@A@"); ("type", "token")] (Some "x") None []]];
            Element 3 "note" [] None None []] 5).
Proof. reflexivity. Qed.
(* ================================================================== *)
(** * Imports that cannot be loaded *)
(* ================================================================== *)

Lemma bindM_assoc {A B C} (m : M A) (k1 : A -> M B) (k2 : B -> M C) (h : heap) :
  bindM (bindM m k1) k2 h = bindM m (fun a => bindM (k1 a) k2) h.
Proof. unfold bindM. destruct (m h) as [[a h1]| | |]; reflexivity. Qed.

Lemma imported_paths_erase (a b : _Element) :
  erase a = erase b ->
  _imported_macro_paths_from_el (Some a) = _imported_macro_paths_from_el (Some b).
Proof.
  intro E. unfold _imported_macro_paths_from_el, findall_children.
  rewrite !findall_import_declared. apply declared_imports_erase.
  now apply erase_children.
Qed.

Section FailingImports.
Variable parse_xml : string -> bool -> option _Element.

Lemma lookup_parsed (h : heap) (doc : _Element) :
  heap_wf h ->
  lookup (trees h ++ [fst (relabel doc (next_id h))]) (next_id h)
  = Some (fst (relabel doc (next_id h))).
Proof.
  intros [_ Hlt]. apply lookup_fresh_copy; [exact Hlt|].
  now destruct (relabel_spec doc (next_id h)) as [_ [_ [_ E]]].
Qed.

Lemma parsed_wf (h : heap) (doc : _Element) :
  heap_wf h ->
  heap_wf (Heap (trees h ++ [fst (relabel doc (next_id h))]) (next_id h + size doc)).
Proof. intro Hwf. destruct h as [F n]. now apply fresh_tree_wf. Qed.

(** What the loop of [_load_imported_macros] is run on, for the root of
    a macro file that has just been read. *)
Lemma load_macros_of_file (fuel : nat) (p base : string) (doc : _Element) (h : heap) :
  heap_wf h -> parse_xml p false = Some doc ->
  exists h1 K,
    heap_wf h1 /\
    _load_macro_file parse_xml (_load_macros parse_xml (S fuel)) p base h
    = bindM (load_imported_loop parse_xml (_load_macros parse_xml fuel)
               (_imported_macro_paths_from_el (Some doc)) base [] []) K h1.
Proof.
  intros Hwf Hp.
  exists (Heap (trees h ++ [fst (relabel doc (next_id h))]) (next_id h + size doc)).
  eexists. split; [now apply parsed_wf|].
  unfold _load_macro_file. rewrite (bindM_step _ _ _ _ _ (parse_step parse_xml p false h doc Hp)).
  cbn [_load_macros]. unfold _load_imported_macros.
  rewrite !bindM_assoc.
  rewrite (bindM_step (deref (next_id h)) _ _ _ _
             (deref_step (next_id h)
                (Heap (trees h ++ [fst (relabel doc (next_id h))]) (next_id h + size doc))
                _ (lookup_parsed h doc Hwf))).
  unfold ret at 1. unfold bindM at 1.
  rewrite (imported_paths_erase _ doc);
    [|now destruct (relabel_spec doc (next_id h)) as [_ [_ [E _]]]].
  reflexivity.
Qed.

Lemma import_cycle_file (base : string) (files : list string) (p : string) :
  import_cycle parse_xml base files = true -> In p files ->
  exists doc rel rest,
    parse_xml p false = Some doc /\
    _imported_macro_paths_from_el (Some doc) = Some rel :: rest /\
    In (OsPath.join base rel) files.
Proof.
  intros H Hp. unfold import_cycle in H. rewrite forallb_forall in H.
  specialize (H p Hp). destruct (parse_xml p false) as [doc|]; [|discriminate].
  destruct (_imported_macro_paths_from_el (Some doc)) as [|[rel|] rest] eqn:Hpaths;
    try discriminate.
  exists doc, rel, rest. split; [reflexivity|]. split; [exact Hpaths|].
  apply existsb_exists in H. destruct H as [x [Hx E]]. apply String.eqb_eq in E.
  now rewrite E.
Qed.

Lemma import_cycle_file_never_returns (base : string) (files : list string) (fuel : nat) :
  import_cycle parse_xml base files = true ->
  forall p h, In p files -> heap_wf h ->
    _load_macro_file parse_xml (_load_macros parse_xml fuel) p base h = OutOfFuel.
Proof.
  intro Hc. induction fuel as [|fuel IH]; intros p h Hp Hwf;
    destruct (import_cycle_file base files p Hc Hp) as [doc [rel [rest [Hdoc [Hpaths Hnext]]]]].
  - unfold _load_macro_file.
    now rewrite (bindM_step _ _ _ _ _ (parse_step parse_xml p false h doc Hdoc)).
  - destruct (load_macros_of_file fuel p base doc h Hwf Hdoc) as [h1 [K [Hwf1 ->]]].
    rewrite Hpaths. cbn [load_imported_loop]. rewrite bindM_assoc.
    unfold bindM at 1. now rewrite (IH _ h1 Hnext Hwf1).
Qed.

(** What [load_with_references] is run on when it comes to
    [_load_macros], for a document with a container. *)
Lemma load_reaches_load_macros {py : Interpreter} (fuel : nat) (path : string) (doc me : _Element) :
  parse_xml path true = Some doc -> _macros_el doc = Some me ->
  exists h1 me' K,
    heap_wf h1 /\ lookup (trees h1) (eid me') = Some me' /\ erase me' = erase me /\
    run (load_with_references parse_xml fuel path)
    = bindM (_load_macros parse_xml fuel (Some (eid me')) (OsPath.dirname path)) K h1.
Proof.
  intros Hdoc Hme.
  pose proof (parsed_wf (Heap [] 0) doc empty_heap_wf) as Hwf1.
  pose proof (lookup_parsed (Heap [] 0) doc empty_heap_wf) as L.
  cbn [trees next_id app] in Hwf1, L.
  destruct (relabel_spec doc 0) as [_ [_ [Er Eid]]].
  destruct (find_child_some_erase "macros" doc (fst (relabel doc 0)) me)
    as [me' [Hme' Eme]]; [now rewrite Er|exact Hme|].
  exists (Heap [fst (relabel doc 0)] (0 + size doc)), me'. eexists.
  split; [exact Hwf1|]. split; [|split; [now rewrite Eme|]].
  - apply lookup_member; [apply Hwf1|]. cbn [trees]. apply in_forest_nodes.
    exists (fst (relabel doc 0)). split; [now left|].
    rewrite nodes_children. right. apply in_forest_nodes. exists me'.
    split; [|apply nodes_self]. unfold find_child in Hme'. now apply find_some in Hme'.
  - unfold run, load_with_references, raw_xml_tree.
    rewrite (bindM_step _ _ _ _ _ (parse_step parse_xml path true (Heap [] 0) doc Hdoc)).
    cbn [trees next_id app]. unfold _import_macros. rewrite !bindM_assoc.
    rewrite (bindM_step (deref 0) _ _ _ _
               (deref_step 0 (Heap [fst (relabel doc 0)] (0 + size doc)) _ L)).
    unfold _macros_el. rewrite Hme'. rewrite !bindM_assoc. reflexivity.
Qed.

Lemma load_reaches_imports {py : Interpreter} (fuel : nat) (path : string) (doc me : _Element) :
  parse_xml path true = Some doc -> _macros_el doc = Some me ->
  exists h1 K,
    heap_wf h1 /\
    run (load_with_references parse_xml (S fuel) path)
    = bindM (load_imported_loop parse_xml (_load_macros parse_xml fuel)
               (_imported_macro_paths_from_el (Some me)) (OsPath.dirname path) [] [])
            K h1.
Proof.
  intros Hdoc Hme.
  destruct (load_reaches_load_macros (S fuel) path doc me Hdoc Hme)
    as [h1 [me' [K [Hwf1 [L [E ->]]]]]].
  exists h1. eexists. split; [exact Hwf1|].
  cbn [_load_macros]. unfold _load_imported_macros. rewrite !bindM_assoc.
  rewrite (bindM_step (deref (eid me')) _ _ _ _ (deref_step _ _ _ L)).
  unfold ret at 1. unfold bindM at 1. rewrite (imported_paths_erase _ me E).
  reflexivity.
Qed.

(** X17: imports that go round in a circle are not noticed.  When the
    first import of the container of the document leads to a macro file
    of a set of files in which each one's first import is again a file of
    the set, [load_with_references] gives no result and raises none of
    the errors of the module: whatever the bound on the depth of the
    recursion, the bound is used up. *)
Theorem load_with_import_cycle {py : Interpreter} (fuel : nat) (path : string) (doc me : _Element)
    (rel : string) (rest : list (option string)) (files : list string) :
  parse_xml path true = Some doc -> _macros_el doc = Some me ->
  _imported_macro_paths_from_el (Some me) = Some rel :: rest ->
  import_cycle parse_xml (OsPath.dirname path) files = true ->
  In (OsPath.join (OsPath.dirname path) rel) files ->
  run (load_with_references parse_xml fuel path) = OutOfFuel.
Proof.
  intros Hdoc Hme Hpaths Hc Hfirst. destruct fuel as [|fuel].
  - destruct (load_reaches_load_macros 0 path doc me Hdoc Hme)
      as [h1 [me' [K [Hwf1 [L [E ->]]]]]]. reflexivity.
  - destruct (load_reaches_imports fuel path doc me Hdoc Hme) as [h1 [K [Hwf1 ->]]].
    rewrite Hpaths. cbn [load_imported_loop]. rewrite bindM_assoc.
    unfold bindM at 1.
    now rewrite (import_cycle_file_never_returns _ files fuel Hc _ h1 Hfirst Hwf1).
Qed.

(** X18: an import declaration without a text makes the load fail with
    [TypeError], when it is the first of the container: the path to join
    to the directory of the document is [None]. *)
Theorem load_with_empty_import {py : Interpreter} (fuel : nat) (path : string) (doc me : _Element)
    (rest : list (option string)) :
  parse_xml path true = Some doc -> _macros_el doc = Some me ->
  _imported_macro_paths_from_el (Some me) = None :: rest ->
  run (load_with_references parse_xml (S fuel) path) = Raise TypeError.
Proof.
  intros Hdoc Hme Hpaths.
  destruct (load_reaches_imports fuel path doc me Hdoc Hme) as [h1 [K [Hwf1 ->]]].
  now rewrite Hpaths.
Qed.

End FailingImports.

Lemma load_with_import_cycle_witness :
  run (load_with_references
         (fun p _ =>
            if String.eqb p "tool.xml"
            then Some (Element 0 "tool" [] None None
                         [Element 0 "macros" [] None None
                            [Element 0 "import" [] (Some "a.xml") None []]])
            else if String.eqb p "a.xml"
            then Some (Element 0 "macros" [] None None
                         [Element 0 "import" [] (Some "b.xml") None []])
            else if String.eqb p "b.xml"
            then Some (Element 0 "macros" [] None None
                         [Element 0 "import" [] (Some "a.xml") None []])
            else None)
         7 "tool.xml")
  = OutOfFuel.
Proof.
  apply (load_with_import_cycle _ 7 "tool.xml"
           (Element 0 "tool" [] None None
              [Element 0 "macros" [] None None
                 [Element 0 "import" [] (Some "a.xml") None []]])
           (Element 0 "macros" [] None None
              [Element 0 "import" [] (Some "a.xml") None []])
           "a.xml" [] ["a.xml"; "b.xml"]).
  - reflexivity.
  - reflexivity.
  - reflexivity.
  - reflexivity.
  - simpl. auto.
Defined.

Lemma load_with_empty_import_witness :
  run (load_with_references
         (fun p _ =>
            if String.eqb p "tool.xml"
            then Some (Element 0 "tool" [] None None
                         [Element 0 "macros" [] None None
                            [Element 0 "import" [] None None []]])
            else None)
         1 "tool.xml")
  = Raise TypeError.
Proof.
  apply (load_with_empty_import _ 0 "tool.xml"
           (Element 0 "tool" [] None None
              [Element 0 "macros" [] None None
                 [Element 0 "import" [] None None []]])
           (Element 0 "macros" [] None None [Element 0 "import" [] None None []])
           []).
  - reflexivity.
  - reflexivity.
  - reflexivity.
Defined.
(* ================================================================== *)
(** * A document whose root is a macro *)
(* ================================================================== *)

Section RootMacro.
Variable parse_xml : string -> bool -> option _Element.

(** X19: a document without a macro container whose root is itself
    tagged [macro], with a type other than [template], makes
    [load_with_references] raise [AttributeError]: the removal loop comes
    to the root, which has no parent to be removed from. *)
Theorem load_root_macro {py : Interpreter} (fuel : nat) (path : string) (doc : _Element) :
  parse_xml path true = Some doc ->
  _macros_el doc = None ->
  has_tag "macro" doc = true -> type_is "template" doc = false ->
  run (load_with_references parse_xml (S fuel) path) = Raise AttributeError.
Proof.
  intros Hparse Hnone Htag Htype.
  destruct (relabel_spec doc 0) as [Hn [Hids [Herase Heid]]].
  set (d := fst (relabel doc 0)) in *.
  set (h := Heap [d] (0 + size doc)).
  assert (Hwf : heap_wf h).
  { apply (fresh_tree_wf [] 0 doc). apply empty_heap_wf. }
  assert (Hlook : lookup (trees h) 0 = Some d).
  { simpl. rewrite <- Heid. apply lookup_single. }
  assert (Hderef : deref 0 h = Return (d, h)) by now apply deref_step.
  assert (Hd : _macros_el d = None).
  { unfold _macros_el in *. apply (find_child_none_erase "macros" doc d); auto. }
  assert (Himport : _import_macros parse_xml (S fuel) 0 path h = Return (None, h)).
  { unfold _import_macros. rewrite (bindM_step _ _ _ _ _ Hderef). now rewrite Hd. }
  assert (Htok : forall V (f : _Element -> V) k, _macros_of_type d k f = []).
  { intros V f k. unfold _macros_of_type. unfold _macros_el in Hd. now rewrite Hd. }
  assert (Hrm : remove_macros (map eid (xpath_all "macro" d)) h = Raise AttributeError).
  { unfold xpath_all. rewrite nodes_children. cbn [filter].
    assert (Ht : has_tag "macro" d = true).
    { unfold has_tag in *. now rewrite (erase_tag d doc Herase). }
    rewrite Ht. cbn [map]. unfold remove_macros. cbn [for_each].
    rewrite bindM_assoc. rewrite Heid, (bindM_step _ _ _ _ _ Hderef).
    rewrite (erase_type_is "template" d doc Herase), Htype.
    rewrite bindM_assoc. unfold getparent at 1. unfold bindM at 1.
    rewrite <- Heid.
    rewrite (root_has_no_parent h d Hwf); [reflexivity|]. now left. }
  unfold run, load_with_references, raw_xml_tree.
  rewrite (bindM_step _ _ _ _ _ (parse_step parse_xml path true (Heap [] 0) doc Hparse)).
  cbn [trees next_id app]. fold d. fold h.
  rewrite (bindM_step _ _ _ _ _ Himport).
  rewrite (bindM_step _ _ _ _ _ Hderef).
  rewrite Htok.
  rewrite (bindM_step (lift (snd (expand_nested_tokens []))) _ h [] h eq_refl).
  rewrite (bindM_step _ _ _ _ _ Hderef).
  rewrite Htok.
  rewrite (bindM_step (_expand_macros (S fuel) [0] [] []) _ h tt h eq_refl).
  rewrite (bindM_step _ _ _ _ _ Hderef).
  unfold bindM at 1. now rewrite Hrm.
Qed.

End RootMacro.

Lemma load_root_macro_witness :
  run (load_with_references
         (fun p _ =>
            if String.eqb p "m.xml"
            then Some (Element 0 "macro" [("name", "m")] None None
                         [Element 0 "a" [] None None []])
            else None)
         1 "m.xml")
  = Raise AttributeError.
Proof.
  apply (load_root_macro _ 0 "m.xml"
           (Element 0 "macro" [("name", "m")] None None [Element 0 "a" [] None None []]));
    reflexivity.
Defined.

(* ================================================================== *)
(** * One expansion *)
(* ================================================================== *)

Lemma expand_list_map_result (tokens : token_table) (l : list _Element) :
  (fix expand_list (l : list _Element) : result (list _Element) :=
     match l with
     | [] => Return []
     | c :: l' =>
         (c' <- _expand_tokens_for_el c tokens ;;
          l'' <- expand_list l' ;;
          Return (c' :: l''))%py
     end) l
  = map_result (fun c => _expand_tokens_for_el c tokens) l.
Proof.
  induction l as [|c l IH]; [reflexivity|].
  cbn [map_result]. now rewrite <- IH.
Qed.

(** The rewrite of tokens does not look at the identities. *)
Lemma expand_tokens_for_el_erase (tokens : token_table) (e : _Element) :
  _expand_tokens_for_el (erase e) tokens
  = (e' <- _expand_tokens_for_el e tokens ;; Return (erase e'))%py.
Proof.
  induction e as [i tg at_ tx tl cs IH] using element_rect'.
  cbn [erase _expand_tokens_for_el].
  match goal with |- bind ?m _ = _ => destruct m as [tx'|x| |] end;
    cbn [bind]; try reflexivity.
  destruct (expand_tokens_attrib at_ tokens) as [at'|x| |]; cbn [bind]; try reflexivity.
  destruct (is_empty tokens); [reflexivity|].
  rewrite !expand_list_map_result.
  assert (E : map_result (fun c => _expand_tokens_for_el c tokens) (map erase cs)
              = (l <- map_result (fun c => _expand_tokens_for_el c tokens) cs ;;
                 Return (map erase l))%py).
  { induction IH as [|c cs Hc _ IHcs]; [reflexivity|].
    cbn [map map_result]. rewrite Hc, IHcs.
    destruct (_expand_tokens_for_el c tokens) as [c'|x| |]; cbn [bind]; try reflexivity.
    destruct (map_result _ cs) as [l|x| |]; reflexivity. }
  rewrite E.
  destruct (map_result _ cs) as [l|x| |]; reflexivity.
Qed.

Lemma expand_tokens_erase (tokens : token_table) (l : list _Element) :
  _expand_tokens (map erase l) tokens
  = (l' <- _expand_tokens l tokens ;; Return (map erase l'))%py.
Proof.
  unfold _expand_tokens. destruct (is_empty tokens); [reflexivity|].
  induction l as [|c l IH]; [reflexivity|].
  cbn [map map_result]. rewrite expand_tokens_for_el_erase, IH.
  destruct (_expand_tokens_for_el c tokens) as [c'|x| |]; cbn [bind]; try reflexivity.
  destruct (map_result _ l) as [l'|x| |]; reflexivity.
Qed.

Lemma find_descendant_none_erase t (a b : _Element) :
  erase a = erase b -> find_descendant t a = None -> find_descendant t b = None.
Proof.
  intros E Ha. unfold find_descendant in *.
  destruct (find (has_tag t) (descendants b)) as [x|] eqn:F; [|reflexivity].
  exfalso. apply find_some in F. destruct F as [Hx Tx].
  unfold descendants in *.
  change (flat_map nodes (children b)) with (forest_nodes (children b)) in Hx.
  assert (Hm : In (erase x) (map erase (forest_nodes (children a)))).
  { rewrite (nodes_erase_forest (children a) (children b) (erase_children a b E)).
    now apply in_map. }
  apply in_map_iff in Hm. destruct Hm as [y [Ey Hy]].
  pose proof (find_none _ _ Ha y Hy) as Ty. unfold has_tag in *.
  rewrite (erase_tag y x Ey) in Ty. congruence.
Qed.

Lemma deepcopy_step (h : heap) (i : nat) (e : _Element) :
  lookup (trees h) i = Some e ->
  deepcopy i h
  = Return (next_id h,
            Heap (trees h ++ [fst (relabel e (next_id h))]) (next_id h + size e)).
Proof.
  intro L. destruct (relabel_spec e (next_id h)) as [Hn [_ [_ Heid]]].
  unfold deepcopy. rewrite L.
  destruct (relabel e (next_id h)) as [e' n]. cbn [fst snd] in *.
  now rewrite Heid, Hn.
Qed.

Lemma expand_macro_effect {py : Interpreter} (fuel : nat) (h : heap) (element : nat)
    (X ex mdel : _Element) (macros : macro_catalog) (tokens : token_table)
    (macro_name : string) (macro_def : XmlMacroDef.t) :
  heap_wf h ->
  In X (trees h) -> In ex (descendants X) ->
  get_attr ex "macro" = Some macro_name ->
  dict_get name_eqb macros (Some macro_name) = Some macro_def ->
  lookup (trees h) (XmlMacroDef.element macro_def) = Some mdel ->
  (forall c, In c (children (splice_yields (map erase (children ex)) (erase mdel))) ->
             find_descendant "expand" c = None) ->
  match XmlMacroDef.macro_tokens macro_def ex with
  | Return macro_tokens =>
      exists body copies h',
        _expand_tokens (children (splice_yields (map erase (children ex)) (erase mdel)))
          macro_tokens = Return body /\
        _expand_macro (_expand_macros (S (S fuel))) element (eid ex) macros tokens h
        = Return (tt, h') /\
        heap_wf h' /\
        In (splice (eid ex) copies X) (trees h') /\
        map erase copies = body /\
        (forall i, In i (forest_ids copies) -> next_id h <= i)
  | Raise e =>
      _expand_macro (_expand_macros (S (S fuel))) element (eid ex) macros tokens h
      = Raise e
  | OutOfFuel => True
  | Dangling => True
  end.
Proof.
  intros Hwf HX Hex Hattr Hget Lm Hflat.
  (* the placeholder and its parent *)
  destruct (descendant_has_parent X ex Hex) as [q [Hq Hchild]].
  assert (HexX : In ex (nodes X)).
  { rewrite nodes_children. right. exact Hex. }
  assert (Lex : lookup (trees h) (eid ex) = Some ex).
  { apply lookup_member; [apply Hwf|]. apply in_forest_nodes. now exists X. }
  (* the copy of the template *)
  destruct (relabel_spec mdel (next_id h)) as [Hn [Hids [Her Heid]]].
  pose proof (deepcopy_step h _ mdel Lm) as D.
  destruct (preserves_deepcopy _ _ _ _ Hwf D) as [Hwf1 _].
  set (md1 := fst (relabel mdel (next_id h))) in *.
  set (h1 := Heap (trees h ++ [md1]) (next_id h + size mdel)) in *.
  assert (Hold : forall i, In i (ids X) -> i < next_id h).
  { intros i Hi. destruct Hwf as [_ Hlt]. rewrite Forall_forall in Hlt. apply Hlt.
    apply in_forest_ids. now exists X. }
  assert (Hne : X <> md1).
  { intro E. specialize (Hold (eid X) (eid_in_ids X)). rewrite E in Hold. lia. }
  (* the yield markers *)
  destruct (yields_in_own_tree h1 md1 ex X Hwf1) as
    [h2 [md2 [R [Hwf2 [Hin2 [Eid2 [Hcontent [Hnd2 [Hnew2 HX2]]]]]]]]]; auto.
  { unfold h1. cbn [trees]. apply in_or_app. right. now left. }
  { unfold h1. cbn [trees]. apply in_or_app. now left. }
  rewrite Heid in R, Eid2. rewrite Her in Hcontent.
  assert (Hnew : forall i, In i (ids md2) -> next_id h <= i).
  { intros i Hi. destruct (Hnew2 i Hi) as [Ho|Hge].
    - rewrite Hids in Ho. apply in_seq in Ho. lia.
    - unfold h1 in Hge. cbn [next_id] in Hge. lia. }
  assert (L2 : lookup (trees h2) (next_id h) = Some md2).
  { rewrite <- Eid2. apply lookup_root; [apply Hwf2|exact Hin2]. }
  assert (Lex2 : lookup (trees h2) (eid ex) = Some ex).
  { apply lookup_member; [apply Hwf2|]. apply in_forest_nodes. now exists X. }
  (* nothing to expand below the children of the copy *)
  assert (Hrec : _expand_macros (S (S fuel)) (map eid (children md2)) macros tokens h2
                 = Return (tt, h2)).
  { rewrite expand_macros_unfold.
    destruct (is_empty macros && is_empty tokens); [reflexivity|].
    apply for_each_skip. intros i Hi. apply in_map_iff in Hi.
    destruct Hi as [c [<- Hc]].
    assert (Hc' : lookup (trees h2) (eid c) = Some c /\
                  find_descendant "expand" c = None); [split|].
    - apply lookup_member; [apply Hwf2|]. apply in_forest_nodes. exists md2.
      split; [exact Hin2|]. apply (child_nodes_incl md2 c Hc). apply nodes_self.
    - apply (find_descendant_none_erase "expand" (erase c) c).
      + clear. induction c as [i tg at_ tx tl cs IH] using element_rect'.
        cbn [erase]. f_equal. rewrite map_map.
        induction IH as [|c cs Hc _ IHcs]; [reflexivity|]. cbn [map]. now rewrite Hc, IHcs.
      + apply Hflat. rewrite <- Hcontent, children_erase. now apply in_map.
    - destruct Hc' as [Lc Fc].
      rewrite expand_while_unfold, (bindM_step _ _ _ _ _ (deref_step _ _ _ Lc)).
      now rewrite Fc. }
  assert (Hpre : _expand_macro (_expand_macros (S (S fuel))) element (eid ex) macros tokens h
                 = bindM (lift (XmlMacroDef.macro_tokens macro_def ex))
                     (fun macro_tokens =>
                        bindM (if is_empty macro_tokens then ret tt
                               else in_place (next_id h)
                                      (fun e => (cs <- _expand_tokens (children e) macro_tokens ;;
                                                 Return (set_children cs e))%py))
                          (fun _ =>
                             bindM (deref (next_id h))
                               (fun copy => _xml_replace (eid ex) (map eid (children copy)))))
                     h2).
  { unfold _expand_macro.
    rewrite (bindM_step _ _ _ _ _ (deref_step _ _ _ Lex)). rewrite Hattr, Hget.
    rewrite (bindM_step _ _ _ _ _ D).
    rewrite (bindM_step _ _ _ _ _ R).
    rewrite (bindM_step _ _ _ _ _ (deref_step _ _ _ L2)).
    rewrite (bindM_step _ _ _ _ _ Hrec).
    rewrite (bindM_step _ _ _ _ _ (deref_step _ _ _ Lex2)).
    reflexivity. }
  rewrite Hpre. clear Hpre.
  pose proof (macro_tokens_loop_outcome ex (XmlMacroDef.parameters macro_def) []
                eq_refl) as Hout.
  fold (XmlMacroDef.macro_tokens macro_def ex) in Hout.
  destruct (XmlMacroDef.macro_tokens macro_def ex) as [mt|e| |]; auto.
  destruct Hout as [_ [Hkeys _]].
  destruct (expand_tokens_returns mt (children md2) Hkeys) as [cs' Hcs].
  set (md3 := set_children cs' md2).
  assert (Hids3 : ids md3 = ids md2).
  { unfold md3. rewrite ids_set_children, ids_unfold. f_equal.
    now apply expand_tokens_ids with mt. }
  assert (HoutX : forall i, In i (ids md2) -> ~ In i (ids X)).
  { intros i Hi HiX. specialize (Hold i HiX). specialize (Hnew i Hi). lia. }
  (* the rewrite of the copy *)
  assert (Hrw : exists h3,
             (if is_empty mt then ret tt
              else in_place (next_id h)
                     (fun e => (cs <- _expand_tokens (children e) mt ;;
                                Return (set_children cs e))%py)) h2 = Return (tt, h3) /\
             heap_wf h3 /\ In md3 (trees h3) /\ In X (trees h3) /\
             next_id h <= next_id h3).
  { assert (Hn2 : next_id h <= next_id h2).
    { destruct (preserves_expand_yield_statements _ _ _ _ _ Hwf1 R) as [_ Hle].
      unfold h1 in Hle. cbn [next_id] in Hle. lia. }
    destruct (is_empty mt) eqn:Em.
    - exists h2. split; [reflexivity|]. split; [exact Hwf2|]. split; [|now split].
      destruct mt; [|discriminate]. unfold _expand_tokens in Hcs. cbn in Hcs.
      inversion Hcs. subst cs'. unfold md3. now rewrite set_children_same.
    - assert (Hip : in_place (next_id h)
                      (fun e => (cs <- _expand_tokens (children e) mt ;;
                                 Return (set_children cs e))%py) h2
                    = Return (tt, Heap (forest_modify (next_id h) (fun _ => md3) (trees h2))
                                       (next_id h2))).
      { unfold in_place. rewrite (bindM_step _ _ _ _ _ (deref_step _ _ _ L2)).
        rewrite Hcs. reflexivity. }
      eexists. split; [exact Hip|].
      split; [exact (proj1 (preserves_expand_tokens_children _ _ _ _ _ Hwf2 Hip))|].
      cbn [trees next_id]. split; [|split; [|exact Hn2]].
      + pose proof (member_modify (next_id h) (fun _ => md3) (trees h2) md2 Hin2) as Hm.
        rewrite <- Eid2 in Hm at 1. now rewrite modify_self in Hm.
      + apply member_modify_notin; [exact HX2|]. apply HoutX. rewrite <- Eid2.
        apply eid_in_ids. }
  destruct Hrw as [h3 [Rrw [Hwf3 [Hin3 [HX3 Hn3]]]]].
  assert (L3 : lookup (trees h3) (next_id h) = Some md3).
  { rewrite <- Eid2. change (eid md2) with (eid md3).
    apply lookup_root; [apply Hwf3|exact Hin3]. }
  (* the replacement of the placeholder *)
  assert (Hq3 : In q (forest_nodes (trees h3))).
  { apply in_forest_nodes. now exists X. }
  destruct (parent_of_exists (trees h3) (eid ex) q Hq3 Hchild) as [pn Hpn].
  destruct (parent_of_some _ _ _ Hpn) as [Hpn_in Hpn_child].
  assert (Hy3 : ~ In (eid ex) (ids md3)).
  { rewrite Hids3. intro Hi. apply (HoutX _ Hi).
    apply (subtree_ids_incl X ex HexX). apply eid_in_ids. }
  destruct (xml_replace_effect h3 (eid ex) pn md3 (children md3) Hwf3 Hpn Hin3)
    as [yn [Lyn [Hyn Rrep]]].
  { apply (parent_outside (trees h3) md3 pn (eid ex)); auto. apply Hwf3. }
  { intros t Ht. apply (child_nodes_incl md3 t Ht). apply nodes_self. }
  exists (map erase cs'), (fst (relabel_forest (children md3) (next_id h3))).
  eexists. split.
  { rewrite <- Hcontent, children_erase, expand_tokens_erase, Hcs. reflexivity. }
  split.
  { rewrite (bindM_step (lift (Return mt)) _ h2 mt h2 eq_refl). cbv beta.
    rewrite (bindM_step _ _ _ _ _ Rrw).
    rewrite (bindM_step _ _ _ _ _ (deref_step _ _ _ L3)). exact Rrep. }
  split.
  { exact (proj1 (preserves_xml_replace _ _ _ _ _ Hwf3 Rrep)). }
  split.
  { cbn [trees]. apply in_or_app. left. apply member_splice; [exact HX3|].
    apply (child_not_self X q (eid ex)); auto.
    apply (NoDup_member (trees h)); [apply Hwf|exact HX]. }
  split.
  { rewrite relabel_forest_erase. unfold md3. now rewrite children_set_children. }
  intros i Hi. apply relabel_forest_new in Hi. lia.
Qed.

(** X20: one expansion.  For a placeholder [ex] below the root of a
    tree [X], with the name of a macro of the catalog, when the template
    of the macro, with its yield markers replaced by the children of the
    placeholder, has no further placeholder below its children:
    [_expand_macro] raises what [macro_tokens] raises, when it raises (a
    required parameter that the placeholder lacks, or a parameter name
    that lxml refuses); otherwise it returns, and [ex] gives its place
    in [X] to new elements whose content is the content of the children
    of the template, yield markers replaced, rewritten with the table of
    the parameters; the rest of [X] is as it was. *)
Theorem expand_macro_step {py : Interpreter} (fuel : nat) (h : heap) (element : nat)
    (X ex mdel : _Element) (macros : macro_catalog) (tokens : token_table)
    (macro_name : string) (macro_def : XmlMacroDef.t) :
  heap_wf h ->
  In X (trees h) -> In ex (descendants X) ->
  get_attr ex "macro" = Some macro_name ->
  dict_get name_eqb macros (Some macro_name) = Some macro_def ->
  lookup (trees h) (XmlMacroDef.element macro_def) = Some mdel ->
  (forall c, In c (children (splice_yields (map erase (children ex)) (erase mdel))) ->
             find_descendant "expand" c = None) ->
  match XmlMacroDef.macro_tokens macro_def ex with
  | Return macro_tokens =>
      exists body copies h',
        _expand_tokens (children (splice_yields (map erase (children ex)) (erase mdel)))
          macro_tokens = Return body /\
        _expand_macro (_expand_macros (S (S fuel))) element (eid ex) macros tokens h
        = Return (tt, h') /\
        heap_wf h' /\
        lookup (trees h') (eid X) = Some (splice (eid ex) copies X) /\
        map erase copies = body /\
        (forall i, In i (forest_ids copies) -> next_id h <= i)
  | Raise e =>
      _expand_macro (_expand_macros (S (S fuel))) element (eid ex) macros tokens h
      = Raise e
  | OutOfFuel => True
  | Dangling => True
  end.
Proof.
  intros Hwf HX Hex Hattr Hget Lm Hflat.
  pose proof (expand_macro_effect fuel h element X ex mdel macros tokens macro_name
                macro_def Hwf HX Hex Hattr Hget Lm Hflat) as Hstep.
  destruct (XmlMacroDef.macro_tokens macro_def ex) as [mt|e| |]; auto.
  destruct Hstep as [body [copies [h' [Hb [R [Hwf' [Hin' [Hc Hnew]]]]]]]].
  exists body, copies, h'. split; [exact Hb|]. split; [exact R|].
  split; [exact Hwf'|]. split; [|now split].
  rewrite <- (eid_splice (eid ex) copies X).
  apply lookup_root; [apply Hwf'|exact Hin'].
Qed.

Lemma expand_macro_step_witness :
  exists body copies h',
    _expand_tokens
      (children
         (splice_yields
            (map erase (children (Element 5 "expand" [("macro", "m"); ("foo", "v")] None None
                                    [Element 6 "c" [] None None []])))
            (erase (Element 2 "macro" [("name", "m"); ("type", "xml"); ("token_foo", "d")]
                      None None
                      [Element 3 "a" [("x", "@FOO@")] None None [];
                       Element 4 "yield" [] None None []]))))
      [(Some "@FOO@", "v")] = Return body /\
    _expand_macro (_expand_macros 2) 0
      (eid (Element 5 "expand" [("macro", "m"); ("foo", "v")] None None
              [Element 6 "c" [] None None []]))
      [(Some "m", XmlMacroDef.Build_t 2 [("foo", ("@", Default "d"))])] []
      (Heap [Element 0 "tool" [] None None
               [Element 1 "macros" [] None None
                  [Element 2 "macro" [("name", "m"); ("type", "xml"); ("token_foo", "d")]
                     None None
                     [Element 3 "a" [("x", "@FOO@")] None None [];
                      Element 4 "yield" [] None None []]];
                Element 5 "expand" [("macro", "m"); ("foo", "v")] None None
                  [Element 6 "c" [] None None []]]] 7)
    = Return (tt, h') /\
    heap_wf h' /\
    lookup (trees h') 0
    = Some (splice
          (eid (Element 5 "expand" [("macro", "m"); ("foo", "v")] None None
                  [Element 6 "c" [] None None []]))
          copies
          (Element 0 "tool" [] None None
             [Element 1 "macros" [] None None
                [Element 2 "macro" [("name", "m"); ("type", "xml"); ("token_foo", "d")]
                   None None
                   [Element 3 "a" [("x", "@FOO@")] None None [];
                    Element 4 "yield" [] None None []]];
              Element 5 "expand" [("macro", "m"); ("foo", "v")] None None
                [Element 6 "c" [] None None []]])) /\
    map erase copies = body /\
    (forall i, In i (forest_ids copies) -> 7 <= i).
Proof.
  refine (expand_macro_step 0
           (Heap [Element 0 "tool" [] None None
                    [Element 1 "macros" [] None None
                       [Element 2 "macro" [("name", "m"); ("type", "xml"); ("token_foo", "d")]
                          None None
                          [Element 3 "a" [("x", "@FOO@")] None None [];
                           Element 4 "yield" [] None None []]];
                     Element 5 "expand" [("macro", "m"); ("foo", "v")] None None
                       [Element 6 "c" [] None None []]]] 7)
           0
           (Element 0 "tool" [] None None
              [Element 1 "macros" [] None None
                 [Element 2 "macro" [("name", "m"); ("type", "xml"); ("token_foo", "d")]
                    None None
                    [Element 3 "a" [("x", "@FOO@")] None None [];
                     Element 4 "yield" [] None None []]];
               Element 5 "expand" [("macro", "m"); ("foo", "v")] None None
                 [Element 6 "c" [] None None []]])
           (Element 5 "expand" [("macro", "m"); ("foo", "v")] None None
              [Element 6 "c" [] None None []])
           (Element 2 "macro" [("name", "m"); ("type", "xml"); ("token_foo", "d")]
              None None
              [Element 3 "a" [("x", "@FOO@")] None None [];
               Element 4 "yield" [] None None []])
           [(Some "m", XmlMacroDef.Build_t 2 [("foo", ("@", Default "d"))])] []
           "m" (XmlMacroDef.Build_t 2 [("foo", ("@", Default "d"))])
           _ _ _ _ _ _ _).
  - split; simpl.
    + repeat constructor; simpl; intuition discriminate.
    + repeat constructor.
  - simpl. auto.
  - simpl. auto 10.
  - reflexivity.
  - reflexivity.
  - reflexivity.
  - intros c [<-|[<-|[]]]; reflexivity.
Defined.

Example expand_macro_run :
  _expand_macro (_expand_macros 2) 0 5
    [(Some "m", XmlMacroDef.Build_t 2 [("foo", ("@", Default "d"))])] []
    (Heap [Element 0 "tool" [] None None
             [Element 1 "macros" [] None None
                [Element 2 "macro" [("name", "m"); ("type", "xml"); ("token_foo", "d")]
                   None None
                   [Element 3 "a" [("x", "@FOO@")] None None [];
                    Element 4 "yield" [] None None []]];
              Element 5 "expand" [("macro", "m"); ("foo", "v")] None None
                [Element 6 "c" [] None None []]]] 7)
  = Return (tt,
      Heap [Element 0 "tool" [] None None
              [Element 1 "macros" [] None None
                 [Element 2 "macro" [("name", "m"); ("type", "xml"); ("token_foo", "d")]
                    None None
                    [Element 3 "a" [("x", "@FOO@")] None None [];
                     Element 4 "yield" [] None None []]];
               Element 11 "a" [("x", "v")] None None [];
               Element 12 "c" [] None None []];
            Element 7 "macro" [("name", "m"); ("type", "xml"); ("token_foo", "d")]
              None None
              [Element 8 "a" [("x", "v")] None None [];
               Element 10 "c" [] None None []];
            Element 9 "yield" [] None None [];
            Element 5 "expand" [("macro", "m"); ("foo", "v")] None None
              [Element 6 "c" [] None None []]] 13).
Proof. reflexivity. Qed.

(* ================================================================== *)
(** * The expansion of a macro with a required parameter *)
(* ================================================================== *)

(** C3, amended: a macro whose only parameter declaration is
    [tokens="FOO"] is in the catalog, and a placeholder for it stands
    below the root of a tree; the template, with its yield markers
    replaced by the children of the placeholder, has no further
    placeholder below its children, so that the nested expansion, which
    comes first, has nothing to expand.  If the placeholder has no
    attribute named [FOO], as declared, [_expand_macro] raises the error
    that names [FOO].  If it has [FOO="bar"], [_expand_macro] returns and
    the placeholder gives its place to new elements: the children of the
    template, yield markers replaced, with [@FOO@] replaced by [bar] in
    every text and attribute value. *)
Theorem required_parameter_FOO {py : Interpreter} (fuel : nat) (h : heap) (element : nat)
    (X ex mdel : _Element) (macros : macro_catalog) (tokens : token_table)
    (macro_name : string) :
  heap_wf h ->
  In X (trees h) -> In ex (descendants X) ->
  get_attr ex "macro" = Some macro_name ->
  dict_get name_eqb macros (Some macro_name) = Some (XmlMacroDef.__init__ mdel) ->
  lookup (trees h) (eid mdel) = Some mdel ->
  dict_wf (attrib mdel) ->
  get_attr mdel "tokens" = Some "FOO" ->
  (forall k v, In (k, v) (attrib mdel) -> PyStr.startswith "token_" k = false) ->
  (forall c, In c (children (splice_yields (map erase (children ex)) (erase mdel))) ->
             find_descendant "expand" c = None) ->
  (get_attr ex "FOO" = None ->
     _expand_macro (_expand_macros (S (S fuel))) element (eid ex) macros tokens h
     = Raise (ValueError "Failed to expand macro - missing required parameter [FOO].")) /\
  (forall bar, get_attr ex "FOO" = Some bar ->
     exists copies h',
       _expand_macro (_expand_macros (S (S fuel))) element (eid ex) macros tokens h
       = Return (tt, h') /\
       heap_wf h' /\
       lookup (trees h') (eid X) = Some (splice (eid ex) copies X) /\
       map erase copies
       = map (replace_everywhere "@FOO@" bar)
           (children (splice_yields (map erase (children ex)) (erase mdel)))).
Proof.
  intros Hwf HX Hex Hattr Hget Lm Hdwf Htok Hno Hflat.
  pose proof (expand_macro_effect fuel h element X ex mdel macros tokens macro_name
                (XmlMacroDef.__init__ mdel) Hwf HX Hex Hattr Hget Lm Hflat) as Hstep.
  rewrite (required_FOO_table mdel ex Hdwf Htok Hno) in Hstep.
  split.
  - intro Hnone. rewrite Hnone in Hstep. exact Hstep.
  - intros bar Hbar. rewrite Hbar in Hstep.
    destruct Hstep as [body [copies [h' [Hb [R [Hwf' [Hin' [Hc _]]]]]]]].
    exists copies, h'. split; [exact R|]. split; [exact Hwf'|]. split.
    + rewrite <- (eid_splice (eid ex) copies X).
      apply lookup_root; [apply Hwf'|exact Hin'].
    + rewrite Hc.
      rewrite (@expand_tokens_single "@" "FOO@" bar
                 (children (splice_yields (map erase (children ex)) (erase mdel)))) in Hb.
      now inversion Hb.
Qed.

Lemma required_parameter_FOO_witness :
  exists copies h',
    _expand_macro (_expand_macros 2) 0
      (eid (Element 5 "expand" [("macro", "m"); ("FOO", "bar")] None None []))
      [(Some "m",
        XmlMacroDef.__init__
          (Element 2 "macro" [("name", "m"); ("type", "xml"); ("tokens", "FOO")]
             None None
             [Element 3 "a" [("x", "@FOO@")] (Some "say @FOO@") None
                [Element 4 "b" [] (Some "@FOO@ and @FOO@") None []]]))] []
      (Heap [Element 0 "tool" [] None None
               [Element 1 "macros" [] None None
                  [Element 2 "macro" [("name", "m"); ("type", "xml"); ("tokens", "FOO")]
                     None None
                     [Element 3 "a" [("x", "@FOO@")] (Some "say @FOO@") None
                        [Element 4 "b" [] (Some "@FOO@ and @FOO@") None []]]];
                Element 5 "expand" [("macro", "m"); ("FOO", "bar")] None None []]] 6)
    = Return (tt, h') /\
    heap_wf h' /\
    lookup (trees h')
      (eid (Element 0 "tool" [] None None
              [Element 1 "macros" [] None None
                 [Element 2 "macro" [("name", "m"); ("type", "xml"); ("tokens", "FOO")]
                    None None
                    [Element 3 "a" [("x", "@FOO@")] (Some "say @FOO@") None
                       [Element 4 "b" [] (Some "@FOO@ and @FOO@") None []]]];
               Element 5 "expand" [("macro", "m"); ("FOO", "bar")] None None []]))
    = Some (splice
              (eid (Element 5 "expand" [("macro", "m"); ("FOO", "bar")] None None []))
              copies
              (Element 0 "tool" [] None None
                 [Element 1 "macros" [] None None
                    [Element 2 "macro" [("name", "m"); ("type", "xml"); ("tokens", "FOO")]
                       None None
                       [Element 3 "a" [("x", "@FOO@")] (Some "say @FOO@") None
                          [Element 4 "b" [] (Some "@FOO@ and @FOO@") None []]]];
                  Element 5 "expand" [("macro", "m"); ("FOO", "bar")] None None []])) /\
    map erase copies
    = map (replace_everywhere "@FOO@" "bar")
        (children
           (splice_yields
              (map erase
                 (children (Element 5 "expand" [("macro", "m"); ("FOO", "bar")]
                              None None [])))
              (erase
                 (Element 2 "macro" [("name", "m"); ("type", "xml"); ("tokens", "FOO")]
                    None None
                    [Element 3 "a" [("x", "@FOO@")] (Some "say @FOO@") None
                       [Element 4 "b" [] (Some "@FOO@ and @FOO@") None []]])))).
Proof.
  refine (proj2 (required_parameter_FOO 0
           (Heap [Element 0 "tool" [] None None
                    [Element 1 "macros" [] None None
                       [Element 2 "macro" [("name", "m"); ("type", "xml"); ("tokens", "FOO")]
                          None None
                          [Element 3 "a" [("x", "@FOO@")] (Some "say @FOO@") None
                             [Element 4 "b" [] (Some "@FOO@ and @FOO@") None []]]];
                     Element 5 "expand" [("macro", "m"); ("FOO", "bar")] None None []]] 6)
           0
           (Element 0 "tool" [] None None
              [Element 1 "macros" [] None None
                 [Element 2 "macro" [("name", "m"); ("type", "xml"); ("tokens", "FOO")]
                    None None
                    [Element 3 "a" [("x", "@FOO@")] (Some "say @FOO@") None
                       [Element 4 "b" [] (Some "@FOO@ and @FOO@") None []]]];
               Element 5 "expand" [("macro", "m"); ("FOO", "bar")] None None []])
           (Element 5 "expand" [("macro", "m"); ("FOO", "bar")] None None [])
           (Element 2 "macro" [("name", "m"); ("type", "xml"); ("tokens", "FOO")]
              None None
              [Element 3 "a" [("x", "@FOO@")] (Some "say @FOO@") None
                 [Element 4 "b" [] (Some "@FOO@ and @FOO@") None []]])
           [(Some "m",
             XmlMacroDef.__init__
               (Element 2 "macro" [("name", "m"); ("type", "xml"); ("tokens", "FOO")]
                  None None
                  [Element 3 "a" [("x", "@FOO@")] (Some "say @FOO@") None
                     [Element 4 "b" [] (Some "@FOO@ and @FOO@") None []]]))] []
           "m" _ _ _ _ _ _ _ _ _ _) "bar" _).
  - split; simpl.
    + repeat constructor; simpl; intuition discriminate.
    + repeat constructor.
  - simpl. auto.
  - simpl. auto 10.
  - reflexivity.
  - reflexivity.
  - reflexivity.
  - repeat constructor; simpl; intuition discriminate.
  - reflexivity.
  - intros k v [E|[E|[E|[]]]]; inversion E; reflexivity.
  - intros c [<-|[]]; reflexivity.
  - reflexivity.
Defined.

(** The same document with the attribute written [foo]: the expansion
    raises. *)
Example required_parameter_run :
  _expand_macro (_expand_macros 2) 0 5
    [(Some "m",
      XmlMacroDef.__init__
        (Element 2 "macro" [("name", "m"); ("type", "xml"); ("tokens", "FOO")]
           None None
           [Element 3 "a" [("x", "@FOO@")] (Some "say @FOO@") None
              [Element 4 "b" [] (Some "@FOO@ and @FOO@") None []]]))] []
    (Heap [Element 0 "tool" [] None None
             [Element 1 "macros" [] None None
                [Element 2 "macro" [("name", "m"); ("type", "xml"); ("tokens", "FOO")]
                   None None
                   [Element 3 "a" [("x", "@FOO@")] (Some "say @FOO@") None
                      [Element 4 "b" [] (Some "@FOO@ and @FOO@") None []]]];
              Element 5 "expand" [("macro", "m"); ("foo", "bar")] None None []]] 6)
  = Raise (ValueError "Failed to expand macro - missing required parameter [FOO].").
Proof. reflexivity. Qed.
(* ================================================================== *)
(** * The expansion of a document with one placeholder *)
(* ================================================================== *)

Lemma forest_nodes_erase (F : list _Element) :
  forest_nodes (map erase F) = map erase (forest_nodes F).
Proof.
  induction F as [|t F IHc IHF] using forest_ind'; [reflexivity|].
  cbn [map]. rewrite !forest_nodes_cons, map_app, IHF. f_equal.
  rewrite (nodes_children (erase t)), children_erase, IHc.
  rewrite (nodes_children t). reflexivity.
Qed.

Lemma tags_erase (F : list _Element) :
  map tag (forest_nodes (map erase F)) = map tag (forest_nodes F).
Proof.
  rewrite forest_nodes_erase, map_map. apply map_ext. intro e. apply tag_erase.
Qed.

Lemma expand_tokens_for_el_tags (tokens : token_table) (e e' : _Element) :
  _expand_tokens_for_el e tokens = Return e' ->
  map tag (nodes e') = map tag (nodes e).
Proof.
  revert e'. induction e as [i tg at_ tx tl cs IH] using element_rect'.
  intros e' H. cbn [_expand_tokens_for_el] in H.
  apply bind_inv in H. destruct H as [tx' [_ H]].
  apply bind_inv in H. destruct H as [at' [_ H]].
  apply bind_inv in H. destruct H as [cs' [Hcs H]].
  inversion H. subst e'. clear H. rewrite !nodes_unfold. cbn [map tag]. f_equal.
  destruct (is_empty tokens); [now inversion Hcs|].
  revert cs' Hcs. induction IH as [|c cs Hc _ IHcs]; intros cs' Hcs.
  - now inversion Hcs.
  - apply bind_inv in Hcs. destruct Hcs as [c' [Hc' Hcs]].
    apply bind_inv in Hcs. destruct Hcs as [l'' [Hl Hcs]].
    inversion Hcs. subst cs'. rewrite !forest_nodes_cons, !map_app.
    now rewrite (Hc _ Hc'), (IHcs _ Hl).
Qed.

Lemma expand_tokens_tags (tokens : token_table) (l l' : list _Element) :
  _expand_tokens l tokens = Return l' ->
  map tag (forest_nodes l') = map tag (forest_nodes l).
Proof.
  unfold _expand_tokens. destruct (is_empty tokens); [now inversion 1|].
  revert l'. induction l as [|e l IH]; intros l' H.
  - now inversion H.
  - cbn [map_result] in H.
    apply bind_inv in H. destruct H as [e' [He H]].
    apply bind_inv in H. destruct H as [l'' [Hl H]].
    inversion H. subst l'. rewrite !forest_nodes_cons, !map_app.
    now rewrite (expand_tokens_for_el_tags _ _ _ He), (IH _ Hl).
Qed.

(** The tags of a tree after a splice are tags of the spliced elements
    or of the tree without the element that gave its place. *)
Lemma splice_list_tags y L (F : list _Element) :
  forall n, In n (forest_nodes (splice_list y L F)) ->
    In (tag n) (map tag (forest_nodes L)) \/
    In (tag n) (map tag (forest_nodes (prune_list y F))).
Proof.
  induction F as [|t F IHc IHF] using forest_ind'; intros n Hn; [destruct Hn|].
  rewrite splice_list_cons in Hn. rewrite prune_list_cons.
  destruct (eid t =? y).
  - rewrite forest_nodes_app in Hn. apply in_app_or in Hn. destruct Hn as [Hn|Hn].
    + left. now apply in_map.
    + now apply IHF.
  - rewrite forest_nodes_cons in Hn. rewrite forest_nodes_cons, map_app.
    apply in_app_or in Hn. destruct Hn as [Hn|Hn].
    + rewrite splice_unfold, nodes_set_children in Hn.
      rewrite (prune_unfold y t), nodes_set_children.
      destruct Hn as [<-|Hn].
      * right. apply in_or_app. left. now left.
      * destruct (IHc n Hn) as [H|H]; [now left|].
        right. apply in_or_app. left. cbn [map]. now right.
    + destruct (IHF n Hn) as [H|H]; [now left|].
      right. apply in_or_app. now right.
Qed.

Lemma find_descendant_none_tags t (e : _Element) :
  find_descendant t e = None <-> ~ In t (map tag (forest_nodes (children e))).
Proof.
  unfold find_descendant, descendants.
  change (flat_map nodes (children e)) with (forest_nodes (children e)).
  split.
  - intros H Hin. apply in_map_iff in Hin. destruct Hin as [n [Ht Hn]].
    pose proof (find_none _ _ H n Hn) as F. unfold has_tag in F.
    rewrite Ht, String.eqb_refl in F. discriminate.
  - intro H. destruct (find (has_tag t) (forest_nodes (children e))) as [n|] eqn:F;
      [|reflexivity].
    exfalso. apply find_some in F. destruct F as [Hn Ht]. apply H.
    unfold has_tag in Ht. apply String.eqb_eq in Ht. rewrite <- Ht. now apply in_map.
Qed.

(** X21: the expansion of a document with one placeholder.  When the
    first [expand] element [ex] below the root [X] names a macro of the
    catalog, the template of the macro with its yield markers replaced
    has no [expand] element, and [X] has none outside [ex]:
    [_expand_macros] raises what [macro_tokens] raises, when it raises (a
    required parameter that the placeholder lacks, or a parameter name
    that lxml refuses); otherwise it returns after one expansion, [ex]
    has given its place in [X] to new elements whose content is that of
    the rewritten children of the template, and no [expand] element is
    left below the root. *)
Theorem expand_macros_single_placeholder {py : Interpreter} (fuel : nat) (h : heap)
    (X ex mdel : _Element) (macros : macro_catalog)
    (tokens : token_table) (macro_name : string) (macro_def : XmlMacroDef.t) :
  heap_wf h ->
  In X (trees h) ->
  find_descendant "expand" X = Some ex ->
  find_descendant "expand" (prune (eid ex) X) = None ->
  get_attr ex "macro" = Some macro_name ->
  dict_get name_eqb macros (Some macro_name) = Some macro_def ->
  lookup (trees h) (XmlMacroDef.element macro_def) = Some mdel ->
  find_descendant "expand" (splice_yields (map erase (children ex)) (erase mdel)) = None ->
  match XmlMacroDef.macro_tokens macro_def ex with
  | Return macro_tokens =>
      exists body copies h',
        _expand_tokens (children (splice_yields (map erase (children ex)) (erase mdel)))
          macro_tokens = Return body /\
        _expand_macros (S (S (S fuel))) [eid X] macros tokens h = Return (tt, h') /\
        heap_wf h' /\
        lookup (trees h') (eid X) = Some (splice (eid ex) copies X) /\
        map erase copies = body /\
        find_descendant "expand" (splice (eid ex) copies X) = None
  | Raise e =>
      _expand_macros (S (S (S fuel))) [eid X] macros tokens h = Raise e
  | OutOfFuel => True
  | Dangling => True
  end.
Proof.
  intros Hwf HX Hfirst Hother Hattr Hget Lm Hbody.
  assert (Hex : In ex (descendants X)).
  { unfold find_descendant in Hfirst. now apply find_some in Hfirst. }
  assert (LX : lookup (trees h) (eid X) = Some X).
  { apply lookup_root; [apply Hwf|exact HX]. }
  assert (Hne : is_empty macros && is_empty tokens = false).
  { destruct macros; [discriminate|reflexivity]. }
  assert (Hflat : forall c,
             In c (children (splice_yields (map erase (children ex)) (erase mdel))) ->
             find_descendant "expand" c = None).
  { intros c Hc. apply find_descendant_none_tags. intro Hin.
    apply (proj1 (find_descendant_none_tags _ _) Hbody).
    apply in_map_iff in Hin. destruct Hin as [n [Ht Hn]].
    apply in_map_iff. exists n. split; [exact Ht|].
    apply in_forest_nodes. exists c. split; [exact Hc|].
    apply in_forest_nodes in Hn. destruct Hn as [c' [Hc' Hn]].
    apply (child_nodes_incl c c' Hc' n Hn). }
  pose proof (expand_macro_effect fuel h (eid X) X ex mdel macros tokens macro_name
                macro_def Hwf HX Hex Hattr Hget Lm Hflat) as Hstep.
  destruct (XmlMacroDef.macro_tokens macro_def ex) as [mt|e| |]; auto.
  - destruct Hstep as [body [copies [h' [Hb [R [Hwf' [Hin' [Hc Hnew]]]]]]]].
    assert (Hclean : find_descendant "expand" (splice (eid ex) copies X) = None).
    { apply find_descendant_none_tags. rewrite splice_unfold, children_set_children.
      intro Hin. apply in_map_iff in Hin. destruct Hin as [n [Ht Hn]].
      destruct (splice_list_tags _ _ _ n Hn) as [H|H]; rewrite Ht in H.
      - apply (proj1 (find_descendant_none_tags _ _) Hbody).
        rewrite <- (expand_tokens_tags _ _ _ Hb), <- Hc, tags_erase. exact H.
      - apply (proj1 (find_descendant_none_tags _ _) Hother).
        now rewrite (prune_unfold (eid ex) X), children_set_children. }
    assert (LX' : lookup (trees h') (eid X) = Some (splice (eid ex) copies X)).
    { rewrite <- (eid_splice (eid ex) copies X).
      apply lookup_root; [apply Hwf'|exact Hin']. }
    exists body, copies, h'.
    split; [exact Hb|]. split; [|split; [exact Hwf'|split; [exact LX'|now split]]].
    rewrite expand_macros_unfold, Hne. cbn [for_each].
    rewrite expand_while_unfold, bindM_assoc.
    rewrite (bindM_step _ _ _ _ _ (deref_step _ _ _ LX)). cbv beta. rewrite Hfirst.
    rewrite !bindM_assoc, (bindM_step _ _ _ _ _ R). cbv beta.
    rewrite expand_while_unfold, bindM_assoc.
    rewrite (bindM_step _ _ _ _ _ (deref_step _ _ _ LX')). cbv beta. rewrite Hclean.
    reflexivity.
  - now apply expand_macros_first_round with (e := X) (ex := ex).
Qed.

Lemma expand_macros_single_placeholder_witness :
  exists body copies h',
    _expand_tokens
      (children
         (splice_yields
            (map erase (children (Element 5 "expand" [("macro", "m"); ("foo", "v")] None None
                                    [Element 6 "c" [] None None []])))
            (erase (Element 2 "macro" [("name", "m"); ("type", "xml"); ("token_foo", "d")]
                      None None
                      [Element 3 "a" [("x", "@FOO@")] None None [];
                       Element 4 "yield" [] None None []]))))
      [(Some "@FOO@", "v")] = Return body /\
    _expand_macros 3
      [eid (Element 0 "tool" [] None None
              [Element 1 "macros" [] None None
                 [Element 2 "macro" [("name", "m"); ("type", "xml"); ("token_foo", "d")]
                    None None
                    [Element 3 "a" [("x", "@FOO@")] None None [];
                     Element 4 "yield" [] None None []]];
               Element 5 "expand" [("macro", "m"); ("foo", "v")] None None
                 [Element 6 "c" [] None None []]])]
      [(Some "m", XmlMacroDef.Build_t 2 [("foo", ("@", Default "d"))])] []
      (Heap [Element 0 "tool" [] None None
               [Element 1 "macros" [] None None
                  [Element 2 "macro" [("name", "m"); ("type", "xml"); ("token_foo", "d")]
                     None None
                     [Element 3 "a" [("x", "@FOO@")] None None [];
                      Element 4 "yield" [] None None []]];
                Element 5 "expand" [("macro", "m"); ("foo", "v")] None None
                  [Element 6 "c" [] None None []]]] 7)
    = Return (tt, h') /\
    heap_wf h' /\
    lookup (trees h')
      (eid (Element 0 "tool" [] None None
              [Element 1 "macros" [] None None
                 [Element 2 "macro" [("name", "m"); ("type", "xml"); ("token_foo", "d")]
                    None None
                    [Element 3 "a" [("x", "@FOO@")] None None [];
                     Element 4 "yield" [] None None []]];
               Element 5 "expand" [("macro", "m"); ("foo", "v")] None None
                 [Element 6 "c" [] None None []]]))
    = Some (splice
              (eid (Element 5 "expand" [("macro", "m"); ("foo", "v")] None None
                      [Element 6 "c" [] None None []]))
              copies
              (Element 0 "tool" [] None None
                 [Element 1 "macros" [] None None
                    [Element 2 "macro" [("name", "m"); ("type", "xml"); ("token_foo", "d")]
                       None None
                       [Element 3 "a" [("x", "@FOO@")] None None [];
                        Element 4 "yield" [] None None []]];
                  Element 5 "expand" [("macro", "m"); ("foo", "v")] None None
                    [Element 6 "c" [] None None []]])) /\
    map erase copies = body /\
    find_descendant "expand"
      (splice
         (eid (Element 5 "expand" [("macro", "m"); ("foo", "v")] None None
                 [Element 6 "c" [] None None []]))
         copies
         (Element 0 "tool" [] None None
            [Element 1 "macros" [] None None
               [Element 2 "macro" [("name", "m"); ("type", "xml"); ("token_foo", "d")]
                  None None
                  [Element 3 "a" [("x", "@FOO@")] None None [];
                   Element 4 "yield" [] None None []]];
             Element 5 "expand" [("macro", "m"); ("foo", "v")] None None
               [Element 6 "c" [] None None []]])) = None.
Proof.
  refine (expand_macros_single_placeholder 0
           (Heap [Element 0 "tool" [] None None
                    [Element 1 "macros" [] None None
                       [Element 2 "macro" [("name", "m"); ("type", "xml"); ("token_foo", "d")]
                          None None
                          [Element 3 "a" [("x", "@FOO@")] None None [];
                           Element 4 "yield" [] None None []]];
                     Element 5 "expand" [("macro", "m"); ("foo", "v")] None None
                       [Element 6 "c" [] None None []]]] 7)
           (Element 0 "tool" [] None None
              [Element 1 "macros" [] None None
                 [Element 2 "macro" [("name", "m"); ("type", "xml"); ("token_foo", "d")]
                    None None
                    [Element 3 "a" [("x", "@FOO@")] None None [];
                     Element 4 "yield" [] None None []]];
               Element 5 "expand" [("macro", "m"); ("foo", "v")] None None
                 [Element 6 "c" [] None None []]])
           (Element 5 "expand" [("macro", "m"); ("foo", "v")] None None
              [Element 6 "c" [] None None []])
           (Element 2 "macro" [("name", "m"); ("type", "xml"); ("token_foo", "d")]
              None None
              [Element 3 "a" [("x", "@FOO@")] None None [];
               Element 4 "yield" [] None None []])
           [(Some "m", XmlMacroDef.Build_t 2 [("foo", ("@", Default "d"))])] []
           "m" (XmlMacroDef.Build_t 2 [("foo", ("@", Default "d"))])
           _ _ _ _ _ _ _ _).
  - split; simpl.
    + repeat constructor; simpl; intuition discriminate.
    + repeat constructor.
  - simpl. auto.
  - reflexivity.
  - reflexivity.
  - reflexivity.
  - reflexivity.
  - reflexivity.
  - reflexivity.
Defined.
(* ================================================================== *)
(** * The removal loop returns *)
(* ================================================================== *)

Lemma child_lookup (h : heap) (x : nat) (q : _Element) :
  heap_wf h -> In q (forest_nodes (trees h)) -> is_child x q = true ->
  exists e, lookup (trees h) x = Some e /\ In e (children q).
Proof.
  intros Hwf Hq Hc. destruct (child_node q x Hc) as [e [He Ee]].
  exists e. split; [|exact He]. rewrite <- Ee.
  apply lookup_member; [apply Hwf|]. now apply (child_in_forest (trees h) q e).
Qed.

Lemma is_child_prune (x y : nat) (q : _Element) :
  is_child y q = true -> y <> x -> is_child y (prune x q) = true.
Proof.
  intros Hc Hne. destruct (child_node q y Hc) as [c [Hin Ec]].
  unfold is_child. apply existsb_exists. exists (prune x c). split.
  - rewrite (prune_unfold x q), children_set_children.
    apply member_prune; [exact Hin|]. now rewrite Ec.
  - rewrite eid_prune, Ec. apply Nat.eqb_refl.
Qed.

(** An element that has a parent still has one after another element
    has been removed from its own parent. *)
Lemma parent_after_remove (F : forest) (x y : nat) (s q : _Element) :
  NoDup (forest_ids F) -> lookup F x = Some s ->
  In q (forest_nodes F) -> is_child y q = true -> y <> x ->
  exists q', In q' (forest_nodes (prune_list x F ++ [s])) /\ is_child y q' = true.
Proof.
  intros Hnd Ls Hq Hc Hne.
  destruct (lookup_some _ _ _ Ls) as [Es Hs].
  destruct (in_dec Nat.eq_dec (eid q) (ids s)) as [Hin|Hout].
  - exists q. split; [|exact Hc]. rewrite forest_nodes_app. apply in_or_app. right.
    cbn [forest_nodes flat_map]. rewrite app_nil_r.
    unfold ids in Hin. apply in_map_iff in Hin. destruct Hin as [q0 [E0 H0]].
    assert (q0 = q); [|now subst].
    apply (NoDup_map_inj eid (forest_nodes F)); auto.
    apply (proj2 nodes_trans F s q0 Hs H0).
  - exists (prune x q). split; [|now apply is_child_prune].
    rewrite forest_nodes_app. apply in_or_app. left.
    apply nodes_prune; [exact Hq|]. intros s' Hs' Es' Hqs.
    assert (s' = s) by (apply (node_unique F x s s'); auto). subst s'.
    apply Hout. unfold ids. now apply in_map.
Qed.

Lemma remove_macros_progress (els : list nat) :
  forall h,
    heap_wf h -> NoDup els ->
    (forall x, In x els ->
       exists q, In q (forest_nodes (trees h)) /\ is_child x q = true) ->
    exists h', remove_macros els h = Return (tt, h').
Proof.
  induction els as [|x els IH]; intros h Hwf Hnd Hpar.
  - exists h. reflexivity.
  - inversion Hnd as [|? ? Hx Hnd']. subst.
    destruct (Hpar x (or_introl eq_refl)) as [q [Hq Hc]].
    destruct (child_lookup h x q Hwf Hq Hc) as [e [Le _]].
    assert (Hbody : exists h1,
               bindM (deref x)
                 (fun e => if type_is "template" e then ret tt
                           else bindM (getparent x)
                                  (fun parent =>
                                     match parent with
                                     | None => raise AttributeError
                                     | Some p => el_remove p x
                                     end)) h = Return (tt, h1) /\
               heap_wf h1 /\
               forall y, In y els ->
                 exists q', In q' (forest_nodes (trees h1)) /\ is_child y q' = true).
    { rewrite (bindM_step _ _ _ _ _ (deref_step _ _ _ Le)).
      destruct (type_is "template" e).
      - exists h. split; [reflexivity|]. split; [exact Hwf|].
        intros y Hy. apply Hpar. now right.
      - destruct (parent_of_exists (trees h) x q Hq Hc) as [pn Hpn].
        destruct (parent_of_some _ _ _ Hpn) as [Hpn_in Hpn_c].
        assert (G : getparent x h = Return (Some (eid pn), h)).
        { unfold getparent. now rewrite Hpn. }
        rewrite (bindM_step _ _ _ _ _ G).
        assert (Lp : lookup (trees h) (eid pn) = Some pn).
        { apply lookup_member; [apply Hwf|exact Hpn_in]. }
        pose proof (el_remove_step (eid pn) x h pn e Lp Hpn_c Le) as R.
        eexists. split; [exact R|].
        split; [exact (proj1 (preserves_el_remove _ _ _ _ _ Hwf R))|].
        intros y Hy. destruct (Hpar y (or_intror Hy)) as [qy [Hqy Hcy]].
        cbn [trees]. unfold forest_prune.
        apply (parent_after_remove (trees h) x y e qy); auto; [apply Hwf|].
        intro E. subst y. now apply Hx. }
    destruct Hbody as [h1 [R1 [Hwf1 Hpar1]]].
    destruct (IH h1 Hwf1 Hnd' Hpar1) as [h' R'].
    exists h'. unfold remove_macros. cbn [for_each].
    rewrite (bindM_step _ _ _ _ _ R1). exact R'.
Qed.

Lemma remove_macros_returns (h : heap) (r : _Element) :
  heap_wf h -> In r (trees h) -> has_tag "macro" r = false ->
  exists h',
    remove_macros (map eid (xpath_all "macro" r)) h = Return (tt, h') /\
    heap_wf h' /\ In (strip_macros r) (trees h').
Proof.
  intros Hwf Hr Htag.
  assert (Hnd : NoDup (ids r)).
  { apply (NoDup_member (trees h)); [apply Hwf|exact Hr]. }
  destruct (remove_macros_progress (map eid (xpath_all "macro" r)) h Hwf) as [h' R].
  { unfold xpath_all. now apply NoDup_map_filter. }
  { intros x Hx. apply in_map_iff in Hx. destruct Hx as [n [<- Hn]].
    unfold xpath_all in Hn. apply filter_In in Hn. destruct Hn as [Hn Tn].
    rewrite nodes_children in Hn. destruct Hn as [<-|Hn]; [congruence|].
    destruct (descendant_has_parent r n Hn) as [q [Hq Hc]].
    exists q. split; [|exact Hc]. apply in_forest_nodes. now exists r. }
  destruct (remove_macros_effect h h' r Hwf Hr R) as [Hwf' Hin'].
  exists h'. split; [exact R|]. split; [exact Hwf'|exact Hin'].
Qed.

(** X23: the removal loop of [load_with_references] always returns on a
    tree whose root is not itself tagged [macro]: every element tagged
    [macro] that is not of the type [template] is taken out with what is
    below it, wherever it is, and nothing else changes. *)
Theorem remove_macros_total (h : heap) (r : _Element) :
  heap_wf h -> In r (trees h) -> has_tag "macro" r = false ->
  exists h',
    remove_macros (map eid (xpath_all "macro" r)) h = Return (tt, h') /\
    heap_wf h' /\
    lookup (trees h') (eid r) = Some (strip_macros r) /\
    (forall n, In n (descendants (strip_macros r)) -> removable n = false).
Proof.
  intros Hwf Hr Htag.
  destruct (remove_macros_returns h r Hwf Hr Htag) as [h' [R [Hwf' Hin']]].
  exists h'. split; [exact R|]. split; [exact Hwf'|]. split.
  - rewrite <- (eid_strip_macros r). apply lookup_root; [apply Hwf'|exact Hin'].
  - intros n Hn. apply (strip_list_clean (children r)).
    unfold descendants in Hn. rewrite strip_macros_unfold, children_set_children in Hn.
    exact Hn.
Qed.

Lemma remove_macros_total_witness :
  exists h',
    remove_macros
      (map eid (xpath_all "macro"
         (Element 0 "tool" [] None None
            [Element 1 "macros" [] None None
               [Element 2 "macro" [("name", "t"); ("type", "template")] (Some "x") None [];
                Element 3 "macro" [("name", "m"); ("type", "xml")] None None
                  [Element 4 "macro" [("type", "token")] None None []]]])))
      (Heap [Element 0 "tool" [] None None
               [Element 1 "macros" [] None None
                  [Element 2 "macro" [("name", "t"); ("type", "template")] (Some "x") None [];
                   Element 3 "macro" [("name", "m"); ("type", "xml")] None None
                     [Element 4 "macro" [("type", "token")] None None []]]]] 5)
    = Return (tt, h') /\
    heap_wf h' /\
    lookup (trees h')
      (eid (Element 0 "tool" [] None None
              [Element 1 "macros" [] None None
                 [Element 2 "macro" [("name", "t"); ("type", "template")] (Some "x") None [];
                  Element 3 "macro" [("name", "m"); ("type", "xml")] None None
                    [Element 4 "macro" [("type", "token")] None None []]]]))
    = Some (strip_macros
              (Element 0 "tool" [] None None
                 [Element 1 "macros" [] None None
                    [Element 2 "macro" [("name", "t"); ("type", "template")] (Some "x") None [];
                     Element 3 "macro" [("name", "m"); ("type", "xml")] None None
                       [Element 4 "macro" [("type", "token")] None None []]]])) /\
    (forall n,
        In n (descendants
                (strip_macros
                   (Element 0 "tool" [] None None
                      [Element 1 "macros" [] None None
                         [Element 2 "macro" [("name", "t"); ("type", "template")]
                            (Some "x") None [];
                          Element 3 "macro" [("name", "m"); ("type", "xml")] None None
                            [Element 4 "macro" [("type", "token")] None None []]]]))) ->
        removable n = false).
Proof.
  apply (remove_macros_total
           (Heap [Element 0 "tool" [] None None
                    [Element 1 "macros" [] None None
                       [Element 2 "macro" [("name", "t"); ("type", "template")]
                          (Some "x") None [];
                        Element 3 "macro" [("name", "m"); ("type", "xml")] None None
                          [Element 4 "macro" [("type", "token")] None None []]]]] 5)).
  - split; simpl.
    + repeat constructor; simpl; intuition discriminate.
    + repeat constructor.
  - simpl. auto.
  - reflexivity.
Defined.

Example remove_macros_run :
  remove_macros [2; 3; 4]
    (Heap [Element 0 "tool" [] None None
             [Element 1 "macros" [] None None
                [Element 2 "macro" [("name", "t"); ("type", "template")] (Some "x") None [];
                 Element 3 "macro" [("name", "m"); ("type", "xml")] None None
                   [Element 4 "macro" [("type", "token")] None None []]]]] 5)
  = Return (tt,
      Heap [Element 0 "tool" [] None None
              [Element 1 "macros" [] None None
                 [Element 2 "macro" [("name", "t"); ("type", "template")] (Some "x") None []]];
            Element 3 "macro" [("name", "m"); ("type", "xml")] None None [];
            Element 4 "macro" [("type", "token")] None None []] 5).
Proof. reflexivity. Qed.
(* ================================================================== *)
(** * The load of a document without imports and placeholders *)
(* ================================================================== *)

Lemma no_placeholder_after_import (d me : _Element) (pre0 post0 : list _Element) :
  children d = pre0 ++ me :: post0 ->
  find_descendant "expand" d = None ->
  find_descendant "expand"
    (canon d me pre0 post0 (map normalise (embedded (children me)))) = None.
Proof.
  intros Hshape Hd. apply find_descendant_none_tags.
  pose proof (proj1 (find_descendant_none_tags _ _) Hd) as Hno.
  assert (Hsub : forall n, In n (forest_nodes (children d)) -> tag n <> "expand").
  { intros n Hn E. apply Hno. rewrite <- E. now apply in_map. }
  assert (Hme : In me (children d)).
  { rewrite Hshape. apply in_or_app. right. now left. }
  intro Hin. apply in_map_iff in Hin. destruct Hin as [n [Ht Hn]].
  unfold canon in Hn. rewrite children_set_children in Hn.
  rewrite forest_nodes_app, forest_nodes_cons in Hn.
  apply in_app_or in Hn. destruct Hn as [Hn|Hn].
  - apply (Hsub n); [|exact Ht]. rewrite Hshape, forest_nodes_app.
    apply in_or_app. now left.
  - apply in_app_or in Hn. destruct Hn as [Hn|Hn].
    + rewrite nodes_set_children in Hn. destruct Hn as [<-|Hn].
      * apply (Hsub me); [|exact Ht]. apply in_forest_nodes. exists me.
        split; [exact Hme|apply nodes_self].
      * apply in_forest_nodes in Hn. destruct Hn as [c' [Hc' Hn]].
        apply in_map_iff in Hc'. destruct Hc' as [c [<- Hc]].
        rewrite nodes_children in Hn. destruct Hn as [<-|Hn].
        -- destruct (embedded_kind _ _ Hc) as [k Hk].
           destruct (kind_of_normalise c k Hk) as [Tm _].
           unfold has_tag in Tm. apply String.eqb_eq in Tm. rewrite Tm in Ht.
           discriminate.
        -- rewrite children_normalise in Hn. apply (Hsub n); [|exact Ht].
           apply in_forest_nodes. exists me. split; [exact Hme|].
           apply (child_nodes_incl me c (embedded_in _ _ Hc)).
           rewrite nodes_children. now right.
    + apply (Hsub n); [|exact Ht]. rewrite Hshape, forest_nodes_app, forest_nodes_cons.
      apply in_or_app. right. apply in_or_app. now right.
Qed.

Section PlainDocument.
Variable parse_xml : string -> bool -> option _Element.

(** X24: the load of a document that has a macro container without
    imports, no [expand] element, and a root that is not tagged [macro].
    With [d] the parsed document and [r2] the document whose container
    keeps its macro definitions only, normalised: [load_with_references]
    raises what the resolution of the token table of [r2] raises;
    otherwise it raises what the rewrite of [r2] without its macros (the
    templates apart) raises; otherwise it returns the root with the empty
    list of paths, and the tree is [r2] without its macros (the templates
    apart), rewritten with the resolved tokens. *)
Theorem load_plain_document {py : Interpreter} (fuel : nat) (path : string) (doc me0 : _Element) :
  parse_xml path true = Some doc ->
  _macros_el doc = Some me0 ->
  _imported_macro_paths_from_el (Some me0) = [] ->
  find_descendant "expand" doc = None ->
  has_tag "macro" doc = false ->
  exists me pre0 post0,
    children (fst (relabel doc 0)) = pre0 ++ me :: post0 /\
    _macros_el (fst (relabel doc 0)) = Some me /\
    let r2 := canon (fst (relabel doc 0)) me pre0 post0
                (map normalise (embedded (children me))) in
    match snd (expand_nested_tokens (_macros_of_type r2 "token" text_or_empty)) with
    | Return tokens =>
        match _expand_tokens_for_el (strip_macros r2) tokens with
        | Return r' =>
            exists h,
              run (load_with_references parse_xml (S (S fuel)) path)
              = Return ((0, Some []), h) /\
              heap_wf h /\ lookup (trees h) 0 = Some r'
        | Raise e =>
            run (load_with_references parse_xml (S (S fuel)) path) = Raise e
        | OutOfFuel => True
        | Dangling => True
        end
    | Raise e => run (load_with_references parse_xml (S (S fuel)) path) = Raise e
    | OutOfFuel => True
    | Dangling => True
    end.
Proof.
  intros Hparse Hme0 Himp Hexp Htag.
  destruct (relabel_spec doc 0) as [Hn [Hids [Herase Heid]]].
  set (d := fst (relabel doc 0)) in *.
  set (h1 := Heap [d] (0 + size doc)).
  assert (Hwf1 : heap_wf h1).
  { apply (fresh_tree_wf [] 0 doc). apply empty_heap_wf. }
  assert (Hd1 : In d (trees h1)) by now left.
  destruct (find_child_some_erase "macros" doc d me0) as [me [Hme Eme]]; auto.
  pose proof Hme as Hme'. unfold find_child in Hme'. apply find_split in Hme'.
  destruct Hme' as [pre0 [post0 [Hshape [Tme Hpre]]]].
  exists me, pre0, post0. split; [exact Hshape|]. split; [exact Hme|].
  cbv zeta.
  set (r2 := canon d me pre0 post0 (map normalise (embedded (children me)))).
  (* the imports *)
  destruct (import_macros_plain parse_xml (S fuel) path h1 d me pre0 post0
              Hwf1 Hd1 Hme Hshape) as [h2 [R2 [Hwf2 Hin2]]].
  { now rewrite <- (imported_paths_erase me0 me Eme). }
  rewrite Heid in R2. fold r2 in Hin2.
  assert (E2 : eid r2 = 0).
  { unfold r2, canon. now rewrite eid_set_children. }
  assert (L2 : lookup (trees h2) 0 = Some r2).
  { rewrite <- E2. apply lookup_root; [apply Hwf2|exact Hin2]. }
  (* the expansion finds nothing to expand *)
  assert (Hclean : find_descendant "expand" r2 = None).
  { apply no_placeholder_after_import; [exact Hshape|].
    now apply (find_descendant_none_erase "expand" doc d). }
  assert (R3 : forall macros tokens,
             _expand_macros (S (S fuel)) [0] macros tokens h2 = Return (tt, h2)).
  { intros macros tokens. rewrite expand_macros_unfold.
    destruct (is_empty macros && is_empty tokens); [reflexivity|].
    cbn [for_each]. rewrite expand_while_unfold, bindM_assoc.
    rewrite (bindM_step _ _ _ _ _ (deref_step _ _ _ L2)). cbv beta.
    now rewrite Hclean. }
  (* the removal of the macros *)
  assert (Htag2 : has_tag "macro" r2 = false).
  { unfold has_tag in *. unfold r2, canon. cbn [set_children tag].
    now rewrite (erase_tag d doc Herase). }
  destruct (remove_macros_returns h2 r2 Hwf2 Hin2 Htag2) as [h3 [R4 [Hwf3 Hin3]]].
  assert (L3 : lookup (trees h3) 0 = Some (strip_macros r2)).
  { rewrite <- E2, <- (eid_strip_macros r2). apply lookup_root; [apply Hwf3|exact Hin3]. }
  (* the run *)
  assert (Hraise : forall e,
             snd (expand_nested_tokens (_macros_of_type r2 "token" text_or_empty))
             = Raise e ->
             run (load_with_references parse_xml (S (S fuel)) path) = Raise e).
  { intros e He. unfold run, load_with_references, raw_xml_tree.
    rewrite (bindM_step _ _ _ _ _ (parse_step parse_xml path true (Heap [] 0) doc Hparse)).
    cbn [trees next_id app]. fold d. fold h1.
    rewrite (bindM_step _ _ _ _ _ R2).
    rewrite (bindM_step _ _ _ _ _ (deref_step _ _ _ L2)).
    rewrite He. reflexivity. }
  assert (Hret : forall tokens,
             snd (expand_nested_tokens (_macros_of_type r2 "token" text_or_empty))
             = Return tokens ->
             run (load_with_references parse_xml (S (S fuel)) path)
             = bindM (in_place 0 (fun e => _expand_tokens_for_el e tokens))
                 (fun _ => ret (0, Some [])) h3).
  { intros tokens He. unfold run, load_with_references, raw_xml_tree.
    rewrite (bindM_step _ _ _ _ _ (parse_step parse_xml path true (Heap [] 0) doc Hparse)).
    cbn [trees next_id app]. fold d. fold h1.
    rewrite (bindM_step _ _ _ _ _ R2).
    rewrite (bindM_step _ _ _ _ _ (deref_step _ _ _ L2)).
    rewrite He.
    rewrite (bindM_step (lift (Return tokens)) _ h2 tokens h2 eq_refl).
    rewrite (bindM_step _ _ _ _ _ (deref_step _ _ _ L2)).
    rewrite (bindM_step _ _ _ _ _ (R3 _ _)).
    rewrite (bindM_step _ _ _ _ _ (deref_step _ _ _ L2)).
    now rewrite (bindM_step _ _ _ _ _ R4). }
  destruct (snd (expand_nested_tokens (_macros_of_type r2 "token" text_or_empty)))
    as [tokens|e| |]; try exact I.
  2:{ now apply Hraise. }
  rewrite (Hret tokens eq_refl).
  destruct (_expand_tokens_for_el (strip_macros r2) tokens) as [r'|e| |] eqn:E;
    try exact I.
  - assert (R5 : in_place 0 (fun e => _expand_tokens_for_el e tokens) h3
                 = Return (tt, Heap (forest_modify 0 (fun _ => r') (trees h3))
                                    (next_id h3))).
    { unfold in_place. rewrite (bindM_step _ _ _ _ _ (deref_step _ _ _ L3)).
      rewrite E. reflexivity. }
    eexists. split; [rewrite (bindM_step _ _ _ _ _ R5); reflexivity|]. split.
    + exact (proj1 (preserves_in_place 0 _
                      (fun e e' H => expand_tokens_for_el_ids _ _ _ H) _ _ _ Hwf3 R5)).
    + cbn [trees].
      apply (lookup_modify_same (trees h3) 0 (fun _ => r') (strip_macros r2));
        [apply Hwf3|exact L3|].
      rewrite (expand_tokens_for_el_eid _ _ _ E), eid_strip_macros. exact E2.
  - unfold bindM at 1. unfold in_place.
    rewrite (bindM_step _ _ _ _ _ (deref_step _ _ _ L3)). rewrite E. reflexivity.
Qed.

End PlainDocument.

Lemma load_plain_document_witness :
  exists me pre0 post0,
    children (fst (relabel
      (Element 0 "tool" [] None None
         [Element 0 "macros" [] None None
            [Element 0 "token" [("name", "@A@")] (Some "x") None [];
             Element 0 "template" [("name", "t")] (Some "T @A@") None [];
             Element 0 "xml" [("name", "m")] None None [Element 0 "a" [] None None []]];
          Element 0 "inputs" [("v", "@A@")] None None []]) 0))
    = pre0 ++ me :: post0 /\
    _macros_el (fst (relabel
      (Element 0 "tool" [] None None
         [Element 0 "macros" [] None None
            [Element 0 "token" [("name", "@A@")] (Some "x") None [];
             Element 0 "template" [("name", "t")] (Some "T @A@") None [];
             Element 0 "xml" [("name", "m")] None None [Element 0 "a" [] None None []]];
          Element 0 "inputs" [("v", "@A@")] None None []]) 0))
    = Some me /\
    let r2 :=
      canon (fst (relabel
        (Element 0 "tool" [] None None
           [Element 0 "macros" [] None None
              [Element 0 "token" [("name", "@A@")] (Some "x") None [];
               Element 0 "template" [("name", "t")] (Some "T @A@") None [];
               Element 0 "xml" [("name", "m")] None None [Element 0 "a" [] None None []]];
            Element 0 "inputs" [("v", "@A@")] None None []]) 0))
        me pre0 post0 (map normalise (embedded (children me))) in
    match snd (expand_nested_tokens (_macros_of_type r2 "token" text_or_empty)) with
    | Return tokens =>
        match _expand_tokens_for_el (strip_macros r2) tokens with
        | Return r' =>
            exists h,
              run (load_with_references
                     (fun (p : string) (_ : bool) =>
                        if String.eqb p "tool.xml"
                        then Some (Element 0 "tool" [] None None
                                     [Element 0 "macros" [] None None
                                        [Element 0 "token" [("name", "@A@")] (Some "x")
                                           None [];
                                         Element 0 "template" [("name", "t")]
                                           (Some "T @A@") None [];
                                         Element 0 "xml" [("name", "m")] None None
                                           [Element 0 "a" [] None None []]];
                                      Element 0 "inputs" [("v", "@A@")] None None []])
                        else None)
                     2 "tool.xml")
              = Return ((0, Some []), h) /\
              heap_wf h /\ lookup (trees h) 0 = Some r'
        | Raise e =>
            run (load_with_references
                   (fun (p : string) (_ : bool) =>
                      if String.eqb p "tool.xml"
                      then Some (Element 0 "tool" [] None None
                                   [Element 0 "macros" [] None None
                                      [Element 0 "token" [("name", "@A@")] (Some "x")
                                         None [];
                                       Element 0 "template" [("name", "t")]
                                         (Some "T @A@") None [];
                                       Element 0 "xml" [("name", "m")] None None
                                         [Element 0 "a" [] None None []]];
                                    Element 0 "inputs" [("v", "@A@")] None None []])
                      else None)
                   2 "tool.xml") = Raise e
        | OutOfFuel => True
        | Dangling => True
        end
    | Raise e =>
        run (load_with_references
               (fun (p : string) (_ : bool) =>
                  if String.eqb p "tool.xml"
                  then Some (Element 0 "tool" [] None None
                               [Element 0 "macros" [] None None
                                  [Element 0 "token" [("name", "@A@")] (Some "x")
                                     None [];
                                   Element 0 "template" [("name", "t")]
                                     (Some "T @A@") None [];
                                   Element 0 "xml" [("name", "m")] None None
                                     [Element 0 "a" [] None None []]];
                                Element 0 "inputs" [("v", "@A@")] None None []])
                  else None)
               2 "tool.xml") = Raise e
    | OutOfFuel => True
    | Dangling => True
    end.
Proof.
  apply (load_plain_document
           (fun (p : string) (_ : bool) =>
              if String.eqb p "tool.xml"
              then Some (Element 0 "tool" [] None None
                           [Element 0 "macros" [] None None
                              [Element 0 "token" [("name", "@A@")] (Some "x") None [];
                               Element 0 "template" [("name", "t")] (Some "T @A@") None [];
                               Element 0 "xml" [("name", "m")] None None
                                 [Element 0 "a" [] None None []]];
                            Element 0 "inputs" [("v", "@A@")] None None []])
              else None)
           0 "tool.xml"
           (Element 0 "tool" [] None None
              [Element 0 "macros" [] None None
                 [Element 0 "token" [("name", "@A@")] (Some "x") None [];
                  Element 0 "template" [("name", "t")] (Some "T @A@") None [];
                  Element 0 "xml" [("name", "m")] None None [Element 0 "a" [] None None []]];
               Element 0 "inputs" [("v", "@A@")] None None []])
           (Element 0 "macros" [] None None
              [Element 0 "token" [("name", "@A@")] (Some "x") None [];
               Element 0 "template" [("name", "t")] (Some "T @A@") None [];
               Element 0 "xml" [("name", "m")] None None [Element 0 "a" [] None None []]]));
    reflexivity.
Defined.

Example plain_document_run :
  run (load_with_references
         (fun (p : string) (_ : bool) =>
            if String.eqb p "tool.xml"
            then Some (Element 0 "tool" [] None None
                         [Element 0 "macros" [] None None
                            [Element 0 "token" [("name", "@A@")] (Some "x") None [];
                             Element 0 "template" [("name", "t")] (Some "T @A@") None [];
                             Element 0 "xml" [("name", "m")] None None
                               [Element 0 "a" [] None None []]];
                          Element 0 "inputs" [("v", "@A@")] None None []])
            else None)
         2 "tool.xml")
  = Return
      ((0, Some []),
       Heap [Element 0 "tool" [] None None
               [Element 1 "macros" [] None None
                  [Element 3 "macro" [("name", "t"); ("type", "template")]
                     (Some "T x") None []];
                Element 6 "inputs" [("v", "x")] None None []];
             Element 4 "macro" [("name", "m"); ("type", "xml")] None None
               [Element 5 "a" [] None None []];
             Element 2 "macro" [("name", "@A@"); ("type", "token")] (Some "x") None []] 7).
Proof. reflexivity. Qed.
(* ================================================================== *)
(** * The definitions of an imported file *)
(* ================================================================== *)

Section RootContainer.
Variables (F : forest) (m0 : _Element) (n : nat).

(** The heap in which the last tree is the root [m0] of a macro file,
    with the children [CS]. *)
Local Abbreviation rh CS := (Heap (F ++ [set_children CS m0]) n).

Lemma forest_ids_snoc (G : forest) (t : _Element) :
  forest_ids (G ++ [t]) = forest_ids G ++ ids t.
Proof. now rewrite forest_ids_app, forest_ids_single. Qed.

Lemma root_facts CS :
  NoDup (forest_ids (F ++ [set_children CS m0])) ->
  NoDup (forest_ids CS) /\
  forall a, In a (forest_ids CS) -> a <> eid m0 /\ ~ In a (forest_ids F).
Proof.
  rewrite forest_ids_snoc, ids_set_children. intro H.
  pose proof (NoDup_app_r _ _ H) as Hr. inversion Hr as [|x l Hm Hcs]. subst.
  split; [exact Hcs|]. intros a Ha. split.
  - intro E. subst a. now apply Hm.
  - intro Hf. apply (NoDup_app_disjoint _ _ a H Hf). now right.
Qed.

Lemma forest_modify_root a g CS :
  ~ In a (forest_ids F) -> a <> eid m0 ->
  forest_modify a g (F ++ [set_children CS m0])
  = F ++ [set_children (forest_modify a g CS) m0].
Proof.
  intros Hf Hm. rewrite forest_modify_app, (forest_modify_notin a g F Hf).
  f_equal. cbn [forest_modify map]. f_equal.
  assert (E : (eid m0 =? a) = false) by (apply Nat.eqb_neq; congruence).
  rewrite modify_unfold, eid_set_children, E.
  now rewrite children_set_children, set_children_twice.
Qed.

Lemma lookup_root_child CS c :
  NoDup (forest_ids (F ++ [set_children CS m0])) -> In c CS ->
  lookup (F ++ [set_children CS m0]) (eid c) = Some c.
Proof.
  intros Hnd Hc. apply lookup_member; [exact Hnd|].
  apply in_forest_nodes. exists (set_children CS m0). split.
  - apply in_or_app. right. now left.
  - rewrite nodes_set_children. right. apply in_forest_nodes. exists c.
    split; [exact Hc|apply nodes_self].
Qed.

Lemma lookup_root_container CS :
  NoDup (forest_ids (F ++ [set_children CS m0])) ->
  lookup (F ++ [set_children CS m0]) (eid m0) = Some (set_children CS m0).
Proof.
  intro Hnd. rewrite <- (eid_set_children CS m0).
  apply lookup_root; [exact Hnd|]. apply in_or_app. right. now left.
Qed.

Section RootUpdateLoop.
Variable t : string.
Variable body : nat -> M unit.
Variable fx : _Element -> _Element.
Hypothesis body_returns :
  forall c h,
    lookup (trees h) (eid c) = Some c -> has_tag t c = true ->
    exists g,
      body (eid c) h
      = Return (tt, Heap (forest_modify (eid c) g (trees h)) (next_id h)) /\
      g c = fx c.
Hypothesis fx_ids : forall c, ids (fx c) = ids c.

Lemma root_update_loop (todo : list _Element) :
  forall done,
    heap_wf (rh (done ++ todo)) ->
    for_each (map eid (filter (has_tag t) todo)) body (rh (done ++ todo))
    = Return (tt, rh (done ++ map (normalise_step t fx) todo)) /\
    heap_wf (rh (done ++ map (normalise_step t fx) todo)).
Proof.
  induction todo as [|c todo IH]; intros done Hwf.
  - split; [reflexivity|exact Hwf].
  - cbn [filter map]. unfold normalise_step at 1 3.
    destruct (has_tag t c) eqn:T.
    + assert (Hc : In c (done ++ c :: todo)).
      { apply in_or_app. right. now left. }
      pose proof (lookup_root_child _ c (proj1 Hwf) Hc) as L.
      destruct (body_returns c (rh (done ++ c :: todo)) L T) as [g [Hb Hg]].
      destruct (root_facts _ (proj1 Hwf)) as [Hcs Hch].
      destruct (Hch (eid c)) as [A1 A2].
      { apply in_forest_ids. exists c. split; [exact Hc|apply eid_in_ids]. }
      destruct (NoDup_split_ids done todo c Hcs) as [B1 B2].
      assert (E : Heap (forest_modify (eid c) g (trees (rh (done ++ c :: todo))))
                       (next_id (rh (done ++ c :: todo)))
                  = rh ((done ++ [fx c]) ++ todo)).
      { cbn [trees next_id]. rewrite (forest_modify_root _ g _ A2 A1).
        rewrite (forest_modify_at (eid c) g done todo c eq_refl B1 B2), Hg.
        now rewrite <- app_assoc. }
      assert (Hwf1 : heap_wf (rh ((done ++ [fx c]) ++ todo))).
      { rewrite <- E.
        refine (proj1 (update_wf (eid c) g (rh (done ++ c :: todo)) tt _ _ Hwf eq_refl)).
        intros e Le. cbn [trees] in Le. rewrite L in Le. inversion Le. subst e.
        now rewrite Hg, fx_ids. }
      destruct (IH (done ++ [fx c]) Hwf1) as [R Hwf'].
      rewrite <- (app_assoc done [fx c] todo),
        <- (app_assoc done [fx c] (map (normalise_step t fx) todo)) in R.
      rewrite <- (app_assoc done [fx c] (map (normalise_step t fx) todo)) in Hwf'.
      cbn [app] in R, Hwf'.
      split; [|exact Hwf'].
      cbn [map for_each]. rewrite (bindM_step _ _ _ _ _ Hb), E.
      rewrite <- app_assoc. exact R.
    + destruct (IH (done ++ [c])) as [R Hwf'].
      * now rewrite <- app_assoc.
      * rewrite <- (app_assoc done [c] todo),
          <- (app_assoc done [c] (map (normalise_step t fx) todo)) in R.
        rewrite <- (app_assoc done [c] (map (normalise_step t fx) todo)) in Hwf'.
        now split.
Qed.

End RootUpdateLoop.

Lemma root_attribute_typed CS :
  heap_wf (rh CS) ->
  load_attribute_typed (Some (eid m0)) (rh CS)
  = Return (map eid (filter (has_tag "macro") CS),
            rh (map (normalise_step "macro" typed) CS)) /\
  heap_wf (rh (map (normalise_step "macro" typed) CS)).
Proof.
  intro Hwf. unfold load_attribute_typed.
  rewrite (bindM_step _ _ _ _ _
             (deref_step (eid m0) (rh CS) _ (lookup_root_container CS (proj1 Hwf)))).
  unfold findall_children. rewrite children_set_children.
  match goal with
  | |- context [for_each _ ?b] =>
      destruct (root_update_loop "macro" b typed) with
        (todo := CS) (done := @nil _Element) as [R Hwf']; auto
  end.
  - intros c k Lc T. unfold typed.
    rewrite (bindM_step _ _ _ _ _ (deref_step _ _ _ Lc)).
    destruct (get_attr c "type").
    + exists (fun e => e). split; [|reflexivity].
      rewrite forest_modify_id. now destruct k.
    + exists (set_attrib "type" "xml"). now split.
  - apply ids_typed.
  - cbn [app] in R, Hwf'. split; [|exact Hwf'].
    now rewrite (bindM_step _ _ _ _ _ R).
Qed.

Lemma root_shortcut tg CS :
  heap_wf (rh CS) ->
  load_shortcut (Some (eid m0)) tg (rh CS)
  = Return (map eid (filter (has_tag tg) CS),
            rh (map (normalise_step tg (shortcut tg)) CS)) /\
  heap_wf (rh (map (normalise_step tg (shortcut tg)) CS)).
Proof.
  intro Hwf. unfold load_shortcut.
  rewrite (bindM_step _ _ _ _ _
             (deref_step (eid m0) (rh CS) _ (lookup_root_container CS (proj1 Hwf)))).
  unfold findall_children. rewrite children_set_children.
  match goal with
  | |- context [for_each _ ?b] =>
      destruct (root_update_loop tg b (shortcut tg)) with
        (todo := CS) (done := @nil _Element) as [R Hwf']; auto
  end.
  - intros c k Lc T.
    exists (fun e => set_tag "macro" (set_attrib "type" tg e)). split; [|reflexivity].
    unfold bindM, update. cbn [trees next_id].
    rewrite forest_modify_compose; [reflexivity|]. now intros [].
  - apply ids_shortcut.
  - cbn [app] in R, Hwf'. split; [|exact Hwf'].
    now rewrite (bindM_step _ _ _ _ _ R).
Qed.

(** [_load_embedded_macros] on the root of a macro file. *)
Lemma root_embedded base CS :
  heap_wf (rh CS) ->
  _load_embedded_macros (Some (eid m0)) base (rh CS)
  = Return (map eid (embedded CS), rh (map normalise CS)) /\
  heap_wf (rh (map normalise CS)).
Proof.
  intro Hwf. unfold _load_embedded_macros.
  destruct (root_attribute_typed CS Hwf) as [R1 Hwf1].
  destruct (root_shortcut "template" _ Hwf1) as [R2 Hwf2].
  destruct (root_shortcut "xml" _ Hwf2) as [R3 Hwf3].
  destruct (root_shortcut "token" _ Hwf3) as [R4 Hwf4].
  rewrite (bindM_step _ _ _ _ _ R1), (bindM_step _ _ _ _ _ R2),
    (bindM_step _ _ _ _ _ R3), (bindM_step _ _ _ _ _ R4).
  assert (E : map (normalise_step "token" (shortcut "token"))
                (map (normalise_step "xml" (shortcut "xml"))
                   (map (normalise_step "template" (shortcut "template"))
                      (map (normalise_step "macro" typed) CS)))
              = map normalise CS) by now rewrite !map_map.
  rewrite E in Hwf4. split; [|exact Hwf4].
  unfold ret. rewrite E. unfold embedded. rewrite !map_app.
  f_equal. f_equal. f_equal. f_equal; [|f_equal].
  - apply filter_after_step; [apply eid_typed|]. intros. apply has_tag_typed.
  - rewrite filter_after_step;
      [|intro; apply eid_shortcut|intro; now apply has_tag_shortcut].
    apply filter_after_step; [apply eid_typed|]. intros. apply has_tag_typed.
  - rewrite filter_after_step;
      [|intro; apply eid_shortcut|intro; now apply has_tag_shortcut].
    rewrite filter_after_step;
      [|intro; apply eid_shortcut|intro; now apply has_tag_shortcut].
    apply filter_after_step; [apply eid_typed|]. intros. apply has_tag_typed.
Qed.

End RootContainer.

Section FlatImports.
Variable parse_xml : string -> bool -> option _Element.

(** The root of a macro file once its definitions are normalised. *)
Local Abbreviation loaded m := (set_children (map normalise (children m)) m).

(** [_load_macro_file] on a file that imports nothing. *)
Lemma load_flat_file (fuel : nat) (p base : string) (doc : _Element) (h : heap) :
  heap_wf h -> parse_xml p false = Some doc ->
  _imported_macro_paths_from_el (Some doc) = [] ->
  _load_macro_file parse_xml (_load_macros parse_xml (S fuel)) p base h
  = Return ((map eid (embedded (children (fst (relabel doc (next_id h))))), []),
            Heap (trees h ++ [loaded (fst (relabel doc (next_id h)))])
                 (next_id h + size doc)) /\
  heap_wf (Heap (trees h ++ [loaded (fst (relabel doc (next_id h)))])
                (next_id h + size doc)).
Proof.
  intros Hwf Hp Hflat. set (m := fst (relabel doc (next_id h))).
  destruct (relabel_spec doc (next_id h)) as [_ [_ [Er Eid]]]. fold m in Er, Eid.
  pose proof (parsed_wf h doc Hwf) as Hwf1. fold m in Hwf1.
  rewrite <- (set_children_same m) in Hwf1.
  destruct (root_embedded (trees h) m (next_id h + size doc) base (children m) Hwf1)
    as [R Hwf2].
  rewrite Eid, set_children_same in R.
  split; [|exact Hwf2]. subst m.
  unfold _load_macro_file.
  rewrite (bindM_step _ _ _ _ _ (parse_step parse_xml p false h doc Hp)).
  cbn [_load_macros]. unfold _load_imported_macros.
  rewrite !bindM_assoc.
  rewrite (bindM_step (deref (next_id h)) _ _ _ _
             (deref_step (next_id h)
                (Heap (trees h ++ [fst (relabel doc (next_id h))]) (next_id h + size doc))
                _ (lookup_parsed h doc Hwf))).
  unfold ret at 1. unfold bindM at 1.
  rewrite (imported_paths_erase _ doc Er), Hflat. cbn [load_imported_loop].
  unfold ret at 1. unfold bindM at 1.
  now rewrite (bindM_step _ _ _ _ _ R).
Qed.

(** The loop of [_load_imported_macros] over files that import nothing:
    one root for each file, in the order of the paths. *)
Lemma load_flat_loop (fuel : nat) (base : string) (paths : list (option string)) :
  forall files macros mpaths h,
    heap_wf h -> flat_files parse_xml base paths = Some files ->
    load_imported_loop parse_xml (_load_macros parse_xml (S fuel)) paths base
      macros mpaths h
    = Return ((macros ++ flat_map (fun m => map eid (embedded (children m)))
                           (fst (relabel_forest (map snd files) (next_id h))),
               mpaths ++ map fst files),
              Heap (trees h ++ map (fun m => loaded m)
                                 (fst (relabel_forest (map snd files) (next_id h))))
                   (snd (relabel_forest (map snd files) (next_id h)))) /\
    heap_wf (Heap (trees h ++ map (fun m => loaded m)
                                (fst (relabel_forest (map snd files) (next_id h))))
                  (snd (relabel_forest (map snd files) (next_id h)))).
Proof.
  induction paths as [|[rel|] paths IH]; intros files macros mpaths h Hwf Hf;
    cbn [flat_files] in Hf; [| |discriminate].
  - inversion Hf. subst files. cbn [map relabel_forest fst snd flat_map load_imported_loop].
    rewrite !app_nil_r. destruct h as [F n]. now split.
  - destruct (parse_xml (OsPath.join base rel) false) as [doc|] eqn:Hp; [|discriminate].
    destruct (flat_files parse_xml base paths) as [more|] eqn:Hm; [|discriminate].
    destruct (_imported_macro_paths_from_el (Some doc)) eqn:Hflat; [|discriminate].
    inversion Hf. subst files. clear Hf.
    destruct (load_flat_file fuel (OsPath.join base rel) base doc h Hwf Hp Hflat)
      as [R1 Hwf1].
    cbn [map fst snd]. rewrite relabel_forest_cons. cbn [fst snd map flat_map].
    destruct (relabel_spec doc (next_id h)) as [En _]. rewrite En.
    destruct (IH more (macros ++ map eid (embedded (children (fst (relabel doc (next_id h))))))
                ((mpaths ++ [OsPath.join base rel]) ++ []) _ Hwf1 eq_refl) as [R2 Hwf2].
    cbn [next_id trees] in R2, Hwf2.
    rewrite <- (app_assoc (trees h)) in Hwf2. cbn [app] in Hwf2.
    split; [|exact Hwf2].
    cbn [load_imported_loop]. rewrite (bindM_step _ _ _ _ _ R1). cbn [fst snd].
    rewrite R2, app_nil_r, <- (app_assoc (trees h)), <- (app_assoc macros),
      <- (app_assoc mpaths).
    reflexivity.
Qed.

End FlatImports.

(* ================================================================== *)
(** * The container once the imported definitions are moved into it *)
(* ================================================================== *)

(** [_load_embedded_macros] leaves alone a tree in which it updates
    nothing. *)
Lemma attribute_typed_keeps_root (R : _Element) j h l h' :
  In R (trees h) -> (forall x, In x l -> ~ In x (ids R)) ->
  load_attribute_typed (Some j) h = Return (l, h') -> In R (trees h').
Proof.
  intros HR Hl H. unfold load_attribute_typed in H.
  apply bindM_inv in H. destruct H as [me [h0 [D H]]].
  apply deref_inv in D. destruct D as [L ->].
  apply bindM_inv in H. destruct H as [u [h1 [H1 H]]].
  inversion H. subst. clear H.
  apply (for_each_invariant (fun k => In R (trees k)) _ _) with (h := h) (u := u) (h' := h')
    in H1; [exact H1| |exact HR].
  intros x k w k' Hx Hk Hbody.
  apply bindM_inv in Hbody. destruct Hbody as [e [k0 [D Hbody]]].
  apply deref_inv in D. destruct D as [_ ->].
  destruct (get_attr e "type").
  - inversion Hbody. now subst.
  - inversion Hbody. cbn [trees]. apply member_modify_notin; [exact Hk|now apply Hl].
Qed.

Lemma shortcut_keeps_root (R : _Element) j tg h l h' :
  In R (trees h) -> (forall x, In x l -> ~ In x (ids R)) ->
  load_shortcut (Some j) tg h = Return (l, h') -> In R (trees h').
Proof.
  intros HR Hl H. unfold load_shortcut in H.
  apply bindM_inv in H. destruct H as [me [h0 [D H]]].
  apply deref_inv in D. destruct D as [L ->].
  apply bindM_inv in H. destruct H as [u [h1 [H1 H]]].
  inversion H. subst. clear H.
  apply (for_each_invariant (fun k => In R (trees k)) _ _) with (h := h) (u := u) (h' := h')
    in H1; [exact H1| |exact HR].
  intros x k w k' Hx Hk Hbody.
  apply bindM_inv in Hbody. destruct Hbody as [v [k0 [U1 U2]]].
  inversion U1. subst k0. inversion U2. cbn [trees].
  apply member_modify_notin; [|now apply Hl].
  apply member_modify_notin; [exact Hk|now apply Hl].
Qed.

Lemma embedded_keeps_root (R : _Element) j base h l h' :
  In R (trees h) -> (forall x, In x l -> ~ In x (ids R)) ->
  _load_embedded_macros (Some j) base h = Return (l, h') -> In R (trees h').
Proof.
  intros HR Hl H. unfold _load_embedded_macros in H.
  apply bindM_inv in H. destruct H as [a [h1 [H1 H]]].
  apply bindM_inv in H. destruct H as [b [h2 [H2 H]]].
  apply bindM_inv in H. destruct H as [c [h3 [H3 H]]].
  apply bindM_inv in H. destruct H as [d [h4 [H4 H]]].
  inversion H. subst. clear H.
  apply (shortcut_keeps_root R j "token" h3 d h'); [|intros; apply Hl|exact H4].
  - apply (shortcut_keeps_root R j "xml" h2 c h3); [|intros; apply Hl|exact H3].
    + apply (shortcut_keeps_root R j "template" h1 b h2); [|intros; apply Hl|exact H2].
      * apply (attribute_typed_keeps_root R j h a h1); [exact HR| |exact H1].
        intros. apply Hl. apply in_or_app. now left.
      * apply in_or_app. right. apply in_or_app. now left.
    + apply in_or_app. right. apply in_or_app. right. apply in_or_app. now left.
  - apply in_or_app. right. apply in_or_app. right. apply in_or_app. now right.
Qed.

Lemma child_id_in_root (R c : _Element) i :
  In c (children R) -> In i (ids c) -> In i (ids R).
Proof.
  intros Hc Hi. rewrite ids_unfold. right. apply in_forest_ids. now exists c.
Qed.

(** Two children of roots with different identities: neither is below
    the other. *)
Lemma child_id_apart F (R R' c c' : _Element) :
  NoDup (forest_ids F) -> In R F -> In R' F ->
  In c (children R) -> In c' (children R') ->
  eid c <> eid c' -> ~ In (eid c) (ids c').
Proof.
  intros Hnd HR HR' Hc Hc' Hne Hin.
  pose proof (child_id_in_root R c (eid c) Hc (eid_in_ids c)) as H1.
  pose proof (child_id_in_root R' c' (eid c) Hc' Hin) as H2.
  pose proof (members_disjoint F R R' (eid c) Hnd HR HR' H1 H2). subst R'.
  apply Hne. f_equal.
  apply (members_disjoint (children R) c c' (eid c)); auto.
  - apply NoDup_children. now apply (NoDup_member F).
  - apply eid_in_ids.
Qed.

Lemma root_is_no_child F (R R' c : _Element) :
  NoDup (forest_ids F) -> In R F -> In R' F -> In c (children R) ->
  eid R' <> eid c.
Proof.
  intros Hnd HR HR' Hc E.
  pose proof (child_id_in_root R c (eid c) Hc (eid_in_ids c)) as H1.
  assert (H2 : In (eid c) (ids R')) by (rewrite <- E; apply eid_in_ids).
  pose proof (members_disjoint F R R' (eid c) Hnd HR HR' H1 H2). subst R'.
  pose proof (NoDup_member F R Hnd HR) as N. rewrite ids_unfold in N.
  inversion N as [|x l Hn _]. subst. apply Hn. rewrite E.
  apply in_forest_ids. exists c. split; [exact Hc|apply eid_in_ids].
Qed.

Lemma prune_ids_incl x (R : _Element) i : In i (ids (prune x R)) -> In i (ids R).
Proof.
  rewrite prune_unfold, ids_set_children, ids_unfold. intros [H|H]; [now left|right].
  now apply (prune_list_ids_incl x).
Qed.

Section ImportedChildren.
Variables (r0 me0 : _Element) (pre0 post0 : list _Element).
Local Abbreviation cn := (canon r0 me0 pre0 post0).
Variable n0 : nat.
Variable D : list _Element.
Hypothesis root_old : eid r0 < n0.
Hypothesis container_old : eid me0 < n0.
Hypothesis own_old : forall d, In d D -> Forall (fun i => i < n0) (ids d).
Hypothesis own_not_root : forall d, In d D -> eid d <> eid r0.

(** The second loop of [_xml_set_children], for elements that are
    children of the roots of imported files: each leaves its root and
    becomes the last child of the container. *)
Lemma insert_imported_loop (IE : list _Element) :
  forall k CS h,
    heap_wf h -> In (cn CS) (trees h) -> length CS <= k ->
    NoDup (map eid IE) -> Forall (fun c => n0 <= eid c) IE ->
    (forall c, In c IE ->
               exists R, In R (trees h) /\ eid R <> eid r0 /\ In c (children R)) ->
    (forall d, In d D -> In d (trees h)) ->
    exists h',
      for_each (combine (seq k (length (map eid IE))) (map eid IE))
        (fun inew => el_insert (eid me0) (fst inew) (snd inew)) h
      = Return (tt, h') /\
      heap_wf h' /\ In (cn (CS ++ IE)) (trees h') /\
      (forall d, In d D -> In d (trees h')).
Proof.
  induction IE as [|c IE IH]; intros k CS h Hwf Hin Hlen Hnd Hnew Hroots HD.
  - exists h. split; [reflexivity|]. now rewrite app_nil_r.
  - destruct (Hroots c (or_introl eq_refl)) as [R [HR [HRr Hc]]].
    assert (Lc : lookup (trees h) (eid c) = Some c).
    { apply lookup_member; [apply Hwf|]. apply (child_in_forest (trees h) R c); [|exact Hc].
      apply in_forest_nodes. exists R. split; [exact HR|apply nodes_self]. }
    assert (H1 := el_insert_step (eid me0) k (eid c) h c Lc).
    destruct (preserves_el_insert _ _ _ _ _ _ Hwf H1) as [Hwf1 _].
    assert (Hndc : NoDup (ids (cn CS))).
    { apply (NoDup_member (trees h)); [apply Hwf|exact Hin]. }
    destruct (canon_facts r0 me0 pre0 post0 _ Hndc) as [C1 [C2 [C3 _]]].
    assert (Hout : ~ In (eid c) (ids (cn CS))).
    { intro Hx.
      apply (other_tree_apart r0 me0 pre0 post0 h CS R (eid c) Hwf Hin HR HRr Hx).
      apply (child_id_in_root R c); [exact Hc|apply eid_in_ids]. }
    inversion Hnd as [|x l Hcnot Hnd']. subst.
    inversion Hnew as [|x l Hcnew Hnew']. subst.
    destruct (IH (S k) (CS ++ [c]) _ Hwf1) as [h' [R' [Hwf' [Hin' HD']]]].
    + cbn [trees]. unfold forest_prune.
      rewrite <- (list_insert_end k c CS Hlen).
      rewrite <- (modify_canon_container r0 me0 pre0 post0 k c CS C1 C2 C3).
      apply member_modify.
      rewrite <- (prune_notin (eid c) (cn CS) Hout).
      apply member_prune; [exact Hin|]. rewrite eid_canon. lia.
    + rewrite length_app. cbn [length]. lia.
    + exact Hnd'.
    + exact Hnew'.
    + intros c' Hc'. destruct (Hroots c' (or_intror Hc')) as [Q [HQ [HQr HcQ]]].
      assert (Hne : eid c <> eid c').
      { intro E. apply Hcnot. rewrite E. now apply in_map. }
      exists (prune (eid c) Q). split; [|split].
      * cbn [trees]. unfold forest_prune. apply member_modify_notin.
        -- apply member_prune; [exact HQ|].
           apply (root_is_no_child (trees h) R Q c (proj1 Hwf) HR HQ Hc).
        -- intro Hi. apply prune_ids_incl in Hi.
           apply (other_tree_apart r0 me0 pre0 post0 h CS Q (eid me0) Hwf Hin HQ HQr);
             [apply container_id_in_canon|exact Hi].
      * now rewrite eid_prune.
      * rewrite prune_unfold, children_set_children.
        rewrite <- (prune_notin (eid c) c').
        -- apply member_prune; [exact HcQ|congruence].
        -- apply (child_id_apart (trees h) R Q c c' (proj1 Hwf) HR HQ Hc HcQ Hne).
    + intros d Hd. cbn [trees]. unfold forest_prune.
      pose proof (own_old d Hd) as Hold. rewrite Forall_forall in Hold.
      assert (Hod : ~ In (eid c) (ids d)).
      { intro Hi. apply Hold in Hi. lia. }
      apply member_modify_notin.
      * rewrite <- (prune_notin (eid c) d Hod). apply member_prune; [now apply HD|].
        intro E. apply Hod. rewrite <- E. apply eid_in_ids.
      * apply (other_tree_apart r0 me0 pre0 post0 h CS d (eid me0) Hwf Hin (HD d Hd)
                 (own_not_root d Hd)).
        apply container_id_in_canon.
    + exists h'. split; [|split; [exact Hwf'|split; [|exact HD']]].
      * cbn [map length seq combine for_each fst snd].
        now rewrite (bindM_step _ _ _ _ _ H1).
      * rewrite <- app_assoc in Hin'. exact Hin'.
Qed.

(** [_xml_set_children] on the container, with the definitions of the
    imported files and then the document's own. *)
Lemma xml_set_children_imported (IE Rs : list _Element) CS h :
  heap_wf h -> In (cn CS) (trees h) ->
  NoDup (map eid IE) -> Forall (fun c => n0 <= eid c) IE ->
  (forall R, In R Rs -> In R (trees h) /\ eid R <> eid r0) ->
  (forall c, In c IE -> exists R, In R Rs /\ In c (children R)) ->
  incl D CS -> NoDup (map eid D) ->
  exists h',
    _xml_set_children (eid me0) (map eid IE ++ map eid D) h = Return (tt, h') /\
    heap_wf h' /\ In (cn (IE ++ D)) (trees h').
Proof.
  intros Hwf Hin Hnd Hnew HRs Hch Hincl HndD. unfold _xml_set_children.
  rewrite (bindM_step _ _ _ _ _
             (deref_step _ _ _ (lookup_canon_container r0 me0 pre0 post0 h CS Hwf Hin))).
  rewrite children_set_children.
  destruct (remove_children_loop r0 me0 pre0 post0 CS Rs h Hwf Hin HRs)
    as [h1 [R1 [Hwf1 [Hin1 [Hall P1]]]]].
  rewrite (bindM_step _ _ _ _ _ R1).
  destruct (insert_imported_loop IE 0 [] h1 Hwf1 Hin1) as [h2 [R2 [Hwf2 [Hin2 HD2]]]];
    [cbn [length]; lia|exact Hnd|exact Hnew| | |].
  { intros c Hc. destruct (Hch c Hc) as [R [HR HcR]]. exists R.
    destruct (Hall R) as [A B]; [apply in_or_app; now left|]. now split. }
  { intros d Hd. apply Hall. apply in_or_app. right. now apply Hincl. }
  cbn [app] in Hin2.
  destruct (insert_own_loop r0 me0 pre0 post0 D (0 + length (map eid IE)) IE h2 Hwf2 Hin2)
    as [h3 [R3 [Hwf3 Hin3]]]; [rewrite length_map; lia| |exact HndD|].
  { intros d Hd. split; [now apply HD2|now apply own_not_root]. }
  exists h3. split; [|split; [exact Hwf3|exact Hin3]].
  rewrite combine_seq_app, (for_each_app_step _ _ _ _ _ R2). exact R3.
Qed.

End ImportedChildren.

(* ================================================================== *)
(** * What the imports bring into the document *)
(* ================================================================== *)

Lemma has_tag_erase t (c : _Element) : has_tag t (erase c) = has_tag t c.
Proof. unfold has_tag. now rewrite tag_erase. Qed.

Lemma erase_typed (c : _Element) : erase (typed c) = typed (erase c).
Proof.
  destruct c as [i tg at_ tx tl cs]. unfold typed, get_attr. cbn [erase attrib].
  now destruct (dict_get String.eqb at_ "type").
Qed.

Lemma erase_shortcut tg (c : _Element) : erase (shortcut tg c) = shortcut tg (erase c).
Proof. now destruct c. Qed.

Lemma erase_normalise_step t fx (c : _Element) :
  (forall e, erase (fx e) = fx (erase e)) ->
  erase (normalise_step t fx c) = normalise_step t fx (erase c).
Proof.
  intro H. unfold normalise_step. rewrite has_tag_erase.
  now destruct (has_tag t c).
Qed.

Lemma erase_normalise (c : _Element) : erase (normalise c) = normalise (erase c).
Proof.
  unfold normalise.
  rewrite !erase_normalise_step; try reflexivity;
    try (intro; apply erase_shortcut).
  apply erase_typed.
Qed.

Lemma filter_tag_erase t (l : list _Element) :
  map erase (filter (has_tag t) l) = filter (has_tag t) (map erase l).
Proof.
  induction l as [|c l IH]; [reflexivity|]. cbn [filter map].
  rewrite has_tag_erase. destruct (has_tag t c); cbn [map]; now rewrite IH.
Qed.

Lemma embedded_erase (l : list _Element) :
  map erase (embedded l) = embedded (map erase l).
Proof. unfold embedded. now rewrite !map_app, !filter_tag_erase. Qed.

(** The definitions of a file, normalised and without their identities,
    are read off the file without its identities. *)
Lemma definitions_erase (a : _Element) :
  map erase (map normalise (embedded (children a)))
  = map normalise (embedded (children (erase a))).
Proof.
  rewrite children_erase, <- embedded_erase, !map_map.
  apply map_ext. intro c. apply erase_normalise.
Qed.

Lemma flat_definitions_erase (F G : list _Element) :
  map erase F = map erase G ->
  map erase (flat_map (fun m => map normalise (embedded (children m))) F)
  = flat_map (fun m => map erase (map normalise (embedded (children m)))) G.
Proof.
  revert G. induction F as [|a F IH]; intros [|b G] H; try discriminate; [reflexivity|].
  cbn [map] in H. inversion H as [[Hab HFG]].
  cbn [flat_map]. rewrite map_app, (IH G HFG). f_equal.
  now rewrite !definitions_erase, Hab.
Qed.

Lemma eid_flat_definitions (F : list _Element) :
  map eid (flat_map (fun m => map normalise (embedded (children m))) F)
  = flat_map (fun m => map eid (embedded (children m))) F.
Proof.
  induction F as [|a F IH]; [reflexivity|].
  cbn [flat_map]. rewrite map_app, IH. f_equal.
  rewrite map_map. apply map_ext. intro c. apply eid_normalise.
Qed.

Lemma NoDup_flat_map_ids (f : _Element -> list nat) (F : list _Element) :
  NoDup (forest_ids F) ->
  (forall m, In m F -> NoDup (f m) /\ incl (f m) (ids m)) ->
  NoDup (flat_map f F).
Proof.
  induction F as [|m F IH]; intros Hnd Hf; [constructor|].
  rewrite forest_ids_cons in Hnd. cbn [flat_map].
  destruct (Hf m (or_introl eq_refl)) as [Hm Hincl].
  apply NoDup_app_intro; [exact Hm| |].
  - apply IH; [now apply NoDup_app_r in Hnd|]. intros m' Hm'. apply Hf. now right.
  - intros x Hx Hy. apply in_flat_map in Hy. destruct Hy as [m' [Hm' Hxm']].
    apply (NoDup_app_disjoint _ _ x Hnd (Hincl x Hx)).
    apply (member_ids_incl m' F Hm'). apply (proj2 (Hf m' (or_intror Hm'))). exact Hxm'.
Qed.

(** X25: a document whose macro container imports files that can all be
    read and that import nothing themselves.  [_import_macros] returns
    the resolved paths of the files, in the order of the imports.  The
    container then has for children, first, the definitions of the
    imported files, file after file, each file giving its definitions
    normalised and in the order macro, template, xml, token; they are
    new objects, and apart from their identities they are what the files
    hold.  The definitions of the document itself follow.  The other
    children that the container had, the imports among them, are gone. *)
Theorem import_macros_flat (parse_xml : string -> bool -> option _Element)
    (fuel : nat) (path : string) (h0 : heap) (r0 me0 : _Element)
    (files : list (string * _Element)) :
  heap_wf h0 -> In r0 (trees h0) -> _macros_el r0 = Some me0 ->
  flat_files parse_xml (OsPath.dirname path)
    (_imported_macro_paths_from_el (Some me0)) = Some files ->
  exists h1 r1 imported,
    _import_macros parse_xml (S (S fuel)) (eid r0) path h0
    = Return (Some (map fst files), h1) /\
    heap_wf h1 /\
    lookup (trees h1) (eid r0) = Some r1 /\
    _macros_el r1
    = Some (set_children (imported ++ map normalise (embedded (children me0))) me0) /\
    Forall (fun e => next_id h0 <= eid e) imported /\
    map erase imported
    = flat_map (fun f => map erase (map normalise (embedded (children (snd f)))))
        files.
Proof.
  intros Hwf Hr0 Hme Hf.
  pose proof Hme as Hme'. unfold _macros_el, find_child in Hme'.
  apply find_split in Hme'.
  destruct Hme' as [pre0 [post0 [Hshape [Htag Hpre]]]].
  assert (Hcanon := canon_same r0 me0 pre0 post0 Hshape).
  assert (Hnd : NoDup (ids (canon r0 me0 pre0 post0 (children me0)))).
  { rewrite Hcanon. apply (NoDup_member (trees h0)); [apply Hwf|exact Hr0]. }
  destruct (canon_facts r0 me0 pre0 post0 _ Hnd) as [C1 [C2 [C3 [C4 C5]]]].
  assert (Hold : Forall (fun i => i < next_id h0) (ids r0)).
  { apply Forall_forall. intros i Hi. destruct Hwf as [_ Hlt].
    rewrite Forall_forall in Hlt. apply Hlt.
    apply (member_ids_incl r0 (trees h0) Hr0 i Hi). }
  rewrite <- Hcanon, ids_canon in Hold.
  inversion Hold as [|x l Hroot_old Hold1]. subst.
  apply Forall_app in Hold1. destruct Hold1 as [Hpre_old Hold2].
  inversion Hold2 as [|x l Hm_old Hold3]. subst.
  apply Forall_app in Hold3. destruct Hold3 as [Hcs_old Hpost_old].
  assert (Lme : lookup (trees h0) (eid me0) = Some me0).
  { apply lookup_member; [apply Hwf|]. apply in_forest_nodes. exists r0.
    split; [exact Hr0|]. rewrite nodes_children. right.
    apply in_forest_nodes. exists me0. split; [|apply nodes_self].
    rewrite Hshape. apply in_or_app. right. now left. }
  assert (Hemb : forall c, In c (embedded (children me0)) ->
                           In (eid c) (forest_ids (children me0)) /\
                           incl (ids c) (forest_ids (children me0))).
  { intros c Hc. apply embedded_in in Hc. split.
    - apply in_forest_ids. exists c. split; [exact Hc|apply eid_in_ids].
    - now apply member_ids_incl. }
  (* the imported files *)
  destruct (load_flat_loop parse_xml fuel (OsPath.dirname path) _ files [] [] h0 Hwf Hf)
    as [RA HwfA].
  cbn [app] in RA.
  destruct (relabel_forest_spec (map snd files) (next_id h0)) as [_ [G2 G3]].
  remember (fst (relabel_forest (map snd files) (next_id h0))) as ms eqn:Ems.
  remember (snd (relabel_forest (map snd files) (next_id h0))) as nA eqn:EnA.
  clear Ems EnA.
  assert (Hms_new : forall m i, In m ms -> In i (ids m) -> next_id h0 <= i).
  { intros m i Hm Hi. pose proof (member_ids_incl m ms Hm i Hi) as H.
    rewrite G2 in H. apply in_seq in H. lia. }
  assert (Hms_nd : NoDup (forest_ids ms)) by (rewrite G2; apply seq_NoDup).
  pose (L := fun m : _Element => set_children (map normalise (children m)) m).
  pose (hA := Heap (trees h0 ++ map L ms) nA).
  assert (HinA : In (canon r0 me0 pre0 post0 (children me0)) (trees hA)).
  { rewrite Hcanon. cbn [hA trees]. apply in_or_app. now left. }
  destruct (embedded_effect r0 me0 pre0 post0 (OsPath.dirname path) hA
              (children me0) HwfA HinA) as [hB [RB [HwfB [HinB PB]]]].
  assert (Hids_L : forall m, ids (L m) = ids m).
  { intro m. unfold L.
    rewrite ids_set_children, (forest_ids_map_same normalise), <- ids_unfold;
      [reflexivity|apply ids_normalise]. }
  assert (HRs : forall R, In R (map L ms) -> In R (trees hB) /\ eid R <> eid r0).
  { intros R HR. apply in_map_iff in HR. destruct HR as [m [<- Hm]]. split.
    - apply (embedded_keeps_root (L m) (eid me0) (OsPath.dirname path) hA
               (map eid (embedded (children me0))) hB);
        [| |exact RB].
      + cbn [hA trees]. apply in_or_app. right. now apply in_map.
      + intros x Hx Hi. rewrite Hids_L in Hi. apply (Hms_new m x Hm) in Hi.
        apply in_map_iff in Hx. destruct Hx as [c [<- Hc]].
        destruct (Hemb c Hc) as [Hc1 _].
        rewrite Forall_forall in Hcs_old. apply Hcs_old in Hc1. lia.
    - unfold L. rewrite eid_set_children.
      pose proof (Hms_new m (eid m) Hm (eid_in_ids m)). lia. }
  pose (IE := flat_map (fun m => map normalise (embedded (children m))) ms).
  destruct (xml_set_children_imported r0 me0 pre0 post0 (next_id h0)
              (map normalise (embedded (children me0))) Hroot_old Hm_old) with
    (IE := IE) (Rs := map L ms) (CS := map normalise (children me0)) (h := hB)
    as [h1 [RC [Hwf1 Hin1]]]; auto.
  - intros d Hd. apply in_map_iff in Hd. destruct Hd as [c [<- Hc]].
    rewrite ids_normalise. apply Forall_forall. intros i Hi.
    rewrite Forall_forall in Hcs_old. apply Hcs_old.
    now apply (proj2 (Hemb c Hc)).
  - intros d Hd. apply in_map_iff in Hd. destruct Hd as [c [<- Hc]].
    rewrite eid_normalise. apply (C5 (eid c)). apply (proj1 (Hemb c Hc)).
  - unfold IE. rewrite eid_flat_definitions.
    apply NoDup_flat_map_ids; [exact Hms_nd|]. intros m Hm. split.
    + apply NoDup_embedded. apply NoDup_roots. apply NoDup_children.
      now apply (NoDup_member ms).
    + intros x Hx. apply in_map_iff in Hx. destruct Hx as [c [<- Hc]].
      apply (child_id_in_root m c); [now apply embedded_in|apply eid_in_ids].
  - apply Forall_forall. intros c Hc. unfold IE in Hc.
    apply in_flat_map in Hc. destruct Hc as [m [Hm Hc]].
    apply in_map_iff in Hc. destruct Hc as [c0 [<- Hc0]].
    rewrite eid_normalise. apply (Hms_new m (eid c0) Hm).
    apply (child_id_in_root m c0); [now apply embedded_in|apply eid_in_ids].
  - intros c Hc. unfold IE in Hc.
    apply in_flat_map in Hc. destruct Hc as [m [Hm Hc]].
    apply in_map_iff in Hc. destruct Hc as [c0 [<- Hc0]].
    exists (L m). split; [now apply in_map|].
    unfold L. rewrite children_set_children. apply in_map. now apply embedded_in.
  - intros d Hd. apply in_map_iff in Hd. destruct Hd as [c [<- Hc]].
    apply in_map. now apply embedded_in.
  - rewrite map_map. rewrite (map_ext _ eid eid_normalise).
    apply NoDup_embedded. now apply NoDup_roots.
  - rewrite map_map, (map_ext _ eid eid_normalise) in RC.
    unfold IE in RC. rewrite eid_flat_definitions in RC. fold IE in Hin1.
    exists h1,
      (canon r0 me0 pre0 post0 (IE ++ map normalise (embedded (children me0)))), IE.
    split; [|split; [exact Hwf1|split; [|split; [|split]]]].
    + unfold _import_macros.
      rewrite (bindM_step _ _ _ _ _
                 (deref_step _ _ _ (lookup_root (trees h0) r0 (proj1 Hwf) Hr0))).
      rewrite Hme.
      assert (RL : _load_macros parse_xml (S (S fuel)) (Some (eid me0))
                     (OsPath.dirname path) h0
                   = Return ((flat_map (fun m => map eid (embedded (children m))) ms
                              ++ map eid (embedded (children me0)), map fst files), hB)).
      { cbn [_load_macros]. unfold _load_imported_macros. rewrite !bindM_assoc.
        rewrite (bindM_step _ _ _ _ _ (deref_step _ _ _ Lme)).
        unfold ret at 1. unfold bindM at 1.
        rewrite (bindM_step _ _ _ _ _ RA). cbn [fst snd].
        fold L. fold hA.
        now rewrite (bindM_step _ _ _ _ _ RB). }
      rewrite (bindM_step _ _ _ _ _ RL). cbn [fst snd].
      now rewrite (bindM_step _ _ _ _ _ RC).
    + rewrite <- (eid_canon r0 me0 pre0 post0
                    (IE ++ map normalise (embedded (children me0)))).
      apply lookup_root; [apply Hwf1|exact Hin1].
    + unfold _macros_el. now apply find_child_canon.
    + apply Forall_forall. intros c Hc. unfold IE in Hc.
      apply in_flat_map in Hc. destruct Hc as [m [Hm Hc]].
      apply in_map_iff in Hc. destruct Hc as [c0 [<- Hc0]].
      rewrite eid_normalise. apply (Hms_new m (eid c0) Hm).
      apply (child_id_in_root m c0); [now apply embedded_in|apply eid_in_ids].
    + unfold IE. rewrite (flat_definitions_erase ms (map snd files) G3).
      now rewrite flat_map_concat_map, map_map, <- flat_map_concat_map.
Qed.

Lemma import_macros_flat_witness :
  exists h1 r1 imported,
    _import_macros
      (fun (p : string) (_ : bool) =>
         if String.eqb p "a.xml"
         then Some (Element 0 "macros" [] None None
                      [Element 0 "token" [("name", "@A@")] (Some "x") None [];
                       Element 0 "xml" [("name", "m")] None None
                         [Element 0 "p" [] None None []]])
         else if String.eqb p "b.xml"
         then Some (Element 0 "macros" [] None None
                      [Element 0 "note" [] None None [];
                       Element 0 "macro" [("name", "n")] None None []])
         else None)
      2
      (eid (Element 0 "tool" [] None None
              [Element 1 "macros" [] None None
                 [Element 2 "import" [] (Some "a.xml") None [];
                  Element 3 "import" [] (Some "b.xml") None [];
                  Element 4 "template" [("name", "t")] (Some "txt") None []]]))
      "tool.xml"
      (Heap [Element 0 "tool" [] None None
               [Element 1 "macros" [] None None
                  [Element 2 "import" [] (Some "a.xml") None [];
                   Element 3 "import" [] (Some "b.xml") None [];
                   Element 4 "template" [("name", "t")] (Some "txt") None []]]] 5)
    = Return (Some (map fst
                      [("a.xml",
                        Element 0 "macros" [] None None
                          [Element 0 "token" [("name", "@A@")] (Some "x") None [];
                           Element 0 "xml" [("name", "m")] None None
                             [Element 0 "p" [] None None []]]);
                       ("b.xml",
                        Element 0 "macros" [] None None
                          [Element 0 "note" [] None None [];
                           Element 0 "macro" [("name", "n")] None None []])]), h1) /\
    heap_wf h1 /\
    lookup (trees h1)
      (eid (Element 0 "tool" [] None None
              [Element 1 "macros" [] None None
                 [Element 2 "import" [] (Some "a.xml") None [];
                  Element 3 "import" [] (Some "b.xml") None [];
                  Element 4 "template" [("name", "t")] (Some "txt") None []]]))
    = Some r1 /\
    _macros_el r1
    = Some (set_children
              (imported ++
               map normalise
                 (embedded
                    (children
                       (Element 1 "macros" [] None None
                          [Element 2 "import" [] (Some "a.xml") None [];
                           Element 3 "import" [] (Some "b.xml") None [];
                           Element 4 "template" [("name", "t")] (Some "txt") None []]))))
              (Element 1 "macros" [] None None
                 [Element 2 "import" [] (Some "a.xml") None [];
                  Element 3 "import" [] (Some "b.xml") None [];
                  Element 4 "template" [("name", "t")] (Some "txt") None []])) /\
    Forall (fun e => next_id
                       (Heap [Element 0 "tool" [] None None
                                [Element 1 "macros" [] None None
                                   [Element 2 "import" [] (Some "a.xml") None [];
                                    Element 3 "import" [] (Some "b.xml") None [];
                                    Element 4 "template" [("name", "t")] (Some "txt")
                                      None []]]] 5) <= eid e) imported /\
    map erase imported
    = flat_map (fun f => map erase (map normalise (embedded (children (snd f)))))
        [("a.xml",
          Element 0 "macros" [] None None
            [Element 0 "token" [("name", "@A@")] (Some "x") None [];
             Element 0 "xml" [("name", "m")] None None
               [Element 0 "p" [] None None []]]);
         ("b.xml",
          Element 0 "macros" [] None None
            [Element 0 "note" [] None None [];
             Element 0 "macro" [("name", "n")] None None []])].
Proof.
  apply (import_macros_flat
           (fun (p : string) (_ : bool) =>
              if String.eqb p "a.xml"
              then Some (Element 0 "macros" [] None None
                           [Element 0 "token" [("name", "@A@")] (Some "x") None [];
                            Element 0 "xml" [("name", "m")] None None
                              [Element 0 "p" [] None None []]])
              else if String.eqb p "b.xml"
              then Some (Element 0 "macros" [] None None
                           [Element 0 "note" [] None None [];
                            Element 0 "macro" [("name", "n")] None None []])
              else None)
           0 "tool.xml"
           (Heap [Element 0 "tool" [] None None
                    [Element 1 "macros" [] None None
                       [Element 2 "import" [] (Some "a.xml") None [];
                        Element 3 "import" [] (Some "b.xml") None [];
                        Element 4 "template" [("name", "t")] (Some "txt") None []]]] 5)
           (Element 0 "tool" [] None None
              [Element 1 "macros" [] None None
                 [Element 2 "import" [] (Some "a.xml") None [];
                  Element 3 "import" [] (Some "b.xml") None [];
                  Element 4 "template" [("name", "t")] (Some "txt") None []]])
           (Element 1 "macros" [] None None
              [Element 2 "import" [] (Some "a.xml") None [];
               Element 3 "import" [] (Some "b.xml") None [];
               Element 4 "template" [("name", "t")] (Some "txt") None []])
           [("a.xml",
             Element 0 "macros" [] None None
               [Element 0 "token" [("name", "@A@")] (Some "x") None [];
                Element 0 "xml" [("name", "m")] None None
                  [Element 0 "p" [] None None []]]);
            ("b.xml",
             Element 0 "macros" [] None None
               [Element 0 "note" [] None None [];
                Element 0 "macro" [("name", "n")] None None []])]).
  - split; simpl.
    + repeat constructor; simpl; intuition discriminate.
    + repeat constructor.
  - now left.
  - reflexivity.
  - vm_compute. reflexivity.
Defined.

(** The run of the witness, in full: the definitions of [a.xml], those
    of [b.xml], then the document's own; the roots of the two files and
    the two imports are left as trees of their own. *)
Example flat_imports_run :
  _import_macros
    (fun (p : string) (_ : bool) =>
       if String.eqb p "a.xml"
       then Some (Element 0 "macros" [] None None
                    [Element 0 "token" [("name", "@A@")] (Some "x") None [];
                     Element 0 "xml" [("name", "m")] None None
                       [Element 0 "p" [] None None []]])
       else if String.eqb p "b.xml"
       then Some (Element 0 "macros" [] None None
                    [Element 0 "note" [] None None [];
                     Element 0 "macro" [("name", "n")] None None []])
       else None)
    2 0 "tool.xml"
    (Heap [Element 0 "tool" [] None None
             [Element 1 "macros" [] None None
                [Element 2 "import" [] (Some "a.xml") None [];
                 Element 3 "import" [] (Some "b.xml") None [];
                 Element 4 "template" [("name", "t")] (Some "txt") None []]]] 5)
  = Return (Some ["a.xml"; "b.xml"],
            Heap [Element 0 "tool" [] None None
                    [Element 1 "macros" [] None None
                       [Element 7 "macro" [("name", "m"); ("type", "xml")] None None
                          [Element 8 "p" [] None None []];
                        Element 6 "macro" [("name", "@A@"); ("type", "token")]
                          (Some "x") None [];
                        Element 11 "macro" [("name", "n"); ("type", "xml")] None None [];
                        Element 4 "macro" [("name", "t"); ("type", "template")]
                          (Some "txt") None []]];
                  Element 5 "macros" [] None None [];
                  Element 9 "macros" [] None None [Element 10 "note" [] None None []];
                  Element 2 "import" [] (Some "a.xml") None [];
                  Element 3 "import" [] (Some "b.xml") None []] 12).
Proof. vm_compute. reflexivity. Qed.
